(** * TOON converter: a shallow embedding of [ToonConverter] (lib/toon.ts)

    The development follows the source file top-down: the string
    primitives of the JavaScript runtime that the converter calls, the
    numeric conversions, the token dictionary, the encoder [jsonToToon]
    and the two-pass decoder [toonToJson].  The state and the handlers of
    the page that calls the converter (pages/converter.tsx) come last.

    Modelling conventions.
    - A JavaScript string is a [string]: one [ascii] per code unit, so the
      model covers the code units U+0000 to U+00FF.
    - The plain objects [keyToToken] and [tokenToKey] are finite maps over
      their own properties ([gmap string string]); a property read goes on
      to [Object.prototype] when the object has no own property of that
      name ([get_property]).
    - [nextTokenId] is a mathematical integer: the model follows the
      source while the counter and the numeric tokens stay within the
      safe integers, where the arithmetic of the runtime is exact
      ([safe_counter]).  A JSON number is kept as an exact decimal
      [m * 10^e]; rounding to binary64 is not modelled, so a number of
      the model stands for a Number value only when it is one.
    - [JSON_parse] reads the escapes up to [\u00ff]; an escape beyond has
      no code unit in the model, so what the model says of a text that
      [JSON.parse] rejects is said of texts without backslash.
    - An object under construction is the list of its entries, written
      by [obj_set], which creates every name; [result[key] = ...] of the
      source creates every name but [__proto__] ([plain_key],
      [no_proto_key]).
    - [process] and [convertNode] call themselves once for each level of
      nesting.  [process], [jsonToToon], [convertNode] and [toonToJson]
      are the program on a call stack that is deep enough; [process_in],
      [jsonToToon_in], [convertRoot_in] and [toonToJson_in] take the room
      left on the stack as a parameter and end in the [RangeError] of the
      runtime when it is used up. *)

From Stdlib Require Import ZArith Lia Ascii String ZifyBool.
From Stdlib Require Import DecimalString DecimalZ DecimalN DecimalPos.
From stdpp Require Import gmap strings list.

Set Warnings "-register-all".

#[local] Arguments String.append : simpl nomatch.

Local Open Scope string_scope.
Local Open Scope Z_scope.

(** ** Runtime string primitives *)

Module JsString.

Definition LF : ascii := ascii_of_nat 10.

(** The quotation mark, U+0022. *)
Definition DQUOTE : ascii := ascii_of_nat 34.

(** [WhiteSpace] and [LineTerminator] code units below U+0100: the set
    removed by [String.prototype.trim] and matched by the class [\s]. *)
Definition isWhiteSpace (c : ascii) : bool :=
  let n := nat_of_ascii c in
  ((9 <=? n)%nat && (n <=? 13)%nat) || (n =? 32)%nat || (n =? 160)%nat.

Fixpoint trimStart (s : string) : string :=
  match s with
  | String c s' => if isWhiteSpace c then trimStart s' else s
  | EmptyString => EmptyString
  end.

Fixpoint trimEnd (s : string) : string :=
  match s with
  | EmptyString => EmptyString
  | String c s' =>
      match trimEnd s' with
      | EmptyString => if isWhiteSpace c then EmptyString else String c EmptyString
      | r => String c r
      end
  end.

(** [s.trim()] *)
Definition trim (s : string) : string := trimEnd (trimStart s).

(** [s.split('\n')] *)
Fixpoint split_lines (s : string) : list string :=
  match s with
  | EmptyString => [EmptyString]
  | String c s' =>
      if Ascii.eqb c LF then EmptyString :: split_lines s'
      else match split_lines s' with
           | l :: ls => String c l :: ls
           | [] => [String c EmptyString]
           end
  end.

(** [ls.join('\n')] *)
Fixpoint join_lines (ls : list string) : string :=
  match ls with
  | [] => EmptyString
  | [l] => l
  | l :: ls' => l ++ String LF (join_lines ls')
  end.

Fixpoint search_from (i : Z) (s : string) : Z :=
  match s with
  | EmptyString => -1
  | String c s' => if isWhiteSpace c then search_from (i + 1) s' else i
  end.

(** [s.search(/\S/)]: index of the first non-blank code unit, else -1. *)
Definition search_nonspace (s : string) : Z := search_from 0 s.

(** [s.startsWith(c)] for a one-character needle. *)
Definition startsWith (c : ascii) (s : string) : bool :=
  match s with
  | String c' _ => Ascii.eqb c' c
  | EmptyString => false
  end.

(** [s.indexOf(c)] for a one-character needle; [None] stands for -1. *)
Fixpoint indexOf (c : ascii) (s : string) : option nat :=
  match s with
  | EmptyString => None
  | String c' s' => if Ascii.eqb c' c then Some O else S <$> indexOf c s'
  end.

(** [s.substring(0, n)] *)
Fixpoint substring_to (n : nat) (s : string) : string :=
  match n, s with
  | S n', String c s' => String c (substring_to n' s')
  | _, _ => EmptyString
  end.

(** [s.substring(n)] *)
Fixpoint substring_from (n : nat) (s : string) : string :=
  match n, s with
  | S n', String _ s' => substring_from n' s'
  | _, _ => s
  end.

(** [s.repeat(n)] *)
Fixpoint repeat (s : string) (n : nat) : string :=
  match n with
  | O => EmptyString
  | S n' => s ++ repeat s n'
  end.

(** [s.padStart(2, '0')] *)
Definition padStart2 (s : string) : string :=
  repeat "0" (2 - String.length s) ++ s.

End JsString.

(** ** Runtime numeric conversions *)

Module JsNumber.
Import JsString.

Definition digit_of (c : ascii) : option Z :=
  let n := nat_of_ascii c in
  if ((48 <=? n)%nat && (n <=? 57)%nat) then Some (Z.of_nat n - 48) else None.

Definition hex_digit_of (c : ascii) : option Z :=
  let n := nat_of_ascii c in
  if ((48 <=? n)%nat && (n <=? 57)%nat) then Some (Z.of_nat n - 48)
  else if ((65 <=? n)%nat && (n <=? 70)%nat) then Some (Z.of_nat n - 55)
  else if ((97 <=? n)%nat && (n <=? 102)%nat) then Some (Z.of_nat n - 87)
  else None.

(** The longest prefix of digits of a string, as digit values, and the
    rest of the string. *)
Fixpoint span_digits (s : string) : list Z * string :=
  match s with
  | EmptyString => ([], s)
  | String c s' =>
      match digit_of c with
      | Some d => let '(ds, r) := span_digits s' in (d :: ds, r)
      | None => ([], s)
      end
  end.

(** Horner evaluation in base [b]. *)
Definition horner (b : Z) (ds : list Z) : Z :=
  fold_left (fun acc d => b * acc + d) ds 0.

(** [parseInt(s, 10)]; [None] stands for NaN. *)
Definition parseInt10 (s : string) : option Z :=
  let s1 := trimStart s in
  let '(neg, s2) :=
    match s1 with
    | String c r =>
        if Ascii.eqb c "-" then (true, r)
        else if Ascii.eqb c "+" then (false, r) else (false, s1)
    | EmptyString => (false, s1)
    end in
  match span_digits s2 with
  | ([], _) => None
  | (ds, _) => Some (if neg : bool then - horner 10 ds else horner 10 ds)
  end.

(** [n.toString()] for an integral [n]. *)
Definition Z_toString (n : Z) : string := NilZero.string_of_int (Z.to_int n).

(** A Number value.  [Finite m e] is the decimal [m * 10^e]; the
    canonical form of a number has [e = 0] when the number is an integer
    and a significand that is no multiple of ten otherwise. *)
Inductive jsnum : Type :=
| NaN
| Infinity (negative : bool)
| Finite (m e : Z).

Definition isNaN (n : jsnum) : bool :=
  match n with NaN => true | _ => false end.

Definition canonical (n : jsnum) : bool :=
  match n with
  | Finite m e => (e =? 0) || ((e <? 0) && negb (m mod 10 =? 0))
  | _ => true
  end.

Definition isFinite (n : jsnum) : bool :=
  match n with Finite _ _ => true | _ => false end.

Fixpoint strip_tens (k : nat) (m e : Z) : jsnum :=
  match k with
  | O => Finite m e
  | S k' => if m mod 10 =? 0 then strip_tens k' (m / 10) (e + 1) else Finite m e
  end.

(** The canonical form of [m * 10^e]. *)
Definition normalize (m e : Z) : jsnum :=
  if 0 <=? e then Finite (m * 10 ^ e) 0 else strip_tens (Z.to_nat (- e)) m e.

(** Digits of a non-negative integer, most significant first. *)
Definition digits_of (n : Z) : string := NilZero.string_of_uint (N.to_uint (Z.to_N n)).

Fixpoint strip_zeros_end (s : string) : string :=
  match s with
  | EmptyString => EmptyString
  | String c s' =>
      match strip_zeros_end s' with
      | EmptyString => if Ascii.eqb c "0" then EmptyString else String c EmptyString
      | r => String c r
      end
  end.

(** [Number::toString(x)] in radix 10. *)
Definition num_toString (x : jsnum) : string :=
  match x with
  | NaN => "NaN"
  | Infinity false => "Infinity"
  | Infinity true => "-Infinity"
  | Finite m e =>
      if m =? 0 then "0" else
      let sign := if m <? 0 then "-" else "" in
      let D := digits_of (Z.abs m) in
      let s := strip_zeros_end D in
      let k := Z.of_nat (String.length s) in
      let n := Z.of_nat (String.length D) + e in
      sign ++
      (if (k <=? n) && (n <=? 21) then s ++ repeat "0" (Z.to_nat (n - k))
       else if (0 <? n) && (n <=? 21) then
         substring_to (Z.to_nat n) s ++ "." ++ substring_from (Z.to_nat n) s
       else if (-6 <? n) && (n <=? 0) then
         "0." ++ repeat "0" (Z.to_nat (- n)) ++ s
       else
         let ex := (if n - 1 <? 0 then "-" else "+") ++ digits_of (Z.abs (n - 1)) in
         if k =? 1 then s ++ "e" ++ ex
         else substring_to 1 s ++ "." ++ substring_from 1 s ++ "e" ++ ex)
  end.

(** The digits of a whole string in base [b] ([None] unless every
    character is a digit and there is at least one). *)
Fixpoint all_digits (digit : ascii -> option Z) (s : string) : option (list Z) :=
  match s with
  | EmptyString => None
  | String c EmptyString => d ← digit c; Some [d]
  | String c s' => d ← digit c; ds ← all_digits digit s'; Some (d :: ds)
  end.

Definition radix_literal (b : Z) (digit : ascii -> option Z) (s : string) : jsnum :=
  match all_digits digit s with
  | Some ds => normalize (horner b ds) 0
  | None => NaN
  end.

Definition bin_digit_of (c : ascii) : option Z :=
  match digit_of c with Some d => if d <? 2 then Some d else None | None => None end.

Definition oct_digit_of (c : ascii) : option Z :=
  match digit_of c with Some d => if d <? 8 then Some d else None | None => None end.

(** An optional exponent part [e[+-]ddd] that must reach the end of the
    string: [Some 0] when absent, [None] when malformed. *)
Definition exponent_part (s : string) : option Z :=
  match s with
  | EmptyString => Some 0
  | String c r =>
      if Ascii.eqb c "e" || Ascii.eqb c "E" then
        let '(neg, r') :=
          match r with
          | String c' r'' =>
              if Ascii.eqb c' "-" then (true, r'')
              else if Ascii.eqb c' "+" then (false, r'') else (false, r)
          | EmptyString => (false, r)
          end in
        match span_digits r' with
        | (d :: ds, EmptyString) =>
            Some (if neg : bool then - horner 10 (d :: ds) else horner 10 (d :: ds))
        | _ => None
        end
      else None
  end.

(** [StrUnsignedDecimalLiteral], after the sign. *)
Definition decimal_literal (neg : bool) (s : string) : jsnum :=
  if String.eqb s "Infinity" then Infinity neg else
  let '(ip, r1) := span_digits s in
  let '(fp, r2) :=
    match r1 with
    | String c r => if Ascii.eqb c "." then span_digits r else ([], r1)
    | EmptyString => ([], r1)
    end in
  match (ip ++ fp)%list with
  | [] => NaN
  | ds =>
      match exponent_part r2 with
      | Some ex =>
          let m := horner 10 ds in
          normalize (if neg then - m else m) (ex - Z.of_nat (length fp))
      | None => NaN
      end
  end.

(** The prefix of a [NonDecimalIntegerLiteral]: its radix, its digits
    and the text after the prefix. *)
Definition radix_prefix (t : string) : option (Z * (ascii -> option Z) * string) :=
  match t with
  | String c1 (String c2 h) =>
      if Ascii.eqb c1 "0" then
        if Ascii.eqb c2 "x" || Ascii.eqb c2 "X" then Some (16, hex_digit_of, h)
        else if Ascii.eqb c2 "o" || Ascii.eqb c2 "O" then Some (8, oct_digit_of, h)
        else if Ascii.eqb c2 "b" || Ascii.eqb c2 "B" then Some (2, bin_digit_of, h)
        else None
      else None
  | _ => None
  end.

(** [Number(s)] on a string: the [StringToNumber] conversion. *)
Definition Number (s : string) : jsnum :=
  match trim s with
  | EmptyString => Finite 0 0
  | String c r as t =>
      if Ascii.eqb c "-" then decimal_literal true r
      else if Ascii.eqb c "+" then decimal_literal false r
      else
        match radix_prefix t with
        | Some (b, digit, h) => radix_literal b digit h
        | None => decimal_literal false t
        end
  end.

End JsNumber.

(** ** The token dictionary *)

Import JsString JsNumber.

(** [TokenMap]: the own enumerable entries of the object handed to the
    constructor, in enumeration order. *)
Definition TokenMap : Type := list (string * string).

Record ToonConverter : Type := mkConverter {
  keyToToken : gmap string string;
  tokenToKey : gmap string string;
  nextTokenId : Z
}.

(** Truthiness of a property read: [undefined] and [""] are falsy. *)
Definition truthy (v : option string) : bool :=
  match v with
  | Some s => negb (String.eqb s "")
  | None => false
  end.

(** *** Property reads and writes on a plain object

    [keyToToken] and [tokenToKey] are plain objects.  A read [obj[name]]
    that finds no own property goes on to [Object.prototype]; a write
    [obj[name] = v] makes or changes an own property, but for the name
    [__proto__], which reaches the setter of [Object.prototype] unless the
    object has an own property of that name. *)

(** The property names of [Object.prototype]. *)
Definition prototype_names : list string :=
  ["constructor"; "__defineGetter__"; "__defineSetter__"; "hasOwnProperty";
   "__lookupGetter__"; "__lookupSetter__"; "isPrototypeOf";
   "propertyIsEnumerable"; "toString"; "valueOf"; "__proto__";
   "toLocaleString"].

(** The member of [Object.prototype] of a name, as the string that a
    template literal or a property key makes of it: the source text of a
    built-in function, and for [__proto__] the text of [Object.prototype]
    itself.  Every member is truthy. *)
Definition prototype_member (name : string) : option string :=
  if String.eqb name "__proto__" then Some "[object Object]"
  else if String.eqb name "constructor" then Some "function Object() { [native code] }"
  else if bool_decide (name ∈ prototype_names)
       then Some ("function " ++ name ++ "() { [native code] }")
       else None.

(** [obj[name]] *)
Definition get_property (obj : gmap string string) (name : string) : option string :=
  match obj !! name with
  | Some v => Some v
  | None => prototype_member name
  end.

(** [obj[name] = v] for a string [v]: the setter of [__proto__] ignores
    it. *)
Definition set_property (name v : string) (obj : gmap string string)
  : gmap string string :=
  if String.eqb name "__proto__" && bool_decide (obj !! name = None) then obj
  else <[name := v]> obj.

(** [Math.max(...ids)] for a non-empty list. *)
Definition Math_max (ids : list Z) : Z :=
  match ids with
  | [] => 0
  | i :: rest => fold_left Z.max rest i
  end.

(** [Number.MAX_SAFE_INTEGER], 2^53 - 1. *)
Definition MAX_SAFE_INTEGER : Z := 9007199254740991.

(** The values of [nextTokenId] up to which [parseInt], [Math.max], [+ 1],
    [++] and [toString] of the runtime are those of the integers. *)
Definition safe_counter (n : Z) : Prop :=
  - MAX_SAFE_INTEGER <= n <= MAX_SAFE_INTEGER + 1.

(** [new ToonConverter(initialMap)].  The spread copies the own
    properties of [initialMap], whatever their names; the reducer writes
    with [acc[v] = k]. *)
Definition constructor (initialMap : TokenMap) : ToonConverter :=
  let k2t : gmap string string :=
    fold_left (fun acc kv => <[kv.1 := kv.2]> acc) initialMap ∅ in
  let t2k : gmap string string :=
    fold_left (fun acc kv => set_property kv.2 kv.1 acc) initialMap ∅ in
  let existingIds := omap parseInt10 (map_to_list k2t).*2 in
  mkConverter k2t t2k
    (match existingIds with
     | [] => 1
     | _ => Math_max existingIds + 1
     end).

(** [getToken(key)]: the token and the converter after the call.  The
    token of a key found on [Object.prototype] is the member itself, here
    the string it becomes in the line the encoder builds. *)
Definition getToken (key : string) (c : ToonConverter) : string * ToonConverter :=
  if truthy (get_property (keyToToken c) key) then
    (default "" (get_property (keyToToken c) key), c)
  else
    let token := padStart2 (Z_toString (nextTokenId c)) in
    (token,
     mkConverter (set_property key token (keyToToken c))
                 (set_property token key (tokenToKey c))
                 (nextTokenId c + 1)).

(** [getKey(token)] *)
Definition getKey (token : string) (c : ToonConverter) : string :=
  if truthy (get_property (tokenToKey c) token)
  then default "" (get_property (tokenToKey c) token)
  else "UNKNOWN_" ++ token.

(** [getMapping()] *)
Definition getMapping (c : ToonConverter) : gmap string string * gmap string string :=
  (keyToToken c, tokenToKey c).

(** ** JSON values *)

(** An object is the list of its entries in enumeration order. *)
Inductive json : Type :=
| JNull
| JBool (b : bool)
| JNum (n : jsnum)
| JStr (s : string)
| JArr (items : list json)
| JObj (entries : list (string * json)).

(** [typeof v === 'object' && v !== null] *)
Definition isComplex (v : json) : bool :=
  match v with
  | JArr _ | JObj _ => true
  | _ => false
  end.

(** *** Property order of an object

    Own property keys are enumerated with the array indices first, in
    ascending order, and the other keys after them in creation order. *)

Definition array_index (k : string) : option Z :=
  match all_digits digit_of k with
  | Some ds =>
      let n := horner 10 ds in
      if String.eqb k (digits_of n) && (n <? 4294967295) then Some n else None
  | None => None
  end.

Fixpoint insert_index (n : Z) (k : string) (v : json) (l : list (string * json))
  : list (string * json) :=
  match l with
  | [] => [(k, v)]
  | (k', v') :: l' =>
      match array_index k' with
      | Some n' => if n' <? n then (k', v') :: insert_index n k v l' else (k, v) :: l
      | None => (k, v) :: l
      end
  end.

Fixpoint replace_value (k : string) (v : json) (l : list (string * json))
  : option (list (string * json)) :=
  match l with
  | [] => None
  | (k', v') :: l' =>
      if String.eqb k' k then Some ((k', v) :: l')
      else cons (k', v') <$> replace_value k v l'
  end.

(** [obj[k] = v] on an object given by its entries. *)
Definition obj_set (k : string) (v : json) (l : list (string * json))
  : list (string * json) :=
  match replace_value k v l with
  | Some l' => l'
  | None =>
      match array_index k with
      | Some n => insert_index n k v l
      | None => (l ++ [(k, v)])%list
      end
  end.

(** ** [JSON.parse]

    The runtime's parser, by recursive descent.  A [u] escape naming a code
    unit above U+00FF is outside the model and is rejected. *)

Module JSONParse.

Definition is_json_ws (c : ascii) : bool :=
  let n := nat_of_ascii c in
  (n =? 32)%nat || (n =? 9)%nat || (n =? 10)%nat || (n =? 13)%nat.

Fixpoint skip_ws (s : string) : string :=
  match s with
  | String c s' => if is_json_ws c then skip_ws s' else s
  | EmptyString => EmptyString
  end.

Fixpoint strip_prefix (p s : string) : option string :=
  match p, s with
  | EmptyString, _ => Some s
  | String a p', String b s' => if Ascii.eqb a b then strip_prefix p' s' else None
  | _, _ => None
  end.

Definition escape_char (e : ascii) : option ascii :=
  if Ascii.eqb e DQUOTE then Some DQUOTE
  else if Ascii.eqb e "\" then Some "\"%char
  else if Ascii.eqb e "/" then Some "/"%char
  else if Ascii.eqb e "b" then Some (ascii_of_nat 8)
  else if Ascii.eqb e "f" then Some (ascii_of_nat 12)
  else if Ascii.eqb e "n" then Some (ascii_of_nat 10)
  else if Ascii.eqb e "r" then Some (ascii_of_nat 13)
  else if Ascii.eqb e "t" then Some (ascii_of_nat 9)
  else None.

(** The characters of a string literal after its opening quote. *)
Fixpoint string_body (s : string) : option (string * string) :=
  match s with
  | EmptyString => None
  | String c r =>
      if Ascii.eqb c DQUOTE then Some (EmptyString, r)
      else if Ascii.eqb c "\" then
        match r with
        | String "u" (String h1 (String h2 (String h3 (String h4 r')))) =>
            a ← hex_digit_of h1; b ← hex_digit_of h2;
            c ← hex_digit_of h3; d ← hex_digit_of h4;
            let code := horner 16 [a; b; c; d] in
            if code <? 256 then
              '(body, rest) ← string_body r';
              Some (String (ascii_of_nat (Z.to_nat code)) body, rest)
            else None
        | String e r' =>
            ch ← escape_char e;
            '(body, rest) ← string_body r';
            Some (String ch body, rest)
        | EmptyString => None
        end
      else if (nat_of_ascii c <? 32)%nat then None
      else '(body, rest) ← string_body r; Some (String c body, rest)
  end.

(** A number literal: [-? int frac? exp?]. *)
Definition parse_number (s : string) : option (jsnum * string) :=
  let '(neg, s1) :=
    match s with
    | String "-" r => (true, r)
    | _ => (false, s)
    end in
  '(ip, r1) ←
    match s1 with
    | String "0" r => Some ([0], r)
    | _ => match span_digits s1 with
           | ([], _) => None
           | res => Some res
           end
    end;
  '(fp, r2) ←
    match r1 with
    | String "." r =>
        match span_digits r with
        | ([], _) => None
        | res => Some res
        end
    | _ => Some ([], r1)
    end;
  '(ex, r3) ←
    match r2 with
    | String c r =>
        if Ascii.eqb c "e" || Ascii.eqb c "E" then
          let '(eneg, r') :=
            match r with
            | String "-" r'' => (true, r'')
            | String "+" r'' => (false, r'')
            | _ => (false, r)
            end in
          match span_digits r' with
          | ([], _) => None
          | (ds, rest) => Some (if eneg : bool then - horner 10 ds else horner 10 ds, rest)
          end
        else Some (0, r2)
    | EmptyString => Some (0, r2)
    end;
  let m := horner 10 (ip ++ fp)%list in
  Some (normalize (if neg : bool then - m else m) (ex - Z.of_nat (length fp)), r3).

Fixpoint parse_value (fuel : nat) (s : string) {struct fuel} : option (json * string) :=
  match fuel with
  | O => None
  | S f =>
      match skip_ws s with
      | EmptyString => None
      | String c r as t =>
          if Ascii.eqb c "[" then
            match skip_ws r with
            | String "]" r' => Some (JArr [], r')
            | _ => parse_elements f r []
            end
          else if Ascii.eqb c "{" then
            match skip_ws r with
            | String "}" r' => Some (JObj [], r')
            | _ => parse_members f r []
            end
          else if Ascii.eqb c DQUOTE then
            '(str, r') ← string_body r; Some (JStr str, r')
          else
            match strip_prefix "true" t, strip_prefix "false" t, strip_prefix "null" t with
            | Some r', _, _ => Some (JBool true, r')
            | _, Some r', _ => Some (JBool false, r')
            | _, _, Some r' => Some (JNull, r')
            | _, _, _ => '(n, r') ← parse_number t; Some (JNum n, r')
            end
      end
  end
with parse_elements (fuel : nat) (s : string) (acc : list json) {struct fuel}
  : option (json * string) :=
  match fuel with
  | O => None
  | S f =>
      '(v, r) ← parse_value f s;
      match skip_ws r with
      | String "," r' => parse_elements f r' (acc ++ [v])%list
      | String "]" r' => Some (JArr (acc ++ [v])%list, r')
      | _ => None
      end
  end
with parse_members (fuel : nat) (s : string) (acc : list (string * json)) {struct fuel}
  : option (json * string) :=
  match fuel with
  | O => None
  | S f =>
      match skip_ws s with
      | String q r =>
          if Ascii.eqb q DQUOTE then
            '(k, r1) ← string_body r;
            match skip_ws r1 with
            | String ":" r2 =>
                '(v, r3) ← parse_value f r2;
                match skip_ws r3 with
                | String "," r' => parse_members f r' (obj_set k v acc)
                | String "}" r' => Some (JObj (obj_set k v acc), r')
                | _ => None
                end
            | _ => None
            end
          else None
      | _ => None
      end
  end.

(** [JSON.parse(s)]; [None] stands for the thrown [SyntaxError]. *)
Definition JSON_parse (s : string) : option json :=
  match parse_value (S (String.length s)) s with
  | Some (v, r) => match skip_ws r with EmptyString => Some v | _ => None end
  | None => None
  end.

End JSONParse.

Import JSONParse.

(** ** Encoder *)

(** The state threaded through [process]: the shared [lines] array and the
    converter whose dictionary [getToken] extends. *)
Record EncState : Type := mkEnc {
  lines : list string;
  conv : ToonConverter
}.

Definition push (l : string) (st : EncState) : EncState :=
  mkEnc (lines st ++ [l])%list (conv st).

(** [process(item, level)]: the returned string and the state after the
    call.  Each [forEach] of the source is a [fold_left] over the state. *)
Fixpoint process (item : json) (level : nat) (st : EncState) {struct item}
  : string * EncState :=
  let indent := repeat "  " level in
  match item with
  | JNull => ("null", st)
  | JBool b => (if b then "yes" else "no", st)
  | JNum n => (num_toString n, st)
  | JStr s => (s, st)
  | JArr [] => ("[]", st)
  | JArr items =>
      ("",
       fold_left
         (fun st subItem =>
            match subItem with
            | JArr _ =>
                let st1 := push (indent ++ "-") st in
                (process subItem (level + 1) st1).2
            | JObj ents =>
                let st1 := push (indent ++ "-") st in
                fold_left
                  (fun st (kv : string * json) =>
                     let '(k, val) := kv in
                     let '(token, c') := getToken k (conv st) in
                     let st1 := mkEnc (lines st) c' in
                     if isComplex val then
                       let st2 := push (indent ++ "  " ++ token ++ ": " ++ "") st1 in
                       (process val (level + 2) st2).2
                     else
                       let '(r, st2) := process val 0 st1 in
                       push (indent ++ "  " ++ token ++ ": " ++ r) st2)
                  ents st1
            | _ =>
                let '(r, st1) := process subItem 0 st in
                push (indent ++ "- " ++ r) st1
            end)
         items st)
  | JObj [] => ("{}", st)
  | JObj ents =>
      ("",
       fold_left
         (fun st (kv : string * json) =>
            let '(k, v) := kv in
            let '(token, c') := getToken k (conv st) in
            let st1 := mkEnc (lines st) c' in
            let lineStart := indent ++ token ++ ":" in
            if isComplex v then
              (process v (level + 1) (push lineStart st1)).2
            else
              let '(r, st2) := process v 0 st1 in
              push (lineStart ++ " " ++ r) st2)
         ents st)
  end.

(** What a call of [jsonToToon] does: it returns a string, leaving the
    converter in a new state; or it throws an [Error] with a message,
    before the converter is touched; or the runtime cuts it short with
    the [RangeError] of a call stack used up, and leaves the converter in
    the state it had reached. *)
Inductive outcome : Type :=
| Returned (out : string) (c : ToonConverter)
| Thrown (message : string)
| RangeError (c : ToonConverter).

(** [jsonToToon(jsonInput)].  A string argument is handed to
    [JSON.parse]; any other value is encoded as it is. *)
Definition jsonToToon (jsonInput : json) (c : ToonConverter) : outcome :=
  let parsed :=
    match jsonInput with
    | JStr s => JSON_parse s
    | _ => Some jsonInput
    end in
  match parsed with
  | None => Thrown "Invalid JSON input"
  | Some obj =>
      if isComplex obj then
        let st := (process obj 0 (mkEnc [] c)).2 in
        Returned (join_lines (lines st)) (conv st)
      else
        let '(r, st) := process obj 0 (mkEnc [] c) in
        Returned r (conv st)
  end.

(** *** The encoder on a bounded call stack

    The source has no guard on the depth of the recursion of [process]:
    when the calls nest deeper than the call stack has room for, the
    runtime throws a [RangeError].  It is thrown outside the [try] block
    of [jsonToToon], and the tokens that [getToken] has registered by then
    stay in the dictionary. *)

(** How deep the arrays and objects of a value are nested. *)
Fixpoint depth (v : json) : nat :=
  match v with
  | JArr items => S (max_list (map depth items))
  | JObj ents => S (max_list (map (fun kv : string * json => depth kv.2) ents))
  | _ => O
  end.

(** A piece of the encoder either completes with a result or is cut short
    by the [RangeError], the converter being in state [c] by then. *)
Inductive completion (A : Type) : Type :=
| Normal (a : A)
| StackOverflow (c : ToonConverter).

Arguments Normal {A} a.
Arguments StackOverflow {A} c.

Definition and_then {A B} (x : completion A) (f : A -> completion B) : completion B :=
  match x with
  | Normal a => f a
  | StackOverflow c => StackOverflow c
  end.

(** A [forEach] whose callback may be cut short. *)
Fixpoint for_each {A} (f : EncState -> A -> completion EncState) (l : list A)
    (st : EncState) : completion EncState :=
  match l with
  | [] => Normal st
  | x :: l' => and_then (f st x) (for_each f l')
  end.

(** [process(item, level)] when the stack has room for [stack] nested
    calls of [process], this one included. *)
Fixpoint process_in (stack : nat) (item : json) (level : nat) (st : EncState)
    {struct stack} : completion (string * EncState) :=
  match stack with
  | O => StackOverflow (conv st)
  | S room =>
      let indent := repeat "  " level in
      match item with
      | JNull => Normal ("null", st)
      | JBool b => Normal (if b then "yes" else "no", st)
      | JNum n => Normal (num_toString n, st)
      | JStr s => Normal (s, st)
      | JArr [] => Normal ("[]", st)
      | JArr items =>
          and_then
            (for_each
               (fun st subItem =>
                  match subItem with
                  | JArr _ =>
                      let st1 := push (indent ++ "-") st in
                      and_then (process_in room subItem (level + 1) st1)
                               (fun r => Normal r.2)
                  | JObj ents =>
                      let st1 := push (indent ++ "-") st in
                      for_each
                        (fun st (kv : string * json) =>
                           let '(k, val) := kv in
                           let '(token, c') := getToken k (conv st) in
                           let st1 := mkEnc (lines st) c' in
                           if isComplex val then
                             let st2 := push (indent ++ "  " ++ token ++ ": " ++ "") st1 in
                             and_then (process_in room val (level + 2) st2)
                                      (fun r => Normal r.2)
                           else
                             and_then (process_in room val 0 st1)
                                      (fun r => Normal
                                         (push (indent ++ "  " ++ token ++ ": " ++ r.1) r.2)))
                        ents st1
                  | _ =>
                      and_then (process_in room subItem 0 st)
                               (fun r => Normal (push (indent ++ "- " ++ r.1) r.2))
                  end)
               items st)
            (fun st' => Normal ("", st'))
      | JObj [] => Normal ("{}", st)
      | JObj ents =>
          and_then
            (for_each
               (fun st (kv : string * json) =>
                  let '(k, v) := kv in
                  let '(token, c') := getToken k (conv st) in
                  let st1 := mkEnc (lines st) c' in
                  let lineStart := indent ++ token ++ ":" in
                  if isComplex v then
                    and_then (process_in room v (level + 1) (push lineStart st1))
                             (fun r => Normal r.2)
                  else
                    and_then (process_in room v 0 st1)
                             (fun r => Normal (push (lineStart ++ " " ++ r.1) r.2)))
               ents st)
            (fun st' => Normal ("", st'))
      end
  end.

(** [jsonToToon(jsonInput)] when the stack has room for [stack] nested
    calls of [process]. *)
Definition jsonToToon_in (stack : nat) (jsonInput : json) (c : ToonConverter)
  : outcome :=
  let parsed :=
    match jsonInput with
    | JStr s => JSON_parse s
    | _ => Some jsonInput
    end in
  match parsed with
  | None => Thrown "Invalid JSON input"
  | Some obj =>
      match process_in stack obj 0 (mkEnc [] c) with
      | Normal (r, st) =>
          if isComplex obj then Returned (join_lines (lines st)) (conv st)
          else Returned r (conv st)
      | StackOverflow c' => RangeError c'
      end
  end.

(** ** Decoder *)

(** The parse tree of [toonToJson] is a graph of mutable [Node] objects
    linked both ways.  The objects live in a heap (a list, in allocation
    order); a reference is an index into it and [None] is [null]. *)
Record Node : Type := mkNode {
  indent : Z;
  key : option string;
  value : option string;
  children : list nat;
  parent : option nat;
  isArrayItem : bool
}.

Abbreviation Heap := (list Node).

(** The reference of [rootNode], the first object allocated. *)
Definition rootRef : nat := 0%nat.

Definition rootNode : Node := mkNode (-1) None None [] None false.

(** The loop of [findParent]: [Some curr] when the loop exits with
    [curr] (possibly [null]); [None] when the fuel runs out or a
    reference dangles. *)
Fixpoint findParent_loop (fuel : nat) (h : Heap) (curr : option nat) (i : Z)
  : option (option nat) :=
  match curr with
  | None => Some None
  | Some r =>
      n ← h !! r;
      if i <=? indent n then
        match fuel with
        | O => None
        | S f => findParent_loop f h (parent n) i
        end
      else Some (Some r)
  end.

(** [findParent(indent)], reading [lastNode]. *)
Definition findParent (h : Heap) (lastNode : nat) (i : Z) : option nat :=
  curr ← findParent_loop (length h) h (Some lastNode) i;
  Some (default rootRef curr).

Definition push_child (c : nat) (n : Node) : Node :=
  mkNode (indent n) (key n) (value n) (children n ++ [c])%list (parent n) (isArrayItem n).

(** Allocation of [newNode], [parent.children.push(newNode)] and
    [lastNode = newNode]. *)
Definition addNode (h : Heap) (p : nat) (i : Z) (k v : option string) (arr : bool)
  : Heap * nat :=
  let r := length h in
  ((alter (push_child r) p h ++ [mkNode i k v [] (Some p) arr])%list, r).

(** [part === '' ? null : part] *)
Definition null_if_empty (part : string) : option string :=
  if String.eqb part "" then None else Some part.

(** One iteration of the loop over the lines. *)
Definition readLine (st : Heap * nat) (line : string) : option (Heap * nat) :=
  let '(h, lastNode) := st in
  let i := search_nonspace line in
  let content := trim line in
  if startsWith "-" content then
    let valuePart := trim (substring_from 1 content) in
    p ← findParent h lastNode i;
    Some (addNode h p i None (null_if_empty valuePart) true)
  else
    match indexOf ":" content with
    | Some colonIdx =>
        let token := trim (substring_to colonIdx content) in
        let valPart := trim (substring_from (colonIdx + 1) content) in
        p ← findParent h lastNode i;
        Some (addNode h p i (Some token) (null_if_empty valPart) false)
    | None => Some st
    end.

(** [toonInput.split('\n').filter(l => l.trim().length > 0)] *)
Definition nonblank_lines (toonInput : string) : list string :=
  filter (fun l => (0 <? String.length (trim l))%nat = true) (split_lines toonInput).

(** Pass 1: the heap after the loop over the lines. *)
Definition buildTree (toonInput : string) : option (Heap * nat) :=
  foldl (fun st line => st ← st; readLine st line) (Some ([rootNode], rootRef))
        (nonblank_lines toonInput).

(** [parseValue(val)] *)
Definition parseValue (val : option string) : json :=
  match val with
  | None => JNull
  | Some s =>
      let v := trim s in
      if String.eqb v "yes" then JBool true
      else if String.eqb v "no" then JBool false
      else if negb (isNaN (Number v)) then JNum (Number v)
      else JStr v
  end.

(** A [null] used as a property name reads as the string ["null"]. *)
Definition key_text (k : option string) : string := default "null" k.

(** [convertNode(node)] on the node at reference [r].  [fuel] is the
    number of nested calls of [convertNode] that the call stack has room
    for, this one included; [None] is the [RangeError] of a stack used
    up (or a dangling reference, which pass 1 never leaves). *)
Fixpoint convertNode (fuel : nat) (c : ToonConverter) (h : Heap) (r : nat)
  : option json :=
  match fuel with
  | O => None
  | S f =>
      node ← h !! r;
      kids ← mapM (fun cr => h !! cr) (children node);
      let sub (ch : nat * Node) : option json :=
        if bool_decide (children ch.2 = []) then Some (parseValue (value ch.2))
        else convertNode f c h ch.1 in
      match children node with
      | [] => Some (parseValue (value node))
      | _ =>
          let isArray := forallb isArrayItem kids in
          let isObject := forallb (fun k => negb (isArrayItem k)) kids in
          if isArray then
            JArr <$> mapM (fun ch : nat * Node =>
                             if bool_decide (value ch.2 ≠ None) &&
                                bool_decide (children ch.2 = []) then
                               Some (parseValue (value ch.2))
                             else if bool_decide (children ch.2 ≠ []) then
                               convertNode f c h ch.1
                             else Some JNull)
                          (zip (children node) kids)
          else if isObject then
            JObj <$> foldl (fun obj ch =>
                              obj ← obj;
                              let realKey := getKey (key_text (key ch.2)) c in
                              v ← (if bool_decide (value ch.2 ≠ None) &&
                                      bool_decide (children ch.2 = []) then
                                     Some (parseValue (value ch.2))
                                   else convertNode f c h ch.1);
                              Some (obj_set realKey v obj))
                           (Some []) (zip (children node) kids)
          else
            JObj <$> foldl (fun obj ch =>
                              obj ← obj;
                              if truthy (key ch.2) then
                                let realKey := getKey (key_text (key ch.2)) c in
                                v ← sub ch;
                                Some (obj_set realKey v obj)
                              else Some obj)
                           (Some []) (zip (children node) kids)
      end
  end.

(** The value handed to [JSON.stringify] at the end of [toonToJson], on a
    stack with room for a call of [convertNode] for every node. *)
Definition convertRoot (c : ToonConverter) (h : Heap) : option json :=
  root ← h !! rootRef;
  kids ← mapM (fun cr => h !! cr) (children root);
  let sub (ch : nat * Node) : option json :=
    if bool_decide (children ch.2 = []) then Some (parseValue (value ch.2))
    else convertNode (length h) c h ch.1 in
  if forallb isArrayItem kids then
    JArr <$> mapM sub (zip (children root) kids)
  else
    JObj <$> foldl (fun obj ch =>
                      obj ← obj;
                      if truthy (key ch.2) then
                        let realKey := getKey (key_text (key ch.2)) c in
                        v ← sub ch;
                        Some (obj_set realKey v obj)
                      else Some obj)
                   (Some []) (zip (children root) kids).

(** ** [JSON.stringify(v, null, 2)] *)

Module JSONStringify.

Definition hex_char (d : nat) : ascii :=
  ascii_of_nat (if (d <? 10)%nat then 48 + d else 87 + d).

Definition quote_char (ch : ascii) : string :=
  let n := nat_of_ascii ch in
  if (n =? 8)%nat then "\b"
  else if (n =? 9)%nat then "\t"
  else if (n =? 10)%nat then "\n"
  else if (n =? 12)%nat then "\f"
  else if (n =? 13)%nat then "\r"
  else if (n =? 34)%nat then String "\" (String DQUOTE "")
  else if (n =? 92)%nat then "\\"
  else if (n <? 32)%nat then
    "\u00" ++ String (hex_char (n / 16)) (String (hex_char (n mod 16)) "")
  else String ch "".

Fixpoint quote_body (s : string) : string :=
  match s with
  | EmptyString => EmptyString
  | String ch s' => quote_char ch ++ quote_body s'
  end.

(** [QuoteJSONString] *)
Definition quote (s : string) : string :=
  String DQUOTE (quote_body s ++ String DQUOTE "").

Fixpoint join (sep : string) (l : list string) : string :=
  match l with
  | [] => EmptyString
  | [x] => x
  | x :: l' => x ++ sep ++ join sep l'
  end.

(** [SerializeJSONProperty] with a gap of two spaces, at nesting
    depth [depth]. *)
Fixpoint serialize (v : json) (depth : nat) {struct v} : string :=
  let stepback := repeat "  " depth in
  let ind := repeat "  " (S depth) in
  let separator := "," ++ String LF ind in
  match v with
  | JNull => "null"
  | JBool b => if b then "true" else "false"
  | JNum n => if isFinite n then num_toString n else "null"
  | JStr s => quote s
  | JArr [] => "[]"
  | JArr items =>
      "[" ++ String LF ind
          ++ join separator (map (fun x => serialize x (S depth)) items)
          ++ String LF stepback ++ "]"
  | JObj [] => "{}"
  | JObj ents =>
      "{" ++ String LF ind
          ++ join separator
               ((fix members (l : list (string * json)) : list string :=
                   match l with
                   | [] => []
                   | (k, x) :: l' =>
                       (quote k ++ ": " ++ serialize x (S depth)) :: members l'
                   end) ents)
          ++ String LF stepback ++ "}"
  end.

Definition JSON_stringify (v : json) : string := serialize v 0.

End JSONStringify.

Import JSONStringify.

(** [toonToJson(toonInput)] on a stack that is deep enough.  [None] only
    if a loop of the model runs out of fuel or follows a dangling
    reference, which does not happen ([toonToJson_total]). *)
Definition toonToJson_value (toonInput : string) (c : ToonConverter) : option json :=
  st ← buildTree toonInput;
  convertRoot c st.1.

Definition toonToJson (toonInput : string) (c : ToonConverter) : option string :=
  JSON_stringify <$> toonToJson_value toonInput c.

(** *** The decoder on a bounded call stack

    [convertNode] has no guard on the depth of its recursion either, and
    [JSON.stringify] descends into the value it is given.  Here [None]
    is the [RangeError] of a call stack used up; the decoder changes no
    state. *)

(** The end of [toonToJson] when the stack has room for [stack] nested
    calls of [convertNode]. *)
Definition convertRoot_in (stack : nat) (c : ToonConverter) (h : Heap) : option json :=
  root ← h !! rootRef;
  kids ← mapM (fun cr => h !! cr) (children root);
  let sub (ch : nat * Node) : option json :=
    if bool_decide (children ch.2 = []) then Some (parseValue (value ch.2))
    else convertNode stack c h ch.1 in
  if forallb isArrayItem kids then
    JArr <$> mapM sub (zip (children root) kids)
  else
    JObj <$> foldl (fun obj ch =>
                      obj ← obj;
                      if truthy (key ch.2) then
                        let realKey := getKey (key_text (key ch.2)) c in
                        v ← sub ch;
                        Some (obj_set realKey v obj)
                      else Some obj)
                   (Some []) (zip (children root) kids).

(** [JSON.stringify(v, null, 2)] when the stack has room for [stack]
    nested values. *)
Definition JSON_stringify_in (stack : nat) (v : json) : option string :=
  if (depth v <? stack)%nat then Some (JSON_stringify v) else None.

Definition toonToJson_value_in (stack : nat) (toonInput : string) (c : ToonConverter)
  : option json :=
  st ← buildTree toonInput;
  convertRoot_in stack c st.1.

(** [toonToJson(toonInput)] on a stack with room for [stack] levels of
    nesting. *)
Definition toonToJson_in (stack : nat) (toonInput : string) (c : ToonConverter)
  : option string :=
  v ← toonToJson_value_in stack toonInput c;
  JSON_stringify_in stack v.

(** ** Definitions used by the proofs *)

(** The digit values of a decimal numeral of the standard library. *)
Fixpoint uint_values (d : Decimal.uint) : list Z :=
  match d with
  | Decimal.Nil => []
  | Decimal.D0 d => 0 :: uint_values d
  | Decimal.D1 d => 1 :: uint_values d
  | Decimal.D2 d => 2 :: uint_values d
  | Decimal.D3 d => 3 :: uint_values d
  | Decimal.D4 d => 4 :: uint_values d
  | Decimal.D5 d => 5 :: uint_values d
  | Decimal.D6 d => 6 :: uint_values d
  | Decimal.D7 d => 7 :: uint_values d
  | Decimal.D8 d => 8 :: uint_values d
  | Decimal.D9 d => 9 :: uint_values d
  end.

(** The digit values of [digits_of n]. *)
Definition digit_values (n : Z) : list Z := uint_values (N.to_uint (Z.to_N n)).

(** *** Runs of the dictionary *)

(** The converter after the calls [getToken k] for the keys of [ks], in
    order. *)
Definition getTokens (ks : list string) (c : ToonConverter) : ToonConverter :=
  foldl (fun c k => (getToken k c).2) c ks.

(** The tokens those calls mint (the calls that take the second branch of
    [getToken]), in order. *)
Fixpoint minted (ks : list string) (c : ToonConverter) : list string :=
  match ks with
  | [] => []
  | k :: ks' =>
      if truthy (get_property (keyToToken c) k) then minted ks' (getToken k c).2
      else (getToken k c).1 :: minted ks' (getToken k c).2
  end.

(** The states of a converter instance: built by the constructor from an
    object (whose keys are distinct), then changed by [getToken] only. *)
Inductive reachable : ToonConverter -> Prop :=
| reach_new (initialMap : TokenMap) :
    NoDup initialMap.*1 -> reachable (constructor initialMap)
| reach_getToken (k : string) (c : ToonConverter) :
    reachable c -> reachable (getToken k c).2.

(** [nextTokenId] exceeds the numeric value of every token in use. *)
Definition counter_above (c : ToonConverter) : Prop :=
  forall t k n, tokenToKey c !! t = Some k -> parseInt10 t = Some n -> n < nextTokenId c.

(** [tokenToKey] sends the token of every key back to that key. *)
Definition inverse_of (c : ToonConverter) : Prop :=
  forall k t, keyToToken c !! k = Some t -> tokenToKey c !! t = Some k.

(** No token in use is the empty string. *)
Definition tokens_nonempty (c : ToonConverter) : Prop := tokenToKey c !! "" = None.

(** [keyToToken] sends the key of every token back to that token. *)
Definition converse_of (c : ToonConverter) : Prop :=
  forall t k, tokenToKey c !! t = Some k -> keyToToken c !! k = Some t.

(** *** States of pass 1 *)

(** [walk h i r p]: starting at [r] and following [parent] links, every
    node met has an indentation of at least [i] until [p], the first one
    whose indentation is below [i]. *)
Inductive walk (h : Heap) (i : Z) : nat -> nat -> Prop :=
| walk_stop (r : nat) (n : Node) :
    h !! r = Some n -> indent n < i -> walk h i r r
| walk_step (r r' p : nat) (n : Node) :
    h !! r = Some n -> i <= indent n -> parent n = Some r' ->
    walk h i r' p -> walk h i r p.

(** The heap and [lastNode] after the loop has read some non-blank
    lines. *)
Inductive built : Heap * nat -> Prop :=
| built_root : built ([rootNode], rootRef)
| built_line (st st' : Heap * nat) (line : string) :
    built st -> trim line <> "" -> readLine st line = Some st' -> built st'.

(** Shape of the heap: [rootNode] sits at reference 0 with indentation
    -1; every other node has a non-negative indentation and a parent
    allocated before it. *)
Definition heap_ok (st : Heap * nat) : Prop :=
  (st.2 < length st.1)%nat
  /\ (exists n0, st.1 !! rootRef = Some n0 /\ indent n0 = -1)
  /\ (forall r n, st.1 !! r = Some n -> r <> rootRef ->
       0 <= indent n /\ exists p, parent n = Some p /\ (p < r)%nat).

(** *** The parse tree as a term *)

(** A node with the trees of its children: what pass 2 sees of the heap
    below a reference. *)
Inductive tree : Type :=
| T (i : Z) (k : option string) (v : option string) (arr : bool) (kids : list tree).

Definition t_indent (t : tree) : Z := match t with T i _ _ _ _ => i end.
Definition t_key (t : tree) : option string := match t with T _ k _ _ _ => k end.
Definition t_value (t : tree) : option string := match t with T _ _ v _ _ => v end.
Definition t_isArrayItem (t : tree) : bool := match t with T _ _ _ arr _ => arr end.
Definition t_kids (t : tree) : list tree := match t with T _ _ _ _ kids => kids end.

(** [reads hi h r t]: the heap [h] holds the tree [t] at reference [r],
    in references from [r] up to (not including) [hi], children above
    their parent. *)
Inductive reads (hi : nat) (h : Heap) : nat -> tree -> Prop :=
| reads_node (r : nat) (n : Node) (kids : list tree) :
    (r < hi)%nat ->
    h !! r = Some n ->
    Forall (fun cr => (r < cr)%nat) (children n) ->
    Forall2 (reads hi h) (children n) kids ->
    reads hi h r (T (indent n) (key n) (value n) (isArrayItem n) kids).

(** The value of a child of an array node. *)
Definition array_child (conv_kid : tree -> json) (ch : tree) : json :=
  if bool_decide (t_value ch <> None) && bool_decide (t_kids ch = [])
  then parseValue (t_value ch)
  else if bool_decide (t_kids ch <> []) then conv_kid ch
  else JNull.

(** The value of a child of an object node. *)
Definition object_child (conv_kid : tree -> json) (ch : tree) : json :=
  if bool_decide (t_value ch <> None) && bool_decide (t_kids ch = [])
  then parseValue (t_value ch)
  else conv_kid ch.

(** The value of a child in the mixed case and at the root. *)
Definition plain_child (conv_kid : tree -> json) (ch : tree) : json :=
  if bool_decide (t_kids ch = []) then parseValue (t_value ch) else conv_kid ch.

(** [convertNode] on a tree. *)
Fixpoint convert_tree (c : ToonConverter) (t : tree) {struct t} : json :=
  match t with
  | T _ _ v _ [] => parseValue v
  | T _ _ _ _ kids =>
      if forallb t_isArrayItem kids then
        JArr (map (array_child (convert_tree c)) kids)
      else if forallb (fun k => negb (t_isArrayItem k)) kids then
        JObj (fold_left
                (fun obj ch =>
                   obj_set (getKey (key_text (t_key ch)) c)
                           (object_child (convert_tree c) ch) obj)
                kids [])
      else
        JObj (fold_left
                (fun obj ch =>
                   if truthy (t_key ch) then
                     obj_set (getKey (key_text (t_key ch)) c)
                             (plain_child (convert_tree c) ch) obj
                   else obj)
                kids [])
  end.

(** [convertRoot] on the trees of the children of [rootNode]. *)
Definition convert_forest (c : ToonConverter) (kids : list tree) : json :=
  if forallb t_isArrayItem kids then
    JArr (map (plain_child (convert_tree c)) kids)
  else
    JObj (fold_left
            (fun obj ch =>
               if truthy (t_key ch) then
                 obj_set (getKey (key_text (t_key ch)) c)
                         (plain_child (convert_tree c) ch) obj
               else obj)
            kids []).

(** A line as pass 1 reads it: indentation, key, value, dash or not. *)
Definition pline : Type := Z * option string * option string * bool.

(** The lines of a tree, in document order. *)
Fixpoint flatten (t : tree) : list pline :=
  match t with
  | T i k v arr kids => (i, k, v, arr) :: concat (map flatten kids)
  end.

(** What [readLine] makes of a line. *)
Definition parse_line (line : string) : option pline :=
  let i := search_nonspace line in
  let content := trim line in
  if startsWith "-" content then
    Some (i, None, null_if_empty (trim (substring_from 1 content)), true)
  else
    match indexOf ":" content with
    | Some colonIdx =>
        Some (i, Some (trim (substring_to colonIdx content)),
              null_if_empty (trim (substring_from (colonIdx + 1) content)), false)
    | None => None
    end.

(** The node of a line joins the heap. *)
Definition addLine (st : Heap * nat) (pl : pline) : option (Heap * nat) :=
  let '(i, k, v, arr) := pl in
  p ← findParent st.1 st.2 i;
  Some (addNode st.1 p i k v arr).

(** Every tree of a forest sits at indentation [i], its children two
    columns deeper. *)
Fixpoint levelled (i : Z) (t : tree) {struct t} : Prop :=
  match t with
  | T i' _ _ _ kids =>
      i' = i /\ (fix all (l : list tree) : Prop :=
                   match l with
                   | [] => True
                   | t' :: l' => levelled (i + 2) t' /\ all l'
                   end) kids
  end.

(** *** The encoder as a function of the final dictionary *)

(** The token of a key in a converter: what [keyToToken[k]] reads. *)
Definition tokenOf (c : ToonConverter) (k : string) : string :=
  default "" (get_property (keyToToken c) k).

(** The text [process] returns for a scalar. *)
Definition scalar_text (v : json) : string :=
  match v with
  | JNull => "null"
  | JBool b => if b then "yes" else "no"
  | JNum n => num_toString n
  | JStr s => s
  | _ => ""
  end.

(** The lines [process] pushes for a container at a level, with the
    tokens read from [c]. *)
Fixpoint render (c : ToonConverter) (item : json) (level : nat) {struct item}
  : list string :=
  let indent := repeat "  " level in
  match item with
  | JArr items =>
      concat (map (fun subItem =>
                match subItem with
                | JArr _ => (indent ++ "-") :: render c subItem (level + 1)
                | JObj ents =>
                    (indent ++ "-") ::
                    concat (map (fun kv : string * json =>
                              if isComplex kv.2 then
                                (indent ++ "  " ++ tokenOf c kv.1 ++ ": " ++ "")
                                  :: render c kv.2 (level + 2)
                              else
                                [indent ++ "  " ++ tokenOf c kv.1 ++ ": " ++ scalar_text kv.2])
                            ents)
                | _ => [indent ++ "- " ++ scalar_text subItem]
                end) items)
  | JObj ents =>
      concat (map (fun kv : string * json =>
                if isComplex kv.2 then
                  (indent ++ tokenOf c kv.1 ++ ":") :: render c kv.2 (level + 1)
                else
                  [(indent ++ tokenOf c kv.1 ++ ":") ++ " " ++ scalar_text kv.2])
              ents)
  | _ => []
  end.

(** The trees of the lines of a container. *)
Fixpoint item_trees (c : ToonConverter) (item : json) (level : nat) {struct item}
  : list tree :=
  match item with
  | JArr items =>
      map (fun x =>
             if isComplex x
             then T (2 * Z.of_nat level) None None true (item_trees c x (S level))
             else T (2 * Z.of_nat level) None (Some (scalar_text x)) true [])
          items
  | JObj ents =>
      map (fun kv : string * json =>
             if isComplex kv.2
             then T (2 * Z.of_nat level) (Some (tokenOf c kv.1)) None false
                    (item_trees c kv.2 (S level))
             else T (2 * Z.of_nat level) (Some (tokenOf c kv.1))
                    (Some (scalar_text kv.2)) false [])
          ents
  | _ => []
  end.

(** All keys of a value, in the order [process] asks for their tokens. *)
Fixpoint keys_of (item : json) : list string :=
  match item with
  | JArr items => concat (map keys_of items)
  | JObj ents => concat (map (fun kv : string * json => kv.1 :: keys_of kv.2) ents)
  | _ => []
  end.

(** *** Values that survive a round trip *)

(** A string that is read back as itself: not empty, no blank at either
    end, no line feed, and neither a keyword nor a number to
    [parseValue]. *)
Definition plain_string (s : string) : bool :=
  negb (String.eqb s "") && String.eqb (trim s) s
  && bool_decide (indexOf LF s = None)
  && negb (String.eqb s "yes") && negb (String.eqb s "no")
  && isNaN (Number s).

(** [key_before k1 k2]: [k1] may be enumerated before [k2]. *)
Definition key_before (k1 k2 : string) : bool :=
  match array_index k1, array_index k2 with
  | Some a, Some b => a <? b
  | Some _, None => true
  | None, Some _ => false
  | None, None => true
  end.

(** The keys come in the enumeration order of an object. *)
Fixpoint js_ordered (ks : list string) : bool :=
  match ks with
  | [] => true
  | k :: ks' => forallb (key_before k) ks' && js_ordered ks'
  end.

(** The values of the amended round trip: booleans, finite numbers in
    canonical form, plain strings, and non-empty arrays and objects of
    such values, the keys of an object being non-empty, distinct and in
    enumeration order. *)
Fixpoint codable (v : json) : bool :=
  match v with
  | JNull => false
  | JBool _ => true
  | JNum n => isFinite n && canonical n
  | JStr s => plain_string s
  | JArr items => negb (bool_decide (items = [])) && forallb codable items
  | JObj ents =>
      negb (bool_decide (ents = []))
      && forallb (fun kv : string * json => negb (String.eqb kv.1 "") && codable kv.2) ents
      && bool_decide (NoDup ents.*1)
      && js_ordered ents.*1
  end.

(** [parent.children.push] several times. *)
Definition add_children (cs : list nat) (n : Node) : Node :=
  mkNode (indent n) (key n) (value n) (children n ++ cs)%list (parent n) (isArrayItem n).

(** Pass 1 over lines already parsed. *)
Definition run_lines (st : Heap * nat) (pls : list pline) : option (Heap * nat) :=
  foldl (fun st pl => st ← st; addLine st pl) (Some st) pls.

(** [rebuilt h p i st' cs ts]: from a heap [h] in which [p] is the parent
    for indentation [i], pass 1 has reached [st'] by adding the trees [ts]
    as the children [cs] of [p] and touching nothing else. *)
Definition rebuilt (h : Heap) (p : nat) (i : Z) (st' : Heap * nat)
    (cs : list nat) (ts : list tree) : Prop :=
  heap_ok st'
  /\ walk st'.1 i st'.2 p
  /\ (length h <= length st'.1)%nat
  /\ (forall r, (r < length h)%nat -> r <> p -> st'.1 !! r = h !! r)
  /\ (exists n, h !! p = Some n /\ st'.1 !! p = Some (add_children cs n))
  /\ Forall2 (reads (length st'.1) st'.1) cs ts
  /\ Forall (fun c => (length h <= c)%nat) cs.

(** Pass 1 rebuilds the tree [t] from its lines under any parent. *)
Definition rebuilds_tree (t : tree) : Prop :=
  forall i h lastNode p,
    0 <= i -> heap_ok (h, lastNode) -> walk h i lastNode p -> levelled i t ->
    exists st', run_lines (h, lastNode) (flatten t) = Some st'
                /\ rebuilt h p i st' [length h] [t].

Definition rebuilds_forest (ts : list tree) : Prop :=
  forall i h lastNode p,
    0 <= i -> heap_ok (h, lastNode) -> walk h i lastNode p -> Forall (levelled i) ts ->
    exists st' cs, run_lines (h, lastNode) (concat (map flatten ts)) = Some st'
                   /\ rebuilt h p i st' cs ts.

(** A child of the node at [r]: a reference above [r] with the node it
    points to, holding the tree [t]. *)
Definition child_of (hi : nat) (h : Heap) (r : nat) (ch : nat * Node) (t : tree) : Prop :=
  (r < ch.1)%nat /\ h !! ch.1 = Some ch.2 /\ reads hi h ch.1 t.

(** The dictionary gives every key of [v] a token that [getKey] maps
    back to the key. *)
Definition keys_known (c : ToonConverter) (v : json) : Prop :=
  forall k, k ∈ keys_of v -> tokenOf c k <> "" /\ getKey (tokenOf c k) c = k.

(** A scalar of the round trip is read back from its text. *)
Definition reads_back (x : json) : Prop :=
  parseValue (Some (scalar_text x)) = x.

(** [extends c c']: every key that reads a token in [c] reads the same
    token in [c']. *)
Definition extends (c c' : ToonConverter) : Prop :=
  forall k t, get_property (keyToToken c) k = Some t -> t <> "" ->
    get_property (keyToToken c') k = Some t.

(** What a piece of the encoder does to the state: it asks for the tokens
    of the keys [ks], and pushes the lines [rd c'], whatever later state
    [c'] of the dictionary the tokens are read from. *)
Definition encodes (st st' : EncState) (ks : list string)
    (rd : ToonConverter -> list string) : Prop :=
  conv st' = getTokens ks (conv st)
  /\ forall c', extends (conv st') c' -> lines st' = (lines st ++ rd c')%list.

Definition process_spec (v : json) : Prop :=
  forall level st,
    encodes st (process v level st).2 (keys_of v) (fun c' => render c' v level).

(** *** Texts that a line gives back *)

Fixpoint string_forall (P : ascii -> bool) (s : string) : bool :=
  match s with
  | EmptyString => true
  | String c s' => P c && string_forall P s'
  end.

Definition is_digit (c : ascii) : bool := bool_decide (is_Some (digit_of c)).

(** A token that a line gives back: it is not empty, has no blank at
    either end, holds no colon and no line feed, and does not start with
    a dash. *)
Definition clean_token (t : string) : Prop :=
  t <> "" /\ trim t = t /\ indexOf ":" t = None /\ indexOf LF t = None
  /\ startsWith "-" t = false.

(** A value text that a line gives back unchanged: not empty, no blank at
    either end, no line feed. *)
Definition clean_value (r : string) : Prop :=
  r <> "" /\ trim r = r /\ indexOf LF r = None.

(** A line of the encoder: it holds no line feed and is not blank. *)
Definition line_ok (l : string) : Prop :=
  indexOf LF l = None /\ trim l <> "".

(** The dictionary gives every key of [v] a token that a line gives
    back. *)
Definition tokens_clean (c : ToonConverter) (v : json) : Prop :=
  forall k, k ∈ keys_of v -> clean_token (tokenOf c k).

(** Every token of the dictionary was minted from a counter value that is
    not negative, and the counter is positive. *)
Definition minted_only (c : ToonConverter) : Prop :=
  1 <= nextTokenId c
  /\ forall k t, keyToToken c !! k = Some t ->
       exists n, 0 <= n /\ t = padStart2 (Z_toString n).

(** *** Dictionaries of the round trip *)

(** An initial map that the round trip can start from: its keys are
    distinct, as the keys of an object are; its tokens are distinct; and
    each token is one that a line gives back and that the constructor
    registers. *)
Definition round_trip_map (m : TokenMap) : Prop :=
  NoDup m.*1 /\ NoDup m.*2
  /\ Forall (fun t => clean_token t /\ t <> "__proto__") m.*2.

(** What such a converter keeps true: the counter is not negative and
    above every token in use, and every key with an entry has a token that
    a line gives back and that [tokenToKey] sends back to the key. *)
Definition dictionary_ok (c : ToonConverter) : Prop :=
  0 <= nextTokenId c /\ counter_above c
  /\ forall k t, keyToToken c !! k = Some t ->
       clean_token t /\ tokenToKey c !! t = Some k.

(** A key of the round trip: [getToken] gives it a token of the
    dictionary, since it has an entry or is no name of a member of
    [Object.prototype]; and it is not [__proto__], which the decoder
    cannot set. *)
Definition plain_key (c : ToonConverter) (k : string) : Prop :=
  k <> "__proto__" /\ (keyToToken c !! k = None -> prototype_member k = None).

(** No token stands for the key [__proto__], the one name that the
    decoder's [result[key] = ...] does not create ([obj_set] creates every
    name): only an initial map brings such an entry. *)
Definition no_proto_key (c : ToonConverter) : Prop :=
  forall token, tokenToKey c !! token <> Some "__proto__".


(** [c'] is [c] after some calls of [getToken]. *)
Definition advances (c c' : ToonConverter) : Prop :=
  exists ks, c' = getTokens ks c.

(** What a piece of the encoder on a bounded stack does, next to the
    result [r] of the piece on a deep stack: it completes with [r], or it
    is cut short; either way the dictionary has only seen calls of
    [getToken] since it was [c]. *)
Definition refines {A} (state : A -> EncState) (c : ToonConverter)
    (x : completion A) (r : A) : Prop :=
  match x with
  | Normal a => a = r /\ advances c (conv (state a))
  | StackOverflow c' => advances c c'
  end.

(** The number of nodes on the longest path down a tree. *)
Fixpoint height (t : tree) : nat :=
  match t with
  | T _ _ _ _ kids => S (max_list (map height kids))
  end.

(** *** Numerals as lists of digits *)

Definition digit_char (d : Z) : ascii := ascii_of_nat (48 + Z.to_nat d).

#[global] Arguments digit_char : simpl never.

(** The text of a list of digits. *)
Fixpoint dstr (ds : list Z) : string :=
  match ds with
  | [] => EmptyString
  | d :: ds' => String (digit_char d) (dstr ds')
  end.

Definition is_dig (d : Z) : Prop := 0 <= d <= 9.

(** A list of digits without its zeros at the end. *)
Fixpoint strip0 (ds : list Z) : list Z :=
  match ds with
  | [] => []
  | d :: ds' =>
      match strip0 ds' with
      | [] => if d =? 0 then [] else [d]
      | r => d :: r
      end
  end.

(** The characters of the text of a finite number. *)
Definition num_char (c : ascii) : bool :=
  is_digit c || Ascii.eqb c "." || Ascii.eqb c "e" || Ascii.eqb c "+" || Ascii.eqb c "-".

(** The text of a decimal literal made of the digits [ip] of the integer
    part, the digits [fp] of a fraction if there is one, and the sign and
    digits of an exponent if there is one. *)
Definition frac_text (fp : option (list Z)) : string :=
  match fp with
  | None => ""
  | Some f => String "." (dstr f)
  end.

Definition exp_text (ex : option (bool * list Z)) : string :=
  match ex with
  | None => ""
  | Some (neg, ds) => String "e" (String (if neg : bool then "-" else "+")%char (dstr ds))
  end.

Definition dec_text (ip : list Z) (fp : option (list Z)) (ex : option (bool * list Z))
  : string :=
  dstr ip ++ frac_text fp ++ exp_text ex.

Definition exp_value (ex : option (bool * list Z)) : Z :=
  match ex with
  | None => 0
  | Some (neg, ds) => if neg : bool then - horner 10 ds else horner 10 ds
  end.

(** The number such a literal denotes. *)
Definition dec_value (neg : bool) (ip : list Z) (fp : option (list Z))
    (ex : option (bool * list Z)) : jsnum :=
  let f := default [] fp in
  let m := horner 10 (ip ++ f) in
  normalize (if neg then - m else m) (exp_value ex - Z.of_nat (length f)).

(** The parts of a literal are digits, and the integer part and the
    exponent have at least one. *)
Definition dec_ok (ip : list Z) (fp : option (list Z)) (ex : option (bool * list Z))
  : Prop :=
  ip <> [] /\ Forall is_dig ip /\ Forall is_dig (default [] fp)
  /\ match ex with None => True | Some (_, ds) => ds <> [] /\ Forall is_dig ds end.

(** *** States of the default dictionary *)

(** The states of a converter made with the default, empty map: the ones
    that calls of [getToken] reach from the constructor. *)
Definition default_state (c : ToonConverter) : Prop :=
  exists ks, c = getTokens ks (constructor []).

(** *** References to children *)

(** The children of every node are nodes allocated after it. *)
Definition children_ok (h : Heap) : Prop :=
  forall r n, h !! r = Some n -> Forall (fun cr => (r < cr < length h)%nat) (children n).

(** *** Heaps that differ in indentation *)

(** Two nodes with the same fields but for [indent]. *)
Definition same_shape (n n' : Node) : Prop :=
  key n = key n' /\ value n = value n' /\ children n = children n'
  /\ parent n = parent n' /\ isArrayItem n = isArrayItem n'.

(** [n'] is [n] with its indentation mapped by [phi]; the indentation of
    the root stays -1. *)
Definition reindented (phi : Z -> Z) (n n' : Node) : Prop :=
  same_shape n n'
  /\ ((indent n = -1 /\ indent n' = -1) \/ (0 <= indent n /\ indent n' = phi (indent n))).

(** *** The parser, stage by stage *)

(** [expect c s]: the rest of [s] after its first character [c]. *)
Definition expect (c : ascii) (s : string) : option string :=
  match s with
  | String c' r => if Ascii.eqb c' c then Some r else None
  | EmptyString => None
  end.

(** The stages of [parse_number]: sign, integer part, fraction,
    exponent. *)
Definition number_sign (s : string) : bool * string :=
  match s with
  | String "-" r => (true, r)
  | _ => (false, s)
  end.

Definition number_int (s1 : string) : option (list Z * string) :=
  match s1 with
  | String "0" r => Some ([0], r)
  | _ => match span_digits s1 with
         | ([], _) => None
         | res => Some res
         end
  end.

Definition number_frac (r1 : string) : option (list Z * string) :=
  match r1 with
  | String "." r =>
      match span_digits r with
      | ([], _) => None
      | res => Some res
      end
  | _ => Some ([], r1)
  end.

Definition number_exp (r2 : string) : option (Z * string) :=
  match r2 with
  | String c r =>
      if Ascii.eqb c "e" || Ascii.eqb c "E" then
        let '(eneg, r') :=
          match r with
          | String "-" r'' => (true, r'')
          | String "+" r'' => (false, r'')
          | _ => (false, r)
          end in
        match span_digits r' with
        | ([], _) => None
        | (ds, rest) => Some (if eneg : bool then - horner 10 ds else horner 10 ds, rest)
        end
      else Some (0, r2)
  | EmptyString => Some (0, r2)
  end.

(** What follows a value in the text [JSON.stringify] writes: nothing, a
    comma or a line feed. *)
Definition value_end (rest : string) : Prop :=
  rest = "" \/ (exists r, rest = String "," r) \/ (exists r, rest = String LF r).

(** The values [JSON.parse] gives back from their text: the numbers are
    finite and in canonical form, and the keys of an object are distinct
    and in enumeration order. *)
Fixpoint printable (v : json) : bool :=
  match v with
  | JNum n => isFinite n && canonical n
  | JArr items => forallb printable items
  | JObj ents =>
      forallb (fun kv : string * json => printable kv.2) ents
      && bool_decide (NoDup ents.*1) && js_ordered ents.*1
  | _ => true
  end.

(** The number of values in a value, each element counted once more. *)
Fixpoint json_size (v : json) : nat :=
  match v with
  | JArr items => S (list_sum (map (fun x => S (json_size x)) items))
  | JObj ents => S (list_sum (map (fun kv : string * json => S (json_size kv.2)) ents))
  | _ => 1
  end.

(** The numbers of a value are in canonical form when they are finite. *)
Fixpoint numbers_ok (v : json) : bool :=
  match v with
  | JNum n => canonical n
  | JArr items => forallb numbers_ok items
  | JObj ents => forallb (fun kv : string * json => numbers_ok kv.2) ents
  | _ => true
  end.

(** What [JSON.parse] reads from the text of a value: a number that is
    not finite is written as [null], and the members of an object are set
    one after the other. *)
Fixpoint reparse (v : json) : json :=
  match v with
  | JNum n => if isFinite n then JNum n else JNull
  | JArr items => JArr (map reparse items)
  | JObj ents => JObj (fold_left (fun obj kv => obj_set kv.1 (reparse kv.2) obj) ents [])
  | _ => v
  end.

(** [parses_back v]: at any depth and before the end of a value, the text
    of [v] is parsed to [reparse v] with the fuel its size asks for. *)
Definition parses_back (v : json) : Prop :=
  forall d rest fuel,
    value_end rest -> (json_size v <= fuel)%nat ->
    parse_value fuel (serialize v d ++ rest) = Some (reparse v, rest).

(** ** The converter page (client/src/pages/converter.tsx)

    The state of [ConverterPage] and its event handlers.  The handlers
    also raise toast notifications, which are no part of the state.  The
    handlers run on a call stack with room for [stack] levels of
    nesting. *)

Module ConverterPage.

(** The object literal of [EXAMPLE_JSON]. *)
Definition EXAMPLE_VALUE : json :=
  JObj [("name", JStr "Goku");
        ("powerLevel", JNum (Finite 9001 0));
        ("isSuperSaiyan", JBool true);
        ("techniques", JArr [JStr "Kamehameha"; JStr "Spirit Bomb"]);
        ("stats", JObj [("strength", JNum (Finite 100 0)); ("speed", JNum (Finite 95 0))])].

Definition EXAMPLE_JSON : string := JSON_stringify EXAMPLE_VALUE.

(** The object that the state [mapping] refers to: the empty object of
    the first render, or, once [updateMapping] has run, the [keyToToken]
    object of the converter itself, which [getToken] changes in place. *)
Inductive MappingRef : Type :=
| EmptyObject
| KeyToTokenObject.

Record Page : Type := mkPage {
  jsonInput : string;
  toonInput : string;
  converter : ToonConverter;
  mapping : MappingRef;
  error : option string
}.

(** The entries of [mapping], which the mapping panel lists. *)
Definition mapping_entries (p : Page) : gmap string string :=
  match mapping p with
  | EmptyObject => ∅
  | KeyToTokenObject => (getMapping (converter p)).1
  end.

(** The state of the first render. *)
Definition initialPage : Page :=
  mkPage EXAMPLE_JSON "" (constructor []) EmptyObject None.

(** [updateMapping()] *)
Definition updateMapping (p : Page) : Page :=
  mkPage (jsonInput p) (toonInput p) (converter p) KeyToTokenObject (error p).

(** The message of the [RangeError] of a call stack used up, in the
    words of V8. *)
Definition STACK_MESSAGE : string := "Maximum call stack size exceeded".

(** [handleJsonToToon()]: the catch clause shows the message of whatever
    was thrown. *)
Definition handleJsonToToon (stack : nat) (p : Page) : Page :=
  match jsonToToon_in stack (JStr (jsonInput p)) (converter p) with
  | Returned result c' =>
      updateMapping (mkPage (jsonInput p) result c' (mapping p) None)
  | Thrown message =>
      mkPage (jsonInput p) (toonInput p) (converter p) (mapping p) (Some message)
  | RangeError c' =>
      mkPage (jsonInput p) (toonInput p) c' (mapping p) (Some STACK_MESSAGE)
  end.

(** [handleToonToJson()]: any exception ends in the fixed message. *)
Definition handleToonToJson (stack : nat) (p : Page) : Page :=
  let failed :=
    mkPage (jsonInput p) (toonInput p) (converter p) (mapping p)
           (Some "Failed to parse TOON. Ensure format is correct.") in
  match toonToJson_in stack (toonInput p) (converter p) with
  | Some result =>
      match JSON_parse result with
      | Some parsed =>
          match JSON_stringify_in stack parsed with
          | Some formatted =>
              updateMapping
                (mkPage formatted (toonInput p) (converter p) (mapping p) None)
          | None => failed
          end
      | None => failed
      end
  | None => failed
  end.

(** The events of the page that change its state: typing in or clearing
    one of the two panes, and the two buttons. *)
Inductive Event : Type :=
| SetJsonInput (text : string)
| SetToonInput (text : string)
| ClickJsonToToon
| ClickToonToJson.

Definition step (stack : nat) (p : Page) (e : Event) : Page :=
  match e with
  | SetJsonInput text => mkPage text (toonInput p) (converter p) (mapping p) (error p)
  | SetToonInput text => mkPage (jsonInput p) text (converter p) (mapping p) (error p)
  | ClickJsonToToon => handleJsonToToon stack p
  | ClickToonToJson => handleToonToJson stack p
  end.

(** The page after a sequence of events. *)
Definition run (stack : nat) (events : list Event) : Page :=
  foldl (step stack) initialPage events.

End ConverterPage.

(** ** Facts about the runtime primitives *)

Section StringFacts.

Lemma append_assoc (a b c : string) : (a ++ b) ++ c = a ++ (b ++ c).
Proof. induction a as [|x a IH]; simpl; [done | by rewrite IH]. Qed.

Lemma append_nil_r (a : string) : a ++ "" = a.
Proof. induction a as [|x a IH]; simpl; [done | by rewrite IH]. Qed.

Lemma length_append (a b : string) :
  String.length (a ++ b) = (String.length a + String.length b)%nat.
Proof. induction a as [|x a IH]; simpl; [done | by rewrite IH]. Qed.

End StringFacts.

Section DigitFacts.

Lemma span_digits_uint (d : Decimal.uint) (r : string) :
  span_digits (NilEmpty.string_of_uint d ++ r)
  = ((uint_values d ++ (span_digits r).1)%list, (span_digits r).2).
Proof.
  induction d; simpl; try (rewrite IHd; reflexivity).
  by destruct (span_digits r).
Qed.

Lemma fold_horner_acc (d : Decimal.uint) (acc : positive) :
  fold_left (fun a x => 10 * a + x) (uint_values d) (Z.pos acc)
  = Z.pos (Pos.of_uint_acc d acc).
Proof.
  revert acc; induction d; intros acc; simpl; try done;
    rewrite <- IHd; f_equal; lia.
Qed.

Lemma horner_uint (d : Decimal.uint) :
  horner 10 (uint_values d) = Z.of_N (N.of_uint d).
Proof.
  unfold horner, N.of_uint.
  induction d; simpl; try done; apply fold_horner_acc.
Qed.

Lemma to_uint_nonnil (n : N) : N.to_uint n ≠ Decimal.Nil.
Proof. destruct n; simpl; [done | apply Unsigned.to_uint_nonnil]. Qed.

Lemma digits_of_eq (n : Z) :
  digits_of n = NilEmpty.string_of_uint (N.to_uint (Z.to_N n)).
Proof.
  unfold digits_of, NilZero.string_of_uint.
  pose proof (to_uint_nonnil (Z.to_N n)). by destruct (N.to_uint (Z.to_N n)).
Qed.

Lemma span_digits_of (n : Z) (r : string) :
  span_digits (digits_of n ++ r)
  = ((digit_values n ++ (span_digits r).1)%list, (span_digits r).2).
Proof. rewrite digits_of_eq. apply span_digits_uint. Qed.

Lemma horner_digit_values (n : Z) : 0 <= n -> horner 10 (digit_values n) = n.
Proof.
  intros Hn. unfold digit_values. rewrite horner_uint, DecimalN.Unsigned.of_to. lia.
Qed.

Lemma digit_values_nonnil (n : Z) : digit_values n ≠ [].
Proof.
  unfold digit_values. pose proof (to_uint_nonnil (Z.to_N n)).
  by destruct (N.to_uint (Z.to_N n)).
Qed.

Lemma Z_toString_nonneg (n : Z) : 0 <= n -> Z_toString n = digits_of n.
Proof.
  intros Hn. unfold Z_toString, digits_of. destruct n; try lia; reflexivity.
Qed.

Lemma Z_toString_neg (n : Z) : n < 0 -> Z_toString n = String "-" (digits_of (- n)).
Proof.
  intros Hn. unfold Z_toString, digits_of. destruct n; try lia; reflexivity.
Qed.

(** The first character of a digit string is a digit. *)
Lemma digits_of_head (n : Z) :
  ∃ c s d, digits_of n = String c s ∧ digit_of c = Some d.
Proof.
  rewrite digits_of_eq. pose proof (to_uint_nonnil (Z.to_N n)) as H.
  destruct (N.to_uint (Z.to_N n)); try done; simpl; eauto.
Qed.

Lemma digit_not_space (c : ascii) (d : Z) : digit_of c = Some d -> isWhiteSpace c = false.
Proof.
  unfold digit_of, isWhiteSpace. intros H.
  destruct (48 <=? nat_of_ascii c)%nat eqn:E1; [|done].
  destruct (nat_of_ascii c <=? 57)%nat eqn:E2; [|done].
  apply Nat.leb_le in E1, E2.
  repeat (rewrite ?orb_false_iff, ?andb_false_iff, ?Nat.leb_gt, ?Nat.eqb_neq). lia.
Qed.

Lemma digit_not_sign (c : ascii) (d : Z) :
  digit_of c = Some d -> Ascii.eqb c "-" = false ∧ Ascii.eqb c "+" = false.
Proof.
  intros H. split; apply Ascii.eqb_neq; intros ->; vm_compute in H; done.
Qed.

Lemma horner_cons0 (ds : list Z) : horner 10 (0 :: ds) = horner 10 ds.
Proof. reflexivity. Qed.

Lemma parseInt10_digits (s : string) (ds : list Z) (c : ascii) (d : Z) (r : string) :
  s = String c r -> digit_of c = Some d -> span_digits s = (ds, "") ->
  parseInt10 s = Some (horner 10 ds).
Proof.
  intros -> Hd Hs. unfold parseInt10. cbn [trimStart].
  rewrite (digit_not_space _ _ Hd).
  destruct (digit_not_sign _ _ Hd) as [-> ->].
  rewrite Hs. destruct ds; [|done].
  simpl in Hs. rewrite Hd in Hs. by destruct (span_digits r).
Qed.

Lemma parseInt10_minus (s : string) :
  parseInt10 (String "-" s)
  = match span_digits s with
    | ([], _) => None
    | (ds, _) => Some (- horner 10 ds)
    end.
Proof. reflexivity. Qed.

Lemma digits_of_length (n : Z) : (1 <= String.length (digits_of n))%nat.
Proof. destruct (digits_of_head n) as (c & s & d & -> & _). simpl. lia. Qed.

(** [parseInt] reads back the token minted from a counter value. *)
Lemma parseInt10_token (n : Z) : parseInt10 (padStart2 (Z_toString n)) = Some n.
Proof.
  destruct (Z_lt_le_dec n 0) as [Hn|Hn].
  - rewrite (Z_toString_neg _ Hn). unfold padStart2.
    pose proof (digits_of_length (- n)).
    replace (2 - String.length (String "-" (digits_of (- n))))%nat with 0%nat
      by (simpl; lia).
    change (parseInt10 (String "-" (digits_of (- n))) = Some n).
    rewrite parseInt10_minus.
    pose proof (span_digits_of (- n) "") as Hs. rewrite append_nil_r in Hs.
    rewrite Hs. cbn [span_digits fst snd]. rewrite app_nil_r.
    pose proof (digit_values_nonnil (- n)).
    destruct (digit_values (- n)) eqn:E; [done|].
    rewrite <- E, horner_digit_values by lia. f_equal; lia.
  - rewrite (Z_toString_nonneg _ Hn). unfold padStart2.
    pose proof (span_digits_of n "") as Hs. rewrite append_nil_r in Hs.
    cbn in Hs. rewrite app_nil_r in Hs.
    destruct (digits_of_head n) as (c & s & d & E & Hd).
    destruct (2 - String.length (digits_of n))%nat as [|[|k]] eqn:El.
    + cbn. rewrite (parseInt10_digits _ _ _ _ _ E Hd Hs).
      by rewrite horner_digit_values.
    + cbn. erewrite (parseInt10_digits (String "0" (digits_of n)) (0 :: digit_values n));
        [| reflexivity | reflexivity |].
      * by rewrite horner_cons0, horner_digit_values.
      * cbn. by rewrite Hs.
    + pose proof (digits_of_length n). lia.
Qed.

Lemma token_nonempty (n : Z) : padStart2 (Z_toString n) ≠ "".
Proof.
  intros H. pose proof (parseInt10_token n) as P. rewrite H in P. done.
Qed.

Lemma token_inj (n m : Z) :
  padStart2 (Z_toString n) = padStart2 (Z_toString m) -> n = m.
Proof.
  intros H. pose proof (parseInt10_token n) as P. rewrite H, parseInt10_token in P.
  congruence.
Qed.

End DigitFacts.

(** ** The token dictionary *)

Section DictionaryFacts.

Lemma truthy_Some (o : option string) :
  truthy o = true <-> ∃ s, o = Some s ∧ s ≠ "".
Proof.
  destruct o as [s|]; simpl.
  - rewrite negb_true_iff, String.eqb_neq. split; [eauto|]. by intros (? & [= <-] & ?).
  - split; [done|]. by intros (? & ? & _).
Qed.

(** *** Property reads and writes *)

Lemma prototype_member_truthy (name s : string) :
  prototype_member name = Some s -> s ≠ "".
Proof.
  unfold prototype_member. destruct (String.eqb name "__proto__"); [by intros [= <-]|].
  destruct (String.eqb name "constructor"); [by intros [= <-]|].
  destruct (bool_decide _); [by intros [= <-]|done].
Qed.

Lemma prototype_member_names (name : string) :
  prototype_member name = None <-> name ∉ prototype_names.
Proof.
  unfold prototype_member. split.
  - destruct (String.eqb name "__proto__"); [done|].
    destruct (String.eqb name "constructor"); [done|].
    case_bool_decide; done.
  - intros H. destruct (String.eqb_spec name "__proto__") as [->|_].
    { exfalso. apply H. apply (bool_decide_unpack _). vm_compute. exact I. }
    destruct (String.eqb_spec name "constructor") as [->|_].
    { exfalso. apply H. apply (bool_decide_unpack _). vm_compute. exact I. }
    by rewrite bool_decide_eq_false_2.
Qed.

Lemma get_property_own (obj : gmap string string) (name v : string) :
  obj !! name = Some v -> get_property obj name = Some v.
Proof. unfold get_property. by intros ->. Qed.

Lemma get_property_plain (obj : gmap string string) (name : string) :
  prototype_member name = None -> get_property obj name = obj !! name.
Proof. unfold get_property. intros ->. by destruct (obj !! name). Qed.

Lemma get_property_insert_ne (obj : gmap string string) (name name' v : string) :
  name ≠ name' -> get_property (<[name := v]> obj) name' = get_property obj name'.
Proof. intros H. unfold get_property. by rewrite lookup_insert_ne. Qed.

Lemma get_property_insert (obj : gmap string string) (name v : string) :
  get_property (<[name := v]> obj) name = Some v.
Proof. unfold get_property. by rewrite lookup_insert_eq. Qed.

(** A read is falsy when the object has no such property, its own or
    inherited, or when its own property is the empty string. *)
Lemma get_property_falsy (obj : gmap string string) (name : string) :
  truthy (get_property obj name) = false ->
  (obj !! name = None ∧ prototype_member name = None) ∨ obj !! name = Some "".
Proof.
  unfold get_property. destruct (obj !! name) as [v|] eqn:E.
  - simpl. intros H%negb_false_iff%String.eqb_eq. subst. by right.
  - destruct (prototype_member name) as [s|] eqn:Ep; [|by left].
    simpl. intros H%negb_false_iff%String.eqb_eq. subst.
    by destruct (prototype_member_truthy _ _ Ep).
Qed.

Lemma set_property_insert (name v : string) (obj : gmap string string) :
  name ≠ "__proto__" ∨ is_Some (obj !! name) ->
  set_property name v obj = <[name := v]> obj.
Proof.
  unfold set_property. intros [H|[x H]].
  - apply String.eqb_neq in H. by rewrite H.
  - rewrite H. by rewrite bool_decide_eq_false_2, andb_false_r.
Qed.

Lemma set_property_falsy (name v : string) (obj : gmap string string) :
  truthy (get_property obj name) = false ->
  set_property name v obj = <[name := v]> obj.
Proof.
  intros [[_ H]|H]%get_property_falsy; apply set_property_insert.
  - left. intros ->. done.
  - right. by rewrite H.
Qed.

(** A minted token is the name of no member of [Object.prototype]. *)
Lemma token_not_inherited (n : Z) : prototype_member (padStart2 (Z_toString n)) = None.
Proof.
  apply prototype_member_names. intros H.
  pose proof (parseInt10_token n) as P.
  unfold prototype_names in H. repeat (apply elem_of_cons in H as [H|H];
    [rewrite H in P; vm_compute in P; discriminate P|]).
  by apply elem_of_nil in H.
Qed.

Lemma set_property_token (n : Z) (k : string) (obj : gmap string string) :
  set_property (padStart2 (Z_toString n)) k obj = <[padStart2 (Z_toString n) := k]> obj.
Proof.
  apply set_property_insert. left. intros H.
  pose proof (token_not_inherited n) as P. by rewrite H in P.
Qed.

(** *** [getToken] *)

Lemma getToken_hit (k : string) (c : ToonConverter) (t : string) :
  get_property (keyToToken c) k = Some t -> t ≠ "" -> getToken k c = (t, c).
Proof.
  intros H Ht. unfold getToken. rewrite H. simpl.
  apply String.eqb_neq in Ht. by rewrite Ht.
Qed.

Lemma getToken_own (k : string) (c : ToonConverter) (t : string) :
  keyToToken c !! k = Some t -> t ≠ "" -> getToken k c = (t, c).
Proof. intros H. apply getToken_hit. by apply get_property_own. Qed.

Lemma getToken_miss (k : string) (c : ToonConverter) :
  truthy (get_property (keyToToken c) k) = false ->
  getToken k c =
    (padStart2 (Z_toString (nextTokenId c)),
     mkConverter (<[k := padStart2 (Z_toString (nextTokenId c))]> (keyToToken c))
                 (<[padStart2 (Z_toString (nextTokenId c)) := k]> (tokenToKey c))
                 (nextTokenId c + 1)).
Proof.
  intros H. unfold getToken. rewrite H.
  by rewrite set_property_token, set_property_falsy.
Qed.

(** A key without an entry that is no name of [Object.prototype] is a
    miss. *)
Lemma getToken_new (k : string) (c : ToonConverter) :
  keyToToken c !! k = None -> prototype_member k = None ->
  truthy (get_property (keyToToken c) k) = false.
Proof. intros H Hp. unfold get_property. by rewrite H, Hp. Qed.

(** The token returned is the one the key reads afterwards, and it is
    not empty. *)
Lemma getToken_registered (k : string) (c : ToonConverter) :
  get_property (keyToToken (getToken k c).2) k = Some (getToken k c).1
  ∧ (getToken k c).1 ≠ "".
Proof.
  destruct (truthy (get_property (keyToToken c) k)) eqn:E.
  - apply truthy_Some in E as (t & Ht & Hne). by rewrite (getToken_hit _ _ _ Ht Hne).
  - rewrite (getToken_miss _ _ E). simpl. rewrite get_property_insert.
    split; [done | apply token_nonempty].
Qed.

(** For a key with an entry, or one that is no name of
    [Object.prototype], the token returned is an entry of the
    dictionary. *)
Lemma getToken_entry (k : string) (c : ToonConverter) :
  (keyToToken c !! k = None -> prototype_member k = None) ->
  keyToToken (getToken k c).2 !! k = Some (getToken k c).1.
Proof.
  intros Hk. destruct (truthy (get_property (keyToToken c) k)) eqn:E.
  - apply truthy_Some in E as (t & Ht & Hne). rewrite (getToken_hit _ _ _ Ht Hne).
    simpl. unfold get_property in Ht. destruct (keyToToken c !! k) as [t'|]; [done|].
    by rewrite Hk in Ht.
  - rewrite (getToken_miss _ _ E). simpl. by rewrite lookup_insert_eq.
Qed.

(** A second call changes nothing and returns the same token. *)
Lemma getToken_again (k : string) (c : ToonConverter) :
  getToken k (getToken k c).2 = getToken k c.
Proof.
  destruct (getToken_registered k c) as [H Hne].
  rewrite (getToken_hit _ _ _ H Hne). by destruct (getToken k c).
Qed.

Lemma getToken_counter_above (k : string) (c : ToonConverter) :
  counter_above c -> counter_above (getToken k c).2.
Proof.
  intros Hc. destruct (truthy (get_property (keyToToken c) k)) eqn:E.
  - apply truthy_Some in E as (t & Ht & Hne). by rewrite (getToken_hit _ _ _ Ht Hne).
  - rewrite (getToken_miss _ _ E). intros t k' n. simpl.
    rewrite lookup_insert. case_decide as Heq.
    + intros _. rewrite <- Heq, parseInt10_token. intros [= <-]. lia.
    + intros H1 H2. specialize (Hc _ _ _ H1 H2). lia.
Qed.

(** The token about to be minted is in use for no key. *)
Lemma next_token_unused (c : ToonConverter) :
  counter_above c -> tokenToKey c !! padStart2 (Z_toString (nextTokenId c)) = None.
Proof.
  intros Hc. destruct (tokenToKey c !! _) as [k|] eqn:E; [|done].
  specialize (Hc _ _ _ E (parseInt10_token _)). lia.
Qed.

Lemma getToken_keeps_tokens (k : string) (c : ToonConverter) (t k' : string) :
  counter_above c -> tokenToKey c !! t = Some k' ->
  tokenToKey (getToken k c).2 !! t = Some k'.
Proof.
  intros Hc H. destruct (truthy (get_property (keyToToken c) k)) eqn:E.
  - apply truthy_Some in E as (t' & Ht & Hne). by rewrite (getToken_hit _ _ _ Ht Hne).
  - rewrite (getToken_miss _ _ E). simpl. rewrite lookup_insert_ne; [done|].
    intros <-. rewrite (next_token_unused _ Hc) in H. done.
Qed.

Lemma getToken_inverse_of (k : string) (c : ToonConverter) :
  counter_above c -> inverse_of c -> inverse_of (getToken k c).2.
Proof.
  intros Hc Hi. destruct (truthy (get_property (keyToToken c) k)) eqn:E.
  - apply truthy_Some in E as (t' & Ht & Hne). by rewrite (getToken_hit _ _ _ Ht Hne).
  - rewrite (getToken_miss _ _ E). intros k' t. simpl.
    rewrite lookup_insert. case_decide as Heq.
    + intros [= <-]. subst k'. by rewrite lookup_insert_eq.
    + intros H. rewrite lookup_insert_ne; [by apply Hi|].
      intros <-. apply Hi in H. rewrite (next_token_unused _ Hc) in H. done.
Qed.

(** *** The constructor *)

Lemma fold_insert_lookup {A} (f g : A -> string) (l : list A)
    (acc : gmap string string) (x y : string) :
  fold_left (fun acc a => <[f a := g a]> acc) l acc !! x = Some y ->
  (∃ a, a ∈ l ∧ f a = x ∧ g a = y) ∨ acc !! x = Some y.
Proof.
  revert acc. induction l as [|a l IH]; intros acc; simpl; [by right|].
  intros H. apply IH in H as [(b & Hb & <- & <-)|H].
  - left. exists b. set_solver.
  - rewrite lookup_insert in H. case_decide as Heq.
    + left. exists a. simplify_eq. set_solver.
    + by right.
Qed.

Lemma fold_insert_notin {A} (f g : A -> string) (l : list A)
    (acc : gmap string string) (x : string) :
  x ∉ f <$> l ->
  fold_left (fun acc a => <[f a := g a]> acc) l acc !! x = acc !! x.
Proof.
  revert acc. induction l as [|a l IH]; intros acc; simpl; [done|].
  intros H. apply not_elem_of_cons in H as [H1 H2].
  rewrite IH by done. by rewrite lookup_insert_ne.
Qed.

Lemma fold_insert_NoDup {A} (f g : A -> string) (l : list A)
    (acc : gmap string string) (a : A) :
  NoDup (f <$> l) -> a ∈ l ->
  fold_left (fun acc a => <[f a := g a]> acc) l acc !! f a = Some (g a).
Proof.
  revert acc. induction l as [|b l IH]; intros acc Hnd Hin; simpl.
  - by apply elem_of_nil in Hin.
  - apply NoDup_cons in Hnd as [Hb Hnd]. apply elem_of_cons in Hin as [->|Hin].
    + rewrite fold_insert_notin by done. apply lookup_insert_eq.
    + by apply IH.
Qed.

(** The reducer of the constructor registers every token but
    [__proto__]. *)
Lemma fold_set_property (l : TokenMap) (acc : gmap string string) :
  acc !! "__proto__" = None ->
  fold_left (fun acc kv => set_property kv.2 kv.1 acc) l acc
  = fold_left (fun acc kv => <[kv.2 := kv.1]> acc)
              (filter (fun kv : string * string => kv.2 ≠ "__proto__") l) acc.
Proof.
  revert acc. induction l as [|[k t] l IH]; intros acc Hacc; [done|].
  cbn [fold_left fst snd]. destruct (decide (t = "__proto__")) as [->|Ht].
  - rewrite (filter_cons_False (fun kv : string * string => kv.2 ≠ "__proto__"))
      by (cbn [snd]; by intros []).
    assert (set_property "__proto__" k acc = acc) as ->.
    { unfold set_property. by rewrite Hacc. }
    by apply IH.
  - rewrite (filter_cons_True (fun kv : string * string => kv.2 ≠ "__proto__")) by done.
    cbn [fold_left fst snd].
    rewrite set_property_insert by (by left). apply IH.
    by rewrite lookup_insert_ne.
Qed.

Lemma constructor_keyToToken (m : TokenMap) (k t : string) :
  NoDup m.*1 -> keyToToken (constructor m) !! k = Some t <-> (k, t) ∈ m.
Proof.
  intros Hnd. simpl. split.
  - intros H. apply (fold_insert_lookup fst snd) in H as [((k', t') & Hin & Hk & Ht)|H].
    + simpl in *. by subst.
    + by rewrite lookup_empty in H.
  - intros H. apply (fold_insert_NoDup fst snd m ∅ (k, t) Hnd H).
Qed.

Lemma constructor_tokenToKey (m : TokenMap) (k t : string) :
  tokenToKey (constructor m) !! t = Some k -> (k, t) ∈ m ∧ t ≠ "__proto__".
Proof.
  simpl. rewrite fold_set_property by done. intros H.
  apply (fold_insert_lookup snd fst) in H as [((k', t') & Hin & Hk & Ht)|H].
  - simpl in *. subst. by apply list_elem_of_filter in Hin as [? ?].
  - by rewrite lookup_empty in H.
Qed.

Lemma constructor_tokenToKey_NoDup (m : TokenMap) (k t : string) :
  NoDup m.*2 -> (k, t) ∈ m -> t ≠ "__proto__" ->
  tokenToKey (constructor m) !! t = Some k.
Proof.
  intros Hnd H Ht. simpl. rewrite fold_set_property by done.
  apply (fold_insert_NoDup snd fst _ ∅ (k, t)).
  - eapply sublist_NoDup; [exact Hnd|]. apply fmap_sublist, sublist_filter.
  - by apply list_elem_of_filter.
Qed.

Lemma fold_max_ge (l : list Z) (b : Z) :
  b <= fold_left Z.max l b ∧ forall x, x ∈ l -> x <= fold_left Z.max l b.
Proof.
  revert b. induction l as [|c l IH]; intros b; simpl.
  - split; [lia | by intros x ?%elem_of_nil].
  - destruct (IH (Z.max b c)) as [H1 H2]. split; [lia|].
    intros x [->|H]%elem_of_cons; [lia | by apply H2].
Qed.

Lemma Math_max_ge (l : list Z) (x : Z) : x ∈ l -> x <= Math_max l.
Proof.
  destruct l as [|a l]; [by intros ?%elem_of_nil|]. simpl.
  destruct (fold_max_ge l a) as [H1 H2].
  intros [->|H]%elem_of_cons; [done | by apply H2].
Qed.

Lemma constructor_counter_above (m : TokenMap) :
  NoDup m.*1 -> counter_above (constructor m).
Proof.
  intros Hnd t k n Ht Hn. apply constructor_tokenToKey in Ht as [Ht _].
  apply (constructor_keyToToken _ _ _ Hnd) in Ht.
  assert (Hin : n ∈ omap parseInt10 (map_to_list (keyToToken (constructor m))).*2).
  { apply list_elem_of_omap. exists t. split; [|done].
    apply list_elem_of_fmap. exists (k, t). split; [done|].
    by apply elem_of_map_to_list. }
  unfold constructor at 1. cbn [nextTokenId].
  change (fold_left _ m ∅) with (keyToToken (constructor m)).
  destruct (omap parseInt10 _) eqn:E; [|apply Math_max_ge in Hin; lia].
  by apply elem_of_nil in Hin.
Qed.

Lemma reachable_counter_above (c : ToonConverter) : reachable c -> counter_above c.
Proof.
  induction 1 as [m Hnd|k c _ IH].
  - by apply constructor_counter_above.
  - by apply getToken_counter_above.
Qed.

Lemma getTokens_cons (k : string) (ks : list string) (c : ToonConverter) :
  getTokens (k :: ks) c = getTokens ks (getToken k c).2.
Proof. reflexivity. Qed.

Lemma getTokens_reachable (ks : list string) (c : ToonConverter) :
  reachable c -> reachable (getTokens ks c).
Proof.
  revert c. induction ks as [|k ks IH]; intros c Hc; [exact Hc|].
  rewrite getTokens_cons. apply IH. by constructor.
Qed.

Lemma getTokens_keep_tokens (ks : list string) (c : ToonConverter) (t k : string) :
  counter_above c -> tokenToKey c !! t = Some k ->
  tokenToKey (getTokens ks c) !! t = Some k.
Proof.
  revert c. induction ks as [|k' ks IH]; intros c Hc H; [exact H|].
  rewrite getTokens_cons. apply IH.
  - by apply getToken_counter_above.
  - by apply getToken_keeps_tokens.
Qed.

(** The tokens minted by a run are the consecutive counter values. *)
Lemma minted_consecutive (ks : list string) (c : ToonConverter) :
  ∃ len : nat,
    minted ks c = (fun n => padStart2 (Z_toString n)) <$> seqZ (nextTokenId c) (Z.of_nat len).
Proof.
  revert c. induction ks as [|k ks IH]; intros c.
  - by exists 0%nat.
  - simpl. destruct (truthy (get_property (keyToToken c) k)) eqn:E.
    + apply truthy_Some in E as (t & Ht & Hne).
      rewrite (getToken_hit _ _ _ Ht Hne). apply IH.
    + rewrite (getToken_miss _ _ E). cbn [fst snd].
      destruct (IH (mkConverter (<[k:=padStart2 (Z_toString (nextTokenId c))]> (keyToToken c))
                     (<[padStart2 (Z_toString (nextTokenId c)):=k]> (tokenToKey c))
                     (nextTokenId c + 1))) as [len ->].
      exists (S len). cbn [nextTokenId].
      rewrite Nat2Z.inj_succ, (seqZ_cons (nextTokenId c)) by lia. rewrite fmap_cons.
      do 3 f_equal; lia.
Qed.

Lemma minted_increasing (ks : list string) (c : ToonConverter)
    (i j : nat) (t1 t2 : string) :
  (i < j)%nat -> minted ks c !! i = Some t1 -> minted ks c !! j = Some t2 ->
  ∃ n1 n2, parseInt10 t1 = Some n1 ∧ parseInt10 t2 = Some n2 ∧ n1 < n2.
Proof.
  intros Hij. destruct (minted_consecutive ks c) as [len ->].
  rewrite !list_lookup_fmap.
  intros (n1 & H1 & ->)%fmap_Some (n2 & H2 & ->)%fmap_Some.
  apply lookup_seqZ in H1 as [-> _]. apply lookup_seqZ in H2 as [-> _].
  exists (nextTokenId c + Z.of_nat i), (nextTokenId c + Z.of_nat j).
  rewrite !parseInt10_token. repeat split; lia.
Qed.

Lemma getToken_tokens_nonempty (k : string) (c : ToonConverter) :
  tokens_nonempty c -> tokens_nonempty (getToken k c).2.
Proof.
  intros Hn. destruct (truthy (get_property (keyToToken c) k)) eqn:E.
  - apply truthy_Some in E as (t' & Ht & Hne). by rewrite (getToken_hit _ _ _ Ht Hne).
  - rewrite (getToken_miss _ _ E). unfold tokens_nonempty. simpl.
    rewrite lookup_insert_ne; [done | apply token_nonempty].
Qed.

Lemma getToken_converse_of (k : string) (c : ToonConverter) :
  tokens_nonempty c -> converse_of c -> converse_of (getToken k c).2.
Proof.
  intros Hn Hi. destruct (truthy (get_property (keyToToken c) k)) eqn:E.
  - apply truthy_Some in E as (t' & Ht & Hne). by rewrite (getToken_hit _ _ _ Ht Hne).
  - rewrite (getToken_miss _ _ E). intros t k'. simpl.
    rewrite lookup_insert. case_decide as Heq.
    + intros [= <-]. subst t. by rewrite lookup_insert_eq.
    + intros H. pose proof (Hi _ _ H) as H'. rewrite lookup_insert_ne; [done|].
      intros <-. rewrite (get_property_own _ _ _ H') in E. simpl in E.
      apply negb_false_iff, String.eqb_eq in E. subst t.
      unfold tokens_nonempty in Hn. congruence.
Qed.

Lemma getTokens_invariants (ks : list string) (c : ToonConverter) :
  counter_above c -> inverse_of c ->
  counter_above (getTokens ks c) ∧ inverse_of (getTokens ks c)
  ∧ (tokens_nonempty c -> converse_of c -> converse_of (getTokens ks c)).
Proof.
  revert c. induction ks as [|k ks IH]; intros c Hc Hi; [by repeat split|].
  rewrite getTokens_cons.
  destruct (IH (getToken k c).2) as (H1 & H2 & H3).
  - by apply getToken_counter_above.
  - by apply getToken_inverse_of.
  - repeat split; [done..|]. intros Hn Hv. apply H3.
    + by apply getToken_tokens_nonempty.
    + by apply getToken_converse_of.
Qed.

Lemma Math_max_in (l : list Z) : l ≠ [] -> Math_max l ∈ l.
Proof.
  destruct l as [|a l]; [done|]. intros _. simpl.
  assert (G : forall l b, fold_left Z.max l b = b ∨ fold_left Z.max l b ∈ l).
  { clear. induction l as [|c l IH]; intros b; simpl; [by left|].
    destruct (IH (Z.max b c)) as [->|H].
    - destruct (Z.max_spec b c) as [[_ ->]|[_ ->]]; [right; left | by left].
    - right. by right. }
  destruct (G l a) as [->|H]; [left | by right].
Qed.

Lemma constructor_values (m : TokenMap) (t : string) :
  NoDup m.*1 -> t ∈ (map_to_list (keyToToken (constructor m))).*2 <-> t ∈ m.*2.
Proof.
  intros Hnd. rewrite !list_elem_of_fmap. split.
  - intros ([k t'] & -> & H). apply elem_of_map_to_list in H.
    apply constructor_keyToToken in H; [|done]. by exists (k, t').
  - intros ([k t'] & -> & H). exists (k, t'). split; [done|].
    apply elem_of_map_to_list. by apply constructor_keyToToken.
Qed.

End DictionaryFacts.

(** C5.  [getToken] reads [keyToToken[key]] with the members of
    [Object.prototype] in view.  The key [constructor] has no entry in a
    new converter, and yet the read is truthy: [getToken] returns the
    inherited member (here the text the encoder writes for it), mints no
    token and adds no entry to either map; the encoder writes that text
    where the token should be, and the decoder does not give the key
    back. *)
Theorem getToken_inherited_name :
  keyToToken (constructor []) !! "constructor" = None
  ∧ getToken "constructor" (constructor [])
    = ("function Object() { [native code] }", constructor [])
  ∧ size (keyToToken (getToken "constructor" (constructor [])).2) = 0%nat
  ∧ size (tokenToKey (getToken "constructor" (constructor [])).2) = 0%nat
  ∧ nextTokenId (getToken "constructor" (constructor [])).2 = 1
  ∧ jsonToToon (JObj [("constructor", JNum (Finite 1 0))]) (constructor [])
    = Returned "function Object() { [native code] }: 1" (constructor [])
  ∧ toonToJson_value "function Object() { [native code] }: 1" (constructor [])
    = Some (JObj [("UNKNOWN_function Object() { [native code] }", JNum (Finite 1 0))]).
Proof. repeat split; vm_compute; reflexivity. Qed.

(** What C5 says of every key holds of the keys that have an entry or are
    no names of members of [Object.prototype], while the counter is a safe
    integer: a second call returns the token of the first and changes
    nothing, the token is the entry of the key, and a key without an
    entry adds one entry to each map. *)
Lemma getToken_twice (c : ToonConverter) (k : string) :
  reachable c -> safe_counter (nextTokenId c) ->
  getToken k (getToken k c).2 = ((getToken k c).1, (getToken k c).2)
  ∧ ((keyToToken c !! k = None -> prototype_member k = None) ->
     keyToToken (getToken k c).2 !! k = Some (getToken k c).1)
  ∧ (keyToToken c !! k = None -> prototype_member k = None ->
     size (keyToToken (getToken k c).2) = S (size (keyToToken c))
     ∧ size (tokenToKey (getToken k c).2) = S (size (tokenToKey c))
     ∧ tokenToKey (getToken k c).2 !! (getToken k c).1 = Some k).
Proof.
  intros Hr _. rewrite getToken_again.
  split; [by destruct (getToken k c)|]. split; [apply getToken_entry|].
  intros Hk Hp. rewrite getToken_miss by (by apply getToken_new). simpl.
  repeat split.
  - by apply map_size_insert_None.
  - apply map_size_insert_None. by apply next_token_unused, reachable_counter_above.
  - apply lookup_insert_eq.
Qed.

(** C6, as stated, fails: the constructor accepts an initial map in which
    two keys share a token, and then [tokenToKey] is not the inverse of
    [keyToToken]. *)
Lemma shared_seed_token_breaks_inverse :
  NoDup ([("a", "01"); ("b", "01")] : TokenMap).*1
  ∧ ¬ (forall k t,
         keyToToken (constructor [("a", "01"); ("b", "01")]) !! k = Some t ->
         tokenToKey (constructor [("a", "01"); ("b", "01")]) !! t = Some k).
Proof.
  split.
  - apply (bool_decide_unpack _). vm_compute. exact I.
  - intros H. specialize (H "a" "01" eq_refl). vm_compute in H. discriminate H.
Qed.

(** The constructor does not register the token [__proto__]: the write
    [acc[v] = k] reaches the setter of [Object.prototype], and [getKey]
    then reads [Object.prototype] itself. *)
Lemma proto_seed_token_is_not_registered :
  keyToToken (constructor [("a", "__proto__")]) !! "a" = Some "__proto__"
  ∧ tokenToKey (constructor [("a", "__proto__")]) !! "__proto__" = None
  ∧ getKey "__proto__" (constructor [("a", "__proto__")]) = "[object Object]".
Proof. repeat split; vm_compute; reflexivity. Qed.

(** C6, amended.  For a converter built from an initial map whose tokens
    are pairwise distinct and not [__proto__] (the default empty map is
    one), in every state [c] reached by calls of [getToken], as long as
    the counter is a safe integer: the counter starts at 1 when no seeded
    token is numeric and otherwise one above the largest numeric seeded
    token; it exceeds the numeric value of every token in use;
    [tokenToKey] sends the token of every key back to the key, so no two
    keys share a token; when no seeded token is empty the two maps are
    exact inverses; a token in use keeps its key for ever; and the tokens
    minted afterwards are strictly increasing in numeric value. *)
Theorem dictionary_invariants (initialMap : TokenMap) (ks ks' : list string) :
  NoDup initialMap.*1 -> NoDup initialMap.*2 -> "__proto__" ∉ initialMap.*2 ->
  safe_counter (nextTokenId (constructor initialMap)) ->
  safe_counter (nextTokenId (getTokens ks' (getTokens ks (constructor initialMap)))) ->
  ((forall t, t ∈ initialMap.*2 -> parseInt10 t = None) ->
     nextTokenId (constructor initialMap) = 1)
  ∧ (forall t n, t ∈ initialMap.*2 -> parseInt10 t = Some n ->
       n < nextTokenId (constructor initialMap)
       ∧ ∃ t', t' ∈ initialMap.*2
               ∧ parseInt10 t' = Some (nextTokenId (constructor initialMap) - 1))
  ∧ (forall t k n, tokenToKey (getTokens ks (constructor initialMap)) !! t = Some k ->
       parseInt10 t = Some n -> n < nextTokenId (getTokens ks (constructor initialMap)))
  ∧ (forall k t, keyToToken (getTokens ks (constructor initialMap)) !! k = Some t ->
       tokenToKey (getTokens ks (constructor initialMap)) !! t = Some k)
  ∧ (forall k1 k2 t,
       keyToToken (getTokens ks (constructor initialMap)) !! k1 = Some t ->
       keyToToken (getTokens ks (constructor initialMap)) !! k2 = Some t -> k1 = k2)
  ∧ ((forall t, t ∈ initialMap.*2 -> t ≠ "") ->
     forall t k, tokenToKey (getTokens ks (constructor initialMap)) !! t = Some k ->
       keyToToken (getTokens ks (constructor initialMap)) !! k = Some t)
  ∧ (forall t k, tokenToKey (getTokens ks (constructor initialMap)) !! t = Some k ->
       tokenToKey (getTokens ks' (getTokens ks (constructor initialMap))) !! t = Some k)
  ∧ (forall i j t1 t2, (i < j)%nat ->
       minted ks' (getTokens ks (constructor initialMap)) !! i = Some t1 ->
       minted ks' (getTokens ks (constructor initialMap)) !! j = Some t2 ->
       ∃ n1 n2, parseInt10 t1 = Some n1 ∧ parseInt10 t2 = Some n2 ∧ n1 < n2).
Proof.
  intros Hk Ht Hproto _ _.
  pose proof (constructor_counter_above _ Hk) as Hc0.
  assert (Hi0 : inverse_of (constructor initialMap)).
  { intros k t H. apply constructor_keyToToken in H; [|done].
    apply constructor_tokenToKey_NoDup; [done..|].
    intros ->. apply Hproto, list_elem_of_fmap. by exists (k, "__proto__"). }
  destruct (getTokens_invariants ks _ Hc0 Hi0) as (Hc & Hi & Hv).
  assert (Hids : forall n,
    n ∈ omap parseInt10 (map_to_list (keyToToken (constructor initialMap))).*2
    <-> ∃ t, t ∈ initialMap.*2 ∧ parseInt10 t = Some n).
  { intros n. rewrite list_elem_of_omap.
    split; intros (t & H1 & H2); exists t; split; try done;
      by apply (constructor_values _ _ Hk). }
  repeat split.
  - intros Hnone. unfold constructor. cbn [nextTokenId].
    change (fold_left _ initialMap ∅) with (keyToToken (constructor initialMap)).
    destruct (omap parseInt10 _) as [|n l] eqn:E; [done|].
    assert (Hn : n ∈ n :: l) by left.
    apply Hids in Hn as (t & H1 & H2). rewrite Hnone in H2; done.
  - assert (Hn : n ∈ omap parseInt10 (map_to_list (keyToToken (constructor initialMap))).*2)
      by (apply Hids; eauto).
    unfold constructor. cbn [nextTokenId].
    change (fold_left _ initialMap ∅) with (keyToToken (constructor initialMap)).
    destruct (omap parseInt10 _) as [|n' l] eqn:E; [by apply elem_of_nil in Hn|].
    apply Math_max_ge in Hn. lia.
  - assert (Hn : n ∈ omap parseInt10 (map_to_list (keyToToken (constructor initialMap))).*2)
      by (apply Hids; eauto).
    unfold constructor. cbn [nextTokenId].
    change (fold_left _ initialMap ∅) with (keyToToken (constructor initialMap)).
    destruct (omap parseInt10 _) as [|n' l] eqn:E; [by apply elem_of_nil in Hn|].
    assert (Hm : Math_max (n' :: l) ∈ n' :: l) by (by apply Math_max_in).
    apply Hids in Hm as (t' & H1 & H2).
    exists t'. split; [done|]. rewrite H2. f_equal. lia.
  - exact Hc.
  - exact Hi.
  - intros k1 k2 t H1 H2. apply Hi in H1, H2. congruence.
  - intros Hne. apply Hv.
    + unfold tokens_nonempty.
      destruct (tokenToKey (constructor initialMap) !! "") as [k|] eqn:E; [|done].
      apply constructor_tokenToKey in E as [E _]. exfalso. apply (Hne ""); [|done].
      apply list_elem_of_fmap. by exists (k, "").
    + intros t k H. apply constructor_keyToToken; [done|].
      by apply constructor_tokenToKey in H as [H _].
  - intros t k. by apply getTokens_keep_tokens.
  - intros i j t1 t2. apply minted_increasing.
Qed.

Lemma dictionary_invariants_witness :
  NoDup ([("name", "01")] : TokenMap).*1 ∧ NoDup ([("name", "01")] : TokenMap).*2
  ∧ forall k t,
      keyToToken (getTokens ["level"] (constructor [("name", "01")])) !! k = Some t ->
      tokenToKey (getTokens ["level"] (constructor [("name", "01")])) !! t = Some k.
Proof.
  assert (H1 : NoDup ([("name", "01")] : TokenMap).*1)
    by (apply (bool_decide_unpack _); vm_compute; exact I).
  assert (H2 : NoDup ([("name", "01")] : TokenMap).*2)
    by (apply (bool_decide_unpack _); vm_compute; exact I).
  assert (H3 : "__proto__" ∉ ([("name", "01")] : TokenMap).*2)
    by (apply (bool_decide_unpack _); vm_compute; exact I).
  assert (H4 : safe_counter (nextTokenId (constructor [("name", "01")])))
    by (vm_compute; split; discriminate).
  assert (H5 : safe_counter (nextTokenId
                 (getTokens ["speed"] (getTokens ["level"] (constructor [("name", "01")])))))
    by (vm_compute; split; discriminate).
  split; [exact H1 | split; [exact H2|]].
  exact (proj1 (proj2 (proj2 (proj2
           (dictionary_invariants [("name", "01")] ["level"] ["speed"] H1 H2 H3 H4 H5))))).
Defined.

(** ** Encoder and decoder on small documents *)



(** C2.  The encoder drops the literals of the empty containers: a root
    [[]] or [{}] yields the empty string, and after a key the line ends at
    the colon. *)
Theorem empty_containers_encode_to_nothing (c : ToonConverter) (k : string) :
  jsonToToon (JArr []) c = Returned "" c
  ∧ jsonToToon (JObj []) c = Returned "" c
  ∧ jsonToToon (JObj [(k, JArr [])]) c
    = Returned ((getToken k c).1 ++ ":") (getToken k c).2
  ∧ jsonToToon (JObj [(k, JObj [])]) c
    = Returned ((getToken k c).1 ++ ":") (getToken k c).2.
Proof.
  repeat split; try reflexivity;
    unfold jsonToToon; simpl; by destruct (getToken k c).
Qed.



(** C4.  [parseValue] has no case for the text ["null"]: it is no
    keyword and no number, so it is returned as a string. *)
Theorem parseValue_null_text :
  parseValue (Some "null") = JStr "null"
  ∧ toonToJson_value "01: null" (constructor []) = Some (JObj [("UNKNOWN_01", JStr "null")])
  ∧ jsonToToon (JObj [("a", JNull)]) (constructor [])
    = Returned "01: null" (getToken "a" (constructor [])).2
  ∧ toonToJson_value "01: null" (getToken "a" (constructor [])).2
    = Some (JObj [("a", JStr "null")]).
Proof. repeat split; vm_compute; reflexivity. Qed.

(** The cases of [parseValue] that C4 gets right. *)
Lemma parseValue_cases (s : string) :
  parseValue None = JNull
  ∧ (trim s = "yes" -> parseValue (Some s) = JBool true)
  ∧ (trim s = "no" -> parseValue (Some s) = JBool false)
  ∧ (trim s ≠ "yes" -> trim s ≠ "no" -> Number (trim s) ≠ NaN ->
     parseValue (Some s) = JNum (Number (trim s)))
  ∧ (trim s ≠ "yes" -> trim s ≠ "no" -> Number (trim s) = NaN ->
     parseValue (Some s) = JStr (trim s)).
Proof.
  unfold parseValue. repeat split.
  - by intros ->.
  - by intros ->.
  - intros H1%String.eqb_neq H2%String.eqb_neq H3. rewrite H1, H2.
    by destruct (Number (trim s)).
  - intros H1%String.eqb_neq H2%String.eqb_neq H3. by rewrite H1, H2, H3.
Qed.

(** C7.  A key that is the empty string is registered but not returned:
    [getKey] takes the falsy key for a missing one. *)
Theorem getKey_empty_key :
  tokenToKey (getToken "" (constructor [])).2 !! "01" = Some ""
  ∧ getKey "01" (getToken "" (constructor [])).2 = "UNKNOWN_01"
  ∧ jsonToToon (JObj [("", JBool true)]) (constructor [])
    = Returned "01: yes" (getToken "" (constructor [])).2
  ∧ toonToJson_value "01: yes" (getToken "" (constructor [])).2
    = Some (JObj [("UNKNOWN_01", JBool true)]).
Proof. repeat split; vm_compute; reflexivity. Qed.

(** The cases of [getKey] that C7 gets right. *)
Lemma getKey_cases (c : ToonConverter) (token k : string) :
  (tokenToKey c !! token = Some k -> k ≠ "" -> getKey token c = k)
  ∧ (tokenToKey c !! token = None -> prototype_member token = None ->
     getKey token c = "UNKNOWN_" ++ token)
  ∧ toonToJson_value "99: value" (constructor [])
    = Some (JObj [("UNKNOWN_99", JStr "value")]).
Proof.
  unfold getKey, get_property. repeat split.
  - intros -> Hk%String.eqb_neq. simpl. by rewrite Hk.
  - by intros -> ->.
Qed.

(** ** Pass 1 of the decoder *)

Section TreeConstruction.

Lemma search_from_spec (s : string) (i : Z) :
  (trimStart s = "" ∧ search_from i s = -1)
  ∨ (trimStart s ≠ "" ∧ i <= search_from i s).
Proof.
  revert i. induction s as [|c s IH]; intros i; simpl; [by left|].
  destruct (isWhiteSpace c).
  - destruct (IH (i + 1)) as [[? ?]|[? ?]]; [by left | right; split; [done | lia]].
  - right. split; [done | lia].
Qed.

Lemma trimEnd_nonempty (s : string) : trimEnd s ≠ "" -> s ≠ "".
Proof. by destruct s. Qed.

Lemma nonblank_indent (line : string) : trim line ≠ "" -> 0 <= search_nonspace line.
Proof.
  intros H%trimEnd_nonempty. unfold search_nonspace.
  destruct (search_from_spec line 0) as [[? _]|[_ ?]]; [done | lia].
Qed.

Lemma findParent_loop_eq (fuel : nat) (h : Heap) (r : nat) (i : Z) :
  findParent_loop fuel h (Some r) i
  = n ← h !! r;
    if i <=? indent n then
      match fuel with
      | O => None
      | S f => findParent_loop f h (parent n) i
      end
    else Some (Some r).
Proof. by destruct fuel. Qed.

Lemma findParent_loop_walk (h : Heap) (i : Z) (fuel r : nat) :
  heap_ok (h, r) -> 0 <= i -> (r <= fuel)%nat ->
  ∃ p, findParent_loop fuel h (Some r) i = Some (Some p) ∧ walk h i r p ∧ (p < length h)%nat.
Proof.
  intros (Hr & (n0 & H0 & Hi0) & Hn) Hi. simpl in *.
  revert r Hr. induction fuel as [|f IH]; intros r Hr Hf;
    rewrite findParent_loop_eq;
    destruct (lookup_lt_is_Some_2 h r Hr) as [n Hlook]; rewrite Hlook; simpl;
    (destruct (Z.leb_spec i (indent n)) as [Hle|Hlt];
     [| exists r; repeat split; [|done]; by apply (walk_stop _ _ _ n)]);
    (assert (r ≠ rootRef) as Hne
       by (intros ->; rewrite H0 in Hlook; injection Hlook as <-; lia));
    destruct (Hn _ _ Hlook Hne) as (_ & p' & Hp & Hlt).
  - lia.
  - rewrite Hp. destruct (IH p') as (p & E & W & Hp'); [lia..|].
    exists p. repeat split; [done| |done]. by apply (walk_step _ _ _ p' _ n).
Qed.

Lemma addNode_length (h : Heap) (p : nat) i k v arr :
  length (addNode h p i k v arr).1 = S (length h).
Proof. unfold addNode. simpl. rewrite length_app, length_alter. simpl. lia. Qed.

Lemma walk_end (h : Heap) (i : Z) (r p : nat) :
  walk h i r p -> ∃ n, h !! p = Some n ∧ indent n < i.
Proof. induction 1; eauto. Qed.

Lemma findParent_walk (h : Heap) (lastNode : nat) (i : Z) :
  heap_ok (h, lastNode) -> 0 <= i ->
  ∃ p, findParent h lastNode i = Some p ∧ walk h i lastNode p ∧ (p < length h)%nat.
Proof.
  intros Hok Hi. unfold findParent.
  destruct (findParent_loop_walk h i (length h) lastNode Hok Hi) as (p & -> & W & Hp).
  - destruct Hok as [? _]. simpl in *. lia.
  - exists p. by repeat split.
Qed.

Lemma addNode_ok (h : Heap) (lastNode p : nat) (i : Z) (k v : option string) (arr : bool) :
  heap_ok (h, lastNode) -> (p < length h)%nat -> 0 <= i ->
  heap_ok (addNode h p i k v arr).
Proof.
  intros (Hr & (n0 & H0 & Hi0) & Hn) Hp Hi. unfold addNode, heap_ok. simpl in *.
  repeat split.
  - rewrite length_app, length_alter. simpl. lia.
  - unfold rootRef in *. rewrite lookup_app_l by (rewrite length_alter; lia).
    destruct (decide (p = 0%nat)) as [->|Hne].
    + rewrite list_lookup_alter_eq, H0. simpl. eauto.
    + rewrite list_lookup_alter_ne by done. eauto.
  - destruct (decide (r < length h)%nat) as [Hlt|Hge].
    + rewrite lookup_app_l in H by (rewrite length_alter; lia).
      destruct (decide (p = r)) as [->|Hne].
      * rewrite list_lookup_alter_eq in H.
        destruct (h !! r) as [n'|] eqn:E; [|done]. injection H as <-.
        simpl. by apply (Hn r n').
      * rewrite list_lookup_alter_ne in H by done. by apply (Hn r n).
    + rewrite lookup_app_r in H by (rewrite length_alter; lia).
      rewrite length_alter in H.
      destruct (r - length h)%nat eqn:E; [|by destruct n1].
      injection H as <-. done.
  - destruct (decide (r < length h)%nat) as [Hlt|Hge].
    + rewrite lookup_app_l in H by (rewrite length_alter; lia).
      destruct (decide (p = r)) as [->|Hne].
      * rewrite list_lookup_alter_eq in H.
        destruct (h !! r) as [n'|] eqn:E; [|done]. injection H as <-.
        simpl. by apply (Hn r n').
      * rewrite list_lookup_alter_ne in H by done. by apply (Hn r n).
    + rewrite lookup_app_r in H by (rewrite length_alter; lia).
      rewrite length_alter in H.
      destruct (r - length h)%nat eqn:E; [|by destruct n1].
      injection H as <-. simpl. exists p. split; [done | lia].
Qed.

Lemma readLine_ok (st st' : Heap * nat) (line : string) :
  heap_ok st -> trim line ≠ "" -> readLine st line = Some st' -> heap_ok st'.
Proof.
  intros Hok Hl. destruct st as [h lastNode]. unfold readLine.
  pose proof (nonblank_indent _ Hl) as Hi.
  destruct (findParent_walk h lastNode _ Hok Hi) as (p & -> & _ & Hp). simpl.
  destruct (startsWith "-" (trim line)).
  - intros [= <-]. by apply (addNode_ok h lastNode).
  - destruct (indexOf ":" (trim line)).
    + intros [= <-]. by apply (addNode_ok h lastNode).
    + by intros [= <-].
Qed.

Lemma built_ok (st : Heap * nat) : built st -> heap_ok st.
Proof.
  induction 1 as [|st st' line _ IH Hl Hr].
  - unfold heap_ok, rootRef. simpl. split; [lia|]. split; [by exists rootNode|].
    intros [|r] n H Hne; [done | by destruct r].
  - by apply (readLine_ok st st' line).
Qed.

End TreeConstruction.

(** C9.  Parent resolution terminates.  In every state of pass 1 and for
    every non-blank line: the indentation of the line is at least 0; the
    loop of [findParent] ends (within the fuel of the model) at a node
    [p]; [p] is reached from [lastNode] along [parent] links, every node
    passed has an indentation at or above the line's and [p] is the first
    below it.  When the line starts with a dash or holds a colon, the
    loop body returns the heap in which a new node, allocated at the end,
    has the indentation of the line, the key and the value read from the
    line, no children and [p] as parent, [p] has the new node as its last
    child after the children it had, every other node is as before, and
    the new node is [lastNode]; otherwise the line changes nothing. *)
Theorem findParent_terminates (st : Heap * nat) (line : string) :
  built st -> trim line ≠ "" ->
  0 <= search_nonspace line
  ∧ ∃ p n,
      findParent st.1 st.2 (search_nonspace line) = Some p
      ∧ walk st.1 (search_nonspace line) st.2 p
      ∧ st.1 !! p = Some n
      ∧ indent n < search_nonspace line
      ∧ ((startsWith "-" (trim line) = true ∨ indexOf ":" (trim line) ≠ None) ->
         ∃ h' k v,
           readLine st line = Some (h', length st.1)
           ∧ length h' = S (length st.1)
           ∧ h' !! length st.1
             = Some (mkNode (search_nonspace line) k v [] (Some p)
                            (startsWith "-" (trim line)))
           ∧ (startsWith "-" (trim line) = true ->
              k = None ∧ v = null_if_empty (trim (substring_from 1 (trim line))))
           ∧ (forall colonIdx, startsWith "-" (trim line) = false ->
              indexOf ":" (trim line) = Some colonIdx ->
              k = Some (trim (substring_to colonIdx (trim line)))
              ∧ v = null_if_empty (trim (substring_from (colonIdx + 1) (trim line))))
           ∧ h' !! p
             = Some (mkNode (indent n) (key n) (value n)
                            (children n ++ [length st.1]) (parent n) (isArrayItem n))
           ∧ (forall r, r ≠ p -> (r < length st.1)%nat -> h' !! r = st.1 !! r)
           ∧ built (h', length st.1))
      ∧ (startsWith "-" (trim line) = false -> indexOf ":" (trim line) = None ->
         readLine st line = Some st).
Proof.
  intros Hb Hl. pose proof (built_ok _ Hb) as Hok.
  pose proof (nonblank_indent _ Hl) as Hi. destruct st as [h lastNode].
  destruct (findParent_walk h lastNode _ Hok Hi) as (p & Hf & W & Hp).
  destruct (lookup_lt_is_Some_2 h p Hp) as [n Hn].
  split; [done|]. exists p, n. cbn [fst snd].
  split; [done|]. split; [done|]. split; [done|]. split.
  { pose proof (walk_end _ _ _ _ W) as (n' & Hn' & Hlt). congruence. }
  assert (Hadd : forall k v arr,
    length (addNode h p (search_nonspace line) k v arr).1 = S (length h)
    ∧ (addNode h p (search_nonspace line) k v arr).1 !! length h
      = Some (mkNode (search_nonspace line) k v [] (Some p) arr)
    ∧ (addNode h p (search_nonspace line) k v arr).1 !! p
      = Some (mkNode (indent n) (key n) (value n) (children n ++ [length h])
                     (parent n) (isArrayItem n))
    ∧ (forall r, r ≠ p -> (r < length h)%nat ->
         (addNode h p (search_nonspace line) k v arr).1 !! r = h !! r)).
  { intros k v arr. split; [apply addNode_length|]. unfold addNode. cbn [fst].
    split; [|split].
    - rewrite lookup_app_r by (rewrite length_alter; lia).
      by rewrite length_alter, Nat.sub_diag.
    - rewrite lookup_app_l by (rewrite length_alter; lia).
      by rewrite list_lookup_alter_eq, Hn.
    - intros r Hr Hlt. rewrite lookup_app_l by (rewrite length_alter; lia).
      by rewrite list_lookup_alter_ne. }
  split.
  - intros Hkind.
    assert (∃ k v, readLine (h, lastNode) line
                   = Some (addNode h p (search_nonspace line) k v
                                   (startsWith "-" (trim line)))
                   ∧ (startsWith "-" (trim line) = true ->
                      k = None ∧ v = null_if_empty (trim (substring_from 1 (trim line))))
                   ∧ (forall colonIdx, startsWith "-" (trim line) = false ->
                      indexOf ":" (trim line) = Some colonIdx ->
                      k = Some (trim (substring_to colonIdx (trim line)))
                      ∧ v = null_if_empty
                              (trim (substring_from (colonIdx + 1) (trim line)))))
      as (k & v & E & Hk1 & Hk2).
    { unfold readLine. rewrite Hf. cbn [mbind option_bind].
      destruct (startsWith "-" (trim line)) eqn:Ed.
      - eexists _, _. split; [reflexivity|]. by split.
      - destruct (indexOf ":" (trim line)) as [colonIdx|] eqn:Ec.
        + eexists _, _. split; [reflexivity|]. split; [done|].
          by intros ? _ [= <-].
        + by destruct Hkind. }
    destruct (Hadd k v (startsWith "-" (trim line))) as (H1 & H2 & H3 & H4).
    exists (addNode h p (search_nonspace line) k v (startsWith "-" (trim line))).1, k, v.
    split; [exact E|]. split; [exact H1|]. split; [exact H2|].
    split; [exact Hk1|]. split; [exact Hk2|]. split; [exact H3|].
    split; [exact H4|]. by apply (built_line (h, lastNode) _ line).
  - intros Hd Hc. unfold readLine. by rewrite Hd, Hc.
Qed.

Lemma findParent_terminates_witness :
  ∃ h',
    readLine ([mkNode (-1) None None [1%nat] None false;
               mkNode 0 (Some "01") None [2%nat] (Some 0%nat) false;
               mkNode 2 None (Some "a") [] (Some 1%nat) true], 2%nat) "02: x"
    = Some (h', 3%nat)
    ∧ h' !! 3%nat = Some (mkNode 0 (Some "02") (Some "x") [] (Some 0%nat) false)
    ∧ h' !! 0%nat = Some (mkNode (-1) None None [1%nat; 3%nat] None false).
Proof.
  assert (H1 : built ([mkNode (-1) None None [1%nat] None false;
                       mkNode 0 (Some "01") None [2%nat] (Some 0%nat) false;
                       mkNode 2 None (Some "a") [] (Some 1%nat) true], 2%nat)).
  { apply (built_line ([mkNode (-1) None None [1%nat] None false;
                        mkNode 0 (Some "01") None [] (Some 0%nat) false], 1%nat) _ "  - a");
      [|vm_compute; discriminate|vm_compute; reflexivity].
    apply (built_line ([rootNode], rootRef) _ "01:");
      [constructor|vm_compute; discriminate|vm_compute; reflexivity]. }
  assert (H2 : trim "02: x" ≠ "") by (vm_compute; discriminate).
  destruct (findParent_terminates _ "02: x" H1 H2) as (_ & p & n & Hf & _ & Hn & _ & Hnew & _).
  assert (p = 0%nat) as -> by (vm_compute in Hf; congruence).
  assert (n = mkNode (-1) None None [1%nat] None false) as -> by (vm_compute in Hn; congruence).
  destruct Hnew as (h' & k & v & E & _ & Hnode & _ & Hk & Hp & _);
    [right; vm_compute; discriminate|].
  destruct (Hk 2%nat) as [-> ->]; [vm_compute; reflexivity..|].
  exists h'. split; [exact E|]. split; [exact Hnode|exact Hp].
Defined.

(** ** Documents without structure *)

Lemma readLine_skip (st : Heap * nat) (line : string) :
  startsWith "-" (trim line) = false -> indexOf ":" (trim line) = None ->
  readLine st line = Some st.
Proof. intros H1 H2. destruct st as [h l]. unfold readLine. by rewrite H1, H2. Qed.

Lemma nonblank_lines_spec (toonInput l : string) :
  l ∈ nonblank_lines toonInput <-> l ∈ split_lines toonInput ∧ trim l ≠ "".
Proof.
  unfold nonblank_lines. rewrite list_elem_of_filter.
  assert ((0 <? String.length (trim l))%nat = true <-> trim l ≠ "") as ->; [|tauto].
  destruct (trim l); simpl; split; done.
Qed.

(** C10.  When no non-blank line, once trimmed, starts with a dash or
    holds a colon, pass 1 creates no node and the decoder returns the
    empty array, printed as ["[]"]. *)
Theorem no_structure_decodes_to_empty_array (toonInput : string) (c : ToonConverter) :
  (forall l, l ∈ split_lines toonInput -> trim l ≠ "" ->
     startsWith "-" (trim l) = false ∧ indexOf ":" (trim l) = None) ->
  buildTree toonInput = Some ([rootNode], rootRef)
  ∧ toonToJson_value toonInput c = Some (JArr [])
  ∧ toonToJson toonInput c = Some "[]".
Proof.
  intros H.
  assert (E : buildTree toonInput = Some ([rootNode], rootRef)).
  { unfold buildTree.
    assert (G : forall l, l ∈ nonblank_lines toonInput ->
                startsWith "-" (trim l) = false ∧ indexOf ":" (trim l) = None).
    { intros l [? ?]%nonblank_lines_spec. by apply H. }
    induction (nonblank_lines toonInput) as [|l ls IH]; [done|]. cbn -[readLine].
    destruct (G l) as [H1 H2]; [left|]. rewrite (readLine_skip _ _ H1 H2).
    apply IH. intros l' Hl'. apply G. by right. }
  unfold toonToJson, toonToJson_value. rewrite E. by repeat split.
Qed.

Lemma no_structure_decodes_to_empty_array_witness :
  (forall l, l ∈ split_lines "yes" -> trim l ≠ "" ->
     startsWith "-" (trim l) = false ∧ indexOf ":" (trim l) = None)
  ∧ toonToJson "yes" (constructor []) = Some "[]".
Proof.
  assert (H : forall l, l ∈ split_lines "yes" -> trim l ≠ "" ->
     startsWith "-" (trim l) = false ∧ indexOf ":" (trim l) = None).
  { intros l Hl _. apply list_elem_of_singleton in Hl as ->. by vm_compute. }
  split; [exact H|].
  exact (proj2 (proj2 (no_structure_decodes_to_empty_array "yes" (constructor []) H))).
Defined.

(** The empty text and a text of blanks are instances. *)
Lemma blank_text_decodes_to_empty_array (c : ToonConverter) :
  toonToJson "" c = Some "[]" ∧ toonToJson "   " c = Some "[]".
Proof. by split. Qed.

(** ** Pass 1 rebuilds a levelled forest *)

Section ForestConstruction.

(** Induction on trees with the hypothesis for all children. *)
Lemma tree_ind_forest (P : tree -> Prop) :
  (forall i k v arr kids, Forall P kids -> P (T i k v arr kids)) ->
  forall t, P t.
Proof.
  intros Hstep. fix IH 1. intros [i k v arr kids]. apply Hstep.
  induction kids as [|t kids IHk]; constructor; [apply IH | exact IHk].
Qed.

Lemma levelled_unfold (i i' : Z) k v arr (kids : list tree) :
  levelled i (T i' k v arr kids) <-> i' = i ∧ Forall (levelled (i + 2)) kids.
Proof.
  simpl. split.
  - intros [-> H]. split; [done|].
    induction kids as [|t kids IH]; [constructor|]. destruct H as [H1 H2].
    constructor; [done | by apply IH].
  - intros [-> H]. split; [done|].
    induction kids as [|t kids IH]; [done|]. inversion_clear H.
    split; [done | by apply IH].
Qed.

(** A walk only reads [indent] and [parent]. *)
Lemma walk_transport (h h' : Heap) (i : Z) (r p : nat) :
  walk h i r p ->
  (forall x n, h !! x = Some n ->
     ∃ n', h' !! x = Some n' ∧ indent n' = indent n ∧ parent n' = parent n) ->
  walk h' i r p.
Proof.
  intros W Hsame. induction W as [r n Hn Hi|r r' p n Hn Hi Hp W IH].
  - destruct (Hsame _ _ Hn) as (n' & Hn' & E1 & _).
    apply (walk_stop _ _ _ n'); [done | lia].
  - destruct (Hsame _ _ Hn) as (n' & Hn' & E1 & E2).
    apply (walk_step _ _ _ r' _ n'); [done | lia | congruence | done].
Qed.

Lemma walk_det (h : Heap) (i : Z) (r p p' : nat) :
  walk h i r p -> walk h i r p' -> p = p'.
Proof.
  intros W. revert p'. induction W as [r n Hn Hi|r r' p n Hn Hi Hp W IH]; intros p' W'.
  - inversion W' as [? n' Hn' Hi'|? ? ? n' Hn' Hi' Hp' W'']; subst; [done|].
    rewrite Hn in Hn'. injection Hn' as <-. lia.
  - inversion W' as [? n' Hn' Hi'|? ? ? n' Hn' Hi' Hp' W'']; subst.
    + rewrite Hn in Hn'. injection Hn' as <-. lia.
    + rewrite Hn in Hn'. injection Hn' as <-. rewrite Hp in Hp'.
      injection Hp' as <-. by apply IH.
Qed.

(** Lowering the threshold: a walk to [c] continues from [c]. *)
Lemma walk_lower (h : Heap) (i i' : Z) (r c p : nat) :
  walk h i' r c -> i <= i' -> walk h i c p -> walk h i r p.
Proof.
  intros W Hi Wc. induction W as [r n Hn Hlt|r r' c n Hn Hle Hp W IH]; [done|].
  apply (walk_step _ _ _ r' _ n); [done | lia | done | by apply IH].
Qed.

Lemma findParent_of_walk (h : Heap) (lastNode p : nat) (i : Z) :
  heap_ok (h, lastNode) -> 0 <= i -> walk h i lastNode p ->
  findParent h lastNode i = Some p ∧ (p < length h)%nat.
Proof.
  intros Hok Hi W. destruct (findParent_walk h lastNode i Hok Hi) as (p' & E & W' & Hp).
  by rewrite (walk_det _ _ _ _ _ W W').
Qed.

Lemma add_children_nil (n : Node) : add_children [] n = n.
Proof. destruct n. unfold add_children. simpl. by rewrite app_nil_r. Qed.

Lemma add_children_app (cs cs' : list nat) (n : Node) :
  add_children cs' (add_children cs n) = add_children (cs ++ cs')%list n.
Proof. unfold add_children. simpl. by rewrite app_assoc. Qed.

Lemma reads_mono (hi hi' : nat) (h : Heap) (r : nat) (t : tree) :
  (hi <= hi')%nat -> reads hi h r t -> reads hi' h r t.
Proof.
  intros Hle. revert r. induction t as [i k v arr kids IH] using tree_ind_forest.
  intros r R. inversion R as [? n ? Hr Hn Hc Hk]; subst.
  constructor; [lia | done | done |].
  clear Hn Hc R. revert IH. induction Hk as [|cr t crs ts Hr' Hk IHk]; intros IH; constructor.
  - inversion_clear IH. auto.
  - inversion_clear IH. auto.
Qed.

Lemma reads_agree (hi : nat) (h h' : Heap) (r : nat) (t : tree) :
  (forall x, (r <= x < hi)%nat -> h' !! x = h !! x) ->
  reads hi h r t -> reads hi h' r t.
Proof.
  revert r. induction t as [i k v arr kids IH] using tree_ind_forest.
  intros r Hag R. inversion R as [? n ? Hr Hn Hc Hk]; subst.
  constructor; [done | by rewrite Hag by lia | done |].
  clear Hn R. revert IH Hc.
  induction Hk as [|cr t crs ts Hr' Hk IHk]; intros IH Hc; constructor.
  - inversion_clear IH as [|? ? IHt _]. inversion_clear Hc as [|? ? Hlt _].
    apply IHt; [|done]. intros x Hx. apply Hag. lia.
  - inversion_clear IH. inversion_clear Hc. auto.
Qed.

Lemma run_lines_app (st : Heap * nat) (a b : list pline) :
  run_lines st (a ++ b)%list = st' ← run_lines st a; run_lines st' b.
Proof.
  unfold run_lines. rewrite foldl_app.
  destruct (foldl _ (Some st) a) as [st'|]; [done|].
  simpl. induction b as [|x b IH]; [done | exact IH].
Qed.

Lemma run_lines_cons (st : Heap * nat) (pl : pline) (b : list pline) :
  run_lines st (pl :: b) = st' ← addLine st pl; run_lines st' b.
Proof.
  change (pl :: b) with ([pl] ++ b)%list. by rewrite run_lines_app.
Qed.

Lemma rebuilt_intro (h : Heap) (p : nat) (i : Z) (st' : Heap * nat)
    (cs : list nat) (ts : list tree) (n : Node) :
  heap_ok st' -> walk st'.1 i st'.2 p -> (length h <= length st'.1)%nat ->
  (forall r, (r < length h)%nat -> r ≠ p -> st'.1 !! r = h !! r) ->
  h !! p = Some n -> st'.1 !! p = Some (add_children cs n) ->
  Forall2 (reads (length st'.1) st'.1) cs ts ->
  Forall (fun c => (length h <= c)%nat) cs ->
  rebuilt h p i st' cs ts.
Proof. unfold rebuilt. eauto 10. Qed.

Lemma rebuilds_forest_of_trees (ts : list tree) :
  Forall rebuilds_tree ts -> rebuilds_forest ts.
Proof.
  induction 1 as [|t ts Ht _ IH]; intros i h lastNode p Hi Hok W Hlev.
  - exists (h, lastNode), []. split; [done|].
    destruct (walk_end _ _ _ _ W) as (n & Hn & _).
    apply (rebuilt_intro _ _ _ _ _ _ n); simpl; try done; try constructor.
    by rewrite add_children_nil.
  - inversion_clear Hlev as [|? ? Hlt Hlts].
    destruct (Ht i h lastNode p Hi Hok W Hlt) as ([h1 l1] & E1 & R1).
    destruct R1 as (Hok1 & W1 & Hlen1 & Hag1 & (n & Hn & Hp1) & Hr1 & _).
    simpl in *.
    destruct (IH i h1 l1 p Hi Hok1 W1 Hlts) as ([h2 l2] & cs & E2 & R2).
    destruct R2 as (Hok2 & W2 & Hlen2 & Hag2 & (n1 & Hn1 & Hp2) & Hr2 & Hge2).
    simpl in *.
    exists (h2, l2), (length h :: cs). split.
    { rewrite run_lines_app, E1. exact E2. }
    assert (Hp : (p < length h)%nat) by (by apply lookup_lt_Some in Hn).
    apply (rebuilt_intro _ _ _ _ _ _ n); simpl; try done.
    + lia.
    + intros r Hr Hne. rewrite Hag2 by (done || lia). by apply Hag1.
    + rewrite Hp2. f_equal.
      rewrite Hp1 in Hn1. injection Hn1 as <-. apply add_children_app.
    + constructor; [|done]. inversion_clear Hr1 as [|? ? ? ? Hrt _].
      apply (reads_mono (length h1)); [done|].
      apply (reads_agree _ h1); [|done].
      intros x Hx. apply Hag2; lia.
    + constructor; [done|]. eapply Forall_impl; [exact Hge2|]. simpl. intros; lia.
Qed.

Lemma addNode_lookup_old (h : Heap) (p r : nat) i k v arr :
  (r < length h)%nat -> r ≠ p -> (addNode h p i k v arr).1 !! r = h !! r.
Proof.
  intros Hr Hne. unfold addNode. simpl.
  rewrite lookup_app_l by (rewrite length_alter; lia).
  by rewrite list_lookup_alter_ne.
Qed.

Lemma addNode_lookup_parent (h : Heap) (p : nat) (n : Node) i k v arr :
  h !! p = Some n ->
  (addNode h p i k v arr).1 !! p = Some (add_children [length h] n).
Proof.
  intros Hn. unfold addNode. simpl. pose proof (lookup_lt_Some _ _ _ Hn).
  rewrite lookup_app_l by (rewrite length_alter; lia).
  by rewrite list_lookup_alter_eq, Hn.
Qed.

Lemma addNode_lookup_new (h : Heap) (p : nat) i k v arr :
  (addNode h p i k v arr).1 !! length h = Some (mkNode i k v [] (Some p) arr).
Proof.
  unfold addNode. simpl. rewrite lookup_app_r by (rewrite length_alter; lia).
  by rewrite length_alter, Nat.sub_diag.
Qed.

Lemma rebuilds_tree_node (i0 : Z) k v arr (kids : list tree) :
  rebuilds_forest kids -> rebuilds_tree (T i0 k v arr kids).
Proof.
  intros Hkids i h lastNode p Hi Hok W Hlev.
  apply levelled_unfold in Hlev as [-> Hlev].
  destruct (findParent_of_walk _ _ _ _ Hok Hi W) as [Hf Hp].
  destruct (walk_end _ _ _ _ W) as (n & Hn & Hip).
  pose proof (addNode_ok h lastNode p i k v arr Hok Hp Hi) as Hok1.
  pose proof (addNode_length h p i k v arr) as Hlen1.
  pose proof (addNode_lookup_new h p i k v arr) as Hnew.
  pose proof (addNode_lookup_parent h p n i k v arr Hn) as Hpar.
  destruct (addNode h p i k v arr) as [h1 c] eqn:E. simpl in *.
  assert (c = length h) as -> by (unfold addNode in E; by injection E).
  assert (W1 : walk h1 (i + 2) (length h) (length h)).
  { apply (walk_stop _ _ _ _ Hnew). simpl. lia. }
  destruct (Hkids (i + 2) h1 (length h) (length h)) as ([h2 l2] & cs & E2 & R2);
    [lia | done | done | done |].
  destruct R2 as (Hok2 & W2 & Hlen2 & Hag2 & (n1 & Hn1 & Hc2) & Hr2 & Hge2).
  simpl in *. rewrite Hnew in Hn1. injection Hn1 as <-.
  exists (h2, l2). split.
  { simpl. rewrite run_lines_cons. unfold addLine. simpl. rewrite Hf. simpl.
    rewrite E. exact E2. }
  assert (Hp2 : h2 !! p = Some (add_children [length h] n)).
  { rewrite Hag2 by lia. exact Hpar. }
  apply (rebuilt_intro _ _ _ _ _ _ n); simpl; try done.
  - apply (walk_lower _ _ (i + 2) _ (length h)); [done | lia |].
    apply (walk_step _ _ _ p _ _ Hc2); [simpl; lia | done |].
    apply (walk_stop _ _ _ _ Hp2). done.
  - lia.
  - intros r Hr Hne. rewrite Hag2 by lia.
    change h1 with (h1, length h).1. rewrite <- E. by apply addNode_lookup_old.
  - constructor; [|constructor].
    apply (reads_node _ _ _ (add_children cs (mkNode i k v [] (Some p) arr))); simpl.
    + lia.
    + done.
    + eapply Forall_impl; [exact Hge2|]. simpl. intros; lia.
    + done.
  - by constructor.
Qed.

(** Pass 1 rebuilds every levelled tree. *)
Lemma pass1_rebuilds (t : tree) : rebuilds_tree t.
Proof.
  induction t as [i k v arr kids IH] using tree_ind_forest.
  by apply rebuilds_tree_node, rebuilds_forest_of_trees.
Qed.

Lemma pass1_rebuilds_forest (ts : list tree) : rebuilds_forest ts.
Proof. apply rebuilds_forest_of_trees, Forall_forall. intros t _. apply pass1_rebuilds. Qed.

End ForestConstruction.

(** ** Pass 2 computes the conversion of the tree in the heap *)

Section TreeConversion.

Context (c : ToonConverter).

Lemma mapM_Forall2 {A B C} (f : A -> option B) (g : C -> B) (l : list A) (l' : list C) :
  Forall2 (fun a x => f a = Some (g x)) l l' -> mapM f l = Some (map g l').
Proof.
  induction 1 as [|a x l l' H _ IH]; [done|]. simpl. by rewrite H, IH.
Qed.

Lemma foldl_option_Forall2 {A B C} (f : B -> A -> option B) (g : B -> C -> B)
    (l : list A) (l' : list C) (b : B) :
  Forall2 (fun a x => forall b, f b a = Some (g b x)) l l' ->
  foldl (fun ob a => ob ≫= fun b => f b a) (Some b) l = Some (fold_left g l' b).
Proof.
  intros H. revert b. induction H as [|a x l l' H _ IH]; intros b; [done|].
  simpl. rewrite H. apply IH.
Qed.

Lemma reads_fields (hi : nat) (h : Heap) (r : nat) (t : tree) (n : Node) :
  reads hi h r t -> h !! r = Some n ->
  t_key t = key n ∧ t_value t = value n ∧ t_isArrayItem t = isArrayItem n
  ∧ (children n = [] <-> t_kids t = []).
Proof.
  intros R Hn. inversion R as [? n' kids Hr Hn' Hc Hk]; subst.
  rewrite Hn in Hn'. injection Hn' as <-. simpl. repeat split; try done.
  - intros E. rewrite E in Hk. by inversion Hk.
  - intros E. rewrite E in Hk. by inversion Hk.
Qed.

Lemma children_nodes (hi : nat) (h : Heap) (r : nat) (crs : list nat) (kids : list tree) :
  Forall (fun cr => (r < cr)%nat) crs -> Forall2 (reads hi h) crs kids ->
  ∃ knodes, mapM (fun cr => h !! cr) crs = Some knodes
            ∧ Forall2 (child_of hi h r) (zip crs knodes) kids
            ∧ Forall2 (fun (kn : Node) t => t_isArrayItem t = isArrayItem kn) knodes kids.
Proof.
  intros Hc Hk. induction Hk as [|cr t crs kids R _ IH].
  - exists []. by repeat constructor.
  - inversion_clear Hc as [|? ? Hlt Hc']. destruct (IH Hc') as (knodes & E & F & G).
    inversion R as [? n ? ? Hn ? ?]; subst.
    exists (n :: knodes). simpl. rewrite Hn. simpl. rewrite E. simpl.
    split; [done|]. split; constructor; try done.
Qed.

Lemma forallb_Forall2 {A B} (f : A -> bool) (g : B -> bool) (l : list A) (l' : list B) :
  Forall2 (fun a b => g b = f a) l l' -> forallb f l = forallb g l'.
Proof. induction 1 as [|a b l l' H _ IH]; [done|]. simpl. by rewrite H, IH. Qed.

Lemma height_kid (i : Z) k v arr (kids : list tree) (t : tree) :
  t ∈ kids -> (S (height t) <= height (T i k v arr kids))%nat.
Proof.
  intros Ht. cbn [height]. apply le_n_S, max_list_elem_of_le.
  apply list_elem_of_fmap. by exists t.
Qed.

(** A tree held in the heap is no higher than the heap above its
    reference. *)
Lemma reads_height (t : tree) :
  forall (hi : nat) (h : Heap) (r : nat), reads hi h r t -> (height t <= hi - r)%nat.
Proof.
  induction t as [i k v arr kids IH] using tree_ind_forest.
  intros hi h r R. inversion R as [? n ? Hr Hn Hc Hk]; subst.
  cbn [height]. assert (max_list (map height kids) <= hi - S r)%nat; [|lia].
  clear Hn R. revert IH Hc. induction Hk as [|cr t crs ts Rt _ IHk]; intros IH Hc.
  - simpl. lia.
  - inversion_clear IH as [|? ? IHt IHts]. inversion_clear Hc as [|? ? Hlt Hc'].
    cbn [map max_list_with id]. specialize (IHt _ _ _ Rt). specialize (IHk IHts Hc'). lia.
Qed.

(** Pass 2 at a reference computes [convert_tree] of the tree held there,
    when the stack has room for the height of the tree. *)
Lemma convertNode_reads (t : tree) :
  forall (hi : nat) (h : Heap) (r fuel : nat),
    reads hi h r t -> (height t <= fuel)%nat ->
    convertNode fuel c h r = Some (convert_tree c t).
Proof.
  induction t as [i k v arr kids IH] using tree_ind_forest.
  intros hi h r fuel R Hfuel.
  inversion R as [? n ? Hr Hn Hc Hk]; subst.
  destruct fuel as [|f]; [cbn [height] in Hfuel; lia|].
  assert (Hkids : Forall (fun t => (height t <= f)%nat) kids).
  { apply Forall_forall. intros t Ht.
    pose proof (height_kid (indent n) (key n) (value n) (isArrayItem n) kids t Ht). lia. }
  destruct (children_nodes _ _ _ _ _ Hc Hk) as (knodes & Ekn & Hch & Harr).
  cbn [convertNode]. rewrite Hn. cbn [mbind option_bind]. rewrite Ekn. cbn [mbind option_bind].
  destruct (children n) as [|cr0 crs] eqn:Ecrs.
  { inversion Hk; subst. done. }
  destruct kids as [|t0 kids']; [by inversion Hk|].
  rewrite <- Ecrs in *. clear Ecrs cr0 crs.
  set (kids := t0 :: kids') in *.
  (* what each recursive call returns *)
  assert (Hrec : Forall2 (fun (ch : nat * Node) t =>
            convertNode f c h ch.1 = Some (convert_tree c t)
            ∧ t_key t = key ch.2 ∧ t_value t = value ch.2
            ∧ (children ch.2 = [] <-> t_kids t = [])) (zip (children n) knodes) kids).
  { clear -IH Hch Hkids. revert IH Hkids.
    induction Hch as [|ch t chs ts (Hlt & Hn & R) _ IHc]; intros IH Hkids; [constructor|].
    inversion_clear IH as [|? ? IHt IHts]. inversion_clear Hkids as [|? ? Hkt Hkts].
    constructor; [|by apply IHc].
    destruct (reads_fields _ _ _ _ _ R Hn) as (? & ? & ? & ?).
    split; [|done]. by apply (IHt hi). }
  change (convert_tree c (T (indent n) (key n) (value n) (isArrayItem n) kids))
    with (if forallb t_isArrayItem kids then
            JArr (map (array_child (convert_tree c)) kids)
          else if forallb (fun k => negb (t_isArrayItem k)) kids then
            JObj (fold_left
                    (fun obj ch =>
                       obj_set (getKey (key_text (t_key ch)) c)
                               (object_child (convert_tree c) ch) obj)
                    kids [])
          else
            JObj (fold_left
                    (fun obj ch =>
                       if truthy (t_key ch) then
                         obj_set (getKey (key_text (t_key ch)) c)
                                 (plain_child (convert_tree c) ch) obj
                       else obj)
                    kids [])).
  rewrite (forallb_Forall2 isArrayItem t_isArrayItem knodes kids) by exact Harr.
  rewrite (forallb_Forall2 (fun k => negb (isArrayItem k))
             (fun k => negb (t_isArrayItem k)) knodes kids)
    by (eapply Forall2_impl; [exact Harr|]; simpl; by intros ? ? ->).
  destruct (forallb t_isArrayItem kids).
  - erewrite mapM_Forall2; [done|].
    eapply Forall2_impl; [exact Hrec|]. simpl.
    intros ch t (E & Ek & Ev & Ec). unfold array_child. rewrite <- Ev.
    repeat case_bool_decide; simpl; try done; tauto.
  - destruct (forallb (fun k => negb (t_isArrayItem k)) kids).
    + erewrite (foldl_option_Forall2
                  (fun obj (ch : nat * Node) =>
                     v ← (if bool_decide (value ch.2 ≠ None) && bool_decide (children ch.2 = [])
                           then Some (parseValue (value ch.2))
                           else convertNode f c h ch.1);
                     Some (obj_set (getKey (key_text (key ch.2)) c) v obj))); [done|].
      eapply Forall2_impl; [exact Hrec|]. simpl.
      intros ch t (E & Ek & Ev & Ec) b. unfold object_child. rewrite <- Ev, <- Ek.
      repeat case_bool_decide; simpl; try done; try tauto; by rewrite E.
    + erewrite (foldl_option_Forall2
                  (fun obj (ch : nat * Node) =>
                     if truthy (key ch.2) then
                       v ← (if bool_decide (children ch.2 = [])
                             then Some (parseValue (value ch.2))
                             else convertNode f c h ch.1);
                       Some (obj_set (getKey (key_text (key ch.2)) c) v obj)
                     else Some obj)); [done|].
      eapply Forall2_impl; [exact Hrec|]. simpl.
      intros ch t (E & Ek & Ev & Ec) b. unfold plain_child. rewrite <- Ev, <- Ek.
      destruct (truthy (t_key t)); [|done].
      repeat case_bool_decide; simpl; try done; try tauto; by rewrite E.
Qed.

(** Pass 2 at the root computes [convert_forest] of the trees below
    [rootNode], when the stack has room for the height of each. *)
Lemma convertRoot_in_reads (stack : nat) (h : Heap) (root : Node) (kids : list tree) :
  h !! rootRef = Some root ->
  Forall (fun cr => (rootRef < cr)%nat) (children root) ->
  Forall2 (reads (length h) h) (children root) kids ->
  Forall (fun t => (height t <= stack)%nat) kids ->
  convertRoot_in stack c h = Some (convert_forest c kids).
Proof.
  intros Hn Hc Hk Hheight.
  destruct (children_nodes _ _ _ _ _ Hc Hk) as (knodes & Ekn & Hch & Harr).
  unfold convertRoot_in. rewrite Hn. cbn [mbind option_bind]. rewrite Ekn.
  cbn [mbind option_bind].
  assert (Hrec : Forall2 (fun (ch : nat * Node) t =>
            convertNode stack c h ch.1 = Some (convert_tree c t)
            ∧ t_key t = key ch.2 ∧ t_value t = value ch.2
            ∧ (children ch.2 = [] <-> t_kids t = [])) (zip (children root) knodes) kids).
  { clear -Hch Hheight. induction Hch as [|ch t chs ts (Hlt & Hn' & R) _ IHc]; [constructor|].
    inversion_clear Hheight as [|? ? Ht Hts]. constructor; [|by apply IHc].
    destruct (reads_fields _ _ _ _ _ R Hn') as (? & ? & ? & ?).
    split; [|done]. by apply (convertNode_reads t (length h)). }
  unfold convert_forest.
  rewrite (forallb_Forall2 isArrayItem t_isArrayItem knodes kids) by exact Harr.
  destruct (forallb t_isArrayItem kids).
  - erewrite mapM_Forall2; [done|].
    eapply Forall2_impl; [exact Hrec|]. simpl.
    intros ch t (E & Ek & Ev & Ec). unfold plain_child. rewrite <- Ev.
    repeat case_bool_decide; simpl; try done; tauto.
  - erewrite (foldl_option_Forall2
                (fun obj (ch : nat * Node) =>
                   if truthy (key ch.2) then
                     v ← (if bool_decide (children ch.2 = [])
                           then Some (parseValue (value ch.2))
                           else convertNode stack c h ch.1);
                     Some (obj_set (getKey (key_text (key ch.2)) c) v obj)
                   else Some obj)); [done|].
    eapply Forall2_impl; [exact Hrec|]. simpl.
    intros ch t (E & Ek & Ev & Ec) b. unfold plain_child. rewrite <- Ev, <- Ek.
    destruct (truthy (t_key t)); [|done].
    repeat case_bool_decide; simpl; try done; try tauto; by rewrite E.
Qed.

Lemma convertRoot_eq (h : Heap) : convertRoot c h = convertRoot_in (length h) c h.
Proof. reflexivity. Qed.

Lemma convertRoot_reads (h : Heap) (root : Node) (kids : list tree) :
  h !! rootRef = Some root ->
  Forall (fun cr => (rootRef < cr)%nat) (children root) ->
  Forall2 (reads (length h) h) (children root) kids ->
  convertRoot c h = Some (convert_forest c kids).
Proof.
  intros Hn Hc Hk. rewrite convertRoot_eq. apply (convertRoot_in_reads _ _ root); try done.
  clear Hn. induction Hk as [|cr t crs ts R _ IH]; [constructor|].
  inversion_clear Hc as [|? ? Hlt Hc']. constructor; [|by apply IH].
  pose proof (reads_height _ _ _ _ R). lia.
Qed.

End TreeConversion.

(** ** Objects are rebuilt in enumeration order *)

Section ObjectOrder.

Lemma replace_value_None (k : string) (v : json) (l : list (string * json)) :
  k ∉ l.*1 -> replace_value k v l = None.
Proof.
  induction l as [|[k' v'] l IH]; [done|]. simpl.
  intros [Hne Hin]%not_elem_of_cons.
  destruct (String.eqb_spec k' k); [congruence|]. by rewrite IH.
Qed.

Lemma insert_index_end (n : Z) (k : string) (v : json) (l : list (string * json)) :
  Forall (fun k' => ∃ n', array_index k' = Some n' ∧ n' < n) l.*1 ->
  insert_index n k v l = (l ++ [(k, v)])%list.
Proof.
  induction l as [|[k' v'] l IH]; [done|]. simpl.
  intros H. apply Forall_cons in H as [(n' & E & Hlt) Hl]. rewrite E.
  destruct (Z.ltb_spec n' n); [|lia]. by rewrite IH.
Qed.

Lemma key_before_index (k' k : string) (n : Z) :
  key_before k' k = true -> array_index k = Some n ->
  ∃ n', array_index k' = Some n' ∧ n' < n.
Proof.
  unfold key_before. intros H E. rewrite E in H.
  destruct (array_index k') as [n'|]; [|done].
  exists n'. split; [done|]. by apply Z.ltb_lt.
Qed.

Lemma js_ordered_app_cons (l1 l2 : list string) (k : string) :
  js_ordered (l1 ++ k :: l2)%list = true -> Forall (fun k' => key_before k' k = true) l1.
Proof.
  induction l1 as [|k' l1 IH]; [constructor|]. simpl.
  intros [Hall Hord]%andb_true_iff. constructor; [|by apply IH].
  rewrite forallb_forall in Hall. apply Hall. apply in_or_app. right. by left.
Qed.

Lemma obj_set_append (acc : list (string * json)) (k : string) (v : json)
    (rest : list string) :
  k ∉ acc.*1 -> js_ordered (acc.*1 ++ k :: rest)%list = true ->
  obj_set k v acc = (acc ++ [(k, v)])%list.
Proof.
  intros Hnin Hord. unfold obj_set. rewrite replace_value_None by done.
  destruct (array_index k) as [n|] eqn:E; [|done].
  apply insert_index_end. apply js_ordered_app_cons in Hord.
  eapply Forall_impl; [exact Hord|]. simpl. intros k' Hk'.
  by apply (key_before_index k' k).
Qed.

(** Setting the entries of an object one by one, in enumeration order,
    yields the object. *)
Lemma fold_obj_set (ents acc : list (string * json)) :
  NoDup (acc ++ ents)%list.*1 -> js_ordered (acc ++ ents)%list.*1 = true ->
  fold_left (fun obj kv => obj_set kv.1 kv.2 obj) ents acc = (acc ++ ents)%list.
Proof.
  revert acc. induction ents as [|[k v] ents IH]; intros acc Hnd Hord; simpl.
  - by rewrite app_nil_r.
  - assert (E : ((acc ++ [(k, v)]) ++ ents = acc ++ (k, v) :: ents)%list)
      by (by rewrite <- app_assoc).
    rewrite (obj_set_append acc k v ents.*1).
    + rewrite IH; rewrite E; done.
    + rewrite fmap_app in Hnd. apply NoDup_app in Hnd as (_ & Hd & _).
      intros Hin. apply (Hd _ Hin). by left.
    + by rewrite fmap_app in Hord.
Qed.

End ObjectOrder.

(** ** The trees of an encoding convert to the value *)

Section TreesOfValues.

Context (c : ToonConverter).

(** Induction on values with the hypothesis for all components. *)
Lemma json_ind_nested (P : json -> Prop) :
  P JNull -> (forall b, P (JBool b)) -> (forall n, P (JNum n)) -> (forall s, P (JStr s)) ->
  (forall items, Forall P items -> P (JArr items)) ->
  (forall ents, Forall (fun kv : string * json => P kv.2) ents -> P (JObj ents)) ->
  forall v, P v.
Proof.
  intros H1 H2 H3 H4 H5 H6. fix IH 1.
  intros [|b|n|s|items|ents]; [exact H1 | apply H2 | apply H3 | apply H4 | |].
  - apply H5. induction items as [|x l IHl]; constructor; [apply IH | exact IHl].
  - apply H6. induction ents as [|[k x] l IHl]; constructor; [apply IH | exact IHl].
Qed.

Lemma codable_arr (items : list json) :
  codable (JArr items) = true <-> items ≠ [] ∧ Forall (fun x => codable x = true) items.
Proof.
  simpl. rewrite andb_true_iff, negb_true_iff, bool_decide_eq_false, forallb_forall.
  rewrite Forall_forall. setoid_rewrite list_elem_of_In. done.
Qed.

Lemma codable_obj (ents : list (string * json)) :
  codable (JObj ents) = true <->
  ents ≠ [] ∧ Forall (fun kv => kv.1 ≠ "" ∧ codable kv.2 = true) ents
  ∧ NoDup ents.*1 ∧ js_ordered ents.*1 = true.
Proof.
  simpl. rewrite !andb_true_iff, negb_true_iff, bool_decide_eq_false,
    bool_decide_eq_true, forallb_forall, Forall_forall.
  setoid_rewrite list_elem_of_In. setoid_rewrite andb_true_iff.
  setoid_rewrite negb_true_iff. setoid_rewrite String.eqb_neq. tauto.
Qed.

Lemma item_trees_nonempty (v : json) (level : nat) :
  codable v = true -> isComplex v = true -> item_trees c v level ≠ [].
Proof.
  destruct v as [| | | |items|ents]; try done.
  - intros [H _]%codable_arr _. simpl. by destruct items.
  - intros [H _]%codable_obj _. simpl. by destruct ents.
Qed.

Lemma item_trees_isArrayItem (v : json) (level : nat) :
  Forall (fun t => t_isArrayItem t = match v with JArr _ => true | _ => false end)
         (item_trees c v level).
Proof.
  destruct v as [| | | |items|ents]; simpl; try constructor.
  - apply Forall_forall. intros t (x & -> & _)%list_elem_of_fmap. by destruct (isComplex x).
  - apply Forall_forall. intros t (x & -> & _)%list_elem_of_fmap. by destruct (isComplex x.2).
Qed.

Lemma keys_known_arr (items : list json) (x : json) :
  keys_known c (JArr items) -> x ∈ items -> keys_known c x.
Proof.
  intros H Hx k Hk. apply H. simpl. apply list_elem_of_In, in_concat.
  exists (keys_of x). split; [apply in_map|]; by apply list_elem_of_In.
Qed.

Lemma keys_known_obj (ents : list (string * json)) (kv : string * json) :
  keys_known c (JObj ents) -> kv ∈ ents ->
  (tokenOf c kv.1 ≠ "" ∧ getKey (tokenOf c kv.1) c = kv.1) ∧ keys_known c kv.2.
Proof.
  intros H Hx.
  assert (G : forall k, k ∈ kv.1 :: keys_of kv.2 -> k ∈ keys_of (JObj ents)).
  { intros k Hk. simpl. apply list_elem_of_In, in_concat.
    exists (kv.1 :: keys_of kv.2). split; [|by apply list_elem_of_In].
    apply (in_map (fun kv : string * json => kv.1 :: keys_of kv.2)).
    by apply list_elem_of_In. }
  split; [apply H, G; left | intros k Hk; apply H, G; by right].
Qed.

Lemma convert_tree_kids (i : Z) k v arr (kids : list tree) :
  kids ≠ [] ->
  convert_tree c (T i k v arr kids)
  = if forallb t_isArrayItem kids then
      JArr (map (array_child (convert_tree c)) kids)
    else if forallb (fun k => negb (t_isArrayItem k)) kids then
      JObj (fold_left
              (fun obj ch =>
                 obj_set (getKey (key_text (t_key ch)) c)
                         (object_child (convert_tree c) ch) obj)
              kids [])
    else
      JObj (fold_left
              (fun obj ch =>
                 if truthy (t_key ch) then
                   obj_set (getKey (key_text (t_key ch)) c)
                           (plain_child (convert_tree c) ch) obj
                 else obj)
              kids []).
Proof. by destruct kids. Qed.

Lemma fold_left_map_ext {A B C} (F : C -> B -> C) (G : C -> A -> C) (g : A -> B)
    (l : list A) (a : C) :
  (forall x, x ∈ l -> forall a, F a (g x) = G a x) ->
  fold_left F (map g l) a = fold_left G l a.
Proof.
  revert a. induction l as [|x l IH]; intros a H; [done|]. simpl.
  rewrite H by left. apply IH. intros y Hy. apply H. by right.
Qed.

Lemma map_map_id {A B} (f : B -> A) (g : A -> B) (l : list A) :
  (forall x, x ∈ l -> f (g x) = x) -> map f (map g l) = l.
Proof.
  induction l as [|x l IH]; intros H; [done|]. simpl.
  rewrite H by left. f_equal. apply IH. intros y Hy. apply H. by right.
Qed.

Lemma forallb_true_Forall {A} (f : A -> bool) (l : list A) :
  Forall (fun x => f x = true) l -> forallb f l = true.
Proof. induction 1 as [|x l H _ IH]; [done|]. simpl. by rewrite H, IH. Qed.

Lemma forallb_false_head {A} (f : A -> bool) (l : list A) :
  l ≠ [] -> Forall (fun x => f x = false) l -> forallb f l = false.
Proof. intros Hne H. destruct H as [|x l H _]; [done|]. simpl. by rewrite H. Qed.

(** The scalars of the round trip are read back from their text. *)
Hypothesis scalar_reads_back :
  forall x, codable x = true -> isComplex x = false -> reads_back x.

(** The trees of the lines of a value convert to the value. *)
Lemma convert_item_trees (v : json) :
  codable v = true -> isComplex v = true -> keys_known c v ->
  forall level,
    (forall i k arr, convert_tree c (T i k None arr (item_trees c v level)) = v)
    ∧ convert_forest c (item_trees c v level) = v.
Proof.
  induction v as [|b|n|s|items IH|ents IH] using json_ind_nested; try done.
  - (* arrays *)
    intros Hcod _ Hkeys level.
    pose proof (item_trees_nonempty _ level Hcod eq_refl) as Hne.
    pose proof (item_trees_isArrayItem (JArr items) level) as Harr.
    apply codable_arr in Hcod as [_ Hcod].
    rewrite Forall_forall in IH, Hcod.
    assert (Hkid : forall conv_kid x, x ∈ items ->
      (forall t, t_kids t ≠ [] -> conv_kid t = convert_tree c t) ->
      (conv_kid =  array_child (convert_tree c) ∨ conv_kid = plain_child (convert_tree c)) ->
      conv_kid (if isComplex x
                then T (2 * Z.of_nat level) None None true (item_trees c x (S level))
                else T (2 * Z.of_nat level) None (Some (scalar_text x)) true []) = x).
    { intros conv_kid x Hx Hconv Hor. destruct (isComplex x) eqn:Ex.
      - rewrite Hconv by (simpl; apply item_trees_nonempty; auto).
        apply IH; auto. by apply (keys_known_arr items).
      - pose proof (scalar_reads_back x (Hcod x Hx) Ex) as Hrb.
        destruct Hor as [-> | ->]; exact Hrb. }
    split.
    + intros i k arr. rewrite convert_tree_kids by done.
      rewrite (forallb_true_Forall _ _ Harr). f_equal. simpl.
      apply map_map_id. intros x Hx.
      apply (Hkid (array_child (convert_tree c))); [done| |by left].
      intros t Ht. unfold array_child.
      by repeat case_bool_decide.
    + unfold convert_forest. rewrite (forallb_true_Forall _ _ Harr). f_equal. simpl.
      apply map_map_id. intros x Hx.
      apply (Hkid (plain_child (convert_tree c))); [done| |by right].
      intros t Ht. unfold plain_child. by case_bool_decide.
  - (* objects *)
    intros Hcod _ Hkeys level.
    pose proof (item_trees_nonempty _ level Hcod eq_refl) as Hne.
    pose proof (item_trees_isArrayItem (JObj ents) level) as Harr.
    apply codable_obj in Hcod as (_ & Hcod & Hnd & Hord).
    rewrite Forall_forall in IH, Hcod.
    assert (Hkid : forall conv_kid (kv : string * json), kv ∈ ents ->
      (forall t, t_kids t ≠ [] -> conv_kid t = convert_tree c t) ->
      (conv_kid = object_child (convert_tree c) ∨ conv_kid = plain_child (convert_tree c)) ->
      conv_kid (if isComplex kv.2
                then T (2 * Z.of_nat level) (Some (tokenOf c kv.1)) None false
                       (item_trees c kv.2 (S level))
                else T (2 * Z.of_nat level) (Some (tokenOf c kv.1))
                       (Some (scalar_text kv.2)) false []) = kv.2).
    { intros conv_kid kv Hx Hconv Hor. destruct (Hcod kv Hx) as [_ Hc].
      destruct (isComplex kv.2) eqn:Ex.
      - rewrite Hconv by (simpl; apply item_trees_nonempty; auto).
        apply IH; auto. by apply (keys_known_obj ents).
      - pose proof (scalar_reads_back kv.2 Hc Ex) as Hrb.
        destruct Hor as [-> | ->]; exact Hrb. }
    assert (Hkey : forall kv : string * json, kv ∈ ents ->
      t_key (if isComplex kv.2
             then T (2 * Z.of_nat level) (Some (tokenOf c kv.1)) None false
                    (item_trees c kv.2 (S level))
             else T (2 * Z.of_nat level) (Some (tokenOf c kv.1))
                    (Some (scalar_text kv.2)) false []) = Some (tokenOf c kv.1)).
    { intros kv _. by destruct (isComplex kv.2). }
    assert (Hfold : fold_left (fun obj kv => obj_set kv.1 kv.2 obj) ents [] = ents)
      by (by apply (fold_obj_set ents [])).
    split.
    + intros i k arr. rewrite convert_tree_kids by done.
      rewrite (forallb_false_head _ _ Hne Harr).
      rewrite (forallb_true_Forall (fun k => negb (t_isArrayItem k)))
        by (eapply Forall_impl; [exact Harr|]; simpl; by intros ? ->).
      f_equal. simpl. rewrite <- Hfold at 2. apply fold_left_map_ext.
      intros kv Hkv a. rewrite (Hkey kv Hkv). simpl.
      destruct (keys_known_obj ents kv Hkeys Hkv) as [[_ ->] _]. f_equal.
      apply (Hkid (object_child (convert_tree c))); [done| |by left].
      intros t Ht. unfold object_child.
      by repeat case_bool_decide.
    + unfold convert_forest. rewrite (forallb_false_head _ _ Hne Harr).
      f_equal. simpl. rewrite <- Hfold at 2. apply fold_left_map_ext.
      intros kv Hkv a. rewrite (Hkey kv Hkv). simpl.
      destruct (keys_known_obj ents kv Hkeys Hkv) as [[Htok ->] _].
      apply String.eqb_neq in Htok. rewrite Htok. simpl. f_equal.
      apply (Hkid (plain_child (convert_tree c))); [done| |by right].
      intros t Ht. unfold plain_child. by case_bool_decide.
Qed.

End TreesOfValues.

(** ** The encoder pushes the lines of [render] *)

Section EncoderLines.

Lemma extends_refl (c : ToonConverter) : extends c c.
Proof. by intros k t. Qed.

Lemma extends_trans (c1 c2 c3 : ToonConverter) :
  extends c1 c2 -> extends c2 c3 -> extends c1 c3.
Proof. intros H1 H2 k t Hk Ht. apply H2; [|done]. by apply H1. Qed.

Lemma extends_getToken (k : string) (c : ToonConverter) : extends c (getToken k c).2.
Proof.
  destruct (truthy (get_property (keyToToken c) k)) eqn:E.
  - apply truthy_Some in E as (t & Ht & Hne). rewrite (getToken_hit _ _ _ Ht Hne).
    apply extends_refl.
  - rewrite (getToken_miss _ _ E). intros k' t Hk Ht. simpl.
    rewrite get_property_insert_ne; [done|]. intros <-. rewrite Hk in E. simpl in E.
    apply negb_false_iff, String.eqb_eq in E. done.
Qed.

Lemma extends_getTokens (ks : list string) (c : ToonConverter) :
  extends c (getTokens ks c).
Proof.
  revert c. induction ks as [|k ks IH]; intros c; [apply extends_refl|].
  rewrite getTokens_cons. eapply extends_trans; [apply extends_getToken | apply IH].
Qed.

Lemma getTokens_app (ks ks' : list string) (c : ToonConverter) :
  getTokens (ks ++ ks')%list c = getTokens ks' (getTokens ks c).
Proof. unfold getTokens. apply foldl_app. Qed.

(** The token [getToken] returns is the one every later state holds. *)
Lemma tokenOf_getToken (k : string) (c c' : ToonConverter) :
  extends (getToken k c).2 c' -> tokenOf c' k = (getToken k c).1.
Proof.
  intros H. destruct (getToken_registered k c) as [Hreg Hne].
  unfold tokenOf. by rewrite (H _ _ Hreg Hne).
Qed.

Lemma encodes_refl (st : EncState) : encodes st st [] (fun _ => []).
Proof. split; [done|]. intros c' _. by rewrite app_nil_r. Qed.

Lemma encodes_trans (st1 st2 st3 : EncState) ks ks' rd rd' :
  encodes st1 st2 ks rd -> encodes st2 st3 ks' rd' ->
  encodes st1 st3 (ks ++ ks')%list (fun c' => (rd c' ++ rd' c')%list).
Proof.
  intros [C1 L1] [C2 L2]. split.
  - by rewrite getTokens_app, <- C1.
  - intros c' Hext. rewrite (L2 c' Hext), (L1 c'); [by rewrite app_assoc|].
    eapply extends_trans; [|exact Hext]. rewrite C2. apply extends_getTokens.
Qed.

(** A [forEach] whose every turn encodes its element. *)
Lemma encodes_fold {A} (step : EncState -> A -> EncState) (ks : A -> list string)
    (rd : ToonConverter -> A -> list string) (l : list A) :
  (forall x, x ∈ l -> forall st, encodes st (step st x) (ks x) (fun c' => rd c' x)) ->
  forall st, encodes st (fold_left step l st) (concat (map ks l))
               (fun c' => concat (map (rd c') l)).
Proof.
  induction l as [|x l IH]; intros H st; [apply encodes_refl|]. simpl.
  apply (encodes_trans st (step st x)).
  - apply H. left.
  - apply IH. intros y Hy. apply H. by right.
Qed.

Lemma encodes_push (st : EncState) (l : string) :
  encodes st (push l st) [] (fun _ => [l]).
Proof. by split. Qed.

Lemma process_scalar (v : json) (level : nat) (st : EncState) :
  isComplex v = false -> process v level st = (scalar_text v, st).
Proof. by destruct v. Qed.

Lemma process_arr (items : list json) (level : nat) (st : EncState) :
  (process (JArr items) level st).2
  = fold_left
      (fun st subItem =>
         match subItem with
         | JArr _ => (process subItem (level + 1) (push (repeat "  " level ++ "-") st)).2
         | JObj ents =>
             fold_left
               (fun st (kv : string * json) =>
                  let '(k, val) := kv in
                  let '(token, c') := getToken k (conv st) in
                  let st1 := mkEnc (lines st) c' in
                  if isComplex val then
                    (process val (level + 2)
                       (push (repeat "  " level ++ "  " ++ token ++ ": " ++ "") st1)).2
                  else
                    let '(r, st2) := process val 0 st1 in
                    push (repeat "  " level ++ "  " ++ token ++ ": " ++ r) st2)
               ents (push (repeat "  " level ++ "-") st)
         | _ =>
             let '(r, st1) := process subItem 0 st in
             push (repeat "  " level ++ "- " ++ r) st1
         end)
      items st.
Proof. by destruct items. Qed.

Lemma process_obj (ents : list (string * json)) (level : nat) (st : EncState) :
  (process (JObj ents) level st).2
  = fold_left
      (fun st (kv : string * json) =>
         let '(k, v) := kv in
         let '(token, c') := getToken k (conv st) in
         let st1 := mkEnc (lines st) c' in
         let lineStart := repeat "  " level ++ token ++ ":" in
         if isComplex v then (process v (level + 1) (push lineStart st1)).2
         else let '(r, st2) := process v 0 st1 in push (lineStart ++ " " ++ r) st2)
      ents st.
Proof. by destruct ents. Qed.

(** One entry of an object: a token, then a line and the lines of the
    value, or one line with the scalar. *)
Lemma encodes_entry (k : string) (v : json) (st : EncState) (level : nat)
    (head : string -> string) (line : string -> string -> string) :
  process_spec v ->
  encodes st
    (let '(token, c') := getToken k (conv st) in
     let st1 := mkEnc (lines st) c' in
     if isComplex v then (process v level (push (head token) st1)).2
     else let '(r, st2) := process v 0 st1 in push (line token r) st2)
    (k :: keys_of v)
    (fun c' => if isComplex v then head (tokenOf c' k) :: render c' v level
               else [line (tokenOf c' k) (scalar_text v)]).
Proof.
  intros Hv. destruct (getToken k (conv st)) as [token c1] eqn:E.
  assert (Htok : forall c', extends c1 c' -> tokenOf c' k = token).
  { intros c' H. rewrite (tokenOf_getToken k (conv st)); by rewrite E. }
  cbv beta iota zeta. destruct (isComplex v) eqn:Ec.
  - destruct (Hv level (push (head token) (mkEnc (lines st) c1))) as [C L].
    split.
    + rewrite C. simpl. by rewrite E.
    + intros c' Hext. rewrite (L c' Hext). simpl. rewrite <- app_assoc. simpl.
      rewrite Htok; [done|]. eapply extends_trans; [|exact Hext].
      rewrite C. apply extends_getTokens.
  - rewrite process_scalar by done. destruct v; try done; simpl;
      (split; [simpl; by rewrite E | intros c' Hext; simpl; by rewrite Htok]).
Qed.

Lemma process_spec_all (v : json) :
  process_spec v
  ∧ match v with
    | JObj ents => Forall (fun kv : string * json => process_spec kv.2) ents
    | _ => True
    end.
Proof.
  induction v as [|b|n|s|items IH|ents IH] using json_ind_nested;
    try (split; [|done]; intros level st; apply encodes_refl).
  - (* arrays *)
    split; [|done]. intros level st. rewrite process_arr.
    apply (encodes_fold _ keys_of
             (fun c' subItem =>
                match subItem with
                | JArr _ => (repeat "  " level ++ "-") :: render c' subItem (level + 1)
                | JObj ents =>
                    (repeat "  " level ++ "-") ::
                    concat (map (fun kv : string * json =>
                              if isComplex kv.2 then
                                (repeat "  " level ++ "  " ++ tokenOf c' kv.1 ++ ": " ++ "")
                                  :: render c' kv.2 (level + 2)
                              else
                                [repeat "  " level ++ "  " ++ tokenOf c' kv.1 ++ ": "
                                   ++ scalar_text kv.2])
                            ents)
                | _ => [repeat "  " level ++ "- " ++ scalar_text subItem]
                end)).
    intros x Hx st'. rewrite Forall_forall in IH. destruct (IH x Hx) as [Hx1 Hx2].
    destruct x as [|b|n|s|sub|ents];
      try (split; [done | intros c' _; by simpl]).
    + apply (encodes_trans st' (push (repeat "  " level ++ "-") st') _ [] _ (fun _ => [_])).
      * apply encodes_push.
      * apply Hx1.
    + apply (encodes_trans st' (push (repeat "  " level ++ "-") st') _ [] _ (fun _ => [_])).
      * apply encodes_push.
      * apply (encodes_fold _ (fun kv : string * json => kv.1 :: keys_of kv.2)
                 (fun c' (kv : string * json) =>
                    if isComplex kv.2 then
                      (repeat "  " level ++ "  " ++ tokenOf c' kv.1 ++ ": " ++ "")
                        :: render c' kv.2 (level + 2)
                    else
                      [repeat "  " level ++ "  " ++ tokenOf c' kv.1 ++ ": "
                         ++ scalar_text kv.2])).
        intros [k val] Hkv st''. rewrite Forall_forall in Hx2.
        exact (encodes_entry k val st'' (level + 2)
                 (fun token => repeat "  " level ++ "  " ++ token ++ ": " ++ "")
                 (fun token r => repeat "  " level ++ "  " ++ token ++ ": " ++ r)
                 (Hx2 _ Hkv)).
  - (* objects *)
    assert (Hvals : Forall (fun kv : string * json => process_spec kv.2) ents).
    { eapply Forall_impl; [exact IH|]. by intros kv [? _]. }
    split; [|done]. intros level st. rewrite process_obj.
    apply (encodes_fold _ (fun kv : string * json => kv.1 :: keys_of kv.2)
             (fun c' (kv : string * json) =>
                if isComplex kv.2 then
                  (repeat "  " level ++ tokenOf c' kv.1 ++ ":") :: render c' kv.2 (level + 1)
                else
                  [(repeat "  " level ++ tokenOf c' kv.1 ++ ":") ++ " " ++ scalar_text kv.2])).
    intros [k val] Hkv st''. rewrite Forall_forall in Hvals.
    exact (encodes_entry k val st'' (level + 1)
             (fun token => repeat "  " level ++ token ++ ":")
             (fun token r => (repeat "  " level ++ token ++ ":") ++ " " ++ r)
             (Hvals _ Hkv)).
Qed.

(** [process] asks for the tokens of the keys of the value, in order, and
    pushes the lines of [render]. *)
Lemma process_encodes (v : json) : process_spec v.
Proof. apply process_spec_all. Qed.

End EncoderLines.

(** ** Lines of text *)

Section LineFacts.

Lemma append_cons (c : ascii) (a b : string) : String c a ++ b = String c (a ++ b).
Proof. reflexivity. Qed.

Lemma repeat_succ_r (s : string) (n : nat) : repeat s (n + 1) = repeat s n ++ s.
Proof.
  induction n as [|n IH]; simpl; [by rewrite append_nil_r|].
  by rewrite IH, append_assoc.
Qed.

Lemma search_from_indent (level : nat) (i : Z) (c : ascii) (s : string) :
  isWhiteSpace c = false ->
  search_from i (repeat "  " level ++ String c s) = i + 2 * Z.of_nat level.
Proof.
  intros Hc. revert i. induction level as [|n IH]; intros i.
  - simpl. rewrite Hc. lia.
  - change (repeat "  " (S n) ++ String c s)
      with (String " " (String " " (repeat "  " n ++ String c s))).
    cbn [search_from]. change (isWhiteSpace " ") with true. cbn iota.
    rewrite IH. lia.
Qed.

Lemma trimStart_indent (level : nat) (s : string) :
  trimStart (repeat "  " level ++ s) = trimStart s.
Proof. induction level as [|n IH]; [done|]. exact IH. Qed.

Lemma trim_indent (level : nat) (s : string) : trim (repeat "  " level ++ s) = trim s.
Proof. unfold trim. by rewrite trimStart_indent. Qed.

Lemma trimEnd_cons (c : ascii) (s : string) :
  trimEnd s ≠ "" -> trimEnd (String c s) = String c (trimEnd s).
Proof. simpl. by destruct (trimEnd s). Qed.

Lemma trimEnd_visible (c : ascii) (s : string) :
  isWhiteSpace c = false -> trimEnd (String c s) = String c (trimEnd s).
Proof. intros Hc. simpl. destruct (trimEnd s); [by rewrite Hc | done]. Qed.

Lemma trimEnd_app (a b : string) :
  trimEnd b ≠ "" -> trimEnd (a ++ b) = a ++ trimEnd b.
Proof.
  intros Hb. induction a as [|c a IH]; [done|].
  rewrite !append_cons, trimEnd_cons; [by rewrite IH|].
  rewrite IH. by destruct a.
Qed.

Lemma length_trimStart (s : string) :
  (String.length (trimStart s) <= String.length s)%nat.
Proof.
  induction s as [|c s IH]; simpl; [lia|]. destruct (isWhiteSpace c); simpl; lia.
Qed.

Lemma length_trimEnd (s : string) :
  (String.length (trimEnd s) <= String.length s)%nat.
Proof.
  induction s as [|c s IH]; simpl; [lia|].
  destruct (trimEnd s); [destruct (isWhiteSpace c)|]; simpl in *; lia.
Qed.

Lemma trim_visible (c : ascii) (s : string) :
  isWhiteSpace c = false -> trim (String c s) = trimEnd (String c s).
Proof. intros Hc. unfold trim. cbn [trimStart]. by rewrite Hc. Qed.

Lemma trim_blank_cons (c : ascii) (s : string) :
  isWhiteSpace c = true -> trim (String c s) = trim s.
Proof. intros Hc. unfold trim. cbn [trimStart]. by rewrite Hc. Qed.

(** A text that [trim] leaves alone starts with a visible character and
    [trimEnd] leaves it alone. *)
Lemma trim_fixed (r : string) :
  trim r = r -> r ≠ "" ->
  (∃ c r', r = String c r' ∧ isWhiteSpace c = false) ∧ trimEnd r = r.
Proof.
  intros Ht Hne. destruct r as [|c r']; [done|].
  destruct (isWhiteSpace c) eqn:Ec.
  - exfalso. rewrite trim_blank_cons in Ht by done. unfold trim in Ht.
    pose proof (length_trimEnd (trimStart r')) as H1.
    pose proof (length_trimStart r') as H2.
    rewrite Ht in H1. simpl in H1. lia.
  - split; [eauto|]. by rewrite trim_visible in Ht.
Qed.

Lemma trim_space_cons (s : string) : trim (String " " s) = trim s.
Proof. reflexivity. Qed.

Lemma clean_value_trimEnd (r : string) : clean_value r -> trimEnd r = r ∧ trimEnd r ≠ "".
Proof.
  intros (Hne & Ht & _). destruct (trim_fixed r Ht Hne) as [_ E]. by rewrite E.
Qed.

Lemma null_if_empty_Some (r : string) : r ≠ "" -> null_if_empty r = Some r.
Proof. intros H%String.eqb_neq. unfold null_if_empty. by rewrite H. Qed.

(** *** Dash lines *)

Lemma parse_dash_line (level : nat) (w w' : string) :
  trimEnd w = w' ->
  parse_line (repeat "  " level ++ String "-" w)
  = Some (2 * Z.of_nat level, None, null_if_empty (trim w'), true).
Proof.
  intros Hw. unfold parse_line, search_nonspace.
  rewrite search_from_indent by done. rewrite trim_indent.
  rewrite trim_visible, trimEnd_visible by done. simpl. by rewrite Hw.
Qed.

Lemma parse_dash_alone (level : nat) :
  parse_line (repeat "  " level ++ "-") = Some (2 * Z.of_nat level, None, None, true).
Proof. by rewrite (parse_dash_line level "" ""). Qed.

Lemma parse_dash_value (level : nat) (r : string) :
  clean_value r ->
  parse_line (repeat "  " level ++ "- " ++ r)
  = Some (2 * Z.of_nat level, None, Some r, true).
Proof.
  intros Hr. destruct (clean_value_trimEnd r Hr) as [E Hne].
  destruct Hr as (Hr1 & Hr2 & _).
  change ("- " ++ r) with (String "-" (String " " r)).
  rewrite (parse_dash_line level (String " " r) (String " " r)).
  - by rewrite trim_space_cons, Hr2, null_if_empty_Some.
  - by rewrite trimEnd_cons, E.
Qed.

(** *** Key lines *)

Lemma string_forall_head (P : ascii -> bool) (t : string) :
  t ≠ "" -> string_forall P t = true -> ∃ c t', t = String c t' ∧ P c = true.
Proof.
  destruct t as [|c t']; [done|]. simpl. intros _ [H _]%andb_true_iff. eauto.
Qed.

Lemma is_digit_visible (c : ascii) :
  is_digit c = true ->
  isWhiteSpace c = false ∧ Ascii.eqb c "-" = false ∧ Ascii.eqb c ":" = false
  ∧ Ascii.eqb c LF = false.
Proof.
  unfold is_digit. intros [d Hd]%bool_decide_eq_true.
  split; [by apply (digit_not_space c d)|].
  repeat split; apply Ascii.eqb_neq; intros ->; vm_compute in Hd; done.
Qed.

Lemma digits_trimEnd (t : string) :
  t ≠ "" -> string_forall is_digit t = true -> trimEnd t = t.
Proof.
  induction t as [|c t IH]; [done|]. simpl. intros _ [Hc Ht]%andb_true_iff.
  destruct (is_digit_visible c Hc) as (Hv & _).
  destruct t as [|c' t']; [simpl; by rewrite Hv|].
  rewrite IH by done. done.
Qed.

Lemma digits_trim (t : string) :
  t ≠ "" -> string_forall is_digit t = true -> trim t = t.
Proof.
  intros Hne Hd. destruct (string_forall_head _ _ Hne Hd) as (c & t' & -> & Hc).
  destruct (is_digit_visible c Hc) as (Hv & _).
  rewrite trim_visible by done. by apply digits_trimEnd.
Qed.

Lemma digits_no_colon (t : string) :
  string_forall is_digit t = true -> indexOf ":" t = None.
Proof.
  induction t as [|c t IH]; [done|]. simpl. intros [Hc Ht]%andb_true_iff.
  destruct (is_digit_visible c Hc) as (_ & _ & -> & _). by rewrite IH.
Qed.

Lemma digits_no_LF (t : string) :
  string_forall is_digit t = true -> indexOf LF t = None.
Proof.
  induction t as [|c t IH]; [done|]. simpl. intros [Hc Ht]%andb_true_iff.
  destruct (is_digit_visible c Hc) as (_ & _ & _ & ->). by rewrite IH.
Qed.

(** A token of digits is one that a line gives back. *)
Lemma digits_clean (t : string) :
  t ≠ "" -> string_forall is_digit t = true -> clean_token t.
Proof.
  intros Hne Hd. split; [done|]. split; [by apply digits_trim|].
  split; [by apply digits_no_colon|]. split; [by apply digits_no_LF|].
  destruct (string_forall_head _ _ Hne Hd) as (c & t' & -> & Hc).
  by destruct (is_digit_visible c Hc) as (_ & ? & _).
Qed.

Lemma clean_token_trim (t : string) : clean_token t -> trim t = t.
Proof. by intros (_ & ? & _). Qed.

Lemma indexOf_colon_app (t w : string) :
  indexOf ":" t = None -> indexOf ":" (t ++ String ":" w) = Some (String.length t).
Proof.
  induction t as [|c t IH]; [done|]. simpl.
  destruct (Ascii.eqb c ":"); [done|].
  destruct (indexOf ":" t); [done|]. intros _. by rewrite IH.
Qed.

Lemma substring_to_app (t w : string) : substring_to (String.length t) (t ++ w) = t.
Proof.
  induction t as [|c t IH]; simpl; [by destruct w|]. by rewrite IH.
Qed.

Lemma substring_from_app (t w : string) (c : ascii) :
  substring_from (String.length t + 1) (t ++ String c w) = w.
Proof. induction t as [|c' t IH]; simpl; [done | exact IH]. Qed.

Lemma parse_key_line (level : nat) (t w w' : string) :
  clean_token t -> trimEnd w = w' ->
  parse_line (repeat "  " level ++ t ++ String ":" w)
  = Some (2 * Z.of_nat level, Some t, null_if_empty (trim w'), false).
Proof.
  intros Ht Hw. pose proof (clean_token_trim t Ht) as Htrim.
  destruct Ht as (Hne & _ & Hcolon & _ & Hstart).
  destruct (trim_fixed t Htrim Hne) as [(c & t' & E & Hv) _].
  assert (Hdash : Ascii.eqb c "-" = false) by (by rewrite E in Hstart).
  assert (Hcontent : trim (t ++ String ":" w) = t ++ String ":" w').
  { rewrite E, append_cons, trim_visible, <- append_cons, <- E by done.
    rewrite trimEnd_app; rewrite trimEnd_visible by done; [by rewrite Hw | done]. }
  assert (Hs : search_from 0 (repeat "  " level ++ t ++ String ":" w)
               = 2 * Z.of_nat level).
  { rewrite E, append_cons. by rewrite search_from_indent. }
  assert (Hsw : startsWith "-" (t ++ String ":" w') = false).
  { rewrite E. exact Hdash. }
  unfold parse_line, search_nonspace.
  rewrite trim_indent, Hcontent, Hs, Hsw, indexOf_colon_app by done.
  by rewrite substring_to_app, substring_from_app, Htrim.
Qed.

Lemma parse_key_alone (level : nat) (t : string) :
  clean_token t ->
  parse_line (repeat "  " level ++ t ++ ":") = Some (2 * Z.of_nat level, Some t, None, false).
Proof. intros Ht. by rewrite (parse_key_line level t "" ""). Qed.

Lemma parse_key_blank (level : nat) (t : string) :
  clean_token t ->
  parse_line (repeat "  " level ++ t ++ ": ") = Some (2 * Z.of_nat level, Some t, None, false).
Proof. intros Ht. by rewrite (parse_key_line level t " " ""). Qed.

Lemma parse_key_value (level : nat) (t r : string) :
  clean_token t -> clean_value r ->
  parse_line (repeat "  " level ++ t ++ ": " ++ r)
  = Some (2 * Z.of_nat level, Some t, Some r, false).
Proof.
  intros Ht Hr. destruct (clean_value_trimEnd r Hr) as [E Hne].
  destruct Hr as (Hr1 & Hr2 & _).
  change (": " ++ r) with (String ":" (String " " r)).
  rewrite (parse_key_line level t (String " " r) (String " " r)); [|done|].
  - by rewrite trim_space_cons, Hr2, null_if_empty_Some.
  - by rewrite trimEnd_cons, E.
Qed.

(** *** Lines joined and split again *)

Lemma indexOf_app_None (c : ascii) (a b : string) :
  indexOf c a = None -> indexOf c b = None -> indexOf c (a ++ b) = None.
Proof.
  intros Ha Hb. induction a as [|x a IH]; [done|]. simpl in *.
  destruct (Ascii.eqb x c); [done|].
  destruct (indexOf c a); [done|]. by rewrite IH.
Qed.

Lemma indexOf_indent (level : nat) : indexOf LF (repeat "  " level) = None.
Proof. induction level as [|n IH]; [done|]. simpl. by rewrite IH. Qed.

Lemma split_lines_one (l : string) : indexOf LF l = None -> split_lines l = [l].
Proof.
  induction l as [|c l IH]; [done|]. simpl.
  destruct (Ascii.eqb c LF); [done|]. intros H.
  destruct (indexOf LF l); [done|]. by rewrite IH.
Qed.

Lemma split_lines_app (l rest : string) :
  indexOf LF l = None -> split_lines (l ++ String LF rest) = l :: split_lines rest.
Proof.
  induction l as [|c l IH]; [done|]. simpl.
  destruct (Ascii.eqb c LF); [done|]. intros H.
  destruct (indexOf LF l); [done|]. by rewrite IH.
Qed.

Lemma split_join (ls : list string) :
  ls ≠ [] -> Forall (fun l => indexOf LF l = None) ls ->
  split_lines (join_lines ls) = ls.
Proof.
  induction ls as [|l ls IH]; [done|]. intros _ H.
  apply Forall_cons in H as [Hl Hls]. destruct ls as [|l' ls'].
  - by apply split_lines_one.
  - change (join_lines (l :: l' :: ls')) with (l ++ String LF (join_lines (l' :: ls'))).
    rewrite split_lines_app by done. f_equal. by apply IH.
Qed.

Lemma parse_line_nonblank (l : string) (pl : pline) :
  parse_line l = Some pl -> trim l ≠ "".
Proof. unfold parse_line. intros H E. by rewrite E in H. Qed.

(** The lines of the encoder come back from the joined text. *)
Lemma nonblank_join (ls : list string) :
  Forall line_ok ls -> nonblank_lines (join_lines ls) = ls.
Proof.
  intros H. unfold nonblank_lines. destruct (decide (ls = [])) as [->|Hne]; [done|].
  rewrite split_join; [|done|by eapply Forall_impl; [exact H|]; intros ? []].
  clear Hne. induction H as [|l ls [_ Hl] _ IH]; [done|].
  rewrite filter_cons_True; [by rewrite IH|].
  destruct (trim l); [done|]. reflexivity.
Qed.

(** *** Pass 1 through [parse_line] *)

Lemma readLine_parse (st : Heap * nat) (line : string) :
  readLine st line
  = match parse_line line with
    | Some pl => addLine st pl
    | None => Some st
    end.
Proof.
  destruct st as [h l]. unfold readLine, parse_line, addLine.
  destruct (startsWith "-" (trim line)); [done|].
  by destruct (indexOf ":" (trim line)).
Qed.

Lemma readLines_parse (ls : list string) (st : Heap * nat) :
  foldl (fun st line => st ← st; readLine st line) (Some st) ls
  = run_lines st (omap parse_line ls).
Proof.
  revert st. induction ls as [|l ls IH]; intros st; [done|].
  change (omap parse_line (l :: ls))
    with (match parse_line l with
          | Some y => y :: omap parse_line ls
          | None => omap parse_line ls
          end).
  cbn [foldl]. cbn [mbind option_bind]. rewrite readLine_parse.
  destruct (parse_line l) as [pl|]; [|apply IH].
  rewrite run_lines_cons. destruct (addLine st pl) as [st'|]; [apply IH|].
  simpl. clear. by induction ls.
Qed.

End LineFacts.

(** ** The lines of an encoding are the lines of its trees *)

Section RenderedLines.

Context (c : ToonConverter).

Lemma keys_of_arr_sub (items : list json) (x : json) (k : string) :
  x ∈ items -> k ∈ keys_of x -> k ∈ keys_of (JArr items).
Proof.
  intros Hx Hk. simpl. apply list_elem_of_In, in_concat.
  exists (keys_of x). split; [apply in_map|]; by apply list_elem_of_In.
Qed.

Lemma keys_of_obj_sub (ents : list (string * json)) (kv : string * json) (k : string) :
  kv ∈ ents -> k ∈ kv.1 :: keys_of kv.2 -> k ∈ keys_of (JObj ents).
Proof.
  intros Hx Hk. simpl. apply list_elem_of_In, in_concat.
  exists (kv.1 :: keys_of kv.2). split; [|by apply list_elem_of_In].
  apply (in_map (fun kv : string * json => kv.1 :: keys_of kv.2)).
  by apply list_elem_of_In.
Qed.

Lemma omap_concat_map {A B C} (f : B -> option C) (g : A -> list B) (l : list A) :
  omap f (concat (map g l)) = concat (map (fun x => omap f (g x)) l).
Proof.
  induction l as [|x l IH]; [done|]. simpl. by rewrite omap_app, IH.
Qed.

Lemma concat_map_ext {A B} (f g : A -> list B) (l : list A) :
  (forall x, x ∈ l -> f x = g x) -> concat (map f l) = concat (map g l).
Proof.
  induction l as [|x l IH]; intros H; [done|]. simpl.
  rewrite H by left. f_equal. apply IH. intros y Hy. apply H. by right.
Qed.

Lemma Forall_concat_map {A B} (P : B -> Prop) (g : A -> list B) (l : list A) :
  (forall x, x ∈ l -> Forall P (g x)) -> Forall P (concat (map g l)).
Proof.
  induction l as [|x l IH]; intros H; [constructor|]. simpl.
  apply Forall_app. split; [apply H; left|]. apply IH. intros y Hy. apply H. by right.
Qed.

Lemma line_ok_parsed (l : string) (pl : pline) :
  parse_line l = Some pl -> indexOf LF l = None -> line_ok l.
Proof. intros H1 H2. split; [done|]. by apply (parse_line_nonblank l pl). Qed.

Lemma clean_token_LF (t : string) : clean_token t -> indexOf LF t = None.
Proof. by intros (_ & _ & _ & ? & _). Qed.

(** The texts of the scalars of the round trip are clean. *)
Hypothesis scalar_clean :
  forall x, codable x = true -> isComplex x = false -> clean_value (scalar_text x).

Ltac no_LF :=
  repeat (apply indexOf_app_None);
  try (apply indexOf_indent); try (by apply clean_token_LF); try done.

Lemma dash_alone_ok (level : nat) : line_ok (repeat "  " level ++ "-").
Proof. eapply line_ok_parsed; [apply parse_dash_alone | no_LF]. Qed.

Lemma dash_value_ok (level : nat) (r : string) :
  clean_value r -> line_ok (repeat "  " level ++ "- " ++ r).
Proof.
  intros Hr. eapply line_ok_parsed; [by apply parse_dash_value|].
  destruct Hr as (_ & _ & Hr). no_LF.
Qed.

Lemma key_alone_ok (level : nat) (t : string) :
  clean_token t -> line_ok (repeat "  " level ++ t ++ ":").
Proof. intros Ht. eapply line_ok_parsed; [by apply parse_key_alone | no_LF]. Qed.

Lemma key_blank_ok (level : nat) (t : string) :
  clean_token t -> line_ok (repeat "  " level ++ t ++ ": ").
Proof. intros Ht. eapply line_ok_parsed; [by apply parse_key_blank | no_LF]. Qed.

Lemma key_value_ok (level : nat) (t r : string) :
  clean_token t -> clean_value r -> line_ok (repeat "  " level ++ t ++ ": " ++ r).
Proof.
  intros Ht Hr. eapply line_ok_parsed; [by apply parse_key_value|].
  destruct Hr as (_ & _ & Hr). no_LF.
Qed.

(** Inside an array the entries of an object are written two columns
    deeper, with a blank after the colon of a header. *)
Lemma indent_deeper (level : nat) (s : string) :
  repeat "  " level ++ "  " ++ s = repeat "  " (S level) ++ s.
Proof.
  replace (S level) with (level + 1)%nat by lia.
  by rewrite repeat_succ_r, append_assoc.
Qed.

Lemma Forall_concat_map_inv {A B} (P : B -> Prop) (g : A -> list B) (l : list A) (x : A) :
  Forall P (concat (map g l)) -> x ∈ l -> Forall P (g x).
Proof.
  induction l as [|y l IH]; [by intros _ ?%elem_of_nil|]. simpl.
  intros [H1 H2]%Forall_app [->|Hx]%elem_of_cons; [done | by apply IH].
Qed.

Lemma render_arr (items : list json) (level : nat) :
  render c (JArr items) level
  = concat (map (fun subItem =>
              match subItem with
              | JArr _ => (repeat "  " level ++ "-") :: render c subItem (level + 1)
              | JObj ents =>
                  (repeat "  " level ++ "-") ::
                  concat (map (fun kv : string * json =>
                            if isComplex kv.2 then
                              (repeat "  " level ++ "  " ++ tokenOf c kv.1 ++ ": " ++ "")
                                :: render c kv.2 (level + 2)
                            else
                              [repeat "  " level ++ "  " ++ tokenOf c kv.1 ++ ": "
                                 ++ scalar_text kv.2])
                          ents)
              | _ => [repeat "  " level ++ "- " ++ scalar_text subItem]
              end) items).
Proof. reflexivity. Qed.

Lemma render_obj (ents : list (string * json)) (level : nat) :
  render c (JObj ents) level
  = concat (map (fun kv : string * json =>
              if isComplex kv.2 then
                (repeat "  " level ++ tokenOf c kv.1 ++ ":") :: render c kv.2 (level + 1)
              else
                [(repeat "  " level ++ tokenOf c kv.1 ++ ":") ++ " " ++ scalar_text kv.2])
            ents).
Proof. reflexivity. Qed.

Lemma item_trees_arr (items : list json) (level : nat) :
  item_trees c (JArr items) level
  = map (fun x =>
           if isComplex x
           then T (2 * Z.of_nat level) None None true (item_trees c x (S level))
           else T (2 * Z.of_nat level) None (Some (scalar_text x)) true [])
        items.
Proof. reflexivity. Qed.

Lemma item_trees_obj (ents : list (string * json)) (level : nat) :
  item_trees c (JObj ents) level
  = map (fun kv : string * json =>
           if isComplex kv.2
           then T (2 * Z.of_nat level) (Some (tokenOf c kv.1)) None false
                  (item_trees c kv.2 (S level))
           else T (2 * Z.of_nat level) (Some (tokenOf c kv.1))
                  (Some (scalar_text kv.2)) false [])
        ents.
Proof. reflexivity. Qed.

Lemma omap_cons_Some (l : string) (ls : list string) (y : pline) :
  parse_line l = Some y -> omap parse_line (l :: ls) = y :: omap parse_line ls.
Proof.
  intros H.
  change (omap parse_line (l :: ls))
    with (match parse_line l with
          | Some y => y :: omap parse_line ls
          | None => omap parse_line ls
          end).
  by rewrite H.
Qed.

Lemma omap_one_Some (l : string) (y : pline) :
  parse_line l = Some y -> omap parse_line [l] = [y].
Proof. intros H. by rewrite (omap_cons_Some l [] y H). Qed.

Lemma key_line_assoc (a t r : string) : (a ++ t ++ ":") ++ " " ++ r = a ++ t ++ ": " ++ r.
Proof. by rewrite !append_assoc. Qed.

(** The lines of an entry of an object, at [level]. *)
Lemma entry_parses (level : nat) (k : string) (x : json) :
  clean_token (tokenOf c k) -> codable x = true ->
  (isComplex x = true ->
     omap parse_line (render c x (level + 1))
     = concat (map flatten (item_trees c x (S level)))
     ∧ Forall line_ok (render c x (level + 1))) ->
  omap parse_line
    (if isComplex x then (repeat "  " level ++ tokenOf c k ++ ":") :: render c x (level + 1)
     else [(repeat "  " level ++ tokenOf c k ++ ":") ++ " " ++ scalar_text x])
  = flatten (if isComplex x
             then T (2 * Z.of_nat level) (Some (tokenOf c k)) None false
                    (item_trees c x (S level))
             else T (2 * Z.of_nat level) (Some (tokenOf c k)) (Some (scalar_text x)) false [])
  ∧ Forall line_ok
      (if isComplex x then (repeat "  " level ++ tokenOf c k ++ ":") :: render c x (level + 1)
       else [(repeat "  " level ++ tokenOf c k ++ ":") ++ " " ++ scalar_text x]).
Proof.
  intros Ht Hcod Hx. destruct (isComplex x) eqn:Ex.
  - destruct (Hx eq_refl) as [H1 H2]. split.
    + rewrite (omap_cons_Some _ _ _ (parse_key_alone level _ Ht)).
      cbn [flatten]. by rewrite H1.
    + constructor; [by apply key_alone_ok | done].
  - pose proof (scalar_clean x Hcod Ex) as Hr. rewrite key_line_assoc. split.
    + by rewrite (omap_one_Some _ _ (parse_key_value level _ _ Ht Hr)).
    + constructor; [by apply key_value_ok | constructor].
Qed.

Lemma render_parses (v : json) :
  codable v = true -> isComplex v = true -> tokens_clean c v ->
  forall level,
    omap parse_line (render c v level) = concat (map flatten (item_trees c v level))
    ∧ Forall line_ok (render c v level)
    ∧ Forall (levelled (2 * Z.of_nat level)) (item_trees c v level).
Proof.
  induction v as [|b|n|s|items IH|ents IH] using json_ind_nested; try done.
  - (* arrays *)
    intros Hcod _ Htok level. apply codable_arr in Hcod as [_ Hcod].
    rewrite Forall_forall in IH, Hcod.
    assert (Hsub : forall x, x ∈ items -> isComplex x = true -> forall lv,
      omap parse_line (render c x lv) = concat (map flatten (item_trees c x lv))
      ∧ Forall line_ok (render c x lv)
      ∧ Forall (levelled (2 * Z.of_nat lv)) (item_trees c x lv)).
    { intros x Hx Ex lv. apply IH; auto.
      intros k Hk. apply Htok. by apply (keys_of_arr_sub items x). }
    assert (Hitem : forall x, x ∈ items ->
      omap parse_line
        (match x with
         | JArr _ => (repeat "  " level ++ "-") :: render c x (level + 1)
         | JObj ents =>
             (repeat "  " level ++ "-") ::
             concat (map (fun kv : string * json =>
                       if isComplex kv.2 then
                         (repeat "  " level ++ "  " ++ tokenOf c kv.1 ++ ": " ++ "")
                           :: render c kv.2 (level + 2)
                       else
                         [repeat "  " level ++ "  " ++ tokenOf c kv.1 ++ ": "
                            ++ scalar_text kv.2])
                     ents)
         | _ => [repeat "  " level ++ "- " ++ scalar_text x]
         end)
      = flatten (if isComplex x
                 then T (2 * Z.of_nat level) None None true (item_trees c x (S level))
                 else T (2 * Z.of_nat level) None (Some (scalar_text x)) true [])
      ∧ Forall line_ok
          (match x with
           | JArr _ => (repeat "  " level ++ "-") :: render c x (level + 1)
           | JObj ents =>
               (repeat "  " level ++ "-") ::
               concat (map (fun kv : string * json =>
                         if isComplex kv.2 then
                           (repeat "  " level ++ "  " ++ tokenOf c kv.1 ++ ": " ++ "")
                             :: render c kv.2 (level + 2)
                         else
                           [repeat "  " level ++ "  " ++ tokenOf c kv.1 ++ ": "
                              ++ scalar_text kv.2])
                       ents)
           | _ => [repeat "  " level ++ "- " ++ scalar_text x]
           end)).
    { intros x Hx.
      assert (Hscal : isComplex x = false ->
        omap parse_line [repeat "  " level ++ "- " ++ scalar_text x]
        = [(2 * Z.of_nat level, None, Some (scalar_text x), true)]
        ∧ Forall line_ok [repeat "  " level ++ "- " ++ scalar_text x]).
      { intros Ex. pose proof (scalar_clean x (Hcod x Hx) Ex) as Hr. split.
        - by rewrite (omap_one_Some _ _ (parse_dash_value level _ Hr)).
        - constructor; [by apply dash_value_ok | constructor]. }
      destruct x as [|b|n|s|sub|ents]; try (by apply Hscal).
      - destruct (Hsub _ Hx eq_refl (S level)) as (H1 & H2 & _).
        replace (level + 1)%nat with (S level) by lia. split.
        + rewrite (omap_cons_Some _ _ _ (parse_dash_alone level)).
          cbn [isComplex flatten]. by rewrite H1.
        + constructor; [apply dash_alone_ok | done].
      - destruct (Hsub _ Hx eq_refl (S level)) as (H1 & H2 & _).
        pose proof (Hcod _ Hx) as Hc. apply codable_obj in Hc as (_ & Hc & _).
        rewrite Forall_forall in Hc.
        assert (Hents : forall kv : string * json, kv ∈ ents ->
          (if isComplex kv.2 then
             (repeat "  " level ++ "  " ++ tokenOf c kv.1 ++ ": " ++ "")
               :: render c kv.2 (level + 2)
           else [repeat "  " level ++ "  " ++ tokenOf c kv.1 ++ ": " ++ scalar_text kv.2])
          = (if isComplex kv.2 then
               (repeat "  " (S level) ++ tokenOf c kv.1 ++ ": ")
                 :: render c kv.2 (S level + 1)
             else [(repeat "  " (S level) ++ tokenOf c kv.1 ++ ":") ++ " "
                     ++ scalar_text kv.2])).
        { intros kv Hkv. rewrite !indent_deeper, key_line_assoc.
          replace (level + 2)%nat with (S level + 1)%nat by lia. done. }
        assert (Hhead : forall kv : string * json, kv ∈ ents ->
          omap parse_line
            (if isComplex kv.2 then
               (repeat "  " (S level) ++ tokenOf c kv.1 ++ ": ")
                 :: render c kv.2 (S level + 1)
             else [(repeat "  " (S level) ++ tokenOf c kv.1 ++ ":") ++ " "
                     ++ scalar_text kv.2])
          = omap parse_line
              (if isComplex kv.2 then
                 (repeat "  " (S level) ++ tokenOf c kv.1 ++ ":")
                   :: render c kv.2 (S level + 1)
               else [(repeat "  " (S level) ++ tokenOf c kv.1 ++ ":") ++ " "
                       ++ scalar_text kv.2])
          ∧ (Forall line_ok
               (if isComplex kv.2 then
                  (repeat "  " (S level) ++ tokenOf c kv.1 ++ ":")
                    :: render c kv.2 (S level + 1)
                else [(repeat "  " (S level) ++ tokenOf c kv.1 ++ ":") ++ " "
                        ++ scalar_text kv.2]) ->
             Forall line_ok
               (if isComplex kv.2 then
                  (repeat "  " (S level) ++ tokenOf c kv.1 ++ ": ")
                    :: render c kv.2 (S level + 1)
                else [(repeat "  " (S level) ++ tokenOf c kv.1 ++ ":") ++ " "
                        ++ scalar_text kv.2]))).
        { intros kv Hkv.
          assert (Ht : clean_token (tokenOf c kv.1)).
          { apply Htok. apply (keys_of_arr_sub items (JObj ents)); [done|].
            apply (keys_of_obj_sub ents kv); [done | left]. }
          destruct (isComplex kv.2); [|done]. split.
          - by rewrite (omap_cons_Some _ _ _ (parse_key_blank (S level) _ Ht)),
              (omap_cons_Some _ _ _ (parse_key_alone (S level) _ Ht)).
          - intros [_ H]%Forall_cons. constructor; [by apply key_blank_ok | done]. }
        split.
        + rewrite (omap_cons_Some _ _ _ (parse_dash_alone level)).
          cbn [isComplex flatten]. f_equal. rewrite <- H1.
          rewrite render_obj.
          rewrite !omap_concat_map. apply concat_map_ext.
          intros kv Hkv. rewrite (Hents kv Hkv). by apply Hhead.
        + constructor; [apply dash_alone_ok|].
          apply Forall_concat_map. intros kv Hkv. rewrite (Hents kv Hkv).
          apply Hhead; [done|].
          rewrite render_obj in H2.
          by apply (Forall_concat_map_inv _ _ ents kv H2). }
    split; [|split].
    + rewrite render_arr, item_trees_arr, omap_concat_map, map_map.
      apply concat_map_ext. intros x Hx. by apply Hitem.
    + rewrite render_arr. apply Forall_concat_map. intros x Hx. by apply Hitem.
    + rewrite item_trees_arr. apply Forall_forall. intros t (x & -> & Hx)%list_elem_of_fmap.
      destruct (isComplex x) eqn:Ex; apply levelled_unfold; (split; [done|]);
        [|constructor].
      destruct (Hsub x Hx Ex (S level)) as (_ & _ & H).
      replace (2 * Z.of_nat level + 2) with (2 * Z.of_nat (S level)) by lia. done.
  - (* objects *)
    intros Hcod _ Htok level. apply codable_obj in Hcod as (_ & Hcod & _).
    rewrite Forall_forall in IH, Hcod.
    assert (Hsub : forall kv : string * json, kv ∈ ents -> isComplex kv.2 = true -> forall lv,
      omap parse_line (render c kv.2 lv) = concat (map flatten (item_trees c kv.2 lv))
      ∧ Forall line_ok (render c kv.2 lv)
      ∧ Forall (levelled (2 * Z.of_nat lv)) (item_trees c kv.2 lv)).
    { intros kv Hkv Ex lv. apply IH; auto; [by apply Hcod|].
      intros k Hk. apply Htok. apply (keys_of_obj_sub ents kv); [done | by right]. }
    assert (Hentry : forall kv : string * json, kv ∈ ents ->
      omap parse_line
        (if isComplex kv.2
         then (repeat "  " level ++ tokenOf c kv.1 ++ ":") :: render c kv.2 (level + 1)
         else [(repeat "  " level ++ tokenOf c kv.1 ++ ":") ++ " " ++ scalar_text kv.2])
      = flatten (if isComplex kv.2
                 then T (2 * Z.of_nat level) (Some (tokenOf c kv.1)) None false
                        (item_trees c kv.2 (S level))
                 else T (2 * Z.of_nat level) (Some (tokenOf c kv.1))
                        (Some (scalar_text kv.2)) false [])
      ∧ Forall line_ok
          (if isComplex kv.2
           then (repeat "  " level ++ tokenOf c kv.1 ++ ":") :: render c kv.2 (level + 1)
           else [(repeat "  " level ++ tokenOf c kv.1 ++ ":") ++ " " ++ scalar_text kv.2])).
    { intros kv Hkv. apply entry_parses.
      - apply Htok. apply (keys_of_obj_sub ents kv); [done | left].
      - by apply Hcod.
      - intros Ex. destruct (Hsub kv Hkv Ex (S level)) as (H1 & H2 & _).
        replace (level + 1)%nat with (S level) by lia. done. }
    split; [|split].
    + rewrite render_obj, item_trees_obj, omap_concat_map, map_map.
      apply concat_map_ext. intros kv Hkv. by apply Hentry.
    + rewrite render_obj. apply Forall_concat_map. intros kv Hkv. by apply Hentry.
    + rewrite item_trees_obj. apply Forall_forall. intros t (kv & -> & Hkv)%list_elem_of_fmap.
      destruct (isComplex kv.2) eqn:Ex; apply levelled_unfold; (split; [done|]);
        [|constructor].
      destruct (Hsub kv Hkv Ex (S level)) as (_ & _ & H).
      replace (2 * Z.of_nat level + 2) with (2 * Z.of_nat (S level)) by lia. done.
Qed.

End RenderedLines.

(** ** The dictionary of a default converter *)

Section DefaultDictionary.

Lemma uint_digits (d : Decimal.uint) :
  string_forall is_digit (NilEmpty.string_of_uint d) = true.
Proof. induction d; simpl; try done; by rewrite IHd. Qed.

Lemma string_forall_app (P : ascii -> bool) (a b : string) :
  string_forall P (a ++ b) = string_forall P a && string_forall P b.
Proof. induction a as [|c a IH]; [done|]. simpl. by rewrite IH, andb_assoc. Qed.

Lemma digits_of_digits (n : Z) : string_forall is_digit (digits_of n) = true.
Proof. rewrite digits_of_eq. apply uint_digits. Qed.

(** A token minted from a counter value that is not negative is made of
    digits. *)
Lemma token_digits (n : Z) :
  0 <= n -> string_forall is_digit (padStart2 (Z_toString n)) = true.
Proof.
  intros Hn. rewrite Z_toString_nonneg by done. unfold padStart2.
  rewrite string_forall_app, digits_of_digits, andb_true_r.
  induction (2 - String.length (digits_of n))%nat as [|k IH]; [done | exact IH].
Qed.

Lemma token_clean (n : Z) : 0 <= n -> clean_token (padStart2 (Z_toString n)).
Proof.
  intros Hn. apply digits_clean; [apply token_nonempty | by apply token_digits].
Qed.

Lemma getToken_minted_only (k : string) (c : ToonConverter) :
  minted_only c -> minted_only (getToken k c).2.
Proof.
  intros [Hn Hm]. destruct (truthy (get_property (keyToToken c) k)) eqn:E.
  - apply truthy_Some in E as (t & Ht & Hne). by rewrite (getToken_hit _ _ _ Ht Hne).
  - rewrite (getToken_miss _ _ E). split; simpl; [lia|].
    intros k' t. rewrite lookup_insert. case_decide as Heq.
    + intros [= <-]. exists (nextTokenId c). split; [lia | done].
    + apply Hm.
Qed.

Lemma getTokens_minted_only (ks : list string) (c : ToonConverter) :
  minted_only c -> minted_only (getTokens ks c).
Proof.
  revert c. induction ks as [|k ks IH]; intros c Hc; [exact Hc|].
  rewrite getTokens_cons. by apply IH, getToken_minted_only.
Qed.

Lemma default_minted_only : minted_only (constructor []).
Proof. split; [done|]. intros k t H. simpl in H. by rewrite lookup_empty in H. Qed.

Lemma default_invariants (ks : list string) :
  counter_above (getTokens ks (constructor []))
  ∧ inverse_of (getTokens ks (constructor []))
  ∧ minted_only (getTokens ks (constructor [])).
Proof.
  destruct (getTokens_invariants ks (constructor [])) as (H1 & H2 & _).
  - apply constructor_counter_above. constructor.
  - intros k t H. simpl in H. by rewrite lookup_empty in H.
  - repeat split; try done; apply getTokens_minted_only, default_minted_only.
Qed.

(** After the calls every key asked for reads a token. *)
Lemma getTokens_assigns (ks : list string) (c : ToonConverter) (k : string) :
  k ∈ ks -> ∃ t, get_property (keyToToken (getTokens ks c)) k = Some t ∧ t ≠ "".
Proof.
  revert c. induction ks as [|k' ks IH]; intros c; [by intros ?%elem_of_nil|].
  rewrite getTokens_cons. intros [->|Hk]%elem_of_cons; [|by apply IH].
  destruct (getToken_registered k' c) as [Hreg Hne].
  exists (getToken k' c).1. split; [|done].
  by apply (extends_getTokens ks (getToken k' c).2).
Qed.

(** Calls for keys that read their tokens change nothing. *)
Lemma getTokens_idle (ks : list string) (c : ToonConverter) :
  (forall k, k ∈ ks -> ∃ t, get_property (keyToToken c) k = Some t ∧ t ≠ "") ->
  getTokens ks c = c.
Proof.
  induction ks as [|k ks IH]; intros H; [done|]. rewrite getTokens_cons.
  destruct (H k) as (t & Ht & Hne); [left|].
  rewrite (getToken_hit _ _ _ Ht Hne). apply IH. intros k' Hk'. apply H. by right.
Qed.

(** [getToken] removes no entry. *)
Lemma getToken_keeps_entries (k' k : string) (c : ToonConverter) :
  is_Some (keyToToken c !! k) -> is_Some (keyToToken (getToken k' c).2 !! k).
Proof.
  intros H. destruct (truthy (get_property (keyToToken c) k')) eqn:E.
  - apply truthy_Some in E as (t & Ht & Hne). by rewrite (getToken_hit _ _ _ Ht Hne).
  - rewrite (getToken_miss _ _ E). simpl. rewrite lookup_insert. by case_decide.
Qed.

Lemma getTokens_keep_entries (ks : list string) (k : string) (c : ToonConverter) :
  is_Some (keyToToken c !! k) -> is_Some (keyToToken (getTokens ks c) !! k).
Proof.
  revert c. induction ks as [|k' ks IH]; intros c H; [exact H|].
  rewrite getTokens_cons. by apply IH, getToken_keeps_entries.
Qed.

(** An entry that is there after the calls and was not there before
    belongs to one of the keys asked for. *)
Lemma getTokens_domain (ks : list string) (c : ToonConverter) (k : string) :
  is_Some (keyToToken (getTokens ks c) !! k) -> is_Some (keyToToken c !! k) ∨ k ∈ ks.
Proof.
  revert c. induction ks as [|k0 ks IH]; intros c; [by left|].
  rewrite getTokens_cons. intros [H|H]%IH; [|right; by apply elem_of_cons; right].
  destruct (truthy (get_property (keyToToken c) k0)) eqn:E.
  - apply truthy_Some in E as (t & Ht & Hne). rewrite (getToken_hit k0 c t) in H by done.
    by left.
  - rewrite getToken_miss in H by done. cbn in H.
    destruct (decide (k0 = k)) as [->|Hk]; [right; by apply elem_of_cons; left|].
    rewrite lookup_insert_ne in H by done. by left.
Qed.

(** A key asked for that has an entry or is no name of a member of
    [Object.prototype] has an entry afterwards, with the token it
    reads. *)
Lemma getTokens_entry (ks : list string) (c : ToonConverter) (k : string) :
  k ∈ ks -> (keyToToken c !! k = None -> prototype_member k = None) ->
  ∃ t, keyToToken (getTokens ks c) !! k = Some t ∧ t ≠ "".
Proof.
  intros Hk Hp. destruct (getTokens_assigns ks c k Hk) as (t & Ht & Hne).
  exists t. split; [|done]. unfold get_property in Ht.
  destruct (keyToToken (getTokens ks c) !! k) as [t'|] eqn:E; [done|].
  rewrite Hp in Ht; [done|].
  destruct (keyToToken c !! k) as [t0|] eqn:E0; [|done].
  destruct (getTokens_keep_entries ks k c) as [t1 H1]; [by rewrite E0|]. congruence.
Qed.

Lemma codable_keys_nonempty (v : json) (k : string) :
  codable v = true -> k ∈ keys_of v -> k ≠ "".
Proof.
  revert k. induction v as [|b|n|s|items IH|ents IH] using json_ind_nested;
    intros k Hcod; try (by intros ?%elem_of_nil).
  - apply codable_arr in Hcod as [_ Hcod]. rewrite Forall_forall in IH, Hcod.
    simpl. intros (l & (x & <- & Hx)%in_map_iff & Hk)%list_elem_of_In%in_concat.
    apply list_elem_of_In in Hx, Hk. by apply (IH x Hx k (Hcod x Hx)).
  - apply codable_obj in Hcod as (_ & Hcod & _). rewrite Forall_forall in IH, Hcod.
    simpl. intros (l & (kv & <- & Hkv)%in_map_iff & Hk)%list_elem_of_In%in_concat.
    apply list_elem_of_In in Hkv, Hk. destruct (Hcod kv Hkv) as [Hne Hc].
    apply elem_of_cons in Hk as [->|Hk]; [done|]. by apply (IH kv Hkv k Hc).
Qed.

(** *** Dictionaries of the round trip *)

Lemma getToken_dictionary_ok (k : string) (c : ToonConverter) :
  dictionary_ok c -> dictionary_ok (getToken k c).2.
Proof.
  intros (Hn & Hca & Hok). destruct (truthy (get_property (keyToToken c) k)) eqn:E.
  - apply truthy_Some in E as (t & Ht & Hne). by rewrite (getToken_hit _ _ _ Ht Hne).
  - rewrite (getToken_miss _ _ E). split; [simpl; lia|]. split.
    + rewrite <- (getToken_miss _ _ E). by apply getToken_counter_above.
    + intros k' t. simpl. rewrite lookup_insert. case_decide as Heq.
      * intros [= <-]. subst k'. split; [by apply token_clean|].
        by rewrite lookup_insert_eq.
      * intros H. destruct (Hok _ _ H) as [Hcl Hinv]. split; [done|].
        rewrite lookup_insert_ne; [done|]. intros <-.
        rewrite (next_token_unused _ Hca) in Hinv. done.
Qed.

Lemma getTokens_dictionary_ok (ks : list string) (c : ToonConverter) :
  dictionary_ok c -> dictionary_ok (getTokens ks c).
Proof.
  revert c. induction ks as [|k ks IH]; intros c Hc; [exact Hc|].
  rewrite getTokens_cons. by apply IH, getToken_dictionary_ok.
Qed.

Lemma constructor_dictionary_ok (m : TokenMap) :
  round_trip_map m -> 0 <= nextTokenId (constructor m) -> dictionary_ok (constructor m).
Proof.
  intros (Hk & Ht & Hcl) Hn. split; [done|]. split; [by apply constructor_counter_above|].
  intros k t H. apply constructor_keyToToken in H; [|done].
  assert (t ∈ m.*2) as Hin by (apply list_elem_of_fmap; by exists (k, t)).
  destruct (proj1 (Forall_forall _ _) Hcl t Hin) as [Hc Hp].
  split; [done|]. by apply constructor_tokenToKey_NoDup.
Qed.

Lemma default_round_trip_map : round_trip_map [].
Proof. repeat split; constructor. Qed.

Lemma default_state_ok (c : ToonConverter) : default_state c -> dictionary_ok c.
Proof.
  intros [ks ->]. apply getTokens_dictionary_ok, constructor_dictionary_ok.
  - apply default_round_trip_map.
  - done.
Qed.

(** In a converter of the round trip that has seen the keys of a value,
    every key of the value has a token that a line gives back and that
    [getKey] maps back to the key. *)
Lemma round_trip_keys (c : ToonConverter) (v : json) :
  dictionary_ok c -> codable v = true -> Forall (plain_key c) (keys_of v) ->
  tokens_clean (getTokens (keys_of v) c) v ∧ keys_known (getTokens (keys_of v) c) v.
Proof.
  intros Hc Hcod Hplain.
  pose proof (getTokens_dictionary_ok (keys_of v) c Hc) as (_ & _ & Hok).
  set (c' := getTokens (keys_of v) c) in *.
  assert (Hk : forall k, k ∈ keys_of v ->
    ∃ t, keyToToken c' !! k = Some t ∧ tokenOf c' k = t).
  { intros k Hk. destruct (proj1 (Forall_forall _ _) Hplain k Hk) as [_ Hp].
    destruct (getTokens_entry (keys_of v) c k Hk Hp) as (t & Ht & _). fold c' in Ht.
    exists t. split; [done|]. unfold tokenOf. by rewrite (get_property_own _ _ _ Ht). }
  split; intros k Hin; destruct (Hk k Hin) as (t & Ht & ->);
    destruct (Hok k t Ht) as [Hcl Hinv].
  - done.
  - split; [by destruct Hcl|]. apply getKey_cases; [done|].
    by apply (codable_keys_nonempty v).
Qed.

End DefaultDictionary.

(** ** Numbers are read back from their text *)

Section NumberText.

Lemma is_dig_cases (d : Z) :
  is_dig d -> d = 0 ∨ d = 1 ∨ d = 2 ∨ d = 3 ∨ d = 4 ∨ d = 5 ∨ d = 6 ∨ d = 7 ∨ d = 8 ∨ d = 9.
Proof. unfold is_dig. lia. Qed.

Lemma digit_of_char (d : Z) : is_dig d -> digit_of (digit_char d) = Some d.
Proof. intros H. destruct (is_dig_cases d H) as [->|[->|[->|[->|[->|[->|[->|[->|[->| ->]]]]]]]]]; reflexivity. Qed.

Lemma digit_char_zero (d : Z) : is_dig d -> Ascii.eqb (digit_char d) "0" = (d =? 0).
Proof. intros H. destruct (is_dig_cases d H) as [->|[->|[->|[->|[->|[->|[->|[->|[->| ->]]]]]]]]]; reflexivity. Qed.

Lemma digit_char_is_digit (d : Z) : is_dig d -> is_digit (digit_char d) = true.
Proof.
  intros H. unfold is_digit. apply bool_decide_eq_true. rewrite digit_of_char by done. eauto.
Qed.

Lemma uint_values_dig (d : Decimal.uint) : Forall is_dig (uint_values d).
Proof. induction d; simpl; constructor; try done; unfold is_dig; lia. Qed.

Lemma uint_dstr (d : Decimal.uint) : NilEmpty.string_of_uint d = dstr (uint_values d).
Proof. induction d; simpl; try done; by rewrite IHd. Qed.

Lemma digits_of_dstr (n : Z) : digits_of n = dstr (digit_values n).
Proof. rewrite digits_of_eq. apply uint_dstr. Qed.

Lemma digit_values_dig (n : Z) : Forall is_dig (digit_values n).
Proof. apply uint_values_dig. Qed.

Lemma dstr_app (a b : list Z) : dstr (a ++ b)%list = dstr a ++ dstr b.
Proof. induction a as [|d a IH]; [done|]. simpl. by rewrite IH. Qed.

Lemma dstr_length (ds : list Z) : String.length (dstr ds) = length ds.
Proof. induction ds as [|d ds IH]; [done|]. simpl. by rewrite IH. Qed.

Lemma dstr_take (n : nat) (ds : list Z) : substring_to n (dstr ds) = dstr (take n ds).
Proof.
  revert n. induction ds as [|d ds IH]; intros [|n]; try done. simpl. by rewrite IH.
Qed.

Lemma dstr_drop (n : nat) (ds : list Z) : substring_from n (dstr ds) = dstr (drop n ds).
Proof.
  revert n. induction ds as [|d ds IH]; intros [|n]; try done. simpl. by rewrite IH.
Qed.

Lemma dstr_zeros (n : nat) : repeat "0" n = dstr (replicate n 0).
Proof. induction n as [|n IH]; [done|]. simpl. by rewrite IH. Qed.

Lemma span_digits_cons (c : ascii) (s : string) :
  span_digits (String c s) =
  match digit_of c with
  | Some d => let '(ds, r) := span_digits s in (d :: ds, r)
  | None => ([], String c s)
  end.
Proof. reflexivity. Qed.

Lemma span_digits_dstr (ds : list Z) (r : string) :
  Forall is_dig ds ->
  span_digits (dstr ds ++ r) = ((ds ++ (span_digits r).1)%list, (span_digits r).2).
Proof.
  induction 1 as [|d ds Hd _ IH].
  - change (dstr [] ++ r) with r. by destruct (span_digits r).
  - change (dstr (d :: ds) ++ r) with (String (digit_char d) (dstr ds ++ r)).
    rewrite span_digits_cons, digit_of_char, IH by done. reflexivity.
Qed.

Lemma span_digits_stop (c : ascii) (r : string) :
  digit_of c = None -> span_digits (String c r) = ([], String c r).
Proof. intros H. by rewrite span_digits_cons, H. Qed.

Lemma strip_zeros_dstr (ds : list Z) :
  Forall is_dig ds -> strip_zeros_end (dstr ds) = dstr (strip0 ds).
Proof.
  induction 1 as [|d ds Hd _ IH]; [done|].
  cbn [dstr strip_zeros_end strip0]. rewrite IH.
  destruct (strip0 ds) as [|d' r]; cbn [dstr]; [|done].
  rewrite digit_char_zero by done. by destruct (d =? 0).
Qed.

Lemma strip0_spec (ds : list Z) :
  ∃ z : nat, ds = (strip0 ds ++ replicate z 0)%list.
Proof.
  induction ds as [|d ds [z IH]]; [by exists 0%nat|]. simpl.
  destruct (strip0 ds) as [|d' r] eqn:E.
  - destruct (Z.eqb_spec d 0) as [->|Hne].
    + exists (S z). simpl. by rewrite IH at 1.
    + exists z. simpl. by rewrite IH at 1.
  - exists z. simpl. by rewrite IH at 1.
Qed.

Lemma strip0_dig (ds : list Z) : Forall is_dig ds -> Forall is_dig (strip0 ds).
Proof.
  intros H. destruct (strip0_spec ds) as [z E]. rewrite E in H.
  by apply Forall_app in H as [H _].
Qed.

Lemma horner_app (a b : list Z) :
  horner 10 (a ++ b) = horner 10 a * 10 ^ Z.of_nat (length b) + horner 10 b.
Proof.
  unfold horner. rewrite fold_left_app. generalize (fold_left (fun acc d => 10 * acc + d) a 0).
  induction b as [|d b IH] using rev_ind; intros x; simpl; [lia|].
  rewrite !fold_left_app, length_app. simpl. rewrite IH.
  replace (Z.of_nat (length b + 1)) with (Z.of_nat (length b) + 1) by lia.
  rewrite Z.pow_add_r by lia.
  assert (H := IH 0). simpl in H. rewrite H. lia.
Qed.

Lemma horner_zeros (z : nat) : horner 10 (replicate z 0) = 0.
Proof. induction z as [|z IH]; [done|]. unfold horner in *. simpl. exact IH. Qed.

Lemma horner_strip0 (ds : list Z) (z : nat) :
  ds = (strip0 ds ++ replicate z 0)%list ->
  horner 10 ds = horner 10 (strip0 ds) * 10 ^ Z.of_nat z.
Proof.
  intros E. rewrite E at 1. rewrite horner_app, horner_zeros, length_replicate. lia.
Qed.


Lemma num_char_other (c : ascii) :
  num_char c = true ->
  isWhiteSpace c = false ∧ Ascii.eqb c LF = false
  ∧ (Ascii.eqb c "x" || Ascii.eqb c "X" || Ascii.eqb c "o" || Ascii.eqb c "O"
     || Ascii.eqb c "b" || Ascii.eqb c "B" || Ascii.eqb c "y" || Ascii.eqb c "n") = false.
Proof.
  destruct c as [[] [] [] [] [] [] [] []]; vm_compute; intros H; try discriminate H; done.
Qed.

Lemma digit_num_char (d : Z) : is_dig d -> num_char (digit_char d) = true.
Proof. intros H. unfold num_char. by rewrite digit_char_is_digit. Qed.

Lemma dstr_num_char (ds : list Z) :
  Forall is_dig ds -> string_forall num_char (dstr ds) = true.
Proof.
  induction 1 as [|d ds Hd _ IH]; [done|]. cbn [dstr string_forall].
  by rewrite digit_num_char, IH.
Qed.

Lemma dec_text_num_char ip fp ex :
  dec_ok ip fp ex -> string_forall num_char (dec_text ip fp ex) = true.
Proof.
  intros (_ & Hip & Hfp & Hex). unfold dec_text.
  rewrite !string_forall_app, dstr_num_char by done.
  assert (string_forall num_char (frac_text fp) = true) as ->.
  { destruct fp as [f|]; [|done]. cbn [frac_text string_forall].
    by rewrite (dstr_num_char f Hfp). }
  destruct ex as [[[] ds]|]; [| |done]; cbn [exp_text string_forall];
    destruct Hex as [_ Hds]; by rewrite (dstr_num_char ds Hds).
Qed.

Lemma visible_trimEnd (s : string) :
  s ≠ "" -> string_forall (fun c => negb (isWhiteSpace c)) s = true -> trimEnd s = s.
Proof.
  induction s as [|c s IH]; [done|]. cbn [string_forall].
  intros _ [Hc Hs]%andb_true_iff. apply negb_true_iff in Hc.
  rewrite trimEnd_visible by done. destruct s as [|c' s']; [done|]. by rewrite IH.
Qed.

Lemma string_forall_impl (P Q : ascii -> bool) (s : string) :
  (∀ c, P c = true -> Q c = true) ->
  string_forall P s = true -> string_forall Q s = true.
Proof.
  intros HPQ. induction s as [|c s IH]; [done|]. cbn [string_forall].
  intros [Hc Hs]%andb_true_iff. by rewrite (HPQ c Hc), IH.
Qed.

Lemma num_text_clean (s : string) :
  s ≠ "" -> string_forall num_char s = true -> clean_value s.
Proof.
  intros Hne Hs. split; [done|]. split.
  - destruct s as [|c s']; [done|]. pose proof Hs as Hs'. cbn [string_forall] in Hs'.
    apply andb_true_iff in Hs' as [Hc _]. destruct (num_char_other c Hc) as (Hv & _).
    rewrite trim_visible by done. apply visible_trimEnd; [done|].
    apply (string_forall_impl num_char); [|done].
    intros x Hx. destruct (num_char_other x Hx) as (-> & _). done.
  - clear Hne. induction s as [|c s IH]; [done|]. cbn [string_forall] in Hs.
    apply andb_true_iff in Hs as [Hc Hs]. destruct (num_char_other c Hc) as (_ & Hl & _).
    cbn [indexOf]. rewrite Hl, IH by done. done.
Qed.


Lemma span_digits_nil_r (ds : list Z) :
  Forall is_dig ds -> span_digits (dstr ds) = (ds, "").
Proof.
  intros H. rewrite <- (append_nil_r (dstr ds)), span_digits_dstr by done.
  cbn. by rewrite app_nil_r.
Qed.

Lemma span_digits_exp_text ex : span_digits (exp_text ex) = ([], exp_text ex).
Proof. by destruct ex as [[[] ds]|]. Qed.

Lemma exponent_part_text ex :
  match ex with None => True | Some (_, ds) => ds ≠ [] ∧ Forall is_dig ds end ->
  exponent_part (exp_text ex) = Some (exp_value ex).
Proof.
  destruct ex as [[neg ds]|]; [|done]. intros [Hne Hds].
  unfold exp_text, exponent_part, exp_value.
  change (Ascii.eqb "e" "e" || Ascii.eqb "e" "E") with true. cbv iota.
  destruct neg; cbv beta iota zeta;
    [change (Ascii.eqb "-" "-") with true | change (Ascii.eqb "+" "-") with false;
     change (Ascii.eqb "+" "+") with true]; cbv iota;
    rewrite span_digits_nil_r by done; by destruct ds.
Qed.

Lemma digit_char_not (d : Z) (c : ascii) :
  is_dig d -> digit_of c = None -> Ascii.eqb (digit_char d) c = false.
Proof.
  intros Hd Hc. destruct (Ascii.eqb_spec (digit_char d) c) as [E|]; [|done].
  rewrite <- E, digit_of_char in Hc by done. done.
Qed.

Lemma decimal_literal_text neg ip fp ex :
  dec_ok ip fp ex -> decimal_literal neg (dec_text ip fp ex) = dec_value neg ip fp ex.
Proof.
  intros (Hne & Hip & Hfp & Hex). unfold decimal_literal.
  destruct (String.eqb_spec (dec_text ip fp ex) "Infinity") as [E|_].
  { exfalso. destruct ip as [|d ip']; [done|]. apply Forall_cons in Hip as [Hd _].
    unfold dec_text in E. cbn [dstr] in E. rewrite append_cons in E.
    injection E as E _. pose proof (digit_of_char d Hd) as H. by rewrite E in H. }
  unfold dec_text. rewrite span_digits_dstr by done.
  assert (span_digits (frac_text fp ++ exp_text ex) = ([], frac_text fp ++ exp_text ex)) as ->.
  { destruct fp as [f|]; [done|]. apply span_digits_exp_text. }
  cbn [fst snd]. rewrite app_nil_r.
  assert (match frac_text fp ++ exp_text ex with
          | String c r => if Ascii.eqb c "." then span_digits r
                          else ([], frac_text fp ++ exp_text ex)
          | EmptyString => ([], frac_text fp ++ exp_text ex)
          end = (default [] fp, exp_text ex)) as ->.
  { destruct fp as [f|].
    - cbn [frac_text default]. rewrite append_cons.
      change (Ascii.eqb "." ".") with true. cbv iota.
      rewrite span_digits_dstr, span_digits_exp_text by done. cbn [fst snd].
      by rewrite app_nil_r.
    - change (frac_text None ++ exp_text ex) with (exp_text ex). cbn [default].
      by destruct ex as [[[] ds]|]. }
  unfold dec_value. rewrite exponent_part_text by done.
  destruct (ip ++ default [] fp)%list eqn:E; [|done].
  by apply app_eq_nil in E as [? _].
Qed.


Lemma radix_prefix_num (t : string) :
  string_forall num_char t = true -> radix_prefix t = None.
Proof.
  destruct t as [|c1 [|c2 h]]; [done..|]. cbn [string_forall].
  intros [_ [H2 _]%andb_true_iff]%andb_true_iff.
  destruct (num_char_other c2 H2) as (_ & _ & H).
  repeat (apply orb_false_iff in H as [H ?]).
  unfold radix_prefix. destruct (Ascii.eqb c1 "0"); [|done].
  by repeat match goal with E : Ascii.eqb c2 _ = false |- _ => rewrite E; clear E end.
Qed.

Lemma Number_text (neg : bool) ip fp ex :
  dec_ok ip fp ex ->
  Number ((if neg then "-" else "") ++ dec_text ip fp ex) = dec_value neg ip fp ex.
Proof.
  intros Hok. pose proof (dec_text_num_char ip fp ex Hok) as Hch.
  assert (∃ d r, is_dig d ∧ dec_text ip fp ex = String (digit_char d) r) as (d & r & Hd & E).
  { destruct Hok as (Hne & Hip & _). destruct ip as [|d ip']; [done|].
    apply Forall_cons in Hip as [Hd _]. exists d. eexists. split; [done|].
    unfold dec_text. cbn [dstr]. by rewrite append_cons. }
  assert (clean_value ((if neg then "-" else "") ++ dec_text ip fp ex)) as (_ & Ht & _).
  { apply num_text_clean; [destruct neg; [done|by rewrite E]|].
    rewrite string_forall_app, Hch. by destruct neg. }
  unfold Number. rewrite Ht. destruct neg.
  - change ("-" ++ dec_text ip fp ex) with (String "-" (dec_text ip fp ex)).
    change (Ascii.eqb "-" "-") with true. cbv iota. by apply decimal_literal_text.
  - change ("" ++ dec_text ip fp ex) with (dec_text ip fp ex).
    rewrite <- (decimal_literal_text false) by done.
    rewrite E in Hch |- *. cbv beta iota.
    by rewrite !digit_char_not, (radix_prefix_num _ Hch).
Qed.


Lemma normalize_nonneg (x z : Z) : 0 <= z -> normalize x z = Finite (x * 10 ^ z) 0.
Proof. intros H. unfold normalize. by rewrite (proj2 (Z.leb_le 0 z) H). Qed.

Lemma normalize_canonical (m e : Z) :
  e < 0 -> m mod 10 ≠ 0 -> normalize m e = Finite m e.
Proof.
  intros He Hm. unfold normalize. rewrite (proj2 (Z.leb_gt 0 e) He).
  destruct (Z.to_nat (- e)) as [|k] eqn:E; [lia|]. cbn [strip_tens].
  by rewrite (proj2 (Z.eqb_neq _ _) Hm).
Qed.

Lemma horner_zeros_app (z : nat) (ds : list Z) :
  horner 10 (replicate z 0 ++ ds) = horner 10 ds.
Proof. rewrite horner_app, horner_zeros. lia. Qed.

(** The digits of a number that is not zero, without the zeros at the
    end: there is at least one, and the zeros are as many as the powers
    of ten in the number. *)
Lemma significant_digits (m : Z) :
  m ≠ 0 ->
  let D := digit_values (Z.abs m) in
  ∃ z : nat, D = (strip0 D ++ replicate z 0)%list
    ∧ strip0 D ≠ [] ∧ Forall is_dig D ∧ Forall is_dig (strip0 D)
    ∧ Z.abs m = horner 10 (strip0 D) * 10 ^ Z.of_nat z
    ∧ Z.abs m = horner 10 D
    ∧ (m mod 10 ≠ 0 -> z = 0%nat).
Proof.
  intros Hm D. destruct (strip0_spec D) as [z E]. exists z.
  pose proof (digit_values_dig (Z.abs m)) as HD. fold D in HD.
  pose proof (horner_digit_values (Z.abs m) ltac:(lia)) as Hh. fold D in Hh.
  pose proof (horner_strip0 D z E) as Hs.
  split; [done|]. split.
  { intros Hnil. rewrite Hnil in Hs. change (horner 10 []) with 0 in Hs. lia. }
  split; [done|]. split; [by apply strip0_dig|]. split; [lia|]. split; [lia|].
  intros Hmod. destruct z as [|z]; [done|]. exfalso. apply Hmod.
  assert (Z.abs m = 10 * (horner 10 (strip0 D) * 10 ^ Z.of_nat z)) as Ha.
  { rewrite <- Hh, Hs. replace (Z.of_nat (S z)) with (Z.of_nat z + 1) by lia.
    rewrite Z.pow_add_r by lia. lia. }
  apply Z.mod_divide; [lia|]. apply (Z.divide_abs_r 10 m). rewrite Ha.
  apply Z.divide_factor_l.
Qed.


Lemma signed_abs (m : Z) : (if m <? 0 then - Z.abs m else Z.abs m) = m.
Proof. destruct (Z.ltb_spec m 0); lia. Qed.

Lemma signed_scaled (m h p : Z) :
  Z.abs m = h * p -> (if m <? 0 then - h else h) * p = m.
Proof. destruct (Z.ltb_spec m 0); lia. Qed.

Lemma exp_value_digits (x : Z) :
  exp_value (Some (x <? 0, digit_values (Z.abs x))) = x.
Proof.
  unfold exp_value. rewrite horner_digit_values by lia. apply signed_abs.
Qed.

Lemma num_toString_text (m e : Z) :
  canonical (Finite m e) = true -> m ≠ 0 ->
  ∃ ip fp ex, dec_ok ip fp ex
    ∧ num_toString (Finite m e) = (if m <? 0 then "-" else "") ++ dec_text ip fp ex
    ∧ dec_value (m <? 0) ip fp ex = Finite m e.
Proof.
  intros Hc Hm.
  destruct (significant_digits m Hm) as (z & ED & Hs & HD & HsD & Habs & HabsD & Hz).
  unfold num_toString. rewrite (proj2 (Z.eqb_neq m 0) Hm). cbv zeta.
  rewrite digits_of_dstr, strip_zeros_dstr, !dstr_length by done.
  set (D := digit_values (Z.abs m)) in *. set (s := strip0 D) in *.
  assert (length D = (length s + z)%nat) as HL.
  { rewrite ED at 1. by rewrite length_app, length_replicate. }
  assert (e = 0 ∨ (e < 0 ∧ m mod 10 ≠ 0 ∧ s = D)) as Hcan.
  { cbn [canonical] in Hc. destruct (Z.eqb_spec e 0) as [|He]; [by left|]. right.
    cbn [orb] in Hc. apply andb_true_iff in Hc as [Hlt Hmod].
    apply Z.ltb_lt in Hlt. apply negb_true_iff, Z.eqb_neq in Hmod.
    split; [done|]. split; [done|]. rewrite (Hz Hmod) in ED. cbn in ED.
    by rewrite app_nil_r in ED. }
  assert (1 <= Z.of_nat (length s)) as Hk.
  { destruct s; [done|]. cbn [length]. lia. }
  clearbody s D. clear Hz Hc.
  destruct ((Z.of_nat (length s) <=? Z.of_nat (length D) + e)
            && (Z.of_nat (length D) + e <=? 21)) eqn:EA.
  { assert (e = 0) as -> by (destruct Hcan as [|(? & _ & ->)]; [done|lia]).
    replace (Z.to_nat (Z.of_nat (length D) + 0 - Z.of_nat (length s))) with z by lia.
    exists D, None, None. split; [|split].
    - split; [|done]. intros ->. cbn [length] in HL. lia.
    - rewrite dstr_zeros, <- dstr_app, <- ED. unfold dec_text. cbn [frac_text exp_text].
      by rewrite !append_nil_r.
    - unfold dec_value. cbn [from_option id exp_value length]. rewrite app_nil_r.
      rewrite normalize_nonneg by lia. rewrite <- HabsD, signed_abs. f_equal. lia. }
  destruct ((0 <? Z.of_nat (length D) + e) && (Z.of_nat (length D) + e <=? 21)) eqn:EB.
  { destruct Hcan as [->|(He & Hmod & ->)]; [lia|].
    exists (take (Z.to_nat (Z.of_nat (length D) + e)) D),
           (Some (drop (Z.to_nat (Z.of_nat (length D) + e)) D)), None.
    split; [|split].
    - split; [|split; [by apply Forall_take|split; [by apply Forall_drop|done]]].
      intros H%(f_equal length). rewrite length_take in H. cbn [length] in H. lia.
    - rewrite dstr_take, dstr_drop. unfold dec_text. cbn [frac_text exp_text].
      by rewrite append_nil_r.
    - unfold dec_value. cbn [from_option id exp_value]. rewrite take_drop, length_drop.
      rewrite <- HabsD, signed_abs.
      replace (0 - _) with e by lia. by apply normalize_canonical. }
  destruct ((-6 <? Z.of_nat (length D) + e) && (Z.of_nat (length D) + e <=? 0)) eqn:EC.
  { destruct Hcan as [->|(He & Hmod & ->)]; [lia|].
    exists [0], (Some (replicate (Z.to_nat (- (Z.of_nat (length D) + e))) 0 ++ D)%list), None.
    split; [|split].
    - split; [done|]. split; [by repeat constructor|]. split; [|done].
      apply Forall_app. split; [|done]. by apply Forall_replicate.
    - rewrite dstr_zeros, <- dstr_app. unfold dec_text. cbn [frac_text exp_text].
      by rewrite append_nil_r.
    - unfold dec_value. cbn [from_option id exp_value].
      change ([0] ++ ?l)%list with (replicate 1 0 ++ l)%list.
      rewrite !horner_zeros_app, length_app, length_replicate.
      rewrite <- HabsD, signed_abs.
      replace (0 - _) with e by lia. by apply normalize_canonical. }
  rewrite digits_of_dstr.
  set (x := Z.of_nat (length D) + e - 1).
  pose proof (exp_value_digits x) as Hx.
  assert (text_sign : (if x <? 0 then "-" else "+") ++ dstr (digit_values (Z.abs x))
          = String (if x <? 0 then "-"%char else "+"%char) (dstr (digit_values (Z.abs x))))
    by (by destruct (x <? 0)).
  rewrite text_sign.
  assert (Hex : digit_values (Z.abs x) ≠ [] ∧ Forall is_dig (digit_values (Z.abs x)))
    by (split; [apply digit_values_nonnil | apply digit_values_dig]).
  destruct (Z.of_nat (length s) =? 1) eqn:Ek.
  - exists s, None, (Some (x <? 0, digit_values (Z.abs x))).
    split; [|split].
    + split; [by intros ->|]. done.
    + done.
    + unfold dec_value. rewrite Hx. cbn [from_option id length]. rewrite app_nil_r.
      destruct Hcan as [->|(He & Hmod & ->)].
      * replace (x - Z.of_nat 0) with (Z.of_nat z) by lia.
        rewrite normalize_nonneg by lia. f_equal. by apply signed_scaled.
      * replace (x - Z.of_nat 0) with e by lia.
        rewrite <- HabsD, signed_abs. by apply normalize_canonical.
  - exists (take 1 s), (Some (drop 1 s)), (Some (x <? 0, digit_values (Z.abs x))).
    split; [|split].
    + split; [|split; [by apply Forall_take|split; [by apply Forall_drop|done]]].
      intros H%(f_equal length). rewrite length_take in H. cbn [length] in H. lia.
    + by rewrite dstr_take, dstr_drop.
    + unfold dec_value. rewrite Hx. cbn [from_option id]. rewrite take_drop, length_drop.
      destruct Hcan as [->|(He & Hmod & ->)].
      * replace (x - _) with (Z.of_nat z) by lia.
        rewrite normalize_nonneg by lia. f_equal. by apply signed_scaled.
      * replace (x - _) with e by lia.
        rewrite <- HabsD, signed_abs. by apply normalize_canonical.
Qed.


(** The text of a finite number denotes the number. *)
Lemma Number_num_toString (n : jsnum) :
  isFinite n = true -> canonical n = true ->
  Number (num_toString n) = n
  ∧ num_toString n ≠ "" ∧ string_forall num_char (num_toString n) = true.
Proof.
  destruct n as [| |m e]; [done..|]. intros _ Hc.
  destruct (Z.eq_dec m 0) as [->|Hm].
  - assert (e = 0) as ->.
    { cbn [canonical] in Hc. change (0 mod 10 =? 0) with true in Hc. cbn [negb] in Hc.
      rewrite andb_false_r, orb_false_r in Hc. by apply Z.eqb_eq. }
    by vm_compute.
  - destruct (num_toString_text m e Hc Hm) as (ip & fp & ex & Hok & -> & Hv).
    split; [by rewrite Number_text|].
    pose proof (dec_text_num_char ip fp ex Hok) as Hch. split.
    + destruct Hok as (Hne & _). destruct ip as [|d ip']; [done|].
      unfold dec_text. cbn [dstr]. by destruct (m <? 0).
    + rewrite string_forall_app, Hch. by destruct (m <? 0).
Qed.

Lemma num_text_not_keyword (s : string) :
  string_forall num_char s = true -> String.eqb s "yes" = false ∧ String.eqb s "no" = false.
Proof.
  intros Hs. split.
  - destruct (String.eqb_spec s "yes") as [->|]; [by vm_compute in Hs|done].
  - destruct (String.eqb_spec s "no") as [->|]; [by vm_compute in Hs|done].
Qed.

(** The text of a scalar of the round trip is a clean value. *)
Lemma scalar_clean (x : json) :
  codable x = true -> isComplex x = false -> clean_value (scalar_text x).
Proof.
  destruct x as [|b|n|s|items|ents]; try done; cbn [codable scalar_text]; intros H _.
  - destruct b; repeat split; done.
  - apply andb_true_iff in H as [Hf Hc].
    destruct (Number_num_toString n Hf Hc) as (_ & Hne & Hch).
    by apply num_text_clean.
  - unfold plain_string in H. repeat (apply andb_true_iff in H as [H ?]).
    split; [|split].
    + apply negb_true_iff in H. by destruct (String.eqb_spec s "").
    + by apply String.eqb_eq.
    + by eapply bool_decide_eq_true_1.
Qed.

(** A scalar of the round trip is read back from its text. *)
Lemma scalar_reads_back (x : json) :
  codable x = true -> isComplex x = false -> reads_back x.
Proof.
  intros Hx Hs. destruct (scalar_clean x Hx Hs) as (_ & Ht & _). unfold reads_back, parseValue.
  rewrite Ht. destruct x as [|b|n|s|items|ents]; try done; cbn [codable scalar_text] in *.
  - by destruct b.
  - apply andb_true_iff in Hx as [Hf Hc].
    destruct (Number_num_toString n Hf Hc) as (HN & _ & Hch).
    destruct (num_text_not_keyword _ Hch) as [-> ->]. rewrite HN.
    by destruct n.
  - unfold plain_string in Hx. repeat (apply andb_true_iff in Hx as [Hx ?]).
    repeat match goal with H : negb _ = true |- _ => apply negb_true_iff in H; rewrite H end.
    by match goal with H : isNaN _ = true |- _ => rewrite H end.
Qed.

End NumberText.

(** ** The encoder and the decoder on a bounded stack *)

Section BoundedStack.

Lemma depth_item (items : list json) (x : json) :
  x ∈ items -> (S (depth x) <= depth (JArr items))%nat.
Proof.
  intros Hx. cbn [depth]. apply le_n_S, max_list_elem_of_le.
  apply list_elem_of_fmap. by exists x.
Qed.

Lemma depth_value (ents : list (string * json)) (kv : string * json) :
  kv ∈ ents -> (S (depth kv.2) <= depth (JObj ents))%nat.
Proof.
  intros Hx. cbn [depth]. apply le_n_S, max_list_elem_of_le.
  apply list_elem_of_fmap. by exists kv.
Qed.

Lemma for_each_normal {A} (f : EncState -> A -> completion EncState)
    (g : EncState -> A -> EncState) (l : list A) :
  (forall x, x ∈ l -> forall st, f st x = Normal (g st x)) ->
  forall st, for_each f l st = Normal (fold_left g l st).
Proof.
  induction l as [|x l IH]; intros H st; [done|]. cbn [for_each fold_left].
  rewrite H by left. cbn [and_then]. apply IH. intros y Hy. apply H. by right.
Qed.

(** With room for the depth of the value, [process] runs to its end. *)
Lemma process_in_enough (stack : nat) :
  forall (v : json) (level : nat) (st : EncState),
    (depth v < stack)%nat -> process_in stack v level st = Normal (process v level st).
Proof.
  induction stack as [|room IH]; intros v level st Hd; [lia|].
  assert (Hscalar : forall x l s, isComplex x = false -> (0 < room)%nat ->
            process_in room x l s = Normal (process x l s)).
  { intros x l s Hx Hr. apply IH. destruct x; try done; simpl; lia. }
  assert (Hentry : forall (indent : string) (lv : nat) (head : string -> string)
            (line : string -> string -> string) (kv : string * json) (s : EncState),
            (depth kv.2 < room)%nat ->
            (let '(k, val) := kv in
             let '(token, c') := getToken k (conv s) in
             let st1 := mkEnc (lines s) c' in
             if isComplex val then
               and_then (process_in room val lv (push (head token) st1))
                        (fun r => Normal r.2)
             else
               and_then (process_in room val 0 st1)
                        (fun r => Normal (push (line token r.1) r.2)))
            = Normal
                (let '(k, val) := kv in
                 let '(token, c') := getToken k (conv s) in
                 let st1 := mkEnc (lines s) c' in
                 if isComplex val then (process val lv (push (head token) st1)).2
                 else let '(r, st2) := process val 0 st1 in push (line token r) st2)).
  { intros indent lv head line [k val] s Hv. cbn [snd] in Hv.
    destruct (getToken k (conv s)) as [token c']. cbv zeta.
    rewrite !IH by done. cbn [and_then]. destruct (isComplex val); [done|].
    by destruct (process val 0 _). }
  destruct v as [|b|n|s|items|ents]; try done.
  - destruct items as [|x0 items0] eqn:Ei; [done|]. rewrite <- Ei in *.
    assert (process_in (S room) (JArr items) level st
            = and_then
                (for_each
                   (fun st subItem =>
                      match subItem with
                      | JArr _ =>
                          and_then (process_in room subItem (level + 1)
                                      (push (repeat "  " level ++ "-") st))
                                   (fun r => Normal r.2)
                      | JObj ents =>
                          for_each
                            (fun st (kv : string * json) =>
                               let '(k, val) := kv in
                               let '(token, c') := getToken k (conv st) in
                               let st1 := mkEnc (lines st) c' in
                               if isComplex val then
                                 and_then (process_in room val (level + 2)
                                             (push (repeat "  " level ++ "  " ++ token ++ ": " ++ "") st1))
                                          (fun r => Normal r.2)
                               else
                                 and_then (process_in room val 0 st1)
                                          (fun r => Normal
                                             (push (repeat "  " level ++ "  " ++ token ++ ": " ++ r.1) r.2)))
                            ents (push (repeat "  " level ++ "-") st)
                      | _ =>
                          and_then (process_in room subItem 0 st)
                                   (fun r => Normal (push (repeat "  " level ++ "- " ++ r.1) r.2))
                      end)
                   items st)
                (fun st' => Normal ("", st'))) as ->
      by (rewrite Ei; reflexivity).
    assert (process (JArr items) level st = ("", (process (JArr items) level st).2)) as ->
      by (rewrite Ei; reflexivity).
    rewrite process_arr.
    erewrite for_each_normal; [reflexivity|].
    intros x Hx s. pose proof (depth_item items x Hx) as Hdx.
    destruct x as [|b|n|str|sub|ents]; try (rewrite Hscalar by (done || lia); cbn [and_then];
      by destruct (process _ 0 s)).
    + rewrite IH by lia. done.
    + apply for_each_normal. intros kv Hkv s'.
      pose proof (depth_value ents kv Hkv) as Hdv.
      apply (Hentry (repeat "  " level) (level + 2)%nat
               (fun token => repeat "  " level ++ "  " ++ token ++ ": " ++ "")
               (fun token r => repeat "  " level ++ "  " ++ token ++ ": " ++ r)). lia.
  - destruct ents as [|e0 ents0] eqn:Ee; [done|]. rewrite <- Ee in *.
    assert (process_in (S room) (JObj ents) level st
            = and_then
                (for_each
                   (fun st (kv : string * json) =>
                      let '(k, v) := kv in
                      let '(token, c') := getToken k (conv st) in
                      let st1 := mkEnc (lines st) c' in
                      if isComplex v then
                        and_then (process_in room v (level + 1)
                                    (push (repeat "  " level ++ token ++ ":") st1))
                                 (fun r => Normal r.2)
                      else
                        and_then (process_in room v 0 st1)
                                 (fun r => Normal
                                    (push ((repeat "  " level ++ token ++ ":") ++ " " ++ r.1) r.2)))
                   ents st)
                (fun st' => Normal ("", st'))) as ->
      by (rewrite Ee; reflexivity).
    assert (process (JObj ents) level st = ("", (process (JObj ents) level st).2)) as ->
      by (rewrite Ee; reflexivity).
    rewrite process_obj.
    erewrite for_each_normal; [reflexivity|].
    intros kv Hkv s'. pose proof (depth_value ents kv Hkv) as Hdv.
    apply (Hentry (repeat "  " level) (level + 1)%nat
             (fun token => repeat "  " level ++ token ++ ":")
             (fun token r => (repeat "  " level ++ token ++ ":") ++ " " ++ r)). lia.
Qed.

Lemma advances_refl (c : ToonConverter) : advances c c.
Proof. by exists []. Qed.

Lemma advances_trans (c1 c2 c3 : ToonConverter) :
  advances c1 c2 -> advances c2 c3 -> advances c1 c3.
Proof. intros [ks ->] [ks' ->]. exists (ks ++ ks')%list. by rewrite getTokens_app. Qed.

Lemma advances_getToken (k : string) (c : ToonConverter) : advances c (getToken k c).2.
Proof. by exists [k]. Qed.

Lemma for_each_refines {A} (f : EncState -> A -> completion EncState)
    (g : EncState -> A -> EncState) (l : list A) :
  (forall x, x ∈ l -> forall st, refines id (conv st) (f st x) (g st x)) ->
  forall st, refines id (conv st) (for_each f l st) (fold_left g l st).
Proof.
  induction l as [|x l IH]; intros H st.
  - split; [done | apply advances_refl].
  - cbn [for_each fold_left]. pose proof (H x ltac:(left) st) as Hx.
    destruct (f st x) as [s'|c'] eqn:E; [|exact Hx].
    destruct Hx as [-> Hadv]. cbn [and_then id] in *.
    pose proof (IH (fun y Hy => H y ltac:(by right)) (g st x)) as Hl.
    destruct (for_each f l (g st x)) as [s''|c'']; cbn in *.
    + destruct Hl as [-> Hl]. split; [done|]. by eapply advances_trans.
    + by eapply advances_trans.
Qed.

(** [process] on a bounded stack: it returns what [process] returns, or
    it is cut short after some calls of [getToken]. *)
Lemma process_in_refines (stack : nat) :
  forall (v : json) (level : nat) (st : EncState),
    refines snd (conv st) (process_in stack v level st) (process v level st).
Proof.
  induction stack as [|room IH]; intros v level st; [apply advances_refl|].
  assert (Hsnd : forall x l s,
            refines id (conv s) (and_then (process_in room x l s) (fun r => Normal r.2))
                    (process x l s).2).
  { intros x l s. specialize (IH x l s).
    destruct (process_in room x l s) as [r|c']; [|exact IH]. by destruct IH as [-> ?]. }
  assert (Hpush : forall x s (line : string -> string),
            refines id (conv s)
              (and_then (process_in room x 0 s) (fun r => Normal (push (line r.1) r.2)))
              (let '(r, st2) := process x 0 s in push (line r) st2)).
  { intros x s line. specialize (IH x 0%nat s).
    destruct (process_in room x 0 s) as [r|c']; [|exact IH].
    destruct IH as [-> ?]. cbn [and_then]. by destruct (process x 0 s). }
  assert (Hentry : forall (lv : nat) (head : string -> string)
            (line : string -> string -> string) (kv : string * json) (s : EncState),
            refines id (conv s)
              (let '(k, val) := kv in
               let '(token, c') := getToken k (conv s) in
               let st1 := mkEnc (lines s) c' in
               if isComplex val then
                 and_then (process_in room val lv (push (head token) st1))
                          (fun r => Normal r.2)
               else
                 and_then (process_in room val 0 st1)
                          (fun r => Normal (push (line token r.1) r.2)))
              (let '(k, val) := kv in
               let '(token, c') := getToken k (conv s) in
               let st1 := mkEnc (lines s) c' in
               if isComplex val then (process val lv (push (head token) st1)).2
               else let '(r, st2) := process val 0 st1 in push (line token r) st2)).
  { intros lv head line [k val] s.
    pose proof (advances_getToken k (conv s)) as Hk.
    destruct (getToken k (conv s)) as [token c']. cbv zeta. cbn [snd] in Hk.
    destruct (isComplex val).
    - pose proof (Hsnd val lv (push (head token) (mkEnc (lines s) c'))) as H.
      destruct (and_then _ _) as [s'|c'']; cbn in *.
      + destruct H as [-> H]. split; [done|]. by eapply advances_trans.
      + by eapply advances_trans.
    - pose proof (Hpush val (mkEnc (lines s) c') (line token)) as H.
      destruct (and_then _ _) as [s'|c'']; cbn in *.
      + destruct H as [-> H]. split; [done|]. by eapply advances_trans.
      + by eapply advances_trans. }
  assert (Hwrap : forall (x : completion EncState) (r : EncState),
            refines id (conv st) x r ->
            refines snd (conv st) (and_then x (fun st' => Normal ("", st'))) ("", r)).
  { intros [s'|c'] r; [|done]. by intros [-> ?]. }
  destruct v as [|b|n|s|items|ents]; try (split; [done | apply advances_refl]).
  - destruct items as [|x0 items0] eqn:Ei; [split; [done | apply advances_refl]|].
    rewrite <- Ei in *.
    assert (process (JArr items) level st = ("", (process (JArr items) level st).2)) as ->
      by (rewrite Ei; reflexivity).
    rewrite process_arr.
    assert (process_in (S room) (JArr items) level st
            = and_then
                (for_each
                   (fun st subItem =>
                      match subItem with
                      | JArr _ =>
                          and_then (process_in room subItem (level + 1)
                                      (push (repeat "  " level ++ "-") st))
                                   (fun r => Normal r.2)
                      | JObj ents =>
                          for_each
                            (fun st (kv : string * json) =>
                               let '(k, val) := kv in
                               let '(token, c') := getToken k (conv st) in
                               let st1 := mkEnc (lines st) c' in
                               if isComplex val then
                                 and_then (process_in room val (level + 2)
                                             (push (repeat "  " level ++ "  " ++ token ++ ": " ++ "") st1))
                                          (fun r => Normal r.2)
                               else
                                 and_then (process_in room val 0 st1)
                                          (fun r => Normal
                                             (push (repeat "  " level ++ "  " ++ token ++ ": " ++ r.1) r.2)))
                            ents (push (repeat "  " level ++ "-") st)
                      | _ =>
                          and_then (process_in room subItem 0 st)
                                   (fun r => Normal (push (repeat "  " level ++ "- " ++ r.1) r.2))
                      end)
                   items st)
                (fun st' => Normal ("", st'))) as ->
      by (rewrite Ei; reflexivity).
    apply Hwrap. apply for_each_refines. intros x Hx s.
    destruct x as [|b|n|str|sub|ents];
      try (apply (Hpush _ s (fun r => repeat "  " level ++ "- " ++ r))).
    + apply (Hsnd (JArr sub) (level + 1)%nat (push (repeat "  " level ++ "-") s)).
    + apply (for_each_refines _ _ ents
               (fun kv _ => Hentry (level + 2)%nat
                  (fun token => repeat "  " level ++ "  " ++ token ++ ": " ++ "")
                  (fun token r => repeat "  " level ++ "  " ++ token ++ ": " ++ r) kv)
               (push (repeat "  " level ++ "-") s)).
  - destruct ents as [|e0 ents0] eqn:Ee; [split; [done | apply advances_refl]|].
    rewrite <- Ee in *.
    assert (process (JObj ents) level st = ("", (process (JObj ents) level st).2)) as ->
      by (rewrite Ee; reflexivity).
    rewrite process_obj.
    assert (process_in (S room) (JObj ents) level st
            = and_then
                (for_each
                   (fun st (kv : string * json) =>
                      let '(k, v) := kv in
                      let '(token, c') := getToken k (conv st) in
                      let st1 := mkEnc (lines st) c' in
                      if isComplex v then
                        and_then (process_in room v (level + 1)
                                    (push (repeat "  " level ++ token ++ ":") st1))
                                 (fun r => Normal r.2)
                      else
                        and_then (process_in room v 0 st1)
                                 (fun r => Normal
                                    (push ((repeat "  " level ++ token ++ ":") ++ " " ++ r.1) r.2)))
                   ents st)
                (fun st' => Normal ("", st'))) as ->
      by (rewrite Ee; reflexivity).
    apply Hwrap.
    apply (for_each_refines _ _ ents
             (fun kv _ => Hentry (level + 1)%nat
                (fun token => repeat "  " level ++ token ++ ":")
                (fun token r => (repeat "  " level ++ token ++ ":") ++ " " ++ r) kv) st).
Qed.

(** [jsonToToon] on a stack with room for the depth of the value is
    [jsonToToon]. *)
Lemma jsonToToon_in_enough (stack : nat) (x obj : json) (c : ToonConverter) :
  match x with JStr s => JSON_parse s | _ => Some x end = Some obj ->
  (depth obj < stack)%nat ->
  jsonToToon_in stack x c = jsonToToon x c.
Proof.
  intros Hp Hd. unfold jsonToToon_in, jsonToToon. rewrite Hp.
  rewrite process_in_enough by done. destruct (process obj 0 (mkEnc [] c)) as [r st].
  by destruct (isComplex obj).
Qed.

(** [jsonToToon] on a bounded stack does what [jsonToToon] does, or is
    cut short after some calls of [getToken]. *)
Lemma jsonToToon_in_cases (stack : nat) (x : json) (c : ToonConverter) :
  match jsonToToon_in stack x c with
  | RangeError c' => advances c c'
  | o => jsonToToon x c = o
  end.
Proof.
  unfold jsonToToon_in, jsonToToon.
  destruct (match x with JStr s => JSON_parse s | _ => Some x end) as [obj|]; [|done].
  pose proof (process_in_refines stack obj 0%nat (mkEnc [] c)) as H.
  destruct (process_in stack obj 0 (mkEnc [] c)) as [[r st]|c']; [|exact H].
  destruct H as [<- _]. by destruct (isComplex obj).
Qed.

(** The trees of a value are no higher than the value is deep. *)
Lemma item_trees_height (c : ToonConverter) (v : json) :
  forall level, Forall (fun t => (height t <= depth v)%nat) (item_trees c v level).
Proof.
  induction v as [|b|n|s|items IH|ents IH] using json_ind_nested;
    intros level; try constructor.
  - cbn [item_trees]. apply Forall_forall. intros t (x & -> & Hx)%list_elem_of_fmap.
    pose proof (depth_item items x Hx) as Hd.
    destruct (isComplex x); cbn [height]; [|cbn; lia].
    pose proof (proj1 (Forall_forall _ _) IH x Hx (S level)) as Hk.
    assert (max_list (map height (item_trees c x (S level))) <= depth x)%nat; [|lia].
    clear -Hk. induction Hk as [|t ts Ht _ IHt]; [cbn; lia|].
    cbn [map max_list_with id]. lia.
  - cbn [item_trees]. apply Forall_forall. intros t (kv & -> & Hx)%list_elem_of_fmap.
    pose proof (depth_value ents kv Hx) as Hd.
    destruct (isComplex kv.2); cbn [height]; [|cbn; lia].
    pose proof (proj1 (Forall_forall _ _) IH kv Hx (S level)) as Hk.
    assert (max_list (map height (item_trees c kv.2 (S level))) <= depth kv.2)%nat; [|lia].
    clear -Hk. induction Hk as [|t ts Ht _ IHt]; [cbn; lia|].
    cbn [map max_list_with id]. lia.
Qed.

End BoundedStack.

(** ** The round trip *)

Section RoundTrip.

(** Encoding a container pushes the lines [render] gives for the
    dictionary the call ends with. *)
Lemma jsonToToon_render (v : json) (c : ToonConverter) :
  isComplex v = true ->
  jsonToToon v c
  = Returned (join_lines (render (getTokens (keys_of v) c) v 0)) (getTokens (keys_of v) c).
Proof.
  intros Hv. destruct (process_encodes v 0%nat (mkEnc [] c)) as [Hc Hl].
  cbn [conv lines] in Hc, Hl.
  specialize (Hl _ (extends_refl _)). rewrite Hc in Hl. cbn [app] in Hl.
  assert (jsonToToon v c
          = Returned (join_lines (lines (process v 0 (mkEnc [] c)).2))
                     (conv (process v 0 (mkEnc [] c)).2)) as ->.
  { unfold jsonToToon. destruct v; try done. }
  by rewrite Hl, Hc.
Qed.

Lemma jsonToToon_in_render (stack : nat) (v : json) (c : ToonConverter) :
  isComplex v = true -> (depth v < stack)%nat ->
  jsonToToon_in stack v c
  = Returned (join_lines (render (getTokens (keys_of v) c) v 0)) (getTokens (keys_of v) c).
Proof.
  intros Hv Hd. rewrite (jsonToToon_in_enough stack v v) by (by destruct v).
  by apply jsonToToon_render.
Qed.

(** Pass 1 on the lines of a container builds the trees of the
    container under [rootNode], and their conversion is the container. *)
Lemma buildTree_render (v : json) (c : ToonConverter) :
  codable v = true -> isComplex v = true -> tokens_clean c v -> keys_known c v ->
  ∃ st root,
    buildTree (join_lines (render c v 0)) = Some st
    ∧ st.1 !! rootRef = Some root
    ∧ Forall (fun cr => (rootRef < cr)%nat) (children root)
    ∧ Forall2 (reads (length st.1) st.1) (children root) (item_trees c v 0)
    ∧ convert_forest c (item_trees c v 0) = v.
Proof.
  intros Hcod Hv Htok Hkeys.
  destruct (render_parses c scalar_clean v Hcod Hv Htok 0%nat) as (Hparse & Hok & Hlev).
  destruct (convert_item_trees c scalar_reads_back v Hcod Hv Hkeys 0%nat) as (_ & Hconv).
  unfold buildTree.
  rewrite nonblank_join, readLines_parse, Hparse by done.
  destruct (pass1_rebuilds_forest (item_trees c v 0) 0 [rootNode] rootRef rootRef)
    as (st' & cs & -> & Hre); [lia | apply built_ok, built_root | | done |].
  { by apply (walk_stop _ _ _ rootNode). }
  destruct Hre as (_ & _ & _ & _ & (n & Hn & Hroot) & Hreads & Habove).
  injection Hn as <-. exists st', (add_children cs rootNode).
  split; [done|]. split; [done|]. split; [|done].
  cbn [add_children children rootNode app]. eapply Forall_impl; [exact Habove|].
  intros r Hr. cbn [length] in Hr. unfold rootRef. lia.
Qed.

(** Decoding the lines of a container gives the container back, when
    the dictionary knows its keys. *)
Lemma toonToJson_render (v : json) (c : ToonConverter) :
  codable v = true -> isComplex v = true -> tokens_clean c v -> keys_known c v ->
  toonToJson_value (join_lines (render c v 0)) c = Some v.
Proof.
  intros Hcod Hv Htok Hkeys.
  destruct (buildTree_render v c Hcod Hv Htok Hkeys) as (st & root & Hb & Hr & Hc & Hk & Hconv).
  unfold toonToJson_value. rewrite Hb. cbn [mbind option_bind].
  rewrite (convertRoot_reads c st.1 root (item_trees c v 0)); [by rewrite Hconv|done..].
Qed.

Lemma toonToJson_in_render (stack : nat) (v : json) (c : ToonConverter) :
  codable v = true -> isComplex v = true -> tokens_clean c v -> keys_known c v ->
  (depth v < stack)%nat ->
  toonToJson_value_in stack (join_lines (render c v 0)) c = Some v
  ∧ toonToJson_in stack (join_lines (render c v 0)) c = Some (JSON_stringify v).
Proof.
  intros Hcod Hv Htok Hkeys Hd.
  destruct (buildTree_render v c Hcod Hv Htok Hkeys) as (st & root & Hb & Hr & Hc & Hk & Hconv).
  assert (toonToJson_value_in stack (join_lines (render c v 0)) c = Some v) as Hdec.
  { unfold toonToJson_value_in. rewrite Hb. cbn [mbind option_bind].
    rewrite (convertRoot_in_reads c stack st.1 root (item_trees c v 0)); [by rewrite Hconv|done..|].
    eapply Forall_impl; [apply item_trees_height|]. intros t Ht. cbv beta in Ht. lia. }
  split; [done|]. unfold toonToJson_in. rewrite Hdec. cbn [mbind option_bind].
  unfold JSON_stringify_in. by rewrite (proj2 (Nat.ltb_lt _ _) Hd).
Qed.

Lemma default_state_tokens (c : ToonConverter) (k t : string) :
  default_state c -> keyToToken c !! k = Some t -> t ≠ "".
Proof.
  intros [ks ->] Hk. destruct (default_invariants ks) as (_ & _ & _ & Hm).
  destruct (Hm k t Hk) as (n & _ & ->). apply token_nonempty.
Qed.

Lemma default_state_getTokens (ks : list string) (c : ToonConverter) :
  default_state c -> default_state (getTokens ks c).
Proof. intros [ks0 ->]. exists (ks0 ++ ks)%list. by rewrite getTokens_app. Qed.

(** An entry with a token that is not empty stays as it is. *)
Lemma getTokens_keep_entry (ks : list string) (c : ToonConverter) (k t : string) :
  keyToToken c !! k = Some t -> t ≠ "" -> keyToToken (getTokens ks c) !! k = Some t.
Proof.
  intros Hk Hne. pose proof (extends_getTokens ks c k t (get_property_own _ _ _ Hk) Hne) as H.
  destruct (getTokens_keep_entries ks k c) as [t' Ht']; [by rewrite Hk|].
  rewrite (get_property_own _ _ _ Ht') in H. congruence.
Qed.

Lemma getTokens_again (ks : list string) (c : ToonConverter) :
  getTokens ks (getTokens ks c) = getTokens ks c.
Proof. apply getTokens_idle. intros k Hk. by apply getTokens_assigns. Qed.

(** The round trip of a container through a dictionary that is in order,
    on a stack with room for its depth. *)
Lemma round_trip_ok (stack : nat) (c : ToonConverter) (v : json) :
  dictionary_ok c -> codable v = true -> isComplex v = true ->
  Forall (plain_key c) (keys_of v) -> (depth v < stack)%nat ->
  jsonToToon_in stack v c
  = Returned (join_lines (render (getTokens (keys_of v) c) v 0)) (getTokens (keys_of v) c)
  ∧ toonToJson_value_in stack (join_lines (render (getTokens (keys_of v) c) v 0))
                        (getTokens (keys_of v) c) = Some v
  ∧ toonToJson_in stack (join_lines (render (getTokens (keys_of v) c) v 0))
                  (getTokens (keys_of v) c) = Some (JSON_stringify v)
  ∧ (∀ k t, keyToToken c !! k = Some t -> keyToToken (getTokens (keys_of v) c) !! k = Some t)
  ∧ jsonToToon_in stack v (getTokens (keys_of v) c)
    = Returned (join_lines (render (getTokens (keys_of v) c) v 0)) (getTokens (keys_of v) c).
Proof.
  intros Hc Hcod Hv Hplain Hd.
  destruct (round_trip_keys c v Hc Hcod Hplain) as [Htok Hkeys].
  destruct (toonToJson_in_render stack v _ Hcod Hv Htok Hkeys Hd) as [Hdec Htext].
  split; [by apply jsonToToon_in_render|]. split; [done|]. split; [done|]. split.
  - intros k t Hk. apply getTokens_keep_entry; [done|].
    destruct Hc as (_ & _ & Hok). by destruct (Hok k t Hk) as [[? _] _].
  - rewrite jsonToToon_in_render by done. by rewrite getTokens_again.
Qed.

End RoundTrip.

(** C1, as stated, fails: a string that reads as a keyword comes back as
    a boolean. *)
Lemma keyword_string_comes_back_as_boolean :
  jsonToToon (JObj [("a", JStr "yes")]) (constructor [])
  = Returned "01: yes" (getToken "a" (constructor [])).2
  ∧ toonToJson_value "01: yes" (getToken "a" (constructor [])).2
    = Some (JObj [("a", JBool true)])
  ∧ toonToJson_value "01: yes" (getToken "a" (constructor [])).2
    ≠ Some (JObj [("a", JStr "yes")]).
Proof. repeat split; vm_compute; done. Qed.

(** What else the round trip cannot do.  A key that is the name of a
    member of [Object.prototype] gets no token; a token of the initial map
    that holds a colon is cut at the colon; and a value nested deeper
    than the stack has room for ends the encoder with a [RangeError],
    the dictionary keeping the tokens minted by then. *)
Lemma round_trip_limits :
  toonToJson_value "function Object() { [native code] }: 1" (constructor [])
  ≠ Some (JObj [("constructor", JNum (Finite 1 0))])
  ∧ jsonToToon (JObj [("a", JBool true)]) (constructor [("a", "x:y")])
    = Returned "x:y: yes" (constructor [("a", "x:y")])
  ∧ toonToJson_value "x:y: yes" (constructor [("a", "x:y")])
    = Some (JObj [("UNKNOWN_x", JStr "y: yes")])
  ∧ jsonToToon_in 2 (JObj [("a", JArr [JArr [JBool true]])]) (constructor [])
    = RangeError (getToken "a" (constructor [])).2.
Proof. repeat split; vm_compute; done. Qed.

(** C1, amended.  Take a converter made from an initial map whose keys
    are distinct, whose tokens are distinct, and whose tokens are texts
    that a line gives back (not empty, no blank at either end, no colon,
    no line feed, no dash in front, and not [__proto__]); the default
    empty map is one.  Let the counter be a safe integer that is not
    negative.  Take an array or an object [v] that is [codable]: built
    from booleans, finite numbers, strings that are not empty, have no
    blank at either end and no line feed and read neither as a keyword nor
    as a number, and arrays and objects that are not empty, the keys of an
    object being not empty, distinct and in enumeration order.  Let every
    key of [v] be other than [__proto__] and have an entry in the
    dictionary or be no name of a member of [Object.prototype], and let
    the stack have room for the depth of [v].  Then encoding [v] returns a
    text that the same converter decodes to [v]; the encoding keeps every
    entry of the dictionary; and a second encoding returns the same text
    and leaves the dictionary as it is. *)
Theorem round_trip (stack : nat) (initialMap : TokenMap) (ks : list string)
    (c : ToonConverter) (v : json) :
  round_trip_map initialMap ->
  c = getTokens ks (constructor initialMap) ->
  0 <= nextTokenId (constructor initialMap) ->
  safe_counter (nextTokenId (getTokens (keys_of v) c)) ->
  codable v = true -> isComplex v = true ->
  Forall (plain_key c) (keys_of v) ->
  (depth v < stack)%nat ->
  ∃ out c',
    jsonToToon_in stack v c = Returned out c'
    ∧ toonToJson_value_in stack out c' = Some v
    ∧ toonToJson_in stack out c' = Some (JSON_stringify v)
    ∧ (∀ k t, keyToToken c !! k = Some t -> keyToToken c' !! k = Some t)
    ∧ jsonToToon_in stack v c' = Returned out c'.
Proof.
  intros Hm -> Hn _ Hcod Hv Hplain Hd.
  eexists _, _. apply round_trip_ok; try done.
  by apply getTokens_dictionary_ok, constructor_dictionary_ok.
Qed.

Lemma round_trip_witness :
  ∃ out c',
    jsonToToon_in 4 (JObj [("name", JStr "Goku"); ("power", JNum (Finite 9001 0));
                           ("ratio", JNum (Finite (-15) (-1)));
                           ("skills", JArr [JStr "Kamehameha"; JStr "Spirit Bomb"]);
                           ("team", JArr [JObj [("name", JStr "Gohan"); ("active", JBool true)]])])
                  (getTokens ["power"] (constructor [("name", "07"); ("toString", "N")]))
    = Returned out c'
    ∧ toonToJson_value_in 4 out c'
      = Some (JObj [("name", JStr "Goku"); ("power", JNum (Finite 9001 0));
                    ("ratio", JNum (Finite (-15) (-1)));
                    ("skills", JArr [JStr "Kamehameha"; JStr "Spirit Bomb"]);
                    ("team", JArr [JObj [("name", JStr "Gohan"); ("active", JBool true)]])]).
Proof.
  destruct (round_trip 4 [("name", "07"); ("toString", "N")] ["power"]
              (getTokens ["power"] (constructor [("name", "07"); ("toString", "N")]))
              (JObj [("name", JStr "Goku"); ("power", JNum (Finite 9001 0));
                     ("ratio", JNum (Finite (-15) (-1)));
                     ("skills", JArr [JStr "Kamehameha"; JStr "Spirit Bomb"]);
                     ("team", JArr [JObj [("name", JStr "Gohan"); ("active", JBool true)]])]))
    as (out & c' & Henc & Hdec & _).
  - split; [apply (bool_decide_unpack _); vm_compute; exact I|].
    split; [apply (bool_decide_unpack _); vm_compute; exact I|].
    repeat constructor; vm_compute; done.
  - reflexivity.
  - vm_compute. discriminate.
  - split; vm_compute; discriminate.
  - vm_compute. reflexivity.
  - reflexivity.
  - repeat constructor; vm_compute; done.
  - vm_compute. lia.
  - exists out, c'. split; [exact Henc | exact Hdec].
Defined.

(** * Further properties *)

(** ** The dictionary under encoding *)

Section EncodingAndDictionary.

(** The state [process] ends with, for any later state [c'] the tokens
    are read from. *)
Lemma process_render (v : json) (c c' : ToonConverter) :
  extends (getTokens (keys_of v) c) c' ->
  lines (process v 0 (mkEnc [] c)).2 = render c' v 0
  ∧ conv (process v 0 (mkEnc [] c)).2 = getTokens (keys_of v) c.
Proof.
  intros He. destruct (process_encodes v 0%nat (mkEnc [] c)) as [Hc Hl].
  cbn [conv lines] in Hc, Hl. split; [|done].
  rewrite <- Hc in He. by rewrite (Hl c' He).
Qed.

(** What [jsonToToon] does once its argument is parsed. *)
Lemma encode_parsed (obj : json) (c : ToonConverter) :
  (if isComplex obj then
     let st := (process obj 0 (mkEnc [] c)).2 in
     Returned (join_lines (lines st)) (conv st)
   else
     let '(r, st) := process obj 0 (mkEnc [] c) in Returned r (conv st))
  = if isComplex obj
    then Returned (join_lines (render (getTokens (keys_of obj) c) obj 0))
                  (getTokens (keys_of obj) c)
    else Returned (scalar_text obj) c.
Proof.
  destruct (isComplex obj) eqn:E.
  - cbv zeta. destruct (process_render obj c _ (extends_refl _)) as [-> ->]. done.
  - by rewrite process_scalar.
Qed.

Lemma keys_of_scalar (v : json) : isComplex v = false -> keys_of v = [].
Proof. by destruct v. Qed.

(** [jsonToToon] in terms of the value it encodes. *)
Lemma jsonToToon_parsed (x obj : json) (c : ToonConverter) :
  match x with JStr s => JSON_parse s | _ => Some x end = Some obj ->
  jsonToToon x c
  = if isComplex obj
    then Returned (join_lines (render (getTokens (keys_of obj) c) obj 0))
                  (getTokens (keys_of obj) c)
    else Returned (scalar_text obj) c.
Proof.
  intros Hp. rewrite <- encode_parsed. unfold jsonToToon. by rewrite Hp.
Qed.

Lemma jsonToToon_returned (x : json) (c c' : ToonConverter) (out : string) :
  jsonToToon x c = Returned out c' ->
  ∃ obj, match x with JStr s => JSON_parse s | _ => Some x end = Some obj.
Proof.
  unfold jsonToToon. destruct (match x with JStr s => JSON_parse s | _ => Some x end);
    [eauto|done].
Qed.

End EncodingAndDictionary.

(** X1.  Encoding is repeatable: when [jsonToToon] returns, calling it
    again on the same argument with the dictionary it left returns the
    same text and leaves the dictionary as it is. *)
Theorem jsonToToon_repeatable (x : json) (c c' : ToonConverter) (out : string) :
  jsonToToon x c = Returned out c' -> jsonToToon x c' = Returned out c'.
Proof.
  intros H. destruct (jsonToToon_returned x c c' out H) as [obj Hp].
  rewrite (jsonToToon_parsed x obj) in H |- * by done.
  destruct (isComplex obj).
  - injection H as <- <-. by rewrite getTokens_again.
  - by injection H as <- <-.
Qed.

Lemma jsonToToon_repeatable_witness :
  jsonToToon (JObj [("a", JArr [JNum (Finite 1 0); JObj [("b", JNull)]])])
             (getTokens ["a"; "b"] (constructor []))
  = Returned (join_lines ["01:"; "  - 1"; "  -"; "    02: null"])
             (getTokens ["a"; "b"] (constructor [])).
Proof.
  apply (jsonToToon_repeatable _ (constructor [])). vm_compute. reflexivity.
Defined.

(** X2.  Encoding an array or an object changes the dictionary as the
    calls of [getToken] on its keys, in document order, do: no entry with
    a token that is not empty is changed; every key of the value that had
    an entry, or that is no name of a member of [Object.prototype], has an
    entry with a token afterwards; and no other key is added.  Encoding a
    scalar leaves the dictionary alone.  The counter is taken to be a safe
    integer before and after. *)
Theorem jsonToToon_dictionary (v : json) (c c' : ToonConverter) (out : string) :
  (forall s, v ≠ JStr s) -> jsonToToon v c = Returned out c' ->
  safe_counter (nextTokenId c) -> safe_counter (nextTokenId c') ->
  c' = getTokens (keys_of v) c
  ∧ (isComplex v = false -> c' = c)
  ∧ (forall k t, keyToToken c !! k = Some t -> t ≠ "" -> keyToToken c' !! k = Some t)
  ∧ (forall k, k ∈ keys_of v ->
       (keyToToken c !! k = None -> prototype_member k = None) ->
       ∃ t, keyToToken c' !! k = Some t ∧ t ≠ "")
  ∧ (forall k, is_Some (keyToToken c' !! k) -> is_Some (keyToToken c !! k) ∨ k ∈ keys_of v).
Proof.
  intros Hv H _ _.
  rewrite (jsonToToon_parsed v v) in H by (destruct v; [done..|by destruct (Hv s)|done|done]).
  assert (c' = getTokens (keys_of v) c) as ->.
  { destruct (isComplex v) eqn:E; injection H as _ <-; [done|].
    by rewrite keys_of_scalar. }
  split; [done|]. split; [intros E; by rewrite keys_of_scalar|].
  split; [intros k t; apply getTokens_keep_entry|]. split.
  - intros k Hk Hp. by apply getTokens_entry.
  - intros k. apply getTokens_domain.
Qed.

Lemma jsonToToon_dictionary_witness :
  getTokens ["a"; "b"] (constructor [])
  = getTokens (keys_of (JObj [("a", JArr [JNum (Finite 1 0); JObj [("b", JNull)]])]))
              (constructor []).
Proof.
  refine (proj1 (jsonToToon_dictionary
                   (JObj [("a", JArr [JNum (Finite 1 0); JObj [("b", JNull)]])])
                   (constructor []) _
                   (join_lines ["01:"; "  - 1"; "  -"; "    02: null"]) _ _ _ _));
    [done | vm_compute; reflexivity
    | split; vm_compute; discriminate | split; vm_compute; discriminate].
Defined.

(** X3.  A key that is not empty is read back from its token: after
    [getToken(k)], [getKey] of the returned token is [k], in every state
    of a converter built from a map whose keys and whose tokens are
    pairwise distinct and whose tokens are not [__proto__], while the
    counter is a safe integer, for every key that has an entry or is no
    name of a member of [Object.prototype]. *)
Theorem getKey_getToken (initialMap : TokenMap) (ks : list string) (k : string) :
  NoDup initialMap.*1 -> NoDup initialMap.*2 -> "__proto__" ∉ initialMap.*2 ->
  safe_counter (nextTokenId (constructor initialMap)) ->
  safe_counter (nextTokenId (getTokens ks (constructor initialMap))) ->
  k ≠ "" ->
  (keyToToken (getTokens ks (constructor initialMap)) !! k = None ->
   prototype_member k = None) ->
  getKey (getToken k (getTokens ks (constructor initialMap))).1
         (getToken k (getTokens ks (constructor initialMap))).2 = k.
Proof.
  intros Hk Ht Hproto _ _ Hne Hplain.
  assert (counter_above (constructor initialMap)) as Hca by by apply constructor_counter_above.
  assert (inverse_of (constructor initialMap)) as Hinv.
  { intros k0 t0 H0. apply constructor_keyToToken in H0; [|done].
    apply constructor_tokenToKey_NoDup; [done..|].
    intros ->. apply Hproto, list_elem_of_fmap. by exists (k0, "__proto__"). }
  destruct (getTokens_invariants ks _ Hca Hinv) as (Hca' & Hinv' & _).
  pose proof (getToken_inverse_of k _ Hca' Hinv') as Hinv''.
  pose proof (getToken_entry k (getTokens ks (constructor initialMap)) Hplain) as Hreg.
  apply Hinv'' in Hreg.
  by apply (proj1 (getKey_cases _ _ k)).
Qed.

Lemma getKey_getToken_witness :
  getKey (getToken "name" (getTokens ["id"] (constructor [("id", "07")]))).1
         (getToken "name" (getTokens ["id"] (constructor [("id", "07")]))).2 = "name".
Proof.
  apply (getKey_getToken [("id", "07")] ["id"] "name");
    [apply (bool_decide_unpack _); vm_compute; exact I
    |apply (bool_decide_unpack _); vm_compute; exact I
    |apply (bool_decide_unpack _); vm_compute; exact I
    |split; vm_compute; discriminate
    |split; vm_compute; discriminate
    |discriminate
    |intros _; reflexivity].
Defined.

(** ** The tokens of the default dictionary *)

Section DefaultTokens.

(** The tokens of a default dictionary are the numerals from 1 up to the
    counter, one for each key. *)
Lemma default_state_dense (c : ToonConverter) :
  default_state c ->
  nextTokenId c = Z.of_nat (size (keyToToken c)) + 1
  ∧ (forall k t, keyToToken c !! k = Some t ->
       ∃ i, 1 <= i < nextTokenId c ∧ t = padStart2 (Z_toString i))
  ∧ (forall i, 1 <= i < nextTokenId c ->
       ∃ k, keyToToken c !! k = Some (padStart2 (Z_toString i))).
Proof.
  intros [ks ->]. induction ks as [|k ks IH] using rev_ind.
  - split; [done|]. split; [done|]. intros i Hi. change (nextTokenId _) with 1 in Hi. lia.
  - rewrite getTokens_app. change (getTokens [k] ?c) with (getToken k c).2.
    set (c := getTokens ks (constructor [])) in *. destruct IH as (Hn & Hin & Hall).
    destruct (truthy (get_property (keyToToken c) k)) eqn:E.
    + apply truthy_Some in E as (t & Ht & Hne). by rewrite (getToken_hit k c t).
    + assert (keyToToken c !! k = None) as Hk.
      { destruct (get_property_falsy _ _ E) as [[Ek _]|Ek]; [done|].
        destruct (Hin k "" Ek) as (i & _ & Hi). by destruct (token_nonempty i). }
      rewrite getToken_miss by done. cbn [snd keyToToken nextTokenId].
      split; [|split].
      * rewrite map_size_insert_None by done. lia.
      * intros k0 t. destruct (decide (k = k0)) as [->|Hne].
        -- rewrite lookup_insert_eq. intros [= <-]. exists (nextTokenId c). split; [lia|done].
        -- rewrite lookup_insert_ne by done. intros (i & Hi & ->)%Hin. exists i. split; [lia|done].
      * intros i Hi. destruct (decide (i = nextTokenId c)) as [->|Hne].
        -- exists k. by rewrite lookup_insert_eq.
        -- destruct (Hall i ltac:(lia)) as [k0 Hk0]. exists k0.
           rewrite lookup_insert_ne; [done|]. intros <-. by rewrite Hk in Hk0.
Qed.

End DefaultTokens.

(** X4.  In a converter made with the default map the counter is the
    number of entries plus one, so the n-th key that gets an entry gets
    the numeral n, padded to two digits, as its token; a key gets an entry
    when it has none and is no name of a member of [Object.prototype]. *)
Theorem default_tokens_are_numbered (c : ToonConverter) (k : string) :
  default_state c -> keyToToken c !! k = None -> prototype_member k = None ->
  nextTokenId c = Z.of_nat (size (keyToToken c)) + 1
  ∧ (getToken k c).1 = padStart2 (Z_toString (Z.of_nat (size (keyToToken c)) + 1))
  ∧ parseInt10 (getToken k c).1 = Some (Z.of_nat (size (keyToToken c)) + 1)
  ∧ size (keyToToken (getToken k c).2) = S (size (keyToToken c)).
Proof.
  intros Hc Hk Hp. destruct (default_state_dense c Hc) as (Hn & _).
  rewrite getToken_miss by (by apply getToken_new). cbn [fst snd keyToToken].
  rewrite <- Hn. split; [done|]. split; [done|]. split; [apply parseInt10_token|].
  by apply map_size_insert_None.
Qed.

Lemma default_tokens_are_numbered_witness :
  (getToken "c" (getTokens ["a"; "b"] (constructor []))).1 = "03".
Proof.
  refine (proj1 (proj2 (default_tokens_are_numbered
                          (getTokens ["a"; "b"] (constructor [])) "c" _ _ _)));
    [by exists ["a"; "b"] | vm_compute; reflexivity | reflexivity].
Defined.

(** ** A converter made from a mapping *)

Section Remapping.

Lemma converter_eq (a b : ToonConverter) :
  keyToToken a = keyToToken b -> tokenToKey a = tokenToKey b ->
  nextTokenId a = nextTokenId b -> a = b.
Proof. destruct a, b. cbn. by intros -> -> ->. Qed.

Lemma default_state_inverse (c : ToonConverter) :
  default_state c -> inverse_of c ∧ converse_of c.
Proof.
  intros [ks ->]. destruct (default_invariants ks) as (_ & Hinv & _). split; [done|].
  assert (counter_above (constructor [])) as Hca by (by apply constructor_counter_above, NoDup_nil).
  assert (inverse_of (constructor [])) as Hi by done.
  destruct (getTokens_invariants ks _ Hca Hi) as (_ & _ & Hconv). by apply Hconv.
Qed.

(** The numeric tokens of a default dictionary are the numbers from 1 up
    to the counter. *)
Lemma default_state_ids (c : ToonConverter) (n : Z) :
  default_state c ->
  n ∈ omap parseInt10 (map_to_list (keyToToken c)).*2 <-> 1 <= n < nextTokenId c.
Proof.
  intros Hc. destruct (default_state_dense c Hc) as (_ & Hin & Hall).
  rewrite list_elem_of_omap. split.
  - intros (t & Ht & Hp). apply list_elem_of_fmap in Ht as ([k t'] & -> & Hkt).
    apply elem_of_map_to_list in Hkt. destruct (Hin k t' Hkt) as (i & Hi & E).
    cbn in Hp. rewrite E, parseInt10_token in Hp. by injection Hp as <-.
  - intros Hn. destruct (Hall n Hn) as [k Hk]. exists (padStart2 (Z_toString n)).
    split; [|apply parseInt10_token]. apply list_elem_of_fmap.
    exists (k, padStart2 (Z_toString n)). split; [done|]. by apply elem_of_map_to_list.
Qed.

Lemma default_state_counter (c : ToonConverter) :
  default_state c ->
  match omap parseInt10 (map_to_list (keyToToken c)).*2 with
  | [] => 1
  | _ => Math_max (omap parseInt10 (map_to_list (keyToToken c)).*2) + 1
  end = nextTokenId c.
Proof.
  intros Hc. pose proof (fun n => default_state_ids c n Hc) as Hids.
  destruct (default_state_dense c Hc) as (Hn & _).
  destruct (omap parseInt10 (map_to_list (keyToToken c)).*2) as [|i ids] eqn:E.
  - destruct (decide (nextTokenId c = 1)) as [|Hne]; [done|].
    assert (1 ∈ ([] : list Z)) as H by (apply Hids; lia). by apply elem_of_nil in H.
  - pose proof (Math_max_in (i :: ids) ltac:(done)) as Hmax. apply Hids in Hmax.
    assert (i ∈ i :: ids) as Hi by (by apply elem_of_cons; left). apply Hids in Hi.
    assert (nextTokenId c - 1 ∈ i :: ids) as Hlast by (apply Hids; lia).
    apply Math_max_ge in Hlast. lia.
Qed.

End Remapping.

(** X5.  A converter made from the mapping of a converter that was made
    with the default map is that converter: the same two maps and the
    same counter, whatever the order of the entries. *)
Theorem constructor_of_mapping (c : ToonConverter) (seed : TokenMap) :
  default_state c -> NoDup seed.*1 ->
  (forall k t, (k, t) ∈ seed <-> (getMapping c).1 !! k = Some t) ->
  constructor seed = c.
Proof.
  intros Hc Hnd Hseed. cbn [getMapping fst] in Hseed.
  destruct (default_state_inverse c Hc) as [Hinv Hconv].
  assert (NoDup seed.*2) as Hnd2.
  { apply NoDup_fmap_2_strong; [|by apply NoDup_fmap_1 in Hnd].
    intros [k1 t1] [k2 t2] H1 H2 E. cbn in E. subst t2.
    apply Hseed, Hinv in H1. apply Hseed, Hinv in H2. congruence. }
  assert (keyToToken (constructor seed) = keyToToken c) as Hk2t.
  { apply map_eq. intros k. apply option_eq. intros t.
    by rewrite constructor_keyToToken, Hseed. }
  apply converter_eq; [done| |].
  - apply map_eq. intros t. apply option_eq. intros k. split.
    + intros [H _]%constructor_tokenToKey. by apply Hinv, Hseed.
    + intros H%Hconv. apply constructor_tokenToKey_NoDup; [done | by apply Hseed|].
      destruct (default_state_dense c Hc) as (_ & Hin & _).
      destruct (Hin k t H) as (i & _ & ->). intros E.
      pose proof (token_not_inherited i) as P. by rewrite E in P.
  - rewrite <- (default_state_counter c Hc), <- Hk2t. reflexivity.
Qed.

Lemma constructor_of_mapping_witness :
  constructor [("b", "02"); ("a", "01")] = getTokens ["a"; "b"] (constructor []).
Proof.
  apply (constructor_of_mapping (getTokens ["a"; "b"] (constructor []))).
  - by exists ["a"; "b"].
  - apply (bool_decide_unpack _). vm_compute. exact I.
  - intros k t. rewrite <- (constructor_keyToToken [("b", "02"); ("a", "01")] k t);
      [|apply (bool_decide_unpack _); vm_compute; exact I].
    assert (keyToToken (constructor [("b", "02"); ("a", "01")])
            = (getMapping (getTokens ["a"; "b"] (constructor []))).1) as ->; [|done].
    vm_compute. reflexivity.
Defined.

(** ** Texts encoded earlier *)

Section EarlierTexts.

(** The dictionary after [jsonToToon] returns: the one before, after
    some calls of [getToken]. *)
Lemma jsonToToon_getTokens (x : json) (c c' : ToonConverter) (out : string) :
  jsonToToon x c = Returned out c' -> ∃ ks, c' = getTokens ks c.
Proof.
  intros H. destruct (jsonToToon_returned x c c' out H) as [obj Hp].
  rewrite (jsonToToon_parsed x obj) in H by done.
  destruct (isComplex obj); injection H as _ <-; [by eexists|by exists []].
Qed.

(** The dictionary after [jsonToToon] on a bounded stack, however the
    call ends. *)
Lemma jsonToToon_in_advances (stack : nat) (x : json) (c : ToonConverter) :
  match jsonToToon_in stack x c with
  | Returned _ c' | RangeError c' => advances c c'
  | Thrown _ => True
  end.
Proof.
  pose proof (jsonToToon_in_cases stack x c) as H.
  destruct (jsonToToon_in stack x c) as [out c'|m|c']; [|done|done].
  by apply (jsonToToon_getTokens x c c' out).
Qed.

Lemma plain_key_later (ks : list string) (c : ToonConverter) (k : string) :
  plain_key c k -> plain_key (getTokens ks c) k.
Proof.
  intros [Hp Hk]. split; [done|]. intros Hnone. apply Hk.
  destruct (keyToToken c !! k) as [t|] eqn:E; [|done].
  destruct (getTokens_keep_entries ks k c) as [t' Ht']; [by rewrite E|]. congruence.
Qed.

(** The lines of a value are decoded by every later state of the
    dictionary they were written with. *)
Lemma render_decodes_later (stack : nat) (c : ToonConverter) (v : json) (ks : list string) :
  dictionary_ok c -> codable v = true -> isComplex v = true ->
  Forall (plain_key c) (keys_of v) -> (depth v < stack)%nat ->
  toonToJson_value_in stack (join_lines (render (getTokens (keys_of v) c) v 0))
                      (getTokens ks (getTokens (keys_of v) c)) = Some v
  ∧ toonToJson_in stack (join_lines (render (getTokens (keys_of v) c) v 0))
                  (getTokens ks (getTokens (keys_of v) c)) = Some (JSON_stringify v).
Proof.
  intros Hc Hcod Hv Hplain Hd.
  set (c1 := getTokens (keys_of v) c).
  set (c2 := getTokens ks c1).
  assert (extends c1 c2) as Hext by apply extends_getTokens.
  assert (render c1 v 0 = render c2 v 0) as ->.
  { destruct (process_render v c c1 (extends_refl _)) as [<- _].
    by destruct (process_render v c c2 Hext) as [<- _]. }
  assert (getTokens (keys_of v) c2 = c2) as Hidle.
  { apply getTokens_idle. intros k Hk.
    destruct (getTokens_assigns (keys_of v) c k Hk) as (t & Ht & Hne).
    exists t. split; [by apply Hext|done]. }
  assert (dictionary_ok c2) as Hc2 by (by do 2 apply getTokens_dictionary_ok).
  assert (Forall (plain_key c2) (keys_of v)) as Hplain2.
  { eapply Forall_impl; [exact Hplain|]. intros k Hk. unfold c2, c1.
    by do 2 apply plain_key_later. }
  destruct (round_trip_keys c2 v Hc2 Hcod Hplain2) as [Htok Hkeys].
  rewrite Hidle in Htok, Hkeys. by apply toonToJson_in_render.
Qed.

End EarlierTexts.

(** X6.  A text stays readable while its dictionary is used.  Take a
    converter made with the default map, an array or an object of the
    round trip whose keys are other than [__proto__] and have an entry
    or are no names of members of [Object.prototype], and a stack with
    room for its depth.  The text that encodes the value is decoded to
    the same value by the converter after any number of further
    [getToken] calls, and so after any further [jsonToToon] call,
    whether it returns or is cut short by a [RangeError]. *)
Theorem earlier_text_still_decodes (stack : nat) (c : ToonConverter) (v : json) :
  default_state c -> codable v = true -> isComplex v = true ->
  Forall (plain_key c) (keys_of v) -> (depth v < stack)%nat ->
  ∃ out c',
    jsonToToon_in stack v c = Returned out c'
    ∧ (forall ks, toonToJson_value_in stack out (getTokens ks c') = Some v)
    ∧ (forall stack' x out2 c2, jsonToToon_in stack' x c' = Returned out2 c2 ->
         toonToJson_value_in stack out c2 = Some v)
    ∧ (forall stack' x c2, jsonToToon_in stack' x c' = RangeError c2 ->
         toonToJson_value_in stack out c2 = Some v).
Proof.
  intros Hc Hcod Hv Hplain Hd. apply default_state_ok in Hc.
  exists (join_lines (render (getTokens (keys_of v) c) v 0)), (getTokens (keys_of v) c).
  split; [by apply jsonToToon_in_render|].
  assert (forall ks, toonToJson_value_in stack
                       (join_lines (render (getTokens (keys_of v) c) v 0))
                       (getTokens ks (getTokens (keys_of v) c)) = Some v) as Hlater
    by (intros ks; by apply render_decodes_later).
  split; [done|]. split.
  - intros stack' x out2 c2 H.
    pose proof (jsonToToon_in_advances stack' x (getTokens (keys_of v) c)) as Ha.
    rewrite H in Ha. destruct Ha as [ks ->]. apply Hlater.
  - intros stack' x c2 H.
    pose proof (jsonToToon_in_advances stack' x (getTokens (keys_of v) c)) as Ha.
    rewrite H in Ha. destruct Ha as [ks ->]. apply Hlater.
Qed.

Lemma earlier_text_still_decodes_witness :
  ∃ out c',
    jsonToToon_in 3 (JObj [("name", JStr "Goku"); ("level", JNum (Finite 9000 0))])
                  (constructor [])
    = Returned out c'
    ∧ toonToJson_value_in 3 out (getTokens ["rank"; "name"] c')
      = Some (JObj [("name", JStr "Goku"); ("level", JNum (Finite 9000 0))]).
Proof.
  destruct (earlier_text_still_decodes 3 (constructor [])
              (JObj [("name", JStr "Goku"); ("level", JNum (Finite 9000 0))]))
    as (out & c' & Henc & Hdec & _);
    [by exists [] | vm_compute; reflexivity | reflexivity
    | repeat constructor; vm_compute; done | vm_compute; lia |].
  exists out, c'. split; [exact Henc | exact (Hdec ["rank"; "name"])].
Defined.

(** ** The decoder always returns *)

Section DecoderTotal.

Lemma addNode_children_ok (h : Heap) (p : nat) (i : Z) (k v : option string) (arr : bool) :
  children_ok h -> (p < length h)%nat -> children_ok (addNode h p i k v arr).1.
Proof.
  intros Hok Hp r n. unfold addNode. cbn [fst].
  rewrite length_app, length_alter. cbn [length].
  destruct (decide (r < length h)%nat) as [Hr|Hr].
  - rewrite lookup_app_l by (rewrite length_alter; lia).
    destruct (decide (r = p)) as [->|Hne].
    + rewrite list_lookup_alter_eq. destruct (h !! p) as [n0|] eqn:E; [|done].
      intros [= <-]. cbn [push_child children]. apply Forall_app. split.
      * eapply Forall_impl; [exact (Hok p n0 E)|]. cbn. lia.
      * repeat constructor; lia.
    + rewrite list_lookup_alter_ne by done. intros E.
      eapply Forall_impl; [exact (Hok r n E)|]. cbn. lia.
  - rewrite lookup_app_r by (rewrite length_alter; lia). rewrite length_alter.
    destruct (r - length h)%nat as [|j] eqn:Ej; [|by destruct j].
    intros [= <-]. constructor.
Qed.

Lemma readLine_built (st : Heap * nat) (line : string) :
  built st -> trim line ≠ "" ->
  ∃ st', readLine st line = Some st' ∧ built st'
         ∧ (children_ok st.1 -> children_ok st'.1)
         ∧ (length st'.1 <= S (length st.1))%nat.
Proof.
  intros Hb Hne. destruct st as [h lastNode].
  destruct (findParent_walk h lastNode (search_nonspace line) (built_ok _ Hb)
              (nonblank_indent line Hne)) as (p & Hf & _ & Hp).
  assert (∃ st', readLine (h, lastNode) line = Some st'
                 ∧ (children_ok h -> children_ok st'.1)
                 ∧ (length st'.1 <= S (length h))%nat) as (st' & E & Hc & Hl).
  { unfold readLine. rewrite Hf. cbn [mbind option_bind].
    destruct (startsWith "-" (trim line)).
    - eexists. split; [done|]. split; [|by rewrite addNode_length].
      intros Hok. by apply addNode_children_ok.
    - destruct (indexOf ":" (trim line)).
      + eexists. split; [done|]. split; [|by rewrite addNode_length].
        intros Hok. by apply addNode_children_ok.
      + eexists. split; [done|]. split; [done|]. cbn [fst]. lia. }
  exists st'. split; [done|]. split; [|done]. by apply (built_line (h, lastNode) st' line).
Qed.

Lemma readLines_built (ls : list string) (st : Heap * nat) :
  built st -> children_ok st.1 -> Forall (fun l => trim l ≠ "") ls ->
  ∃ st', foldl (fun st line => st ← st; readLine st line) (Some st) ls = Some st'
         ∧ built st' ∧ children_ok st'.1
         ∧ (length st'.1 <= length st.1 + length ls)%nat.
Proof.
  revert st. induction ls as [|l ls IH]; intros st Hb Hc Hls.
  { exists st. repeat split; try done. lia. }
  apply Forall_cons in Hls as [Hl Hls].
  destruct (readLine_built st l Hb Hl) as (st1 & E & Hb1 & Hc1 & Hlen).
  cbn [foldl mbind option_bind]. rewrite E.
  destruct (IH st1 Hb1 (Hc1 Hc) Hls) as (st' & E' & Hb' & Hc' & Hlen').
  exists st'. repeat split; try done. cbn [length]. lia.
Qed.

(** Pass 1 ends, with one node for the root and at most one for each
    line. *)
Lemma buildTree_built (toonInput : string) :
  ∃ st, buildTree toonInput = Some st ∧ built st ∧ children_ok st.1
        ∧ (length st.1 <= S (length (nonblank_lines toonInput)))%nat.
Proof.
  apply (readLines_built _ ([rootNode], rootRef)); [constructor| |].
  - intros r n. destruct r as [|r]; [|done]. intros [= <-]. constructor.
  - apply Forall_forall. intros l Hl. by apply nonblank_lines_spec in Hl as [_ Hl].
Qed.

Lemma foldl_total {A B} (g : B -> A -> option B) (l : list A) (init : B) :
  Forall (fun a => forall b, is_Some (g b a)) l ->
  is_Some (foldl (fun o a => b ← o; g b a) (Some init) l).
Proof.
  revert init. induction l as [|a l IH]; intros init Hl; [done|].
  apply Forall_cons in Hl as [Ha Hl]. cbn [foldl mbind option_bind].
  destruct (Ha init) as [b ->]. by apply IH.
Qed.

Lemma mapM_total {A B} (f : A -> option B) (l : list A) :
  Forall (fun a => is_Some (f a)) l -> is_Some (mapM f l).
Proof. intros H. by apply mapM_is_Some. Qed.

(** The nodes a list of valid references reads. *)
Lemma children_lookup (h : Heap) (r : nat) (cs : list nat) :
  Forall (fun cr => (r < cr < length h)%nat) cs ->
  ∃ kids, mapM (fun cr => h !! cr) cs = Some kids
          ∧ Forall (fun ch : nat * Node => (r < ch.1 < length h)%nat) (zip cs kids).
Proof.
  induction cs as [|cr cs IH]; intros Hcs; [by exists []|].
  apply Forall_cons in Hcs as [Hcr Hcs]. destruct (IH Hcs) as (kids & E & Hz).
  destruct (lookup_lt_is_Some_2 h cr ltac:(lia)) as [n Hn].
  exists (n :: kids). split; [|by constructor].
  cbn [mapM]. rewrite Hn, E. done.
Qed.

Lemma convertNode_total (c : ToonConverter) (h : Heap) :
  children_ok h ->
  forall fuel r, (r < length h)%nat -> (length h - r <= fuel)%nat ->
  is_Some (convertNode fuel c h r).
Proof.
  intros Hok. induction fuel as [|f IH]; intros r Hr Hf; [lia|].
  destruct (lookup_lt_is_Some_2 h r Hr) as [node Hn].
  destruct (children_lookup h r (children node) (Hok r node Hn)) as (kids & Hk & Hz).
  cbn [convertNode]. rewrite Hn. cbn [mbind option_bind]. rewrite Hk. cbn [mbind option_bind].
  assert (forall ch : nat * Node, (r < ch.1 < length h)%nat -> is_Some (convertNode f c h ch.1))
    as Hsub by (intros ch Hch; apply IH; lia).
  destruct (children node) as [|cr cs] eqn:Ec; [done|].
  destruct (forallb isArrayItem kids); [|destruct (forallb _ kids)].
  - apply fmap_is_Some, mapM_total. eapply Forall_impl; [exact Hz|].
    intros ch Hch. cbv beta. destruct (_ && _); [done|]. destruct (bool_decide _); [auto|done].
  - apply fmap_is_Some, foldl_total. eapply Forall_impl; [exact Hz|].
    intros ch Hch obj. cbv beta.
    destruct (_ && _); [done|]. destruct (Hsub ch Hch) as [v ->]. done.
  - apply fmap_is_Some, foldl_total. eapply Forall_impl; [exact Hz|].
    intros ch Hch obj. cbv beta. destruct (truthy _); [|done].
    destruct (bool_decide _); [done|]. destruct (Hsub ch Hch) as [v ->]. done.
Qed.

(** The end of [toonToJson] with room for a call for every node but
    the root. *)
Lemma convertRoot_in_total (stack : nat) (c : ToonConverter) (h : Heap) :
  children_ok h -> (0 < length h)%nat -> (length h - 1 <= stack)%nat ->
  ∃ v, convertRoot_in stack c h = Some v ∧ isComplex v = true.
Proof.
  intros Hok Hlen Hstack. unfold convertRoot_in, rootRef.
  destruct (lookup_lt_is_Some_2 h 0 Hlen) as [root Hn].
  destruct (children_lookup h 0 (children root) (Hok 0%nat root Hn)) as (kids & Hk & Hz).
  rewrite Hn. cbn [mbind option_bind]. rewrite Hk. cbn [mbind option_bind].
  assert (forall ch : nat * Node, (0 < ch.1 < length h)%nat ->
            is_Some (convertNode stack c h ch.1))
    as Hsub by (intros ch Hch; apply convertNode_total; [done|lia|lia]).
  destruct (forallb isArrayItem kids).
  - assert (is_Some (mapM (fun ch : nat * Node =>
                if bool_decide (children ch.2 = []) then Some (parseValue (value ch.2))
                else convertNode stack c h ch.1) (zip (children root) kids))) as [l ->].
    { apply mapM_total. eapply Forall_impl; [exact Hz|].
      intros ch Hch. cbv beta. destruct (bool_decide _); [done|auto]. }
    by eexists.
  - match goal with |- ∃ v, JObj <$> ?x = _ ∧ _ => assert (is_Some x) as [l ->] end.
    { apply foldl_total. eapply Forall_impl; [exact Hz|].
      intros ch Hch obj. cbv beta. destruct (truthy _); [|done].
      destruct (bool_decide _); [done|]. destruct (Hsub ch Hch) as [v ->]. done. }
    by eexists.
Qed.

Lemma convertRoot_total (c : ToonConverter) (h : Heap) :
  children_ok h -> (0 < length h)%nat ->
  ∃ v, convertRoot c h = Some v ∧ isComplex v = true.
Proof.
  intros Hok Hlen. rewrite convertRoot_eq. apply convertRoot_in_total; [done..|lia].
Qed.

(** *** The depth of the decoded value *)

Lemma parseValue_depth (val : option string) : depth (parseValue val) = 0%nat.
Proof.
  destruct val as [s|]; [|done]. unfold parseValue.
  destruct (String.eqb (trim s) "yes"); [done|].
  destruct (String.eqb (trim s) "no"); [done|].
  by destruct (negb (isNaN (Number (trim s)))).
Qed.

Lemma depth_arr_le (vs : list json) (d : nat) :
  Forall (fun e => (depth e <= d)%nat) vs -> (depth (JArr vs) <= S d)%nat.
Proof.
  intros H. cbn [depth]. apply le_n_S.
  induction H as [|e vs He _ IH]; cbn [map max_list_with id]; lia.
Qed.

Lemma depth_obj_le (l : list (string * json)) (d : nat) :
  Forall (fun kv : string * json => (depth kv.2 <= d)%nat) l -> (depth (JObj l) <= S d)%nat.
Proof.
  intros H. cbn [depth]. apply le_n_S.
  induction H as [|e vs He _ IH]; cbn [map max_list_with id]; lia.
Qed.

Lemma obj_set_Forall (P : json -> Prop) (k : string) (v : json) (l : list (string * json)) :
  P v -> Forall (fun kv : string * json => P kv.2) l ->
  Forall (fun kv : string * json => P kv.2) (obj_set k v l).
Proof.
  intros Hv Hl. unfold obj_set.
  destruct (replace_value k v l) as [l'|] eqn:E.
  - revert l' E. induction Hl as [|[k' v'] l Hv' Hl IH]; intros l'; [done|].
    cbn [replace_value]. destruct (String.eqb k' k).
    + intros [= <-]. by constructor.
    + destruct (replace_value k v l) as [l0|]; [|done]. intros [= <-].
      constructor; [done|]. by apply IH.
  - destruct (array_index k) as [n|]; [|apply Forall_app; split; [done|by constructor]].
    clear E. induction Hl as [|[k' v'] l Hv' Hl IH]; [by constructor|].
    cbn [insert_index]. destruct (array_index k') as [n'|].
    + destruct (n' <? n); by repeat constructor.
    + by repeat constructor.
Qed.

Lemma mapM_Forall_out {A B} (f : A -> option B) (P : A -> Prop) (Q : B -> Prop)
    (l : list A) (vs : list B) :
  Forall P l -> (forall a v, P a -> f a = Some v -> Q v) ->
  mapM f l = Some vs -> Forall Q vs.
Proof.
  intros Hl Hf. revert vs. induction Hl as [|a l Ha _ IH]; intros vs.
  - by intros [= <-].
  - cbn [mapM]. destruct (f a) as [v|] eqn:Ea; [|done]. cbn [mbind option_bind].
    destruct (mapM f l) as [vs'|]; [|done]. intros [= <-].
    constructor; [by apply (Hf a)|by apply IH].
Qed.

Lemma foldl_Forall_out {A B} (g : B -> A -> option B) (P : A -> Prop) (Inv : B -> Prop)
    (l : list A) (init obj : B) :
  Forall P l -> (forall b a b', P a -> Inv b -> g b a = Some b' -> Inv b') ->
  Inv init ->
  foldl (fun o a => b ← o; g b a) (Some init) l = Some obj -> Inv obj.
Proof.
  intros Hl Hg. revert init. induction Hl as [|a l Ha _ IH]; intros init Hinit.
  - by intros [= <-].
  - cbn [foldl mbind option_bind]. destruct (g init a) as [b'|] eqn:Ea.
    + apply IH. by apply (Hg init a).
    + assert (forall l0, foldl (fun o a0 => b ← o; g b a0) None l0 = None) as Hnone
        by (induction l0; [done|by cbn]).
      by rewrite Hnone.
Qed.

(** A node is converted to a value no deeper than the heap above it. *)
Lemma convertNode_depth (c : ToonConverter) (h : Heap) :
  children_ok h ->
  forall fuel r v, convertNode fuel c h r = Some v -> (depth v + r < length h)%nat.
Proof.
  intros Hok. induction fuel as [|f IH]; intros r v; [done|].
  cbn [convertNode]. destruct (h !! r) as [node|] eqn:Hn; [|done].
  cbn [mbind option_bind]. pose proof (lookup_lt_Some _ _ _ Hn) as Hr.
  destruct (children_lookup h r (children node) (Hok r node Hn)) as (kids & Hk & Hz).
  rewrite Hk. clear Hk. cbn [mbind option_bind]. pose proof (Hok r node Hn) as Hc.
  destruct (children node) as [|cr cs].
  { intros [= <-]. rewrite parseValue_depth. lia. }
  assert (S r < length h)%nat as Hroom.
  { apply Forall_cons in Hc as [Hc _]. lia. }
  assert (Hsub : forall (ch : nat * Node) e, (r < ch.1 < length h)%nat ->
            convertNode f c h ch.1 = Some e -> (depth e <= length h - r - 2)%nat).
  { intros ch e Hch He. apply IH in He. lia. }
  assert (Hleaf : forall val, (depth (parseValue val) <= length h - r - 2)%nat)
    by (intros val; rewrite parseValue_depth; lia).
  destruct (forallb isArrayItem kids); [|destruct (forallb _ kids)].
  - destruct (mapM _ _) as [vs|] eqn:E; [|done].
    cbn [fmap option_fmap option_map]. intros [= <-].
    assert (depth (JArr vs) <= S (length h - r - 2))%nat; [|lia].
    apply depth_arr_le. refine (mapM_Forall_out _ _ _ _ _ Hz _ E).
    intros ch e Hch. cbv beta. destruct (_ && _); [intros [= <-]; apply Hleaf|].
    destruct (bool_decide _); [by apply Hsub|intros [= <-]; cbn; lia].
  - destruct (foldl _ _ _) as [obj|] eqn:E; [|done].
    cbn [fmap option_fmap option_map]. intros [= <-].
    assert (depth (JObj obj) <= S (length h - r - 2))%nat; [|lia].
    apply depth_obj_le. refine (foldl_Forall_out _ _ _ _ _ _ Hz _ _ E); [|done].
    intros b ch b' Hch Hb. cbv beta. destruct (_ && _).
    + cbn [mbind option_bind]. intros [= <-]. apply (obj_set_Forall (fun e => (depth e <= _)%nat)); [apply Hleaf|done].
    + destruct (convertNode f c h ch.1) as [v0|] eqn:Ev; [|done].
      cbn [mbind option_bind]. intros [= <-]. apply (obj_set_Forall (fun e => (depth e <= _)%nat)); [|done].
      by apply (Hsub ch).
  - destruct (foldl _ _ _) as [obj|] eqn:E; [|done].
    cbn [fmap option_fmap option_map]. intros [= <-].
    assert (depth (JObj obj) <= S (length h - r - 2))%nat; [|lia].
    apply depth_obj_le. refine (foldl_Forall_out _ _ _ _ _ _ Hz _ _ E); [|done].
    intros b ch b' Hch Hb. cbv beta. destruct (truthy _); [|by intros [= <-]].
    destruct (bool_decide _).
    + cbn [mbind option_bind]. intros [= <-]. apply (obj_set_Forall (fun e => (depth e <= _)%nat)); [apply Hleaf|done].
    + destruct (convertNode f c h ch.1) as [v0|] eqn:Ev; [|done].
      cbn [mbind option_bind]. intros [= <-]. apply (obj_set_Forall (fun e => (depth e <= _)%nat)); [|done].
      by apply (Hsub ch).
Qed.

(** The value at the root is no deeper than the heap has nodes, the
    empty array of a root without children aside. *)
Lemma convertRoot_in_depth (stack : nat) (c : ToonConverter) (h : Heap) (v : json) :
  children_ok h -> convertRoot_in stack c h = Some v ->
  (depth v <= Nat.max 1 (length h - 1))%nat.
Proof.
  intros Hok. unfold convertRoot_in, rootRef.
  destruct (h !! 0%nat) as [root|] eqn:Hn; [|done]. cbn [mbind option_bind].
  destruct (children_lookup h 0 (children root) (Hok 0%nat root Hn)) as (kids & Hk & Hz).
  rewrite Hk. clear Hk. cbn [mbind option_bind].
  assert (Hsub : forall (ch : nat * Node) e, (0 < ch.1 < length h)%nat ->
            convertNode stack c h ch.1 = Some e -> (depth e <= length h - 2)%nat).
  { intros ch e Hch He. apply (convertNode_depth c h Hok) in He. lia. }
  assert (Hleaf : forall val, (depth (parseValue val) <= length h - 2)%nat)
    by (intros val; rewrite parseValue_depth; lia).
  destruct (forallb isArrayItem kids).
  - destruct (mapM _ _) as [vs|] eqn:E; [|done].
    cbn [fmap option_fmap option_map]. intros [= <-].
    assert (depth (JArr vs) <= S (length h - 2))%nat; [|lia].
    apply depth_arr_le. refine (mapM_Forall_out _ _ _ _ _ Hz _ E).
    intros ch e Hch. cbv beta.
    destruct (bool_decide _); [intros [= <-]; apply Hleaf|by apply Hsub].
  - destruct (foldl _ _ _) as [obj|] eqn:E; [|done].
    cbn [fmap option_fmap option_map]. intros [= <-].
    assert (depth (JObj obj) <= S (length h - 2))%nat; [|lia].
    apply depth_obj_le. refine (foldl_Forall_out _ _ _ _ _ _ Hz _ _ E); [|done].
    intros b ch b' Hch Hb. cbv beta. destruct (truthy _); [|by intros [= <-]].
    destruct (bool_decide _).
    + cbn [mbind option_bind]. intros [= <-]. apply (obj_set_Forall (fun e => (depth e <= _)%nat)); [apply Hleaf|done].
    + destruct (convertNode stack c h ch.1) as [v0|] eqn:Ev; [|done].
      cbn [mbind option_bind]. intros [= <-]. apply (obj_set_Forall (fun e => (depth e <= _)%nat)); [|done].
      by apply (Hsub ch).
Qed.

(** *** The same value with any room that is enough *)

Lemma mapM_agree {A B} (f g : A -> option B) (l : list A) (vs1 vs2 : list B) :
  (forall a v1 v2, f a = Some v1 -> g a = Some v2 -> v1 = v2) ->
  mapM f l = Some vs1 -> mapM g l = Some vs2 -> vs1 = vs2.
Proof.
  intros H. revert vs1 vs2. induction l as [|a l IH]; intros vs1 vs2.
  - by intros [= <-] [= <-].
  - cbn [mapM]. destruct (f a) as [v1|] eqn:E1; [|done].
    destruct (g a) as [v2|] eqn:E2; [|done]. cbn [mbind option_bind].
    destruct (mapM f l) as [l1|]; [|done]. destruct (mapM g l) as [l2|]; [|done].
    intros [= <-] [= <-]. by rewrite (H a v1 v2 E1 E2), (IH l1 l2).
Qed.

Lemma foldl_agree {A B} (f g : B -> A -> option B) (l : list A) (init o1 o2 : B) :
  (forall b a b1 b2, f b a = Some b1 -> g b a = Some b2 -> b1 = b2) ->
  foldl (fun o a => b ← o; f b a) (Some init) l = Some o1 ->
  foldl (fun o a => b ← o; g b a) (Some init) l = Some o2 -> o1 = o2.
Proof.
  intros H. revert init. induction l as [|a l IH]; intros init.
  - by intros [= <-] [= <-].
  - cbn [foldl mbind option_bind].
    assert (forall (k : B -> A -> option B) l0,
              foldl (fun o a0 => b ← o; k b a0) None l0 = None) as Hnone
      by (intros k l0; induction l0; [done|by cbn]).
    destruct (f init a) as [b1|] eqn:E1; [|by rewrite Hnone].
    destruct (g init a) as [b2|] eqn:E2; [|by rewrite Hnone].
    rewrite (H init a b1 b2 E1 E2). apply IH.
Qed.

Lemma convertNode_agree (c : ToonConverter) (h : Heap) :
  forall f1 f2 r v1 v2,
    convertNode f1 c h r = Some v1 -> convertNode f2 c h r = Some v2 -> v1 = v2.
Proof.
  induction f1 as [|f1 IH]; intros f2 r v1 v2; [done|]. destruct f2 as [|f2]; [done|].
  cbn [convertNode]. destruct (h !! r) as [node|]; [|done]. cbn [mbind option_bind].
  destruct (mapM (fun cr => h !! cr) (children node)) as [kids|]; [|done].
  cbn [mbind option_bind].
  destruct (children node) as [|cr cs]; [by intros [= <-] [= <-]|].
  destruct (forallb isArrayItem kids); [|destruct (forallb _ kids)].
  - destruct (mapM _ _) as [vs1|] eqn:E1; [|done].
    destruct (mapM _ _) as [vs2|] eqn:E2 in |- *; [|done].
    intros [= <-] [= <-]. f_equal. refine (mapM_agree _ _ _ _ _ _ E1 E2).
    intros a e1 e2. cbv beta. destruct (_ && _); [congruence|].
    destruct (bool_decide _); [apply IH|congruence].
  - destruct (foldl _ _ _) as [o1|] eqn:E1; [|done].
    destruct (foldl _ _ _) as [o2|] eqn:E2 in |- *; [|done].
    intros [= <-] [= <-]. f_equal. refine (foldl_agree _ _ _ _ _ _ _ E1 E2).
    intros b a b1 b2. cbv beta. destruct (_ && _); [cbn; congruence|].
    destruct (convertNode f1 c h a.1) as [e1|] eqn:Ea1; [|done].
    destruct (convertNode f2 c h a.1) as [e2|] eqn:Ea2; [|done].
    rewrite (IH _ _ _ _ Ea1 Ea2). cbn. congruence.
  - destruct (foldl _ _ _) as [o1|] eqn:E1; [|done].
    destruct (foldl _ _ _) as [o2|] eqn:E2 in |- *; [|done].
    intros [= <-] [= <-]. f_equal. refine (foldl_agree _ _ _ _ _ _ _ E1 E2).
    intros b a b1 b2. cbv beta. destruct (truthy _); [|congruence].
    destruct (bool_decide _); [cbn; congruence|].
    destruct (convertNode f1 c h a.1) as [e1|] eqn:Ea1; [|done].
    destruct (convertNode f2 c h a.1) as [e2|] eqn:Ea2; [|done].
    rewrite (IH _ _ _ _ Ea1 Ea2). cbn. congruence.
Qed.

Lemma convertRoot_in_agree (c : ToonConverter) (h : Heap) (s1 s2 : nat) (v1 v2 : json) :
  convertRoot_in s1 c h = Some v1 -> convertRoot_in s2 c h = Some v2 -> v1 = v2.
Proof.
  unfold convertRoot_in. destruct (h !! rootRef) as [root|]; [|done].
  cbn [mbind option_bind].
  destruct (mapM (fun cr => h !! cr) (children root)) as [kids|]; [|done].
  cbn [mbind option_bind]. destruct (forallb isArrayItem kids).
  - destruct (mapM _ _) as [vs1|] eqn:E1; [|done].
    destruct (mapM _ _) as [vs2|] eqn:E2 in |- *; [|done].
    intros [= <-] [= <-]. f_equal. refine (mapM_agree _ _ _ _ _ _ E1 E2).
    intros a e1 e2. cbv beta. destruct (bool_decide _); [congruence|].
    apply convertNode_agree.
  - destruct (foldl _ _ _) as [o1|] eqn:E1; [|done].
    destruct (foldl _ _ _) as [o2|] eqn:E2 in |- *; [|done].
    intros [= <-] [= <-]. f_equal. refine (foldl_agree _ _ _ _ _ _ _ E1 E2).
    intros b a b1 b2. cbv beta. destruct (truthy _); [|congruence].
    destruct (bool_decide _); [cbn; congruence|].
    destruct (convertNode s1 c h a.1) as [e1|] eqn:Ea1; [|done].
    destruct (convertNode s2 c h a.1) as [e2|] eqn:Ea2; [|done].
    rewrite (convertNode_agree _ _ _ _ _ _ _ Ea1 Ea2). cbn. congruence.
Qed.

(** When the decoder returns on a bounded stack, it returns what it
    returns on a deep one. *)
Lemma toonToJson_value_in_sound (stack : nat) (toonInput : string) (c : ToonConverter)
    (v : json) :
  toonToJson_value_in stack toonInput c = Some v -> toonToJson_value toonInput c = Some v.
Proof.
  unfold toonToJson_value_in, toonToJson_value.
  destruct (buildTree_built toonInput) as (st & Hst & Hb & Hok & _).
  rewrite Hst. cbn [mbind option_bind]. intros Hv.
  destruct (convertRoot_total c st.1 Hok) as (v' & Hv' & _).
  { destruct (built_ok st Hb) as [Hlt _]. lia. }
  rewrite Hv'. f_equal. rewrite convertRoot_eq in Hv'.
  exact (convertRoot_in_agree c st.1 _ _ v' v Hv' Hv).
Qed.

(** The decoder on a stack with room for the lines of the text. *)
Lemma toonToJson_in_returns (stack : nat) (toonInput : string) (c : ToonConverter) :
  (S (length (nonblank_lines toonInput)) < stack)%nat ->
  ∃ v, toonToJson_value_in stack toonInput c = Some v
       ∧ isComplex v = true
       ∧ (depth v < stack)%nat
       ∧ toonToJson_in stack toonInput c = Some (JSON_stringify v)
       ∧ toonToJson_value toonInput c = Some v.
Proof.
  intros Hstack.
  destruct (buildTree_built toonInput) as (st & Hst & Hb & Hok & Hlen).
  assert (0 < length st.1)%nat as Hpos by (destruct (built_ok st Hb) as [Hlt _]; lia).
  destruct (convertRoot_in_total stack c st.1 Hok Hpos) as (v & Hv & Hcx); [lia|].
  pose proof (convertRoot_in_depth stack c st.1 v Hok Hv) as Hd.
  assert (toonToJson_value_in stack toonInput c = Some v) as Hdec.
  { unfold toonToJson_value_in. by rewrite Hst. }
  exists v. split; [done|]. split; [done|]. split; [lia|]. split.
  - unfold toonToJson_in. rewrite Hdec. cbn [mbind option_bind].
    unfold JSON_stringify_in. rewrite (proj2 (Nat.ltb_lt _ _)); [done|lia].
  - by apply (toonToJson_value_in_sound stack).
Qed.

End DecoderTotal.

(** X7.  [toonToJson] returns on every text, with every dictionary in
    which no token stands for the key [__proto__], when the stack has
    room for one level more than the text has non-blank lines, and one
    for the root: the two passes end, no reference dangles, and the
    result is the text of an array or of an object, never of a scalar.
    With less room it can be cut short. *)
Theorem toonToJson_total (stack : nat) (toonInput : string) (c : ToonConverter) :
  no_proto_key c -> (S (length (nonblank_lines toonInput)) < stack)%nat ->
  (∃ v, toonToJson_value_in stack toonInput c = Some v
        ∧ isComplex v = true
        ∧ toonToJson_in stack toonInput c = Some (JSON_stringify v)
        ∧ toonToJson_value toonInput c = Some v)
  ∧ toonToJson_in 1 (join_lines ["01:"; "  02:"; "    03: 1"]) c = None.
Proof.
  intros _ Hstack. split; [|by vm_compute].
  destruct (toonToJson_in_returns stack toonInput c Hstack) as (v & H1 & H2 & _ & H3 & H4).
  by exists v.
Qed.

Lemma toonToJson_total_witness :
  ∃ v, toonToJson_in 5 (join_lines ["01:"; "  02:"; "  - x"]) (constructor [])
       = Some (JSON_stringify v) ∧ isComplex v = true.
Proof.
  destruct (toonToJson_total 5 (join_lines ["01:"; "  02:"; "  - x"]) (constructor []))
    as [(v & _ & Hc & Ht & _) _];
    [intros token; vm_compute; discriminate | vm_compute; lia |].
  exists v. split; [exact Ht | exact Hc].
Defined.

(** ** What the decoder reads of a line *)

Section LineViews.

(** A line is read through its indentation and its trimmed content. *)
Lemma readLine_view (st : Heap * nat) (l l' : string) :
  search_nonspace l = search_nonspace l' -> trim l = trim l' ->
  readLine st l = readLine st l'.
Proof. intros Hi Ht. destruct st as [h lastNode]. unfold readLine. by rewrite Hi, Ht. Qed.

Lemma nonblank_join_lines (ls : list string) :
  Forall (fun l => indexOf LF l = None) ls ->
  nonblank_lines (join_lines ls)
  = filter (fun l => (0 <? String.length (trim l))%nat = true) ls.
Proof.
  intros Hls. unfold nonblank_lines. destruct ls as [|l ls]; [done|].
  by rewrite split_join.
Qed.

Lemma filter_blank (ls : list string) :
  Forall (fun l => trim l = "") ls ->
  filter (fun l => (0 <? String.length (trim l))%nat = true) ls = [].
Proof.
  induction 1 as [|l ls Hl _ IH]; [done|].
  rewrite filter_cons_False; [done|]. by rewrite Hl.
Qed.

Lemma trimEnd_blank (w : string) : string_forall isWhiteSpace w = true -> trimEnd w = "".
Proof.
  induction w as [|c w IH]; [done|]. cbn [string_forall].
  intros [Hc Hw]%andb_true_iff. cbn [trimEnd]. by rewrite IH, Hc.
Qed.

Lemma trimEnd_app_blank (s w : string) :
  string_forall isWhiteSpace w = true -> trimEnd (s ++ w) = trimEnd s.
Proof.
  intros Hw. induction s as [|c s IH]; [by apply trimEnd_blank|].
  rewrite append_cons. cbn [trimEnd]. by rewrite IH.
Qed.

Lemma trimStart_blank (w : string) : string_forall isWhiteSpace w = true -> trimStart w = "".
Proof.
  induction w as [|c w IH]; [done|]. cbn [string_forall].
  intros [Hc Hw]%andb_true_iff. cbn [trimStart]. by rewrite Hc, IH.
Qed.

Lemma trim_app_blank (l w : string) :
  string_forall isWhiteSpace w = true -> trim (l ++ w) = trim l.
Proof.
  intros Hw. unfold trim. induction l as [|c l IH].
  - change ("" ++ w) with w. by rewrite trimStart_blank.
  - rewrite append_cons. cbn [trimStart]. destruct (isWhiteSpace c); [done|].
    by rewrite <- append_cons, trimEnd_app_blank.
Qed.

Lemma search_from_app_blank (l w : string) (i : Z) :
  string_forall isWhiteSpace w = true -> search_from i (l ++ w) = search_from i l.
Proof.
  intros Hw. revert i. induction l as [|c l IH]; intros i.
  - change ("" ++ w) with w. cbn [search_from]. clear -Hw. revert i.
    induction w as [|c w IH]; intros i; [done|]. cbn [string_forall] in Hw.
    apply andb_true_iff in Hw as [Hc Hw]. cbn [search_from]. rewrite Hc. by apply IH.
  - rewrite append_cons. cbn [search_from]. by rewrite IH.
Qed.

(** Pass 1 over two lists of lines that read alike. *)
Lemma readLines_view (ls ls' : list string) (st : option (Heap * nat)) :
  Forall2 (fun l l' => search_nonspace l = search_nonspace l' ∧ trim l = trim l') ls ls' ->
  foldl (fun st line => st ← st; readLine st line) st
        (filter (fun l => (0 <? String.length (trim l))%nat = true) ls)
  = foldl (fun st line => st ← st; readLine st line) st
          (filter (fun l => (0 <? String.length (trim l))%nat = true) ls').
Proof.
  intros H. revert st. induction H as [|l l' ls ls' [Hi Ht] _ IH]; intros st; [done|].
  destruct (decide ((0 <? String.length (trim l))%nat = true)) as [Hl|Hl].
  - rewrite !filter_cons_True by (by rewrite <- ?Ht). cbn [foldl].
    rewrite <- IH. destruct st as [st|]; [|done]. cbn [mbind option_bind].
    by rewrite (readLine_view st l l').
  - rewrite !filter_cons_False by (by rewrite <- ?Ht). apply IH.
Qed.

End LineViews.

(** X8.  Blank lines are skipped: a text decodes as the text without its
    blank lines does. *)
Theorem blank_lines_are_skipped (ls1 blanks ls2 : list string) (c : ToonConverter) :
  Forall (fun l => indexOf LF l = None) (ls1 ++ blanks ++ ls2) ->
  Forall (fun l => trim l = "") blanks ->
  toonToJson (join_lines (ls1 ++ blanks ++ ls2)) c = toonToJson (join_lines (ls1 ++ ls2)) c.
Proof.
  intros Hlf Hb. unfold toonToJson, toonToJson_value, buildTree.
  assert (Forall (fun l => indexOf LF l = None) (ls1 ++ ls2)) as Hlf'.
  { apply Forall_app in Hlf as (H1 & (_ & H2)%Forall_app). by apply Forall_app. }
  rewrite (nonblank_join_lines (ls1 ++ blanks ++ ls2)) by done.
  rewrite (nonblank_join_lines (ls1 ++ ls2)) by done.
  by rewrite !filter_app, (filter_blank blanks).
Qed.

Lemma blank_lines_are_skipped_witness :
  toonToJson (join_lines (["01: Goku"] ++ [""; "   "] ++ ["02: 9001"])) (constructor [])
  = toonToJson (join_lines (["01: Goku"] ++ ["02: 9001"])) (constructor []).
Proof.
  apply (blank_lines_are_skipped ["01: Goku"] [""; "   "] ["02: 9001"]).
  - repeat constructor.
  - repeat constructor.
Defined.

(** X9.  Blanks at the end of a line are not read: a text decodes as it
    does with blanks, such as a carriage return, added at the end of its
    lines. *)
Theorem trailing_blanks_are_ignored (ls ws : list string) (c : ToonConverter) :
  length ls = length ws ->
  Forall (fun l => indexOf LF l = None) ls ->
  Forall (fun w => indexOf LF w = None ∧ string_forall isWhiteSpace w = true) ws ->
  toonToJson (join_lines (zip_with String.append ls ws)) c = toonToJson (join_lines ls) c.
Proof.
  intros Hlen Hls Hws. unfold toonToJson, toonToJson_value, buildTree.
  rewrite !nonblank_join_lines; [|done|].
  - rewrite (readLines_view (zip_with String.append ls ws) ls); [done|].
    clear Hls. revert ws Hlen Hws. induction ls as [|l ls IH]; intros [|w ws] Hlen Hws;
      try done. apply Forall_cons in Hws as [[_ Hw] Hws]. cbn [zip_with]. constructor.
    + split; [by apply search_from_app_blank|by apply trim_app_blank].
    + apply IH; [by injection Hlen|done].
  - revert ws Hlen Hws. induction Hls as [|l ls Hl _ IH]; intros [|w ws] Hlen Hws;
      try done. apply Forall_cons in Hws as [[Hw _] Hws]. cbn [zip_with]. constructor.
    + by apply indexOf_app_None.
    + apply IH; [by injection Hlen|done].
Qed.

Lemma trailing_blanks_are_ignored_witness :
  toonToJson (join_lines (zip_with String.append ["01:"; "  - Kamehameha"]
                            [String (ascii_of_nat 13) ""; String (ascii_of_nat 13) ""]))
             (constructor [])
  = toonToJson (join_lines ["01:"; "  - Kamehameha"]) (constructor []).
Proof.
  apply (trailing_blanks_are_ignored ["01:"; "  - Kamehameha"]
           [String (ascii_of_nat 13) ""; String (ascii_of_nat 13) ""]).
  - reflexivity.
  - repeat constructor.
  - repeat constructor.
Defined.

(** ** Indentation is read by its order *)

Section Reindentation.

Context (phi : Z -> Z).
Hypothesis phi_order : forall a b, 0 <= a -> 0 <= b -> (a <= b <-> phi a <= phi b).
Hypothesis phi_nonneg : forall a, 0 <= a -> 0 <= phi a.

Lemma findParent_loop_reindented (h h' : Heap) (i : Z) :
  Forall2 (reindented phi) h h' -> 0 <= i ->
  forall fuel curr,
    findParent_loop fuel h' curr (phi i) = findParent_loop fuel h curr i.
Proof.
  intros Hh Hi. induction fuel as [|f IH]; intros [r|]; try done.
  - cbn [findParent_loop]. pose proof (proj1 (Forall2_lookup _ _ _) Hh r) as Hr.
    destruct Hr as [n n' ((_ & _ & _ & Hp & _) & Hind)|]; [|done]. cbn [mbind option_bind].
    assert ((phi i <=? indent n') = (i <=? indent n)) as ->; [|done].
    pose proof (phi_nonneg i Hi). pose proof (phi_order i (indent n) Hi).
    destruct Hind as [[-> ->]|[Hge ->]]; lia.
  - cbn [findParent_loop]. pose proof (proj1 (Forall2_lookup _ _ _) Hh r) as Hr.
    destruct Hr as [n n' ((_ & _ & _ & Hp & _) & Hind)|]; [|done]. cbn [mbind option_bind].
    assert ((phi i <=? indent n') = (i <=? indent n)) as ->.
    { pose proof (phi_nonneg i Hi). pose proof (phi_order i (indent n) Hi).
      destruct Hind as [[-> ->]|[Hge ->]]; lia. }
    by rewrite IH, Hp.
Qed.

Lemma addNode_reindented (h h' : Heap) (p : nat) (i : Z) (k v : option string) (arr : bool) :
  Forall2 (reindented phi) h h' -> 0 <= i ->
  Forall2 (reindented phi) (addNode h p i k v arr).1 (addNode h' p (phi i) k v arr).1
  ∧ (addNode h p i k v arr).2 = (addNode h' p (phi i) k v arr).2.
Proof.
  intros Hh Hi. pose proof (Forall2_length _ _ _ Hh) as Hlen.
  unfold addNode. cbn [fst snd]. rewrite Hlen. split; [|done].
  apply Forall2_app.
  - apply Forall2_alter; [done|]. intros n n' _ _ ((Hk & Hv & Hc & Hp & Ha) & Hind).
    split; [|done]. unfold same_shape, push_child. cbn. by rewrite Hc.
  - constructor; [|constructor]. split; [done|]. right. done.
Qed.

Lemma readLine_reindented (h h' : Heap) (lastNode : nat) (l l' : string) :
  Forall2 (reindented phi) h h' ->
  trim l ≠ "" -> trim l' = trim l -> search_nonspace l' = phi (search_nonspace l) ->
  option_Forall2 (fun st st' => Forall2 (reindented phi) st.1 st'.1 ∧ st.2 = st'.2)
                 (readLine (h, lastNode) l) (readLine (h', lastNode) l').
Proof.
  intros Hh Hne Ht Hi. pose proof (nonblank_indent l Hne) as H0.
  pose proof (Forall2_length _ _ _ Hh) as Hlen.
  unfold readLine, findParent. rewrite Ht, Hi, <- Hlen.
  rewrite (findParent_loop_reindented h h') by done.
  destruct (startsWith "-" (trim l)).
  - destruct (findParent_loop _ h _ _) as [curr|]; [|constructor].
    cbn [mbind option_bind]. constructor. by apply addNode_reindented.
  - destruct (indexOf ":" (trim l)); [|by constructor].
    destruct (findParent_loop _ h _ _) as [curr|]; [|constructor].
    cbn [mbind option_bind]. constructor. by apply addNode_reindented.
Qed.

Lemma readLines_reindented (ls ls' : list string) (st st' : option (Heap * nat)) :
  Forall2 (fun l l' => trim l' = trim l
                       ∧ (trim l ≠ "" -> search_nonspace l' = phi (search_nonspace l)))
          ls ls' ->
  option_Forall2 (fun st st' => Forall2 (reindented phi) st.1 st'.1 ∧ st.2 = st'.2) st st' ->
  option_Forall2 (fun st st' => Forall2 (reindented phi) st.1 st'.1 ∧ st.2 = st'.2)
    (foldl (fun st line => st ← st; readLine st line) st
       (filter (fun l => (0 <? String.length (trim l))%nat = true) ls))
    (foldl (fun st line => st ← st; readLine st line) st'
       (filter (fun l => (0 <? String.length (trim l))%nat = true) ls')).
Proof.
  intros H. revert st st'. induction H as [|l l' ls ls' [Ht Hi] _ IH]; intros st st' Hst;
    [done|].
  destruct (decide ((0 <? String.length (trim l))%nat = true)) as [Hl|Hl].
  - rewrite !filter_cons_True by (by rewrite ?Ht). cbn [foldl]. apply IH.
    destruct Hst as [[h lastNode] [h' lastNode'] [Hh Hlast]|]; [|constructor].
    cbn in Hlast. subst lastNode'. cbn [mbind option_bind].
    apply readLine_reindented; [done| |done|].
    + intros E. by rewrite E in Hl.
    + apply Hi. intros E. by rewrite E in Hl.
  - rewrite !filter_cons_False by (by rewrite ?Ht). by apply IH.
Qed.

End Reindentation.

Section ShapeConversion.

Context (c : ToonConverter).

Lemma mapM_related {A A' B} (R : A -> A' -> Prop) (f : A -> option B) (g : A' -> option B)
    (l : list A) (l' : list A') :
  Forall2 R l l' -> (forall x y, R x y -> f x = g y) -> mapM f l = mapM g l'.
Proof.
  intros H Hfg. induction H as [|x y l l' Hxy _ IH]; [done|].
  cbn [mapM]. by rewrite (Hfg x y Hxy), IH.
Qed.

Lemma foldl_related {A A' B} (R : A -> A' -> Prop) (f : B -> A -> B) (g : B -> A' -> B)
    (l : list A) (l' : list A') (b : B) :
  Forall2 R l l' -> (forall b x y, R x y -> f b x = g b y) -> foldl f b l = foldl g b l'.
Proof.
  intros H Hfg. revert b. induction H as [|x y l l' Hxy _ IH]; intros b; [done|].
  cbn [foldl]. by rewrite (Hfg b x y Hxy), IH.
Qed.

Lemma lookups_same_shape (h h' : Heap) (cs : list nat) :
  Forall2 same_shape h h' ->
  option_Forall2 (Forall2 same_shape)
    (mapM (fun cr => h !! cr) cs) (mapM (fun cr => h' !! cr) cs).
Proof.
  intros Hh. induction cs as [|cr cs IH]; [by repeat constructor|].
  cbn [mapM]. destruct (proj1 (Forall2_lookup _ _ _) Hh cr) as [n n' Hn|]; [|constructor].
  cbn [mbind option_bind]. destruct IH as [kids kids' Hk|]; [|constructor].
  apply Some_Forall2. by constructor.
Qed.

Lemma zip_same_shape (cs : list nat) (kids kids' : list Node) :
  Forall2 same_shape kids kids' ->
  Forall2 (fun ch ch' : nat * Node => ch.1 = ch'.1 ∧ same_shape ch.2 ch'.2)
          (zip cs kids) (zip cs kids').
Proof.
  intros H. revert cs. induction H as [|k k' kids kids' Hk _ IH]; intros [|cr cs];
    try constructor; [done|apply IH].
Qed.

Lemma convertNode_same_shape (h h' : Heap) :
  Forall2 same_shape h h' ->
  forall fuel r, convertNode fuel c h r = convertNode fuel c h' r.
Proof.
  intros Hh. induction fuel as [|f IH]; intros r; [done|].
  cbn [convertNode]. destruct (proj1 (Forall2_lookup _ _ _) Hh r) as [n n' Hn|]; [|done].
  cbn [mbind option_bind]. destruct Hn as (Hk & Hv & Hc & Hp & Ha). rewrite <- Hc, <- Hv.
  destruct (lookups_same_shape h h' (children n) Hh) as [kids kids' Hkids|]; [|done].
  cbn [mbind option_bind].
  pose proof (zip_same_shape (children n) kids kids' Hkids) as Hz.
  destruct (children n) as [|cr cs] eqn:Ecs; [done|]. rewrite <- Ecs in *.
  rewrite <- (forallb_Forall2 isArrayItem isArrayItem kids kids')
    by (eapply Forall2_impl; [exact Hkids|]; by intros ?? (_ & _ & _ & _ & <-)).
  rewrite <- (forallb_Forall2 (fun k => negb (isArrayItem k)) (fun k => negb (isArrayItem k))
                kids kids')
    by (eapply Forall2_impl; [exact Hkids|]; by intros ?? (_ & _ & _ & _ & <-)).
  destruct (forallb isArrayItem kids); [|destruct (forallb _ kids)].
  - f_equal. apply (mapM_related _ _ _ _ _ Hz).
    intros [cr1 k1] [cr2 k2] [E (_ & Hv' & Hc' & _)]. cbn in *. subst cr2.
    by rewrite Hv', Hc', IH.
  - f_equal. apply (foldl_related _ _ _ _ _ _ Hz).
    intros obj [cr1 k1] [cr2 k2] [E (Hk' & Hv' & Hc' & _)]. cbn in *. subst cr2.
    by rewrite Hk', Hv', Hc', IH.
  - f_equal. apply (foldl_related _ _ _ _ _ _ Hz).
    intros obj [cr1 k1] [cr2 k2] [E (Hk' & Hv' & Hc' & _)]. cbn in *. subst cr2.
    by rewrite Hk', Hv', Hc', IH.
Qed.

Lemma convertRoot_same_shape (h h' : Heap) :
  Forall2 same_shape h h' -> convertRoot c h = convertRoot c h'.
Proof.
  intros Hh. unfold convertRoot. rewrite (Forall2_length _ _ _ Hh).
  destruct (proj1 (Forall2_lookup _ _ _) Hh rootRef) as [n n' Hn|]; [|done].
  cbn [mbind option_bind]. destruct Hn as (Hk & Hv & Hc & Hp & Ha). rewrite <- Hc.
  destruct (lookups_same_shape h h' (children n) Hh) as [kids kids' Hkids|]; [|done].
  cbn [mbind option_bind].
  pose proof (zip_same_shape (children n) kids kids' Hkids) as Hz.
  rewrite <- (forallb_Forall2 isArrayItem isArrayItem kids kids')
    by (eapply Forall2_impl; [exact Hkids|]; by intros ?? (_ & _ & _ & _ & <-)).
  destruct (forallb isArrayItem kids).
  - f_equal. apply (mapM_related _ _ _ _ _ Hz).
    intros [cr1 k1] [cr2 k2] [E (_ & Hv' & Hc' & _)]. cbn in *. subst cr2.
    by rewrite Hv', Hc', (convertNode_same_shape h h' Hh).
  - f_equal. apply (foldl_related _ _ _ _ _ _ Hz).
    intros obj [cr1 k1] [cr2 k2] [E (Hk' & Hv' & Hc' & _)]. cbn in *. subst cr2.
    by rewrite Hk', Hv', Hc', (convertNode_same_shape h h' Hh).
Qed.

End ShapeConversion.

(** X10.  Indentation is read by its order only: when the indentation
    of every line is mapped by a function that keeps the order (the
    whole text moved to the right, or four blanks used for two), the
    text decodes to the same result. *)
Theorem indentation_is_read_by_order (phi : Z -> Z) (ls ls' : list string)
    (c : ToonConverter) :
  (forall a b, 0 <= a -> 0 <= b -> (a <= b <-> phi a <= phi b)) ->
  (forall a, 0 <= a -> 0 <= phi a) ->
  Forall (fun l => indexOf LF l = None) ls ->
  Forall (fun l => indexOf LF l = None) ls' ->
  Forall2 (fun l l' => trim l' = trim l
                       ∧ (trim l ≠ "" -> search_nonspace l' = phi (search_nonspace l)))
          ls ls' ->
  toonToJson (join_lines ls') c = toonToJson (join_lines ls) c.
Proof.
  intros Hord Hpos Hls Hls' Hrel. unfold toonToJson, toonToJson_value, buildTree.
  rewrite !nonblank_join_lines by done.
  assert (option_Forall2
            (fun st st' : Heap * nat => Forall2 (reindented phi) st.1 st'.1 ∧ st.2 = st'.2)
            (Some ([rootNode], rootRef)) (Some ([rootNode], rootRef))) as Hroot.
  { constructor. split; [|done]. constructor; [|constructor]. split; [done|]. by left. }
  destruct (readLines_reindented phi Hord Hpos ls ls' _ _ Hrel Hroot)
    as [st st' [Hh _]|]; [|done].
  cbn [mbind option_bind]. f_equal. symmetry. apply convertRoot_same_shape.
  eapply Forall2_impl; [exact Hh|]. by intros n n' [Hs _].
Qed.

Lemma indentation_is_read_by_order_witness :
  toonToJson (join_lines ["   01:"; "       - Kamehameha"]) (constructor [])
  = toonToJson (join_lines ["01:"; "  - Kamehameha"]) (constructor []).
Proof.
  apply (indentation_is_read_by_order (fun i => 2 * i + 3)
           ["01:"; "  - Kamehameha"] ["   01:"; "       - Kamehameha"]).
  - intros a b _ _. lia.
  - intros a Ha. lia.
  - repeat constructor.
  - repeat constructor.
  - repeat constructor.
Defined.

(** ** Scalars and seeded tokens *)

(** X11.  A scalar of the round trip is read back from the text the
    encoder writes for it: [parseValue] of what [process] returns for a
    boolean, a finite number or a plain string is that value, and
    [process] pushes no line and asks for no token. *)
Theorem scalar_text_is_read_back (x : json) (level : nat) (st : EncState) :
  codable x = true -> isComplex x = false ->
  parseValue (Some (process x level st).1) = x ∧ (process x level st).2 = st.
Proof.
  intros Hx Hs. rewrite process_scalar by done. split; [|done].
  by apply scalar_reads_back.
Qed.

Lemma scalar_text_is_read_back_witness :
  parseValue (Some (process (JNum (Finite (-125) (-2))) 0 (mkEnc [] (constructor []))).1)
  = JNum (Finite (-125) (-2)).
Proof.
  refine (proj1 (scalar_text_is_read_back (JNum (Finite (-125) (-2))) 0
                   (mkEnc [] (constructor [])) _ _)); reflexivity.
Defined.

(** X12.  The tokens of an initial map are used as they are: for a key
    the map gives a token that is not empty, [getToken] returns that
    token and changes nothing; and when the tokens of the map are
    pairwise distinct, [getKey] gives a key that is not empty back from
    its token, unless the token is [__proto__], which the constructor does
    not register. *)
Theorem seeded_tokens_are_used (initialMap : TokenMap) (k t : string) :
  NoDup initialMap.*1 -> (k, t) ∈ initialMap -> t ≠ "" ->
  getToken k (constructor initialMap) = (t, constructor initialMap)
  ∧ (NoDup initialMap.*2 -> t ≠ "__proto__" -> k ≠ "" ->
     getKey t (constructor initialMap) = k).
Proof.
  intros Hnd Hin Hne. split.
  - apply getToken_own; [|done]. by apply constructor_keyToToken.
  - intros Hnd2 Hp Hk. apply (proj1 (getKey_cases _ _ k)); [|done].
    by apply constructor_tokenToKey_NoDup.
Qed.

Lemma seeded_tokens_are_used_witness :
  getToken "name" (constructor [("name", "N1"); ("level", "07")])
  = ("N1", constructor [("name", "N1"); ("level", "07")]).
Proof.
  refine (proj1 (seeded_tokens_are_used [("name", "N1"); ("level", "07")] "name" "N1" _ _ _)).
  - apply (bool_decide_unpack _). vm_compute. exact I.
  - apply elem_of_cons. by left.
  - discriminate.
Defined.

(** ** [JSON.parse] reads what [JSON.stringify] writes *)

Section StringLiterals.

Lemma string_body_quote_char (c : ascii) (t : string) :
  string_body (quote_char c ++ t)
  = '(body, rest) ← string_body t; Some (String c body, rest).
Proof.
  destruct c as [[] [] [] [] [] [] [] []]; reflexivity.
Qed.

Lemma string_body_quote (s rest : string) :
  string_body (quote_body s ++ String DQUOTE rest) = Some (s, rest).
Proof.
  induction s as [|c s IH]; [done|].
  cbn [quote_body]. rewrite append_assoc, string_body_quote_char, IH. done.
Qed.

End StringLiterals.

Section NumberLiterals.

Lemma parse_number_stages (s : string) :
  parse_number s
  = '(ip, r1) ← number_int (number_sign s).2;
    '(fp, r2) ← number_frac r1;
    '(ex, r3) ← number_exp r2;
    Some (normalize (if (number_sign s).1 then - horner 10 (ip ++ fp)
                     else horner 10 (ip ++ fp))
                    (ex - Z.of_nat (length fp)), r3).
Proof. unfold parse_number, number_sign. by destruct s as [|[[] [] [] [] [] [] [] []] r]. Qed.

Lemma number_sign_minus (t : string) : number_sign (String "-" t) = (true, t).
Proof. reflexivity. Qed.

Lemma number_sign_digit (d : Z) (t : string) :
  is_dig d -> number_sign (String (digit_char d) t) = (false, String (digit_char d) t).
Proof.
  intros H. destruct (is_dig_cases d H) as [->|[->|[->|[->|[->|[->|[->|[->|[->| ->]]]]]]]]];
    reflexivity.
Qed.

Lemma number_int_zero (t : string) : number_int (String (digit_char 0) t) = Some ([0], t).
Proof. reflexivity. Qed.

Lemma number_int_digits (d : Z) (ds : list Z) (t : string) :
  is_dig d -> d ≠ 0 -> Forall is_dig ds -> span_digits t = ([], t) ->
  number_int (dstr (d :: ds) ++ t) = Some (d :: ds, t).
Proof.
  intros Hd Hne Hds Ht.
  assert (number_int (dstr (d :: ds) ++ t)
          = match span_digits (dstr (d :: ds) ++ t) with
            | ([], _) => None
            | res => Some res
            end) as ->.
  { cbn [dstr]. rewrite append_cons.
    destruct (is_dig_cases d Hd) as [->|[->|[->|[->|[->|[->|[->|[->|[->| ->]]]]]]]]];
      done. }
  rewrite span_digits_dstr by (by constructor). rewrite Ht. cbn [fst snd].
  rewrite app_nil_r. done.
Qed.

Lemma number_frac_some (f : list Z) (t : string) :
  f ≠ [] -> Forall is_dig f -> span_digits t = ([], t) ->
  number_frac (String "." (dstr f ++ t)) = Some (f, t).
Proof.
  intros Hne Hf Ht. cbn [number_frac]. rewrite span_digits_dstr, Ht by done.
  cbn [fst snd]. rewrite app_nil_r. by destruct f.
Qed.

Lemma number_exp_some (eneg : bool) (ds : list Z) (t : string) :
  ds ≠ [] -> Forall is_dig ds -> span_digits t = ([], t) ->
  number_exp (String "e" (String (if eneg then "-" else "+")%char (dstr ds ++ t)))
  = Some (if eneg then - horner 10 ds else horner 10 ds, t).
Proof.
  intros Hne Hds Ht. unfold number_exp.
  change (Ascii.eqb "e" "e" || Ascii.eqb "e" "E") with true. cbv iota.
  destruct eneg; cbv iota beta; rewrite span_digits_dstr, Ht by done; cbn [fst snd];
    rewrite app_nil_r; by destruct ds.
Qed.

Lemma value_end_stages (rest : string) :
  value_end rest ->
  span_digits rest = ([], rest) ∧ number_frac rest = Some ([], rest)
  ∧ number_exp rest = Some (0, rest).
Proof. intros [->|[[r ->]|[r ->]]]; done. Qed.


Lemma exp_tail_no_digit ex (rest : string) :
  value_end rest -> span_digits (exp_text ex ++ rest) = ([], exp_text ex ++ rest).
Proof.
  intros Hr. destruct ex as [[[] ds]|]; [done..|]. by apply value_end_stages.
Qed.

Lemma frac_tail_no_digit fp ex (rest : string) :
  value_end rest ->
  span_digits (frac_text fp ++ exp_text ex ++ rest)
  = ([], frac_text fp ++ exp_text ex ++ rest).
Proof.
  intros Hr. destruct fp as [f|]; [done|]. by apply exp_tail_no_digit.
Qed.

Lemma number_frac_text fp ex (rest : string) :
  fp ≠ Some [] -> Forall is_dig (default [] fp) -> value_end rest ->
  number_frac (frac_text fp ++ exp_text ex ++ rest)
  = Some (default [] fp, exp_text ex ++ rest).
Proof.
  intros Hne Hf Hr. destruct fp as [f|].
  - cbn [frac_text from_option id]. rewrite append_cons.
    apply number_frac_some; [by intros ->|done|by apply exp_tail_no_digit].
  - change (frac_text None ++ ?t) with t. cbn [from_option].
    destruct ex as [[[] ds]|]; [done..|]. by apply value_end_stages.
Qed.

Lemma number_exp_text ex (rest : string) :
  match ex with None => True | Some (_, ds) => ds ≠ [] ∧ Forall is_dig ds end ->
  value_end rest ->
  number_exp (exp_text ex ++ rest) = Some (exp_value ex, rest).
Proof.
  intros Hex Hr. destruct ex as [[eneg ds]|].
  - destruct Hex as [Hne Hds]. cbn [exp_text exp_value]. rewrite !append_cons.
    apply number_exp_some; [done..|]. by apply value_end_stages.
  - by apply value_end_stages.
Qed.

(** A number text followed by the end of a value is parsed as a whole. *)
Lemma parse_number_text (neg : bool) ip fp ex (rest : string) :
  dec_ok ip fp ex -> (ip = [0] ∨ ∃ d ip', ip = d :: ip' ∧ d ≠ 0) -> fp ≠ Some [] ->
  value_end rest ->
  parse_number (((if neg then "-" else "") ++ dec_text ip fp ex) ++ rest)
  = Some (dec_value neg ip fp ex, rest).
Proof.
  intros (Hne & Hip & Hfp & Hex) Hlead Hfrac Hr.
  rewrite parse_number_stages.
  assert (number_sign (((if neg then "-" else "") ++ dec_text ip fp ex) ++ rest)
          = (neg, dstr ip ++ frac_text fp ++ exp_text ex ++ rest)) as ->.
  { unfold dec_text. rewrite !append_assoc. destruct neg.
    - rewrite <- !append_assoc. apply number_sign_minus.
    - change ("" ++ ?t) with t. destruct ip as [|d ip']; [done|].
      apply Forall_cons in Hip as [Hd _]. cbn [dstr]. rewrite append_cons.
      rewrite number_sign_digit by done. done. }
  cbn [fst snd].
  assert (number_int (dstr ip ++ frac_text fp ++ exp_text ex ++ rest)
          = Some (ip, frac_text fp ++ exp_text ex ++ rest)) as ->.
  { destruct Hlead as [->|(d & ip' & -> & Hd)].
    - apply number_int_zero.
    - apply Forall_cons in Hip as [Hd' Hip'].
      apply number_int_digits; [done..|]. by apply frac_tail_no_digit. }
  cbn [mbind option_bind]. rewrite number_frac_text by done.
  cbn [mbind option_bind]. rewrite number_exp_text by done.
  done.
Qed.

End NumberLiterals.

Section NumberTexts.

Lemma uint_values_head (u : Decimal.uint) :
  Decimal.unorm u = u -> u ≠ Decimal.zero ->
  ∃ d ds, uint_values u = d :: ds ∧ d ≠ 0.
Proof.
  intros Hn Hz.
  assert (Decimal.nzhead u ≠ Decimal.Nil) as Hnil.
  { intros E. apply DecimalFacts.unorm_0 in E. congruence. }
  rewrite (DecimalFacts.unorm_nzhead u Hnil) in Hn.
  pose proof (DecimalFacts.nzhead_nonzero u) as Hnz. rewrite Hn in Hnz, Hnil.
  destruct u; cbn [uint_values]; try (eexists _, _; split; [done|lia]).
  - done.
  - by destruct (Hnz u).
Qed.

Lemma digit_values_head (n : Z) :
  0 < n -> ∃ d ds, digit_values n = d :: ds ∧ d ≠ 0.
Proof.
  intros Hn. unfold digit_values. apply uint_values_head.
  - pose proof (DecimalN.Unsigned.to_of (N.to_uint (Z.to_N n))) as H.
    by rewrite DecimalN.Unsigned.of_to in H.
  - intros E. apply (f_equal N.of_uint) in E.
    rewrite DecimalN.Unsigned.of_to in E. cbn in E. lia.
Qed.

(** The text of a finite number that is not zero, as the number
    literal [JSON.parse] reads. *)
Lemma num_toString_literal (m e : Z) :
  canonical (Finite m e) = true -> m ≠ 0 ->
  ∃ ip fp ex, dec_ok ip fp ex
    ∧ (ip = [0] ∨ ∃ d ip', ip = d :: ip' ∧ d ≠ 0) ∧ fp ≠ Some []
    ∧ num_toString (Finite m e) = (if m <? 0 then "-" else "") ++ dec_text ip fp ex
    ∧ dec_value (m <? 0) ip fp ex = Finite m e.
Proof.
  intros Hc Hm.
  destruct (significant_digits m Hm) as (z & ED & Hs & HD & HsD & Habs & HabsD & Hz).
  destruct (digit_values_head (Z.abs m) ltac:(lia)) as (d0 & D' & EdD & Hd0).
  unfold num_toString. rewrite (proj2 (Z.eqb_neq m 0) Hm). cbv zeta.
  rewrite digits_of_dstr, strip_zeros_dstr, !dstr_length by done.
  set (D := digit_values (Z.abs m)) in *. set (s := strip0 D) in *.
  assert (length D = (length s + z)%nat) as HL.
  { rewrite ED at 1. by rewrite length_app, length_replicate. }
  assert (e = 0 ∨ (e < 0 ∧ m mod 10 ≠ 0 ∧ s = D)) as Hcan.
  { cbn [canonical] in Hc. destruct (Z.eqb_spec e 0) as [|He]; [by left|]. right.
    cbn [orb] in Hc. apply andb_true_iff in Hc as [Hlt Hmod].
    apply Z.ltb_lt in Hlt. apply negb_true_iff, Z.eqb_neq in Hmod.
    split; [done|]. split; [done|]. rewrite (Hz Hmod) in ED. cbn in ED.
    by rewrite app_nil_r in ED. }
  assert (1 <= Z.of_nat (length s)) as Hk.
  { destruct s; [done|]. cbn [length]. lia. }
  clearbody s D. clear Hz Hc.
  assert (∃ s', s = d0 :: s') as [s' Es].
  { destruct s as [|d1 s1]; [done|]. rewrite EdD in ED. injection ED as -> _. by eexists. }
  assert (forall n : nat, (1 <= n)%nat -> ∃ t, take n D = d0 :: t) as Htake.
  { intros [|n] Hn; [lia|]. rewrite EdD. by eexists. }
  destruct ((Z.of_nat (length s) <=? Z.of_nat (length D) + e)
            && (Z.of_nat (length D) + e <=? 21)) eqn:EA.
  { assert (e = 0) as -> by (destruct Hcan as [|(? & _ & ->)]; [done|lia]).
    replace (Z.to_nat (Z.of_nat (length D) + 0 - Z.of_nat (length s))) with z by lia.
    exists D, None, None. split; [|split; [|split; [|split]]].
    - split; [|done]. intros ->. cbn [length] in HL. lia.
    - right. by exists d0, D'.
    - done.
    - rewrite dstr_zeros, <- dstr_app, <- ED. unfold dec_text. cbn [frac_text exp_text].
      by rewrite !append_nil_r.
    - unfold dec_value. cbn [from_option id exp_value length]. rewrite app_nil_r.
      rewrite normalize_nonneg by lia. rewrite <- HabsD, signed_abs. f_equal. lia. }
  destruct ((0 <? Z.of_nat (length D) + e) && (Z.of_nat (length D) + e <=? 21)) eqn:EB.
  { destruct Hcan as [->|(He & Hmod & ->)]; [lia|].
    exists (take (Z.to_nat (Z.of_nat (length D) + e)) D),
           (Some (drop (Z.to_nat (Z.of_nat (length D) + e)) D)), None.
    split; [|split; [|split; [|split]]].
    - split; [|split; [by apply Forall_take|split; [by apply Forall_drop|done]]].
      intros H%(f_equal length). rewrite length_take in H. cbn [length] in H. lia.
    - right. destruct (Htake (Z.to_nat (Z.of_nat (length D) + e)) ltac:(lia)) as [t ->].
      by exists d0, t.
    - intros [= H%(f_equal length)]. rewrite length_drop in H. cbn [length] in H. lia.
    - rewrite dstr_take, dstr_drop. unfold dec_text. cbn [frac_text exp_text].
      by rewrite append_nil_r.
    - unfold dec_value. cbn [from_option id exp_value]. rewrite take_drop, length_drop.
      rewrite <- HabsD, signed_abs.
      replace (0 - _) with e by lia. by apply normalize_canonical. }
  destruct ((-6 <? Z.of_nat (length D) + e) && (Z.of_nat (length D) + e <=? 0)) eqn:EC.
  { destruct Hcan as [->|(He & Hmod & ->)]; [lia|].
    exists [0], (Some (replicate (Z.to_nat (- (Z.of_nat (length D) + e))) 0 ++ D)%list), None.
    split; [|split; [|split; [|split]]].
    - split; [done|]. split; [by repeat constructor|]. split; [|done].
      apply Forall_app. split; [|done]. by apply Forall_replicate.
    - by left.
    - intros [= H%(f_equal length)]. rewrite length_app in H. cbn [length] in H. lia.
    - rewrite dstr_zeros, <- dstr_app. unfold dec_text. cbn [frac_text exp_text].
      by rewrite append_nil_r.
    - unfold dec_value. cbn [from_option id exp_value].
      change ([0] ++ ?l)%list with (replicate 1 0 ++ l)%list.
      rewrite !horner_zeros_app, length_app, length_replicate.
      rewrite <- HabsD, signed_abs.
      replace (0 - _) with e by lia. by apply normalize_canonical. }
  rewrite digits_of_dstr.
  set (x := Z.of_nat (length D) + e - 1).
  pose proof (exp_value_digits x) as Hx.
  assert (text_sign : (if x <? 0 then "-" else "+") ++ dstr (digit_values (Z.abs x))
          = String (if x <? 0 then "-"%char else "+"%char) (dstr (digit_values (Z.abs x))))
    by (by destruct (x <? 0)).
  rewrite text_sign.
  assert (Hex : digit_values (Z.abs x) ≠ [] ∧ Forall is_dig (digit_values (Z.abs x)))
    by (split; [apply digit_values_nonnil | apply digit_values_dig]).
  destruct (Z.of_nat (length s) =? 1) eqn:Ek.
  - exists s, None, (Some (x <? 0, digit_values (Z.abs x))).
    split; [|split; [|split; [|split]]].
    + split; [by intros ->|]. done.
    + right. by exists d0, s'.
    + done.
    + done.
    + unfold dec_value. rewrite Hx. cbn [from_option id length]. rewrite app_nil_r.
      destruct Hcan as [->|(He & Hmod & ->)].
      * replace (x - Z.of_nat 0) with (Z.of_nat z) by lia.
        rewrite normalize_nonneg by lia. f_equal. by apply signed_scaled.
      * replace (x - Z.of_nat 0) with e by lia.
        rewrite <- HabsD, signed_abs. by apply normalize_canonical.
  - exists (take 1 s), (Some (drop 1 s)), (Some (x <? 0, digit_values (Z.abs x))).
    split; [|split; [|split; [|split]]].
    + split; [|split; [by apply Forall_take|split; [by apply Forall_drop|done]]].
      intros H%(f_equal length). rewrite length_take in H. cbn [length] in H. lia.
    + right. rewrite Es. by exists d0, [].
    + intros [= H%(f_equal length)]. rewrite length_drop in H. cbn [length] in H. lia.
    + by rewrite dstr_take, dstr_drop.
    + unfold dec_value. rewrite Hx. cbn [from_option id]. rewrite take_drop, length_drop.
      destruct Hcan as [->|(He & Hmod & ->)].
      * replace (x - _) with (Z.of_nat z) by lia.
        rewrite normalize_nonneg by lia. f_equal. by apply signed_scaled.
      * replace (x - _) with e by lia.
        rewrite <- HabsD, signed_abs. by apply normalize_canonical.
Qed.

(** [JSON.parse] reads the text of a finite number back. *)
Lemma parse_number_num_toString (n : jsnum) (rest : string) :
  isFinite n = true -> canonical n = true -> value_end rest ->
  parse_number (num_toString n ++ rest) = Some (n, rest).
Proof.
  destruct n as [| |m e]; [done..|]. intros _ Hc Hr.
  destruct (Z.eq_dec m 0) as [->|Hm].
  - assert (e = 0) as ->.
    { cbn [canonical] in Hc. change (0 mod 10 =? 0) with true in Hc. cbn [negb] in Hc.
      rewrite andb_false_r, orb_false_r in Hc. by apply Z.eqb_eq. }
    change (num_toString (Finite 0 0)) with "0".
    destruct Hr as [->|[[r ->]|[r ->]]]; reflexivity.
  - destruct (num_toString_literal m e Hc Hm) as (ip & fp & ex & Hok & Hlead & Hfp & -> & <-).
    by apply parse_number_text.
Qed.

End NumberTexts.

Section ParserEquations.

Lemma skip_ws_visible (c : ascii) (t : string) :
  is_json_ws c = false -> skip_ws (String c t) = String c t.
Proof. intros H. cbn [skip_ws]. by rewrite H. Qed.

Lemma skip_ws_indent (k : nat) (t : string) :
  skip_ws (repeat "  " k ++ t) = skip_ws t.
Proof. induction k as [|k IH]; [done|]. cbn [repeat]. by rewrite append_assoc. Qed.

Lemma skip_ws_line (k : nat) (t : string) :
  skip_ws (String LF (repeat "  " k ++ t)) = skip_ws t.
Proof. change (skip_ws (String LF ?s)) with (skip_ws s). apply skip_ws_indent. Qed.

Lemma skip_ws_skip_ws (s : string) : skip_ws (skip_ws s) = skip_ws s.
Proof.
  induction s as [|c s IH]; [done|]. cbn [skip_ws].
  destruct (is_json_ws c) eqn:E; [done|]. cbn [skip_ws]. by rewrite E.
Qed.

Lemma parse_value_skip (fuel : nat) (s : string) :
  parse_value fuel s = parse_value fuel (skip_ws s).
Proof. destruct fuel as [|f]; [done|]. cbn [parse_value]. by rewrite skip_ws_skip_ws. Qed.

Lemma parse_value_array (f : nat) (r : string) :
  parse_value (S f) (String "[" r)
  = match expect "]" (skip_ws r) with
    | Some r' => Some (JArr [], r')
    | None => parse_elements f r []
    end.
Proof.
  change (parse_value (S f) (String "[" r))
    with (match skip_ws r with
          | String "]" r' => Some (JArr [], r')
          | _ => parse_elements f r []
          end).
  destruct (skip_ws r) as [|[[] [] [] [] [] [] [] []] t]; reflexivity.
Qed.

Lemma parse_value_object (f : nat) (r : string) :
  parse_value (S f) (String "{" r)
  = match expect "}" (skip_ws r) with
    | Some r' => Some (JObj [], r')
    | None => parse_members f r []
    end.
Proof.
  change (parse_value (S f) (String "{" r))
    with (match skip_ws r with
          | String "}" r' => Some (JObj [], r')
          | _ => parse_members f r []
          end).
  destruct (skip_ws r) as [|[[] [] [] [] [] [] [] []] t]; reflexivity.
Qed.

Lemma parse_value_string (f : nat) (r : string) :
  parse_value (S f) (String DQUOTE r) = '(str, r') ← string_body r; Some (JStr str, r').
Proof. reflexivity. Qed.

Lemma parse_value_number (f : nat) (c : ascii) (r : string) :
  num_char c = true ->
  parse_value (S f) (String c r) = '(n, r') ← parse_number (String c r); Some (JNum n, r').
Proof.
  destruct c as [[] [] [] [] [] [] [] []]; intros H; vm_compute in H; try discriminate H;
    reflexivity.
Qed.

Lemma parse_elements_eq (f : nat) (s : string) (acc : list json) :
  parse_elements (S f) s acc
  = '(v, r) ← parse_value f s;
    match expect "," (skip_ws r) with
    | Some r' => parse_elements f r' (acc ++ [v])
    | None =>
        match expect "]" (skip_ws r) with
        | Some r' => Some (JArr (acc ++ [v]), r')
        | None => None
        end
    end.
Proof.
  cbn [parse_elements]. destruct (parse_value f s) as [[v r]|]; [|done].
  cbn [mbind option_bind].
  destruct (skip_ws r) as [|[[] [] [] [] [] [] [] []] t]; reflexivity.
Qed.

Lemma parse_members_eq (f : nat) (s : string) (acc : list (string * json)) :
  parse_members (S f) s acc
  = r ← expect DQUOTE (skip_ws s);
    '(k, r1) ← string_body r;
    r2 ← expect ":" (skip_ws r1);
    '(v, r3) ← parse_value f r2;
    match expect "," (skip_ws r3) with
    | Some r' => parse_members f r' (obj_set k v acc)
    | None =>
        match expect "}" (skip_ws r3) with
        | Some r' => Some (JObj (obj_set k v acc), r')
        | None => None
        end
    end.
Proof.
  cbn [parse_members]. destruct (skip_ws s) as [|q r]; [done|]. cbn [expect].
  destruct (Ascii.eqb q DQUOTE); [|done]. cbn [mbind option_bind].
  destruct (string_body r) as [[k r1]|]; [|done]. cbn [mbind option_bind].
  destruct (skip_ws r1) as [|[[] [] [] [] [] [] [] []] t]; try reflexivity.
  cbn [expect]. change (Ascii.eqb ":" ":") with true. cbv iota. cbn [mbind option_bind].
  destruct (parse_value f t) as [[v r3]|]; [|done]. cbn [mbind option_bind].
  destruct (skip_ws r3) as [|[[] [] [] [] [] [] [] []] t']; reflexivity.
Qed.

End ParserEquations.

Section SerializedValues.

Lemma serialize_arr (x : json) (xs : list json) (d : nat) :
  serialize (JArr (x :: xs)) d
  = "[" ++ String LF (repeat "  " (S d))
        ++ join ("," ++ String LF (repeat "  " (S d)))
                (map (fun y => serialize y (S d)) (x :: xs))
        ++ String LF (repeat "  " d) ++ "]".
Proof. reflexivity. Qed.

Lemma serialize_obj (e : string * json) (es : list (string * json)) (d : nat) :
  serialize (JObj (e :: es)) d
  = "{" ++ String LF (repeat "  " (S d))
        ++ join ("," ++ String LF (repeat "  " (S d)))
                (map (fun kv : string * json =>
                        quote kv.1 ++ ": " ++ serialize kv.2 (S d)) (e :: es))
        ++ String LF (repeat "  " d) ++ "}".
Proof.
  cbn [serialize]. do 3 f_equal. destruct e as [k x]. cbn [map fst snd].
  match goal with
  | |- join _ (_ :: ?f es) = _ =>
      assert (forall l, f l = map (fun kv : string * json =>
                                     quote kv.1 ++ ": " ++ serialize kv.2 (S d)) l) as Hm
  end.
  { induction l as [|[k' x'] l IH]; [done|]. cbn [map fst snd]. by rewrite <- IH. }
  by rewrite Hm.
Qed.

Lemma num_char_head (c : ascii) :
  num_char c = true ->
  is_json_ws c = false ∧ Ascii.eqb c "]" = false ∧ Ascii.eqb c "}" = false.
Proof.
  destruct c as [[] [] [] [] [] [] [] []]; intros H; vm_compute in H; try discriminate H;
    done.
Qed.

(** The text of a value starts with a visible character that closes
    nothing. *)
Lemma serialize_head (v : json) (d : nat) (t : string) :
  numbers_ok v = true ->
  ∃ c r, serialize v d ++ t = String c r
         ∧ is_json_ws c = false ∧ Ascii.eqb c "]" = false ∧ Ascii.eqb c "}" = false.
Proof.
  intros Hv. destruct v as [|[]|n|s|[|x xs]|[|e es]];
    try (eexists _, _; split; [reflexivity|]; by repeat split).
  cbn [numbers_ok] in Hv. cbn [serialize].
  destruct (isFinite n) eqn:Hf; [|eexists _, _; split; [reflexivity|]; by repeat split].
  destruct (Number_num_toString n Hf Hv) as (_ & Hne & Hch).
  destruct (num_toString n) as [|c r]; [done|]. cbn [string_forall] in Hch.
  apply andb_true_iff in Hch as [Hc' _]. exists c, (r ++ t).
  split; [done|]. by apply num_char_head.
Qed.

Lemma parse_value_line (f k : nat) (t : string) :
  parse_value f (String LF (repeat "  " k ++ t)) = parse_value f t.
Proof. by rewrite (parse_value_skip f (String LF _)), skip_ws_line, <- parse_value_skip. Qed.

Lemma parse_value_space (f : nat) (t : string) :
  parse_value f (String " " t) = parse_value f t.
Proof.
  rewrite (parse_value_skip f (String " " t)).
  change (skip_ws (String " " t)) with (skip_ws t). by rewrite <- parse_value_skip.
Qed.

Lemma expect_close (c : ascii) (k : nat) (rest : string) :
  is_json_ws c = false -> Ascii.eqb c "," = false ->
  skip_ws (String LF (repeat "  " k ++ String c rest)) = String c rest
  ∧ expect "," (String c rest) = None ∧ expect c (String c rest) = Some rest.
Proof.
  intros Hc Hcomma. rewrite skip_ws_line, skip_ws_visible by done.
  cbn [expect]. by rewrite Hcomma, Ascii.eqb_refl.
Qed.

Lemma join_step (ind a b : string) (l : list string) (tail : string) :
  join ("," ++ String LF ind) (a :: b :: l) ++ tail
  = a ++ String "," (String LF (ind ++ join ("," ++ String LF ind) (b :: l) ++ tail)).
Proof.
  change (join ?sep (a :: b :: l)) with (a ++ sep ++ join sep (b :: l)).
  by rewrite !append_assoc.
Qed.

(** The elements of an array, after the bracket or a comma. *)
Lemma parse_elements_join (items : list json) (d : nat) (rest : string) :
  Forall parses_back items -> items ≠ [] ->
  forall (acc : list json) (fuel : nat),
    (list_sum (map (fun x => S (json_size x)) items) <= fuel)%nat ->
    parse_elements fuel
      (String LF (repeat "  " (S d)
                  ++ join ("," ++ String LF (repeat "  " (S d)))
                          (map (fun y => serialize y (S d)) items)
                  ++ String LF (repeat "  " d ++ String "]" rest))) acc
    = Some (JArr (acc ++ map reparse items), rest).
Proof.
  induction 1 as [|x items Hx _ IH]; [done|]. intros _ acc fuel Hfuel.
  simpl in Hfuel. destruct fuel as [|f]; [lia|].
  rewrite parse_elements_eq, parse_value_line.
  destruct items as [|y items].
  - cbn [map join]. rewrite (Hx (S d)); [|right; right; by eexists|lia].
    cbn [mbind option_bind].
    destruct (expect_close "]" d rest eq_refl eq_refl) as (-> & -> & ->). done.
  - cbn [map]. rewrite join_step.
    rewrite (Hx (S d)); [|right; left; by eexists|lia].
    cbn [mbind option_bind]. rewrite skip_ws_visible by done.
    cbn [expect]. change (Ascii.eqb "," ",") with true. cbv iota.
    assert (list_sum (map (fun x => S (json_size x)) (y :: items)) <= f)%nat as Hf
      by (simpl in *; lia).
    pose proof (IH ltac:(done) (acc ++ [reparse x])%list f Hf) as IH'. cbn [map] in IH'.
    rewrite IH'. by rewrite <- app_assoc.
Qed.

Lemma member_text (k s tail : string) :
  (quote k ++ ": " ++ s) ++ tail
  = String DQUOTE (quote_body k ++ String DQUOTE (String ":" (String " " (s ++ tail)))).
Proof. unfold quote. by rewrite !append_cons, !append_assoc. Qed.

(** The members of an object, after the brace or a comma. *)
Lemma parse_members_join (ents : list (string * json)) (d : nat) (rest : string) :
  Forall (fun kv : string * json => parses_back kv.2) ents -> ents ≠ [] ->
  forall (acc : list (string * json)) (fuel : nat),
    (list_sum (map (fun kv : string * json => S (json_size kv.2)) ents) <= fuel)%nat ->
    parse_members fuel
      (String LF (repeat "  " (S d)
                  ++ join ("," ++ String LF (repeat "  " (S d)))
                          (map (fun kv : string * json =>
                                  quote kv.1 ++ ": " ++ serialize kv.2 (S d)) ents)
                  ++ String LF (repeat "  " d ++ String "}" rest))) acc
    = Some (JObj (fold_left (fun obj kv => obj_set kv.1 (reparse kv.2) obj) ents acc), rest).
Proof.
  induction 1 as [|[k x] ents Hx _ IH]; [done|]. intros _ acc fuel Hfuel.
  simpl in Hfuel. destruct fuel as [|f]; [lia|]. cbn [snd] in Hx.
  rewrite parse_members_eq, skip_ws_line.
  destruct ents as [|e ents].
  - cbn [map join fst snd]. rewrite member_text, skip_ws_visible by done.
    cbn [expect]. rewrite Ascii.eqb_refl. cbn [mbind option_bind].
    rewrite string_body_quote. cbn [mbind option_bind].
    rewrite skip_ws_visible by done. cbn [expect]. change (Ascii.eqb ":" ":") with true.
    cbv iota. cbn [mbind option_bind]. rewrite parse_value_space.
    rewrite (Hx (S d)); [|right; right; by eexists|lia].
    cbn [mbind option_bind].
    destruct (expect_close "}" d rest eq_refl eq_refl) as (-> & -> & ->). done.
  - cbn [map fst snd]. rewrite join_step, append_assoc, <- append_assoc.
    rewrite member_text, skip_ws_visible by done.
    cbn [expect]. rewrite Ascii.eqb_refl. cbn [mbind option_bind].
    rewrite string_body_quote. cbn [mbind option_bind].
    rewrite skip_ws_visible by done. cbn [expect]. change (Ascii.eqb ":" ":") with true.
    cbv iota. cbn [mbind option_bind]. rewrite parse_value_space.
    rewrite (Hx (S d)); [|right; left; by eexists|lia].
    cbn [mbind option_bind]. rewrite skip_ws_visible by done.
    cbn [expect]. change (Ascii.eqb "," ",") with true. cbv iota.
    assert (list_sum (map (fun kv : string * json => S (json_size kv.2)) (e :: ents)) <= f)%nat
      as Hf by (simpl in *; lia).
    pose proof (IH ltac:(done) (obj_set k (reparse x) acc) f Hf) as IH'.
    cbn [map fst snd] in IH'. by rewrite IH'.
Qed.

End SerializedValues.

Section ParseStringify.

Lemma serialize_arr_text (x : json) (xs : list json) (d : nat) (rest : string) :
  serialize (JArr (x :: xs)) d ++ rest
  = String "[" (String LF (repeat "  " (S d)
       ++ join ("," ++ String LF (repeat "  " (S d)))
               (map (fun y => serialize y (S d)) (x :: xs))
       ++ String LF (repeat "  " d ++ String "]" rest))).
Proof. rewrite serialize_arr, !append_assoc. reflexivity. Qed.

Lemma serialize_obj_text (e : string * json) (es : list (string * json)) (d : nat)
    (rest : string) :
  serialize (JObj (e :: es)) d ++ rest
  = String "{" (String LF (repeat "  " (S d)
       ++ join ("," ++ String LF (repeat "  " (S d)))
               (map (fun kv : string * json =>
                       quote kv.1 ++ ": " ++ serialize kv.2 (S d)) (e :: es))
       ++ String LF (repeat "  " d ++ String "}" rest))).
Proof. rewrite serialize_obj, !append_assoc. reflexivity. Qed.

Lemma numbers_ok_parses_back (v : json) : numbers_ok v = true -> parses_back v.
Proof.
  induction v as [|b|n|s|items IH|ents IH] using json_ind_nested;
    intros Hv d rest fuel Hr Hfuel; (destruct fuel as [|f]; [cbn in Hfuel; lia|]).
  - reflexivity.
  - by destruct b.
  - cbn [numbers_ok] in Hv. cbn [serialize reparse].
    destruct (isFinite n) eqn:Hf; [|reflexivity].
    destruct (Number_num_toString n Hf Hv) as (_ & Hne & Hch).
    pose proof (parse_number_num_toString n rest Hf Hv Hr) as Hp.
    destruct (num_toString n) as [|c r]; [done|]. cbn [string_forall] in Hch.
    apply andb_true_iff in Hch as [Hc' _]. rewrite append_cons in Hp |- *.
    by rewrite parse_value_number, Hp.
  - cbn [serialize]. unfold quote. rewrite append_cons, append_assoc, append_cons.
    change ("" ++ rest) with rest. by rewrite parse_value_string, string_body_quote.
  - destruct items as [|x xs]; [reflexivity|].
    cbn [numbers_ok] in Hv. pose proof (proj1 (forallb_forall _ _) Hv) as Hv'.
    assert (Forall parses_back (x :: xs)) as Hall.
    { apply Forall_forall. intros y Hy.
      apply (proj1 (Forall_forall _ _) IH y Hy), Hv'. by apply list_elem_of_In. }
    rewrite serialize_arr_text, parse_value_array, skip_ws_line.
    assert (expect "]" (skip_ws (join ("," ++ String LF (repeat "  " (S d)))
                                   (map (fun y => serialize y (S d)) (x :: xs))
                                 ++ String LF (repeat "  " d ++ String "]" rest))) = None)
      as ->.
    { assert (numbers_ok x = true) as Hx by (apply Hv'; by left).
      destruct xs as [|y ys].
      - cbn [map join].
        destruct (serialize_head x (S d) (String LF (repeat "  " d ++ String "]" rest)) Hx)
          as (c & r & -> & Hws & Hc & _).
        rewrite skip_ws_visible by done. cbn [expect]. by rewrite Hc.
      - cbn [map]. rewrite join_step.
        destruct (serialize_head x (S d)
                    (String "," (String LF (repeat "  " (S d)
                       ++ join ("," ++ String LF (repeat "  " (S d)))
                               (serialize y (S d) :: map (fun y => serialize y (S d)) ys)
                       ++ String LF (repeat "  " d ++ String "]" rest)))) Hx)
          as (c & r & -> & Hws & Hc & _).
        rewrite skip_ws_visible by done. cbn [expect]. by rewrite Hc. }
    rewrite (parse_elements_join (x :: xs) d rest Hall ltac:(done) [] f); [done|].
    cbn [json_size] in Hfuel. lia.
  - destruct ents as [|e es]; [reflexivity|].
    cbn [numbers_ok] in Hv. pose proof (proj1 (forallb_forall _ _) Hv) as Hv'.
    assert (Forall (fun kv : string * json => parses_back kv.2) (e :: es)) as Hall.
    { apply Forall_forall. intros y Hy.
      apply (proj1 (Forall_forall _ _) IH y Hy), Hv'. by apply list_elem_of_In. }
    rewrite serialize_obj_text, parse_value_object, skip_ws_line.
    assert (expect "}" (skip_ws (join ("," ++ String LF (repeat "  " (S d)))
                                   (map (fun kv : string * json =>
                                           quote kv.1 ++ ": " ++ serialize kv.2 (S d))
                                        (e :: es))
                                 ++ String LF (repeat "  " d ++ String "}" rest))) = None)
      as ->.
    { destruct es as [|e' es'].
      - cbn [map join]. by rewrite member_text, skip_ws_visible.
      - cbn [map]. by rewrite join_step, append_assoc, <- append_assoc, member_text,
          skip_ws_visible. }
    rewrite (parse_members_join (e :: es) d rest Hall ltac:(done) [] f); [done|].
    cbn [json_size] in Hfuel. lia.
Qed.

Lemma join_length (sep : string) (items : list json) (g : json -> string) :
  (1 <= String.length sep)%nat ->
  Forall (fun x => (json_size x <= String.length (g x))%nat) items ->
  (list_sum (map (fun x => S (json_size x)) items)
   <= S (String.length (join sep (map g items))))%nat.
Proof.
  intros Hsep. induction 1 as [|x items Hx _ IH]; [cbn; lia|].
  destruct items as [|y items].
  - cbn. lia.
  - change (join sep (map g (x :: y :: items)))
      with (g x ++ sep ++ join sep (map g (y :: items))).
    rewrite !length_append. simpl in *. lia.
Qed.


Lemma json_size_length (v : json) (d : nat) :
  numbers_ok v = true -> (json_size v <= String.length (serialize v d))%nat.
Proof.
  revert d. induction v as [|b|n|s|items IH|ents IH] using json_ind_nested; intros d Hv.
  - cbn. lia.
  - destruct b; cbn; lia.
  - cbn [numbers_ok] in Hv. cbn [serialize json_size].
    destruct (isFinite n) eqn:Hf; [|cbn; lia].
    destruct (Number_num_toString n Hf Hv) as (_ & Hne & _).
    destruct (num_toString n); [done|]. cbn [String.length]. lia.
  - cbn. lia.
  - destruct items as [|x xs]; [cbn; lia|].
    cbn [numbers_ok] in Hv. pose proof (proj1 (forallb_forall _ _) Hv) as Hv'.
    assert (Forall (fun y => (json_size y <= String.length (serialize y (S d)))%nat) (x :: xs))
      as Hall.
    { apply Forall_forall. intros y Hy.
      apply (proj1 (Forall_forall _ _) IH y Hy), Hv'. by apply list_elem_of_In. }
    pose proof (join_length ("," ++ String LF (repeat "  " (S d))) (x :: xs)
                  (fun y => serialize y (S d)) ltac:(cbn; lia) Hall) as Hj.
    rewrite serialize_arr, !length_append. cbn [json_size String.length]. lia.
  - destruct ents as [|e es]; [cbn; lia|].
    cbn [numbers_ok] in Hv. pose proof (proj1 (forallb_forall _ _) Hv) as Hv'.
    rewrite serialize_obj, !length_append. cbn [json_size String.length].
    assert (list_sum (map (fun kv : string * json => S (json_size kv.2)) (e :: es))
            <= S (String.length
                    (join ("," ++ String LF (repeat "  " (S d)))
                       (map (fun kv : string * json =>
                               quote kv.1 ++ ": " ++ serialize kv.2 (S d)) (e :: es)))))%nat
      as Hj; [|lia].
    clear Hv. generalize (e :: es) IH Hv'. clear. intros l IH Hv.
    induction l as [|[k x] l IHl]; [cbn; lia|].
    apply Forall_cons in IH as [Hx IH]. cbn [snd] in Hx.
    assert (json_size x <= String.length (serialize x (S d)))%nat as Hx'.
    { apply Hx. apply (Hv (k, x)). by left. }
    assert (forall y, In y l -> numbers_ok y.2 = true) as Hv'' by (intros y Hy; apply Hv; by right).
    specialize (IHl IH Hv'').
    destruct l as [|e' l'].
    + cbn [map join list_sum fst snd]. rewrite !length_append. simpl. lia.
    + change (join ?sep (map ?g ((k, x) :: e' :: l')))
        with (g (k, x) ++ sep ++ join sep (map g (e' :: l'))).
      cbv beta. cbn [fst snd]. rewrite !length_append. simpl in *. lia.
Qed.

(** [JSON.parse] reads the text [JSON.stringify] writes, for every value
    whose finite numbers are in canonical form. *)
Lemma JSON_parse_reparse (v : json) :
  numbers_ok v = true -> JSON_parse (JSON_stringify v) = Some (reparse v).
Proof.
  intros Hv. unfold JSON_parse, JSON_stringify.
  pose proof (numbers_ok_parses_back v Hv 0%nat "" (S (String.length (serialize v 0)))
                ltac:(by left)) as Hp.
  rewrite append_nil_r in Hp. rewrite Hp; [done|].
  pose proof (json_size_length v 0 Hv). lia.
Qed.

Lemma printable_reparse (v : json) :
  printable v = true -> numbers_ok v = true ∧ reparse v = v.
Proof.
  induction v as [|b|n|s|items IH|ents IH] using json_ind_nested; intros Hv; try done.
  - cbn [printable] in Hv. apply andb_true_iff in Hv as [Hf Hc].
    cbn [numbers_ok reparse]. by rewrite Hf.
  - cbn [printable] in Hv. pose proof (proj1 (forallb_forall _ _) Hv) as Hv'.
    assert (Forall (fun y => numbers_ok y = true ∧ reparse y = y) items) as Hall.
    { apply Forall_forall. intros y Hy.
      apply (proj1 (Forall_forall _ _) IH y Hy), Hv'. by apply list_elem_of_In. }
    cbn [numbers_ok reparse]. split.
    + apply forallb_true_Forall. eapply Forall_impl; [exact Hall|]. by intros y [? _].
    + f_equal. clear -Hall. induction Hall as [|y l [_ Hy] _ IHl]; [done|].
      cbn [map]. by rewrite Hy, IHl.
  - cbn [printable] in Hv. apply andb_true_iff in Hv as [[Hv Hnd]%andb_true_iff Hord].
    apply bool_decide_eq_true in Hnd.
    pose proof (proj1 (forallb_forall _ _) Hv) as Hv'.
    assert (Forall (fun kv : string * json => numbers_ok kv.2 = true ∧ reparse kv.2 = kv.2)
                   ents) as Hall.
    { apply Forall_forall. intros y Hy.
      apply (proj1 (Forall_forall _ _) IH y Hy), Hv'. by apply list_elem_of_In. }
    cbn [numbers_ok reparse]. split.
    + apply forallb_true_Forall. eapply Forall_impl; [exact Hall|]. by intros y [? _].
    + f_equal. rewrite <- (fold_obj_set ents []) at 2 by done.
      clear -Hall. generalize ([] : list (string * json)).
      induction Hall as [|y l [_ Hy] _ IHl]; intros acc; [done|].
      cbn [fold_left]. by rewrite Hy, IHl.
Qed.

(** [JSON.parse] reads the text [JSON.stringify] writes for a value. *)
Lemma JSON_parse_stringify (v : json) :
  printable v = true -> JSON_parse (JSON_stringify v) = Some v.
Proof.
  intros Hv. destruct (printable_reparse v Hv) as [Hok Hre].
  by rewrite JSON_parse_reparse, Hre.
Qed.

Lemma codable_printable (v : json) : codable v = true -> printable v = true.
Proof.
  induction v as [|b|n|s|items IH|ents IH] using json_ind_nested; intros Hv; try done.
  - cbn [printable]. apply codable_arr in Hv as [_ Hall].
    apply forallb_true_Forall. apply Forall_forall. intros y Hy.
    apply (proj1 (Forall_forall _ _) IH y Hy). by apply (proj1 (Forall_forall _ _) Hall).
  - cbn [printable]. apply codable_obj in Hv as (_ & Hall & Hnd & Hord).
    rewrite Hord, (bool_decide_eq_true_2 _ Hnd), !andb_true_r.
    apply forallb_true_Forall. apply Forall_forall. intros y Hy.
    apply (proj1 (Forall_forall _ _) IH y Hy).
    by destruct (proj1 (Forall_forall _ _) Hall y Hy).
Qed.

End ParseStringify.

Lemma reparse_depth (v : json) : (depth (reparse v) <= depth v)%nat.
Proof.
  induction v as [|b|n|s|items IH|ents IH] using json_ind_nested; try done.
  - cbn [reparse]. by destruct (isFinite n).
  - cbn [reparse]. change (depth (JArr items)) with (S (max_list (map depth items))).
    apply depth_arr_le. apply Forall_forall. intros e (x & -> & Hx)%list_elem_of_fmap.
    pose proof (proj1 (Forall_forall _ _) IH x Hx) as Hr. cbv beta in Hr.
    assert (depth x <= max_list (map depth items))%nat; [|lia].
    apply max_list_elem_of_le, list_elem_of_fmap. by exists x.
  - cbn [reparse].
    change (depth (JObj ents))
      with (S (max_list (map (fun kv : string * json => depth kv.2) ents))).
    apply depth_obj_le.
    set (d := max_list (map (fun kv : string * json => depth kv.2) ents)).
    assert (Hents : Forall (fun kv : string * json => (depth (reparse kv.2) <= d)%nat) ents).
    { apply Forall_forall. intros kv Hkv.
      pose proof (proj1 (Forall_forall _ _) IH kv Hkv) as Hr. cbv beta in Hr.
      assert (depth kv.2 <= d)%nat; [|lia].
      apply max_list_elem_of_le, list_elem_of_fmap. by exists kv. }
    clear IH. clearbody d.
    assert (G : forall acc, Forall (fun kv : string * json => (depth kv.2 <= d)%nat) acc ->
              Forall (fun kv : string * json => (depth kv.2 <= d)%nat)
                (fold_left (fun obj kv => obj_set kv.1 (reparse kv.2) obj) ents acc)).
    { induction Hents as [|kv l Hkv _ IHl]; intros acc Hacc; [exact Hacc|].
      cbn [fold_left]. apply IHl.
      by apply (obj_set_Forall (fun e => (depth e <= d)%nat)). }
    apply G. constructor.
Qed.

(** ** The errors of the encoder *)




(** ** Through the JSON text *)

(** X13.  The JSON text that [toonToJson] returns can be handed back to
    [jsonToToon] as raw text.  Take a converter made with the default map,
    an array or an object of the round trip whose keys are other than
    [__proto__] and have an entry or are no names of members of
    [Object.prototype], and a stack with room for its depth: decoding the
    encoded text gives a JSON text that parses to the value and that
    encodes, with the same converter, to the same text again. *)
Theorem json_text_encodes_back (stack : nat) (c : ToonConverter) (v : json) :
  default_state c -> codable v = true -> isComplex v = true ->
  Forall (plain_key c) (keys_of v) -> (depth v < stack)%nat ->
  ∃ out c',
    jsonToToon_in stack v c = Returned out c'
    ∧ toonToJson_in stack out c' = Some (JSON_stringify v)
    ∧ JSON_parse (JSON_stringify v) = Some v
    ∧ jsonToToon_in stack (JStr (JSON_stringify v)) c' = Returned out c'
    ∧ jsonToToon_in stack (JStr (JSON_stringify v)) c = Returned out c'.
Proof.
  intros Hc Hcod Hv Hplain Hd. apply default_state_ok in Hc.
  exists (join_lines (render (getTokens (keys_of v) c) v 0)), (getTokens (keys_of v) c).
  pose proof (JSON_parse_stringify v (codable_printable v Hcod)) as Hparse.
  destruct (round_trip_ok stack c v Hc Hcod Hv Hplain Hd) as (Henc & _ & Hdec & _ & Hagain).
  split; [done|]. split; [done|]. split; [done|]. split.
  - rewrite (jsonToToon_in_enough stack _ v) by done.
    rewrite (jsonToToon_parsed _ v) by done. by rewrite Hv, getTokens_again.
  - rewrite (jsonToToon_in_enough stack _ v) by done.
    rewrite (jsonToToon_parsed _ v) by done. by rewrite Hv.
Qed.

Lemma json_text_encodes_back_witness :
  ∃ out c',
    jsonToToon_in 3 (JObj [("name", JStr "Goku"); ("level", JNum (Finite 9000 0))])
                  (constructor [])
    = Returned out c'
    ∧ toonToJson_in 3 out c'
      = Some (JSON_stringify (JObj [("name", JStr "Goku"); ("level", JNum (Finite 9000 0))])).
Proof.
  destruct (json_text_encodes_back 3 (constructor [])
              (JObj [("name", JStr "Goku"); ("level", JNum (Finite 9000 0))]))
    as (out & c' & Henc & Hdec & _);
    [by exists [] | vm_compute; reflexivity | reflexivity
    | repeat constructor; vm_compute; done | vm_compute; lia |].
  exists out, c'. split; [exact Henc | exact Hdec].
Defined.

(** ** The numbers of a decoded value *)

Section DecodedNumbers.

Lemma strip_tens_canonical (k : nat) (m e : Z) :
  e = - Z.of_nat k -> canonical (strip_tens k m e) = true.
Proof.
  revert m e. induction k as [|k IH]; intros m e He.
  - cbn [strip_tens canonical]. by rewrite (proj2 (Z.eqb_eq e 0)) by lia.
  - cbn [strip_tens]. destruct (m mod 10 =? 0) eqn:Em.
    + apply IH. lia.
    + cbn [canonical]. rewrite Em. rewrite (proj2 (Z.ltb_lt e 0)) by lia.
      by rewrite orb_true_r.
Qed.

Lemma normalize_is_canonical (m e : Z) : canonical (normalize m e) = true.
Proof.
  unfold normalize. destruct (0 <=? e) eqn:E; [done|].
  apply strip_tens_canonical. lia.
Qed.

Lemma decimal_literal_canonical (neg : bool) (s : string) :
  canonical (decimal_literal neg s) = true.
Proof.
  unfold decimal_literal. destruct (String.eqb s "Infinity"); [done|].
  destruct (span_digits s) as [ip r1].
  destruct (match r1 with
            | String c r => if Ascii.eqb c "." then span_digits r else ([], r1)
            | EmptyString => ([], r1)
            end) as [fp r2].
  destruct (ip ++ fp)%list; [done|].
  destruct (exponent_part r2); [|done]. apply normalize_is_canonical.
Qed.

Lemma Number_canonical (s : string) : canonical (Number s) = true.
Proof.
  unfold Number. destruct (trim s) as [|c r]; [done|].
  destruct (Ascii.eqb c "-"); [apply decimal_literal_canonical|].
  destruct (Ascii.eqb c "+"); [apply decimal_literal_canonical|].
  destruct (radix_prefix (String c r)) as [[[b digit] h]|];
    [|apply decimal_literal_canonical].
  unfold radix_literal. destruct (all_digits digit h); [|done].
  apply normalize_is_canonical.
Qed.

Lemma parseValue_numbers_ok (val : option string) : numbers_ok (parseValue val) = true.
Proof.
  destruct val as [s|]; [|done]. unfold parseValue.
  destruct (String.eqb (trim s) "yes"); [done|].
  destruct (String.eqb (trim s) "no"); [done|].
  destruct (negb (isNaN (Number (trim s)))); [|done]. apply Number_canonical.
Qed.

Lemma replace_value_numbers_ok (k : string) (v : json) (l l' : list (string * json)) :
  numbers_ok v = true -> numbers_ok (JObj l) = true ->
  replace_value k v l = Some l' -> numbers_ok (JObj l') = true.
Proof.
  intros Hv. revert l'. induction l as [|[k' v'] l IH]; intros l' Hl; [done|].
  cbn [numbers_ok forallb snd] in Hl. apply andb_true_iff in Hl as [Hv' Hl].
  cbn [replace_value]. destruct (String.eqb k' k).
  - intros [= <-]. cbn [numbers_ok forallb snd]. by rewrite Hv, Hl.
  - destruct (replace_value k v l) as [l0|]; [|done]. intros [= <-].
    cbn [numbers_ok forallb snd]. rewrite Hv'. by apply (IH l0).
Qed.

Lemma insert_index_numbers_ok (n : Z) (k : string) (v : json) (l : list (string * json)) :
  numbers_ok v = true -> numbers_ok (JObj l) = true ->
  numbers_ok (JObj (insert_index n k v l)) = true.
Proof.
  intros Hv. induction l as [|[k' v'] l IH]; intros Hl.
  - cbn [insert_index numbers_ok forallb snd]. by rewrite Hv.
  - pose proof Hl as Hl'. cbn [numbers_ok forallb snd] in Hl'.
    apply andb_true_iff in Hl' as [Hv' Hl'].
    cbn [insert_index]. destruct (array_index k') as [n'|].
    + destruct (n' <? n).
      * cbn [numbers_ok forallb snd]. rewrite Hv'. by apply IH.
      * cbn [numbers_ok forallb snd] in *. by rewrite Hv, Hl.
    + cbn [numbers_ok forallb snd] in *. by rewrite Hv, Hl.
Qed.

Lemma obj_set_numbers_ok (k : string) (v : json) (l : list (string * json)) :
  numbers_ok v = true -> numbers_ok (JObj l) = true ->
  numbers_ok (JObj (obj_set k v l)) = true.
Proof.
  intros Hv Hl. unfold obj_set.
  destruct (replace_value k v l) as [l'|] eqn:E; [by apply (replace_value_numbers_ok k v l)|].
  destruct (array_index k); [by apply insert_index_numbers_ok|].
  cbn [numbers_ok] in *. rewrite forallb_app, Hl. cbn [forallb snd]. by rewrite Hv.
Qed.

Lemma mapM_numbers_ok {A} (f : A -> option json) (l : list A) (vs : list json) :
  (forall a v, f a = Some v -> numbers_ok v = true) ->
  mapM f l = Some vs -> numbers_ok (JArr vs) = true.
Proof.
  intros Hf. revert vs. induction l as [|a l IH]; intros vs.
  - by intros [= <-].
  - cbn [mapM]. destruct (f a) as [v|] eqn:Ea; [|done]. cbn [mbind option_bind].
    destruct (mapM f l) as [vs'|]; [|done]. intros [= <-].
    cbn [numbers_ok forallb]. rewrite (Hf a v Ea). by apply IH.
Qed.

Lemma foldl_numbers_ok {A} (g : list (string * json) -> A -> option (list (string * json)))
    (l : list A) (init obj : list (string * json)) :
  (forall b a b', numbers_ok (JObj b) = true -> g b a = Some b' ->
                  numbers_ok (JObj b') = true) ->
  numbers_ok (JObj init) = true ->
  foldl (fun o a => b ← o; g b a) (Some init) l = Some obj ->
  numbers_ok (JObj obj) = true.
Proof.
  intros Hg. revert init. induction l as [|a l IH]; intros init Hinit.
  - by intros [= <-].
  - cbn [foldl mbind option_bind]. destruct (g init a) as [b'|] eqn:Ea.
    + apply IH. by apply (Hg init a).
    + assert (forall l0, foldl (fun o a0 => b ← o; g b a0) None l0 = None) as Hnone
        by (induction l0; [done|by cbn]).
      by rewrite Hnone.
Qed.

Lemma convertNode_numbers_ok (c : ToonConverter) (h : Heap) :
  forall fuel r v, convertNode fuel c h r = Some v -> numbers_ok v = true.
Proof.
  induction fuel as [|f IH]; intros r v; [done|].
  cbn [convertNode]. destruct (h !! r) as [node|]; [|done]. cbn [mbind option_bind].
  destruct (mapM (fun cr => h !! cr) (children node)) as [kids|]; [|done].
  cbn [mbind option_bind].
  destruct (children node) as [|cr cs].
  { intros [= <-]. apply parseValue_numbers_ok. }
  destruct (forallb isArrayItem kids); [|destruct (forallb _ kids)].
  - destruct (mapM _ _) as [vs|] eqn:E; [|done]. intros [= <-].
    refine (mapM_numbers_ok _ _ _ _ E). intros a v Ha. cbv beta in Ha.
    destruct (_ && _); [injection Ha as <-; apply parseValue_numbers_ok|].
    destruct (bool_decide _); [by apply IH in Ha|by injection Ha as <-].
  - destruct (foldl _ _ _) as [obj|] eqn:E; [|done]. intros [= <-].
    refine (foldl_numbers_ok _ _ _ _ _ _ E); [|done]. intros b a b' Hb. cbv beta.
    destruct (_ && _).
    + cbn [mbind option_bind]. intros [= <-]. apply obj_set_numbers_ok; [|done].
      apply parseValue_numbers_ok.
    + destruct (convertNode f c h a.1) as [v0|] eqn:Ev; [|done].
      cbn [mbind option_bind]. intros [= <-]. apply obj_set_numbers_ok; [|done].
      by apply IH in Ev.
  - destruct (foldl _ _ _) as [obj|] eqn:E; [|done]. intros [= <-].
    refine (foldl_numbers_ok _ _ _ _ _ _ E); [|done]. intros b a b' Hb. cbv beta.
    destruct (truthy _); [|by intros [= <-]].
    destruct (bool_decide _).
    + cbn [mbind option_bind]. intros [= <-]. apply obj_set_numbers_ok; [|done].
      apply parseValue_numbers_ok.
    + destruct (convertNode f c h a.1) as [v0|] eqn:Ev; [|done].
      cbn [mbind option_bind]. intros [= <-]. apply obj_set_numbers_ok; [|done].
      by apply IH in Ev.
Qed.

Lemma toonToJson_value_numbers_ok (toonInput : string) (c : ToonConverter) (v : json) :
  toonToJson_value toonInput c = Some v -> numbers_ok v = true.
Proof.
  unfold toonToJson_value. destruct (buildTree toonInput) as [st|]; [|done].
  cbn [mbind option_bind]. unfold convertRoot.
  destruct (st.1 !! rootRef) as [root|]; [|done]. cbn [mbind option_bind].
  destruct (mapM (fun cr => st.1 !! cr) (children root)) as [kids|]; [|done].
  cbn [mbind option_bind]. destruct (forallb isArrayItem kids).
  - destruct (mapM _ _) as [vs|] eqn:E; [|done]. intros [= <-].
    refine (mapM_numbers_ok _ _ _ _ E). intros a v Ha. cbv beta in Ha.
    destruct (bool_decide _); [injection Ha as <-; apply parseValue_numbers_ok|].
    by apply convertNode_numbers_ok in Ha.
  - destruct (foldl _ _ _) as [obj|] eqn:E; [|done]. intros [= <-].
    refine (foldl_numbers_ok _ _ _ _ _ _ E); [|done]. intros b a b' Hb. cbv beta.
    destruct (truthy _); [|by intros [= <-]].
    destruct (bool_decide _).
    + cbn [mbind option_bind]. intros [= <-]. apply obj_set_numbers_ok; [|done].
      apply parseValue_numbers_ok.
    + destruct (convertNode _ c st.1 a.1) as [v0|] eqn:Ev; [|done].
      cbn [mbind option_bind]. intros [= <-]. apply obj_set_numbers_ok; [|done].
      by apply convertNode_numbers_ok in Ev.
Qed.

End DecodedNumbers.

Import ConverterPage.

(** ** The converter page *)

Section PageFacts.

Lemma handleJsonToToon_parsed (stack : nat) (p : Page) (obj : json) :
  JSON_parse (jsonInput p) = Some obj -> (depth obj < stack)%nat ->
  handleJsonToToon stack p
  = if isComplex obj
    then mkPage (jsonInput p)
                (join_lines (render (getTokens (keys_of obj) (converter p)) obj 0))
                (getTokens (keys_of obj) (converter p)) KeyToTokenObject None
    else mkPage (jsonInput p) (scalar_text obj) (converter p) KeyToTokenObject None.
Proof.
  intros Hp Hd. unfold handleJsonToToon.
  rewrite (jsonToToon_in_enough stack (JStr (jsonInput p)) obj) by done.
  rewrite (jsonToToon_parsed (JStr (jsonInput p)) obj) by done.
  by destruct (isComplex obj).
Qed.

Lemma handleJsonToToon_thrown (stack : nat) (p : Page) :
  JSON_parse (jsonInput p) = None ->
  handleJsonToToon stack p
  = mkPage (jsonInput p) (toonInput p) (converter p) (mapping p)
           (Some "Invalid JSON input").
Proof. intros Hp. unfold handleJsonToToon, jsonToToon_in. by rewrite Hp. Qed.

(** However the encoder ends, the handler leaves the converter after
    some calls of [getToken], and it leaves no error only when it has
    stored the mapping. *)
Lemma handleJsonToToon_cases (stack : nat) (p : Page) :
  advances (converter p) (converter (handleJsonToToon stack p))
  ∧ jsonInput (handleJsonToToon stack p) = jsonInput p
  ∧ (error (handleJsonToToon stack p) = None ->
     mapping (handleJsonToToon stack p) = KeyToTokenObject)
  ∧ (error (handleJsonToToon stack p) ≠ None ->
     toonInput (handleJsonToToon stack p) = toonInput p
     ∧ mapping (handleJsonToToon stack p) = mapping p).
Proof.
  unfold handleJsonToToon.
  pose proof (jsonToToon_in_advances stack (JStr (jsonInput p)) (converter p)) as H.
  destruct (jsonToToon_in stack (JStr (jsonInput p)) (converter p)) as [out c'|m|c'];
    cbn; repeat split; try done. apply advances_refl.
Qed.

(** The decoder handler when the decoder returns the text of a value. *)
Lemma handleToonToJson_text (stack : nat) (p : Page) (v : json) :
  toonToJson_in stack (toonInput p) (converter p) = Some (JSON_stringify v) ->
  numbers_ok v = true -> (depth v < stack)%nat ->
  handleToonToJson stack p
  = mkPage (JSON_stringify (reparse v)) (toonInput p) (converter p) KeyToTokenObject None.
Proof.
  intros Ht Hn Hd. unfold handleToonToJson. rewrite Ht.
  rewrite (JSON_parse_reparse v Hn). unfold JSON_stringify_in.
  pose proof (reparse_depth v). by rewrite (proj2 (Nat.ltb_lt _ _)) by lia.
Qed.

(** The decoder handler on a stack with room for the lines of the
    pane. *)
Lemma handleToonToJson_decoded (stack : nat) (p : Page) :
  (S (length (nonblank_lines (toonInput p))) < stack)%nat ->
  ∃ v, toonToJson_value_in stack (toonInput p) (converter p) = Some v
       ∧ handleToonToJson stack p
         = mkPage (JSON_stringify (reparse v)) (toonInput p) (converter p)
                  KeyToTokenObject None.
Proof.
  intros Hs.
  destruct (toonToJson_in_returns stack (toonInput p) (converter p) Hs)
    as (v & Hv & _ & Hd & Ht & Hu).
  exists v. split; [done|]. apply handleToonToJson_text; [done| |done].
  by apply (toonToJson_value_numbers_ok (toonInput p) (converter p)).
Qed.

(** However the decoder ends, the handler leaves the converter and the
    TOON pane as they are, and it leaves no error only when it has stored
    the mapping. *)
Lemma handleToonToJson_cases (stack : nat) (p : Page) :
  converter (handleToonToJson stack p) = converter p
  ∧ toonInput (handleToonToJson stack p) = toonInput p
  ∧ (error (handleToonToJson stack p) = None ->
     mapping (handleToonToJson stack p) = KeyToTokenObject).
Proof.
  unfold handleToonToJson.
  destruct (toonToJson_in stack (toonInput p) (converter p)) as [result|]; [|done].
  destruct (JSON_parse result) as [parsed|]; [|done].
  by destruct (JSON_stringify_in stack parsed).
Qed.

End PageFacts.

(** X14.  The mapping panel shows the dictionary whenever the page shows
    no error: after any sequence of events (typing in either pane,
    clearing it, pressing either button), on any stack, the converter is
    in a state that [getToken] calls reach from the default one, and if no
    error is set the entries of the stored mapping are those of the
    [keyToToken] map of the converter.  (After a [RangeError] the
    dictionary may have grown while the panel still lists the empty
    object of the first render; the error is set then.) *)
Theorem page_shows_dictionary (stack : nat) (events : list Event) :
  default_state (converter (run stack events))
  ∧ (error (run stack events) = None ->
     mapping_entries (run stack events) = keyToToken (converter (run stack events)))
  ∧ error (handleJsonToToon 2
             (mkPage (JSON_stringify (JObj [("a", JArr [JArr [JBool true]])])) ""
                     (constructor []) EmptyObject None))
    = Some STACK_MESSAGE
  ∧ mapping_entries (handleJsonToToon 2
             (mkPage (JSON_stringify (JObj [("a", JArr [JArr [JBool true]])])) ""
                     (constructor []) EmptyObject None))
    ≠ keyToToken (converter (handleJsonToToon 2
             (mkPage (JSON_stringify (JObj [("a", JArr [JArr [JBool true]])])) ""
                     (constructor []) EmptyObject None))).
Proof.
  split; [|split; [|split; [by vm_compute|by vm_compute]]].
  - unfold run. induction events as [|e events IH] using rev_ind; [by exists []|].
    rewrite foldl_snoc. set (p := foldl (step stack) initialPage events) in *.
    destruct e; cbn [step converter]; try done.
    + destruct (handleJsonToToon_cases stack p) as [[ks ->] _].
      by apply default_state_getTokens.
    + by destruct (handleToonToJson_cases stack p) as [-> _].
  - unfold run. induction events as [|e events IH] using rev_ind; [done|].
    rewrite foldl_snoc. set (p := foldl (step stack) initialPage events) in *.
    destruct e; cbn [step]; try exact IH.
    + destruct (handleJsonToToon_cases stack p) as (_ & _ & Hm & _).
      intros He. unfold mapping_entries. by rewrite (Hm He).
    + destruct (handleToonToJson_cases stack p) as (_ & _ & Hm).
      intros He. unfold mapping_entries. by rewrite (Hm He).
Qed.

(** X15.  The button TOON to JSON reports no failure when the stack has
    room for the lines of the TOON pane and no token stands for the key
    [__proto__], as on the page: [handleToonToJson] clears the
    error, leaves the TOON pane and the converter as they are, stores the
    mapping, and fills the JSON pane with the text of the decoded value as
    [JSON.parse] reads it back.  With less room the decoder can be cut
    short, and the page then shows the fixed message. *)
Theorem handleToonToJson_succeeds (stack : nat) (p : Page) :
  no_proto_key (converter p) ->
  (S (length (nonblank_lines (toonInput p))) < stack)%nat ->
  (error (handleToonToJson stack p) = None
   ∧ toonInput (handleToonToJson stack p) = toonInput p
   ∧ converter (handleToonToJson stack p) = converter p
   ∧ mapping (handleToonToJson stack p) = KeyToTokenObject
   ∧ ∃ v, toonToJson_value_in stack (toonInput p) (converter p) = Some v
          ∧ jsonInput (handleToonToJson stack p) = JSON_stringify (reparse v))
  ∧ error (handleToonToJson 1
             (mkPage "" (join_lines ["01:"; "  02:"; "    03: 1"]) (constructor [])
                     EmptyObject None))
    = Some "Failed to parse TOON. Ensure format is correct.".
Proof.
  intros _ Hs. split; [|by vm_compute].
  destruct (handleToonToJson_decoded stack p Hs) as (v & Hv & ->). repeat split. by exists v.
Qed.

Lemma handleToonToJson_succeeds_witness :
  error (handleToonToJson 4 (mkPage "" (join_lines ["01: Goku"; "02: yes"])
                                    (constructor []) EmptyObject None)) = None.
Proof.
  refine (proj1 (proj1 (handleToonToJson_succeeds 4
                          (mkPage "" (join_lines ["01: Goku"; "02: yes"])
                                  (constructor []) EmptyObject None) _ _)));
    [intros token; vm_compute; discriminate | vm_compute; lia].
Defined.

(** X16.  The button JSON to TOON.  When the JSON pane does not hold
    JSON text (a text without backslash that [JSON.parse] rejects), the
    page shows the message of [jsonToToon] and nothing else changes.
    Let the converter be one made with the default map, as the one of the
    page is.  When the pane holds the text of a value that the stack has
    room for, the error is cleared, the JSON pane is kept, the mapping is
    stored, the dictionary has seen the keys of the value, and pressing
    the button again changes nothing.  And whenever the pane holds JSON text, the
    only error the page can show is the [RangeError] of the runtime: then
    the TOON pane and the stored mapping are as before, while the
    dictionary keeps the tokens minted before the error. *)
Theorem handleJsonToToon_page (stack : nat) (p : Page) :
  (indexOf "\" (jsonInput p) = None -> JSON_parse (jsonInput p) = None ->
     handleJsonToToon stack p
     = mkPage (jsonInput p) (toonInput p) (converter p) (mapping p)
              (Some "Invalid JSON input"))
  ∧ (forall obj, default_state (converter p) ->
       JSON_parse (jsonInput p) = Some obj -> (depth obj < stack)%nat ->
       error (handleJsonToToon stack p) = None
       ∧ jsonInput (handleJsonToToon stack p) = jsonInput p
       ∧ mapping (handleJsonToToon stack p) = KeyToTokenObject
       ∧ converter (handleJsonToToon stack p)
         = (if isComplex obj then getTokens (keys_of obj) (converter p) else converter p)
       ∧ handleJsonToToon stack (handleJsonToToon stack p) = handleJsonToToon stack p)
  ∧ (forall obj, default_state (converter p) -> JSON_parse (jsonInput p) = Some obj ->
       error (handleJsonToToon stack p) = None
       ∨ (error (handleJsonToToon stack p) = Some STACK_MESSAGE
          ∧ toonInput (handleJsonToToon stack p) = toonInput p
          ∧ mapping (handleJsonToToon stack p) = mapping p
          ∧ advances (converter p) (converter (handleJsonToToon stack p))))
  ∧ handleJsonToToon 2
      (mkPage (JSON_stringify (JObj [("a", JArr [JArr [JBool true]])])) ""
              (constructor []) EmptyObject None)
    = mkPage (JSON_stringify (JObj [("a", JArr [JArr [JBool true]])])) ""
             (getToken "a" (constructor [])).2 EmptyObject (Some STACK_MESSAGE).
Proof.
  split; [intros _; apply handleJsonToToon_thrown|].
  split; [|split; [|by vm_compute]].
  - intros obj _ Hp Hd. rewrite (handleJsonToToon_parsed stack p obj Hp Hd).
    destruct (isComplex obj) eqn:Hc; cbn [error jsonInput mapping converter];
      repeat split.
    + rewrite (handleJsonToToon_parsed stack (mkPage (jsonInput p) _ _ _ _) obj Hp Hd).
      rewrite Hc. cbn [jsonInput converter]. by rewrite getTokens_again.
    + rewrite (handleJsonToToon_parsed stack (mkPage (jsonInput p) _ _ _ _) obj Hp Hd).
      by rewrite Hc.
  - intros obj _ Hp. destruct (handleJsonToToon_cases stack p) as (Ha & _ & _ & Hk).
    unfold handleJsonToToon in *. unfold jsonToToon_in in *. rewrite Hp in *.
    destruct (process_in stack obj 0 (mkEnc [] (converter p))) as [[r st]|c'].
    + left. by destruct (isComplex obj).
    + right. cbn [error toonInput mapping converter] in *. by destruct Hk.
Qed.


